(** * MovieFlix cache-aside movie service: a shallow embedding

    Sources embedded here:
    - [backend/services/movieService.js]  (class [MovieService], and the
      cleanup job functions that follow it in the same file),
    - [backend/models/Movie.js]           (the Mongoose schema of a movie),
    - the movies router ([searchSchema], [router.get('/')],
      [router.get('/:id')], the two [meta] routes, [router.put('/:id')],
      [router.delete('/:id')] and the two routes that clear the cache),
    - [backend/scripts/seedDb.js]         ([seedMovies]).

    JavaScript values are modelled as follows.  Strings are [string], the
    bytes of the UTF-8 encoding; [trim], [toLowerCase] and the order of
    strings are the built-ins on ASCII text.  Integral numbers are [Z], a
    number that [parseInt] reads being rounded to the nearest double; the
    primary rating, parsed by [parseFloat], is a rational [Q]; [NaN] is
    the [None] of an [option];
    [null]/[undefined] is the [Null] of a [nullable].  Dates are
    milliseconds since the epoch, in [Z].  An operation that the source
    awaits is one step; the reads of a [Promise.all] are taken in the order
    in which the source starts them, and the callbacks that [searchMovies]
    starts at once are resumed in the order the event loop chooses. *)

From Stdlib Require Import List ZArith QArith Bool Lia String Ascii Arith.
From Stdlib Require Import Permutation Sorted.
Import ListNotations.

Local Open Scope string_scope.
Local Open Scope Z_scope.

(** ** Nullable values *)

Inductive nullable (A : Type) : Type :=
| Null : nullable A
| Val : A -> nullable A.
Arguments Null {A}.
Arguments Val {A} _.

(** ** The JavaScript built-ins the service relies on *)

Module JS.

Definition isDigit (c : ascii) : bool :=
  let n := nat_of_ascii c in (48 <=? n)%nat && (n <=? 57)%nat.

Definition digitVal (c : ascii) : Z := Z.of_nat (nat_of_ascii c) - 48.

(** ASCII members of the WhiteSpace and LineTerminator classes. *)
Definition isSpace (c : ascii) : bool :=
  let n := nat_of_ascii c in
  ((9 <=? n)%nat && (n <=? 13)%nat) || (n =? 32)%nat.

Fixpoint takeDigits (s : string) : string :=
  match s with
  | EmptyString => EmptyString
  | String c r => if isDigit c then String c (takeDigits r) else EmptyString
  end.

Fixpoint digitsVal (acc : Z) (s : string) : Z :=
  match s with
  | EmptyString => acc
  | String c r => digitsVal (10 * acc + digitVal c) r
  end.

Definition hexVal (c : ascii) : option Z :=
  let n := nat_of_ascii c in
  if isDigit c then Some (Z.of_nat n - 48)
  else if (97 <=? n)%nat && (n <=? 102)%nat then Some (Z.of_nat n - 87)
  else if (65 <=? n)%nat && (n <=? 70)%nat then Some (Z.of_nat n - 55)
  else None.

Fixpoint hexDigits (acc : option Z) (s : string) : option Z :=
  match s with
  | EmptyString => acc
  | String c r =>
      match hexVal c with
      | Some v =>
          hexDigits (Some (16 * match acc with Some a => a | None => 0 end + v)) r
      | None => acc
      end
  end.

Fixpoint trimStart (s : string) : string :=
  match s with
  | EmptyString => EmptyString
  | String c r => if isSpace c then trimStart r else s
  end.

Definition revString (s : string) : string :=
  string_of_list_ascii (rev (list_ascii_of_string s)).

Definition trimEnd (s : string) : string := revString (trimStart (revString s)).

(** [String.prototype.trim], on ASCII text ([isAscii], below) *)
Definition trim (s : string) : string := trimEnd (trimStart s).

(** [Infinity], as an integer-valued number is held here: every finite
    double is smaller than 2^1024. *)
Definition Infinity : Z := 2 ^ 1024.

(** The number an integer denotes: the nearest double, ties to even.  Up to
    2^53 it is the integer itself; beyond, the integer is rounded to 53
    significant bits, and from 2^1024 - 2^970 on the result is
    [Infinity]. *)
Definition toDouble (n : Z) : Z :=
  let a := Z.abs n in
  if a <? 2 ^ 53 then n
  else
    let e := Z.log2 a - 52 in
    let q := Z.shiftr a e in
    let r := a - Z.shiftl q e in
    let half := Z.shiftl 1 (e - 1) in
    let q' := if ((half <? r) || ((r =? half) && Z.odd q))%bool then q + 1 else q in
    let v := Z.shiftl q' e in
    Z.sgn n * (if Infinity <=? v then Infinity else v).

(** The digits [parseInt] reads, as the integer they write. *)
Definition readMagnitude (s : string) : option Z :=
  match s with
  | String "0" (String x r) =>
      if (Ascii.eqb x "x" || Ascii.eqb x "X")%bool then hexDigits None r
      else Some (digitsVal 0 (takeDigits s))
  | _ =>
      match takeDigits s with
      | EmptyString => None
      | d => Some (digitsVal 0 d)
      end
  end.

(** [parseInt(s)] without a radix: leading blanks, a sign, a [0x] prefix,
    then the longest run of digits, read as a number; [None] is [NaN]. *)
Definition parseMagnitude (s : string) : option Z :=
  option_map toDouble (readMagnitude s).

Definition parseInt (s : string) : option Z :=
  match trimStart s with
  | String "-" r => option_map Z.opp (parseMagnitude r)
  | String "+" r => parseMagnitude r
  | s' => parseMagnitude s'
  end.

(** [s.match(/(\d+)/)]: the capture is the first maximal run of digits. *)
Fixpoint matchDigits (s : string) : option string :=
  match s with
  | EmptyString => None
  | String c r => if isDigit c then Some (takeDigits s) else matchDigits r
  end.

(** [s.match(/(\d+)%/)]: the leftmost match starts at the first maximal run
    of digits that a percent sign follows ([\d+] is greedy and a shorter run
    is followed by a digit), and the capture is that whole run.  [run] is
    the run of digits read so far. *)
Fixpoint scanPercent (run : string) (s : string) : option string :=
  match s with
  | EmptyString => None
  | String c r =>
      if isDigit c then scanPercent (run ++ String c EmptyString) r
      else if (Ascii.eqb c "%" && negb (String.eqb run EmptyString))%bool
           then Some run
           else scanPercent EmptyString r
  end.

Definition matchPercent (s : string) : option string := scanPercent EmptyString s.

(** [s.split(', ')] *)
Fixpoint splitFrom (cur : string) (s : string) : list string :=
  match s with
  | EmptyString => [cur]
  | String c r =>
      match r with
      | String c' r' =>
          if (Ascii.eqb c "," && Ascii.eqb c' " ")%bool
          then cur :: splitFrom EmptyString r'
          else splitFrom (cur ++ String c EmptyString) r
      | EmptyString => [cur ++ String c EmptyString]
      end
  end.

Definition split (s : string) : list string := splitFrom EmptyString s.

(** [s.replace(/,/g, '')] *)
Fixpoint removeCommas (s : string) : string :=
  match s with
  | EmptyString => EmptyString
  | String c r => if Ascii.eqb c "," then removeCommas r else String c (removeCommas r)
  end.

Definition lowerChar (c : ascii) : ascii :=
  let n := nat_of_ascii c in
  if (65 <=? n)%nat && (n <=? 90)%nat then ascii_of_nat (n + 32) else c.

(** Text of ASCII characters.  A string is held as the bytes of its UTF-8
    encoding; on ASCII text a byte is a character, the order of the bytes
    is the order of the characters, and [trim] and [toLowerCase] are the
    built-ins themselves.  Outside of it they leave alone the blanks and
    the capital letters that are not ASCII, which the built-ins do not. *)
Definition isAscii (s : string) : bool :=
  forallb (fun c => (nat_of_ascii c <? 128)%nat) (list_ascii_of_string s).

(** [s.length], the number of UTF-16 code units: a byte that continues a
    character counts for nothing, the first byte of a character beyond
    U+FFFF for the two units of its surrogate pair. *)
Fixpoint length (s : string) : nat :=
  match s with
  | EmptyString => 0
  | String c r =>
      let n := nat_of_ascii c in
      ((if (128 <=? n) && (n <? 192) then 0 else if 240 <=? n then 2 else 1)
       + length r)%nat
  end.

(** [s.toLowerCase()], on ASCII text *)
Fixpoint toLowerCase (s : string) : string :=
  match s with
  | EmptyString => EmptyString
  | String c r => String (lowerChar c) (toLowerCase r)
  end.

(** [Math.ceil(a / b)] on integers; [None] stands for the [NaN] or
    [Infinity] of a division by zero. *)
Definition ceilDiv (a b : Z) : option Z :=
  if b =? 0 then None else Some (- ((- a) / b)).

(** The same where [a] is a number that [parseInt] has read, which may be
    [Infinity]: an infinite quotient is its own ceiling. *)
Definition ceilDivNumber (a b : Z) : option Z :=
  if Z.abs a =? Infinity then Some (if b <? 0 then - a else a) else ceilDiv a b.

End JS.

(** ** The provider's raw record (an OMDb detail response) *)

Module OMDB.

Record RatingEntry : Type := {
  Source : string;
  Value : string
}.

Record Movie : Type := {
  imdbID : string;
  Title : string;
  Year : string;
  Released : string;
  Runtime : string;
  Genre : string;
  Director : string;
  Writer : string;
  Actors : string;
  Plot : string;
  Language : string;
  Country : string;
  imdbRating : string;
  imdbVotes : string;
  Ratings : option (list RatingEntry);   (* [None]: absent or not an array *)
  Poster : string;
  Rated : string;
  Type_ : string                          (* the empty string stands for an absent [Type] *)
}.

(** One entry of the [Search] array of a search response. *)
Record SearchItem : Type := {
  s_imdbID : string;
  s_Title : string
}.

(** The body of a search response. *)
Record SearchResponse : Type := {
  sr_Response : string;
  sr_Search : option (list SearchItem);
  sr_totalResults : string;
  sr_Error : string
}.

(** The body of a detail response. *)
Record DetailResponse : Type := {
  dr_Response : string;
  dr_Error : string;                      (* the empty string stands for an absent [Error] *)
  dr_data : Movie
}.

End OMDB.

(** The outcome of an [axios.get]: a rejection with its message, or a body. *)
Inductive HttpResult (A : Type) : Type :=
| HttpFail : string -> HttpResult A
| HttpOk : A -> HttpResult A.
Arguments HttpFail {A} _.
Arguments HttpOk {A} _.

(** ** The normalized record ([transformOMDBData]'s result) *)

(** A JavaScript number that may be [NaN]. *)
Definition number (A : Type) : Type := option A.

Record ScoreOnly : Type := {
  score : nullable (number Z)
}.

Record ImdbRating : Type := {
  imdb_score : nullable (number Q);
  imdb_votes : nullable (number Z)
}.

Record Rating : Type := {
  imdb : ImdbRating;
  rottenTomatoes : ScoreOnly;
  metacritic : ScoreOnly
}.

Record MovieData : Type := {
  imdbID : string;
  title : string;
  year : nullable Z;
  released : nullable (number Z);         (* a [Date]; [Val None] is Invalid Date *)
  runtime : nullable (number Z);
  genre : list string;
  director : list string;
  writer : list string;
  actors : list string;
  plot : string;
  language : list string;
  country : list string;
  rating : Rating;
  poster : nullable string;
  rated : nullable string;
  type : string;
  links_imdb : string;
  source : string
}.

(** ** What the service takes from its surroundings

    - [parseFloat] and [parseDate] ([new Date(string)]) are the host's;
    - [maxYear] is [new Date().getFullYear() + 5], read when the schema is
      loaded;
    - [omdbApiKey] is [process.env.OMDB_API_KEY];
    - [httpSearch] and [httpDetail] are the provider: what the k-th HTTP
      request of the process answers ([k] lets the provider's answers vary
      over time);
    - [dbFault k] tells whether the k-th store operation is rejected (lost
      connection and the like);
    - [textScore term title plot] is the store's text index over [title]
      and [plot]: the relevance of a document for [term], 0 when the
      document does not match;
    - [resumes r k awaits] is the event loop: which of the callbacks that
      [searchMovies] has started at once is resumed next, that is, whose
      awaited operation completes first.  [awaits] gives, for every callback
      of the batch in order, the number of suspensions it still has
      before it (0 when it has settled); [r] and [k] are the numbers of
      requests sent and of store operations issued so far, so that the
      choice may differ from one batch to the next.  The answer is a
      position in [awaits]; when it does not name a suspended callback, the
      first suspended one is resumed. *)
Record Env : Type := {
  parseFloat : string -> number Q;
  parseDate : string -> number Z;
  maxYear : Z;
  omdbApiKey : option string;
  httpSearch : nat -> string -> Z -> HttpResult OMDB.SearchResponse;
  httpDetail : nat -> string -> HttpResult OMDB.DetailResponse;
  dbFault : nat -> bool;
  textScore : string -> string -> string -> nat;
  resumes : nat -> nat -> list nat -> nat
}.

(** ** Normalization: [parseRuntime], [extractRating], [transformOMDBData] *)

Definition NA : string := "N/A".

(** [s !== 'N/A'] *)
Definition notNA (s : string) : bool := negb (String.eqb s NA).

(** [parseRuntime(runtimeStr)] *)
Definition parseRuntime (runtimeStr : string) : nullable (number Z) :=
  if (String.eqb runtimeStr "" || String.eqb runtimeStr NA)%bool then Null
  else match JS.matchDigits runtimeStr with
       | Some d => Val (JS.parseInt d)
       | None => Null
       end.

(** [extractRating(ratings, source)] *)
Definition extractRating (ratings : option (list OMDB.RatingEntry)) (source : string)
  : ScoreOnly :=
  match ratings with
  | None => {| score := Null |}
  | Some rs =>
      match find (fun r => String.eqb (OMDB.Source r) source) rs with
      | None => {| score := Null |}
      | Some r =>
          if String.eqb source "Rotten Tomatoes" then
            match JS.matchPercent (OMDB.Value r) with
            | Some d => {| score := Val (JS.parseInt d) |}
            | None => {| score := Null |}
            end
          else if String.eqb source "Metacritic" then
            match JS.matchDigits (OMDB.Value r) with
            | Some d => {| score := Val (JS.parseInt d) |}
            | None => {| score := Null |}
            end
          else {| score := Null |}
      end
  end.

(** [parseInt(x) || null]: [NaN] and 0 are falsy. *)
Definition intOrNull (x : number Z) : nullable Z :=
  match x with
  | Some n => if n =? 0 then Null else Val n
  | None => Null
  end.

Section Normalization.

Variable E : Env.

(** [transformOMDBData(omdbMovie)] *)
Definition transformOMDBData (omdbMovie : OMDB.Movie) : MovieData := {|
  imdbID := OMDB.imdbID omdbMovie;
  title := OMDB.Title omdbMovie;
  year := intOrNull (JS.parseInt (OMDB.Year omdbMovie));
  released := if notNA (OMDB.Released omdbMovie)
              then Val (parseDate E (OMDB.Released omdbMovie)) else Null;
  runtime := parseRuntime (OMDB.Runtime omdbMovie);
  genre := if notNA (OMDB.Genre omdbMovie) then JS.split (OMDB.Genre omdbMovie) else [];
  director := if notNA (OMDB.Director omdbMovie)
              then JS.split (OMDB.Director omdbMovie) else [];
  writer := if notNA (OMDB.Writer omdbMovie) then JS.split (OMDB.Writer omdbMovie) else [];
  actors := if notNA (OMDB.Actors omdbMovie) then JS.split (OMDB.Actors omdbMovie) else [];
  plot := if notNA (OMDB.Plot omdbMovie) then OMDB.Plot omdbMovie else "";
  language := if notNA (OMDB.Language omdbMovie)
              then JS.split (OMDB.Language omdbMovie) else [];
  country := if notNA (OMDB.Country omdbMovie)
             then JS.split (OMDB.Country omdbMovie) else [];
  rating := {|
    imdb := {|
      imdb_score := if notNA (OMDB.imdbRating omdbMovie)
                    then Val (parseFloat E (OMDB.imdbRating omdbMovie)) else Null;
      imdb_votes := if notNA (OMDB.imdbVotes omdbMovie)
                    then Val (JS.parseInt (JS.removeCommas (OMDB.imdbVotes omdbMovie)))
                    else Null
    |};
    rottenTomatoes := extractRating (OMDB.Ratings omdbMovie) "Rotten Tomatoes";
    metacritic := extractRating (OMDB.Ratings omdbMovie) "Metacritic"
  |};
  poster := if notNA (OMDB.Poster omdbMovie) then Val (OMDB.Poster omdbMovie) else Null;
  rated := if notNA (OMDB.Rated omdbMovie) then Val (OMDB.Rated omdbMovie) else Null;
  type := if String.eqb (OMDB.Type_ omdbMovie) "" then "movie" else OMDB.Type_ omdbMovie;
  links_imdb := "https://www.imdb.com/title/" ++ OMDB.imdbID omdbMovie ++ "/";
  source := "omdb"
|}.

End Normalization.

(** ** The stored document ([models/Movie.js]) *)

Record MovieDoc : Type := {
  data : MovieData;                 (* the paths [transformOMDBData] fills *)
  tmdbID : nullable string;
  images : list string;
  cacheExpiry : nullable Z;
  lastUpdated : Z;
  createdAt : Z;                    (* [timestamps: true] *)
  updatedAt : Z
}.

(** [24 * 60 * 60 * 1000] *)
Definition TTL : Z := 24 * 60 * 60 * 1000.

(** The schema's setters: every path declared with [trim: true]. *)
Definition trimNullable (x : nullable string) : nullable string :=
  match x with Null => Null | Val s => Val (JS.trim s) end.

Definition castData (m : MovieData) : MovieData := {|
  imdbID := imdbID m;
  title := JS.trim (title m);
  year := year m;
  released := released m;
  runtime := runtime m;
  genre := map JS.trim (genre m);
  director := map JS.trim (director m);
  writer := map JS.trim (writer m);
  actors := map JS.trim (actors m);
  plot := JS.trim (plot m);
  language := map JS.trim (language m);
  country := map JS.trim (country m);
  rating := rating m;
  poster := trimNullable (poster m);
  rated := trimNullable (rated m);
  type := type m;
  links_imdb := links_imdb m;
  source := source m
|}.

(** The schema's validators, run by [save].  [NaN] and Invalid Date do not
    cast to a Number or a Date path. *)
Definition Qin (lo hi : Q) (q : Q) : bool := (Qle_bool lo q && Qle_bool q hi)%bool.

Definition validInt (lo : Z) (hi : option Z) (x : nullable (number Z)) : bool :=
  match x with
  | Null => true
  | Val None => false
  | Val (Some n) => (lo <=? n) && match hi with Some h => n <=? h | None => true end
  end.

Definition validScore (x : nullable (number Q)) : bool :=
  match x with
  | Null => true
  | Val None => false
  | Val (Some q) => Qin (0 # 1) (10 # 1) q
  end.

Definition validDate (x : nullable (number Z)) : bool :=
  match x with Val None => false | _ => true end.

Definition validYear (maxY : Z) (x : nullable Z) : bool :=
  match x with
  | Null => false                                       (* required *)
  | Val y => (1888 <=? y) && (y <=? maxY)
  end.

Definition validate (E : Env) (m : MovieData) : bool :=
  (negb (String.eqb (imdbID m) ""))                     (* required *)
  && negb (String.eqb (title m) "")                     (* required *)
  && validYear (maxYear E) (year m)
  && validDate (released m)
  && validInt 1 None (runtime m)
  && validScore (imdb_score (imdb (rating m)))
  && validInt 0 None (imdb_votes (imdb (rating m)))
  && validInt 0 (Some 100) (score (rottenTomatoes (rating m)))
  && validInt 0 (Some 100) (score (metacritic (rating m)))
  && existsb (String.eqb (type m)) ["movie"; "series"; "episode"]
  && existsb (String.eqb (source m)) ["omdb"; "tmdb"].

(** ** The process state and the monad of the service's effects

    [store] is the movies collection, in insertion order; [now] is the
    clock; [dbOps] counts the store operations issued so far and [apiLog]
    records the HTTP requests sent to the provider. *)

Inductive ApiCall : Type :=
| SearchCall (term : string) (page : Z)
| DetailCall (imdbId : string).

Record World : Type := {
  store : list MovieDoc;
  now : Z;
  dbOps : nat;
  apiLog : list ApiCall
}.

Definition withStore (w : World) (s : list MovieDoc) : World :=
  {| store := s; now := now w; dbOps := dbOps w; apiLog := apiLog w |}.

Definition withNow (w : World) (t : Z) : World :=
  {| store := store w; now := t; dbOps := dbOps w; apiLog := apiLog w |}.

(** What an [async] function settles to: a returned value or a thrown
    [Error] with its message. *)
Inductive Outcome (A : Type) : Type :=
| Threw : string -> Outcome A
| Ret : A -> Outcome A.
Arguments Threw {A} _.
Arguments Ret {A} _.

Definition M (A : Type) : Type := World -> Outcome A * World.

Definition ret {A} (a : A) : M A := fun w => (Ret a, w).

Definition throw {A} (msg : string) : M A := fun w => (Threw msg, w).

Definition bind {A B} (c : M A) (k : A -> M B) : M B :=
  fun w => match c w with
           | (Ret a, w') => k a w'
           | (Threw e, w') => (Threw e, w')
           end.

(** [try { c } catch (error) { h error.message }] *)
Definition try_catch {A} (c : M A) (h : string -> M A) : M A :=
  fun w => match c w with
           | (Ret a, w') => (Ret a, w')
           | (Threw e, w') => h e w'
           end.

Declare Scope js_scope.
Delimit Scope js_scope with js.
Notation "x <- c ;; k" := (bind c (fun x => k))
  (at level 61, c at next level, right associativity) : js_scope.
Notation "c ;;; k" := (bind c (fun _ => k))
  (at level 61, right associativity) : js_scope.

(** [new Date()] / [Date.now()] *)
Definition getNow : M Z := fun w => (Ret (now w), w).

(** ** Stable sorting

    [Array.prototype.sort] is stable.  The store promises no order among
    documents with equal sort keys; its sort is run here as a stable sort
    over the collection's order, and where the store's order is compared
    with another the statement is made of every answer the store may give
    ([storeAnswer]). *)
Fixpoint insertBy {A} (le : A -> A -> bool) (x : A) (l : list A) : list A :=
  match l with
  | [] => [x]
  | y :: r => if le x y then x :: l else y :: insertBy le x r
  end.

Fixpoint sortBy {A} (le : A -> A -> bool) (l : list A) : list A :=
  match l with
  | [] => []
  | x :: r => insertBy le x (sortBy le r)
  end.

(** ** The store's query language

    Only the operators the source writes.  An operator object such as
    [{ $lt: a, $gt: b }] holds when every operator in it holds for the
    field; a comparison with a number or a date never matches a [null]
    field. *)

Record Ops (A : Type) : Type := {
  op_gt : option A;
  op_gte : option A;
  op_lt : option A;
  op_lte : option A
}.
Arguments op_gt {A} _.
Arguments op_gte {A} _.
Arguments op_lt {A} _.
Arguments op_lte {A} _.

Inductive Cond (A : Type) : Type :=
| Equals : A -> Cond A                    (* [path: value] *)
| Operators : Ops A -> Cond A.            (* [path: { $op: value, ... }] *)
Arguments Equals {A} _.
Arguments Operators {A} _.

Inductive GenreCond : Type :=
| In_ : list string -> GenreCond          (* [$in] *)
| Nin : list string -> GenreCond.         (* [$nin] *)

Record Query : Type := {
  q_imdbID : option string;               (* [imdbID: value] *)
  q_text : option string;                 (* [$text: { $search }] *)
  q_cacheExpiry : option (Cond Z);
  q_genre : option GenreCond;
  q_year : option (Cond Z);
  q_score : option (Cond Q);              (* ['rating.imdb.score'] *)
  q_createdAt : option (Cond Z)
}.

Definition noOps {A} : Ops A :=
  {| op_gt := None; op_gte := None; op_lt := None; op_lte := None |}.

(** [{ ...c }] for a path that is [undefined] or holds an operator object *)
Definition spread {A} (c : option (Cond A)) : Ops A :=
  match c with
  | Some (Operators o) => o
  | _ => noOps
  end.

Definition setGt {A} (o : Ops A) (v : A) : Ops A :=
  {| op_gt := Some v; op_gte := op_gte o; op_lt := op_lt o; op_lte := op_lte o |}.
Definition setGte {A} (o : Ops A) (v : A) : Ops A :=
  {| op_gt := op_gt o; op_gte := Some v; op_lt := op_lt o; op_lte := op_lte o |}.
Definition setLt {A} (o : Ops A) (v : A) : Ops A :=
  {| op_gt := op_gt o; op_gte := op_gte o; op_lt := Some v; op_lte := op_lte o |}.
Definition setLte {A} (o : Ops A) (v : A) : Ops A :=
  {| op_gt := op_gt o; op_gte := op_gte o; op_lt := op_lt o; op_lte := Some v |}.

Definition isGt (c : comparison) : bool := match c with Gt => true | _ => false end.
Definition isLt (c : comparison) : bool := match c with Lt => true | _ => false end.
Definition isEq (c : comparison) : bool := match c with Eq => true | _ => false end.

Definition holdsIf {A} (o : option A) (p : A -> bool) : bool :=
  match o with Some a => p a | None => true end.

Definition opsHold {A} (cmp : A -> A -> comparison) (o : Ops A) (v : A) : bool :=
  holdsIf (op_gt o) (fun a => isGt (cmp v a))
  && holdsIf (op_gte o) (fun a => negb (isLt (cmp v a)))
  && holdsIf (op_lt o) (fun a => isLt (cmp v a))
  && holdsIf (op_lte o) (fun a => negb (isGt (cmp v a))).

Definition hasOp {A} (o : Ops A) : bool :=
  match op_gt o, op_gte o, op_lt o, op_lte o with
  | None, None, None, None => false
  | _, _, _, _ => true
  end.

Definition condHolds {A} (cmp : A -> A -> comparison) (c : Cond A) (field : nullable A)
  : bool :=
  match field with
  | Null => false
  | Val v =>
      match c with
      | Equals a => isEq (cmp v a)
      | Operators o => hasOp o && opsHold cmp o v
      end
  end.

Definition mem (s : string) (l : list string) : bool := existsb (String.eqb s) l.

(** On an array path, [$in] holds when some element is listed and [$nin]
    when none is. *)
Definition genreHolds (c : GenreCond) (gs : list string) : bool :=
  match c with
  | In_ l => existsb (fun g => mem g l) gs
  | Nin l => negb (existsb (fun g => mem g l) gs)
  end.

(** A number path as the store compares it.  The validators keep [NaN] out
    of the store; a [NaN] is read here as a missing value. *)
Definition stored {A} (x : nullable (number A)) : nullable A :=
  match x with
  | Val (Some a) => Val a
  | _ => Null
  end.

Definition docScore (d : MovieDoc) : nullable Q := stored (imdb_score (imdb (rating (data d)))).
Definition docRuntime (d : MovieDoc) : nullable Z := stored (runtime (data d)).

Definition textMatches (E : Env) (term : string) (d : MovieDoc) : bool :=
  (0 <? textScore E term (title (data d)) (plot (data d)))%nat.

Definition matches (E : Env) (q : Query) (d : MovieDoc) : bool :=
  holdsIf (q_imdbID q) (fun id => String.eqb (imdbID (data d)) id)
  && holdsIf (q_text q) (fun term => textMatches E term d)
  && holdsIf (q_cacheExpiry q) (fun c => condHolds Z.compare c (cacheExpiry d))
  && holdsIf (q_genre q) (fun c => genreHolds c (genre (data d)))
  && holdsIf (q_year q) (fun c => condHolds Z.compare c (year (data d)))
  && holdsIf (q_score q) (fun c => condHolds Qcompare c (docScore d))
  && holdsIf (q_createdAt q) (fun c => condHolds Z.compare c (Val (createdAt d))).

(** The sort documents of the source. *)
Inductive SortKey : Type :=
| ByTitle | ByYear | ByScore | ByRuntime | ByCreatedAt.

Inductive SortSpec : Type :=
| TextScore : string -> SortSpec                 (* [{ score: { $meta: 'textScore' } }] *)
| Field : SortKey -> Z -> SortSpec.              (* [{ path: 1 }] or [{ path: -1 }] *)

(** The store's order on a path: [null] sorts before every value. *)
Definition cmpNullable {A} (cmp : A -> A -> comparison) (a b : nullable A) : comparison :=
  match a, b with
  | Null, Null => Eq
  | Null, Val _ => Lt
  | Val _, Null => Gt
  | Val x, Val y => cmp x y
  end.

Definition cmpKey (k : SortKey) (a b : MovieDoc) : comparison :=
  match k with
  | ByTitle => String.compare (title (data a)) (title (data b))
  | ByYear => cmpNullable Z.compare (year (data a)) (year (data b))
  | ByScore => cmpNullable Qcompare (docScore a) (docScore b)
  | ByRuntime => cmpNullable Z.compare (docRuntime a) (docRuntime b)
  | ByCreatedAt => Z.compare (createdAt a) (createdAt b)
  end.

Definition sortLe (E : Env) (s : SortSpec) (a b : MovieDoc) : bool :=
  match s with
  | TextScore term =>
      (textScore E term (title (data b)) (plot (data b))
       <=? textScore E term (title (data a)) (plot (data a)))%nat
  | Field k dir =>
      if dir <? 0 then negb (isGt (cmpKey k b a)) else negb (isGt (cmpKey k a b))
  end.

(** [Movie.find(query).sort(sort)], before [skip] and [limit]; documents
    with equal keys come in the collection's order. *)
Definition findSorted (E : Env) (q : Query) (s : SortSpec) (docs : list MovieDoc)
  : list MovieDoc :=
  sortBy (sortLe E s) (filter (matches E q) docs).

(** [.limit(n)]: 0 means no limit. *)
Definition applyLimit {A} (n : Z) (l : list A) : list A :=
  if n =? 0 then l else firstn (Z.to_nat (Z.abs n)) l.

(** ** Store operations (Mongoose) *)

Section Service.

Variable E : Env.

Definition tick (w : World) : World :=
  {| store := store w; now := now w; dbOps := S (dbOps w); apiLog := apiLog w |}.

(** One round trip to the store: rejected when the store is at fault,
    otherwise [f] reads and rewrites the collection. *)
Definition dbOp {A} (f : list MovieDoc -> A * list MovieDoc) : M A :=
  fun w =>
    if dbFault E (dbOps w) then (Threw "store operation failed", tick w)
    else let '(a, s) := f (store w) in (Ret a, withStore (tick w) s).

Fixpoint findIndex {A} (p : A -> bool) (l : list A) (i : nat) : option (nat * A) :=
  match l with
  | [] => None
  | x :: r => if p x then Some (i, x) else findIndex p r (S i)
  end.

Fixpoint replaceAt {A} (i : nat) (x : A) (l : list A) : list A :=
  match l, i with
  | [], _ => []
  | _ :: r, O => x :: r
  | y :: r, S j => y :: replaceAt j x r
  end.

Fixpoint removeAt {A} (i : nat) (l : list A) : list A :=
  match l, i with
  | [], _ => []
  | _ :: r, O => r
  | y :: r, S j => y :: removeAt j r
  end.

Definition hasId (id : string) (d : MovieDoc) : bool := String.eqb (imdbID (data d)) id.

(** [Movie.findOne(query)]: the document with the place it lives at (the
    handle a later [save] writes through). *)
Definition Movie_findOne (q : Query) : M (option (nat * MovieDoc)) :=
  dbOp (fun s => (findIndex (matches E q) s 0, s)).

(** [Movie.countDocuments(query)] *)
Definition Movie_countDocuments (q : Query) : M Z :=
  dbOp (fun s => (Z.of_nat (List.length (filter (matches E q) s)), s)).

(** [Movie.deleteMany(query)], giving [deletedCount] *)
Definition Movie_deleteMany (q : Query) : M Z :=
  dbOp (fun s => (Z.of_nat (List.length (filter (matches E q) s)),
                  filter (fun d => negb (matches E q d)) s)).

(** [Movie.find(query).sort(sort).skip(skip).limit(limit).lean()]; the
    store refuses a negative [skip]. *)
Definition Movie_find (q : Query) (s : SortSpec) (skip limit : Z) : M (list MovieDoc) :=
  if skip <? 0 then
    bind (dbOp (fun docs => (tt, docs))) (fun _ => throw "Skip value must be non-negative")
  else
    dbOp (fun docs =>
            (applyLimit limit (skipn (Z.to_nat skip) (findSorted E q s docs)), docs)).

(** [new Movie(movieData)] at time [t]: the setters cast the payload and the
    defaults fill [cacheExpiry] and [lastUpdated]; the timestamps are the
    ones the first [save], issued right after, writes. *)
Definition freshDoc (t : Z) (movieData : MovieData) : MovieDoc :=
  {| data := castData movieData; tmdbID := Null; images := [];
     cacheExpiry := Val (t + TTL); lastUpdated := t;
     createdAt := t; updatedAt := t |}.

Definition newMovie (movieData : MovieData) : M MovieDoc :=
  (t <- getNow ;; ret (freshDoc t movieData))%js.

(** [Object.assign(doc, movieData)]: every path of the payload is set,
    through the setters. *)
Definition assign (doc : MovieDoc) (movieData : MovieData) : MovieDoc :=
  {| data := castData movieData; tmdbID := tmdbID doc; images := images doc;
     cacheExpiry := cacheExpiry doc; lastUpdated := lastUpdated doc;
     createdAt := createdAt doc; updatedAt := updatedAt doc |}.

Definition setExpiry (doc : MovieDoc) (e : Z) (t : Z) : MovieDoc :=
  {| data := data doc; tmdbID := tmdbID doc; images := images doc;
     cacheExpiry := Val e; lastUpdated := t;
     createdAt := createdAt doc; updatedAt := updatedAt doc |}.

Definition touch (doc : MovieDoc) (t : Z) : MovieDoc :=
  {| data := data doc; tmdbID := tmdbID doc; images := images doc;
     cacheExpiry := cacheExpiry doc; lastUpdated := lastUpdated doc;
     createdAt := createdAt doc; updatedAt := t |}.

(** [movie.save()] of a new document: validation, then an insert under the
    unique index on [imdbID]. *)
Definition save_new (doc : MovieDoc) : M MovieDoc :=
  if negb (validate E (data doc)) then throw "Movie validation failed"
  else
    (ok <- dbOp (fun s => if existsb (hasId (imdbID (data doc))) s
                          then (false, s) else (true, (s ++ [doc])%list)) ;;
     if ok : bool then ret doc else throw "E11000 duplicate key error")%js.

(** [existingMovie.save()]: validation, then the document is rewritten in
    place, still under the unique index.  The validators are run on the
    whole document: Mongoose runs them on the required and the modified
    paths, and an unmodified path holds a value that passed them at an
    earlier save. *)
Definition save_existing (pos : nat) (doc : MovieDoc) : M MovieDoc :=
  if negb (validate E (data doc)) then throw "Movie validation failed"
  else
    (t <- getNow ;;
     let doc' := touch doc t in
     ok <- dbOp (fun s => if existsb (hasId (imdbID (data doc))) (removeAt pos s)
                          then (false, s) else (true, replaceAt pos doc' s)) ;;
     if ok : bool then ret doc' else throw "E11000 duplicate key error")%js.

(** ** The provider (axios) *)

Definition logCall (c : ApiCall) (w : World) : World :=
  {| store := store w; now := now w; dbOps := dbOps w; apiLog := (apiLog w ++ [c])%list |}.

Definition axiosSearch (term : string) (page : Z) : M OMDB.SearchResponse :=
  fun w =>
    match httpSearch E (List.length (apiLog w)) term page with
    | HttpFail msg => (Threw msg, logCall (SearchCall term page) w)
    | HttpOk body => (Ret body, logCall (SearchCall term page) w)
    end.

Definition axiosDetail (imdbId : string) : M OMDB.DetailResponse :=
  fun w =>
    match httpDetail E (List.length (apiLog w)) imdbId with
    | HttpFail msg => (Threw msg, logCall (DetailCall imdbId) w)
    | HttpOk body => (Ret body, logCall (DetailCall imdbId) w)
    end.

(** [!this.omdbApiKey] *)
Definition keyMissing : bool :=
  match omdbApiKey E with
  | None => true
  | Some k => String.eqb k ""
  end.

Record ApiResults : Type := {
  a_movies : list OMDB.SearchItem;
  a_totalResults : Z;
  a_error : option string;
  a_page : option Z
}.

(** [searchMoviesOMDB(searchTerm, page)] *)
Definition searchMoviesOMDB (searchTerm : string) (page : Z) : M ApiResults :=
  try_catch
    (if keyMissing then throw "OMDB API key not configured"
     else
       (response <- axiosSearch searchTerm page ;;
        if String.eqb (OMDB.sr_Response response) "False" then
          ret {| a_movies := []; a_totalResults := 0;
                 a_error := Some (OMDB.sr_Error response); a_page := None |}
        else
          ret {| a_movies := match OMDB.sr_Search response with
                             | Some l => l
                             | None => []
                             end;
                 a_totalResults :=
                   match intOrNull (JS.parseInt (OMDB.sr_totalResults response)) with
                   | Val n => n
                   | Null => 0
                   end;
                 a_error := None; a_page := Some page |})%js)
    (fun message => throw ("Failed to search movies: " ++ message)).

(** [getMovieDetailsOMDB(imdbId)] *)
Definition getMovieDetailsOMDB (imdbId : string) : M MovieData :=
  try_catch
    (if keyMissing then throw "OMDB API key not configured"
     else
       (response <- axiosDetail imdbId ;;
        if String.eqb (OMDB.dr_Response response) "False" then
          throw (if String.eqb (OMDB.dr_Error response) "" then "Movie not found"
                 else OMDB.dr_Error response)
        else ret (transformOMDBData E (OMDB.dr_data response)))%js)
    (fun message => throw ("Failed to fetch movie details: " ++ message)).

(** ** [MovieService]: persistence and search *)

(** [{ imdbID: id }] *)
Definition idQuery (id : string) : Query :=
  {| q_imdbID := Some id; q_text := None; q_cacheExpiry := None;
     q_genre := None; q_year := None; q_score := None; q_createdAt := None |}.

(** [saveMovieToCache(movieData)] *)
Definition saveMovieToCache (movieData : MovieData) : M MovieDoc :=
  try_catch
    (existingMovie <- Movie_findOne (idQuery (imdbID movieData)) ;;
     match existingMovie with
     | Some (pos, existing) =>
         (* [Object.assign], then [cacheExpiry] and [lastUpdated] *)
         t <- getNow ;;
         save_existing pos (setExpiry (assign existing movieData) (t + TTL) t)
     | None =>
         movie <- newMovie movieData ;;
         save_new movie
     end)%js
    (fun _ => throw "Failed to save movie to database").

(** What a caller of [searchMovies] finds in [movies]: lean documents on
    the cache path, normalized payloads on the provider path. *)
Inductive MovieObj : Type :=
| Stored : MovieDoc -> MovieObj
| Fresh : MovieData -> MovieObj.

Definition objData (o : MovieObj) : MovieData :=
  match o with Stored d => data d | Fresh m => m end.

(** [movie.createdAt], [undefined] on a payload *)
Definition objCreatedAt (o : MovieObj) : nullable Z :=
  match o with Stored d => Val (createdAt d) | Fresh _ => Null end.

Record SearchResult : Type := {
  r_movies : list MovieObj;
  r_totalResults : Z;
  r_source : option string;               (* [None]: the result has no [source] *)
  r_page : option Z;
  r_error : option string
}.

(** [{ $text: { $search: searchTerm }, cacheExpiry: { $gt: new Date() } }] *)
Definition activeTextQuery (searchTerm : string) (t : Z) : Query :=
  {| q_imdbID := None; q_text := Some searchTerm;
     q_cacheExpiry := Some (Operators (setGt noOps t));
     q_genre := None; q_year := None; q_score := None; q_createdAt := None |}.

(** What follows the [await] of [Movie.findOne] in [saveMovieToCache]. *)
Definition saveFound (movieData : MovieData) (existingMovie : option (nat * MovieDoc))
  : M MovieDoc :=
  match existingMovie with
  | Some (pos, existing) =>
      (t <- getNow ;;
       save_existing pos (setExpiry (assign existing movieData) (t + TTL) t))%js
  | None =>
      (movie <- newMovie movieData ;;
       save_new movie)%js
  end.

(** The body of the [map] callback of [searchMovies], when nothing else
    runs between its steps. *)
Definition cacheOne (movie : OMDB.SearchItem) : M (option MovieData) :=
  try_catch
    (fullDetails <- getMovieDetailsOMDB (OMDB.s_imdbID movie) ;;
     _ <- saveMovieToCache fullDetails ;;
     ret (Some fullDetails))%js
    (fun _ => ret None).

(** ** The fan-out of [searchMovies]

    [apiResults.movies.map(async (movie) => ...)] calls the callback on
    every candidate in turn, and each call runs up to its first [await]: the
    key is checked and the detail request is sent, so that every request is
    out before any answer is handled.  [Promise.allSettled] then waits while
    the event loop resumes the suspended callbacks, one step at a time, in
    the order in which the operations they await complete.  After its
    request a callback is suspended twice more, both times in
    [saveMovieToCache]: at [await Movie.findOne(...)] and at
    [await ....save()]; what it does between two suspensions is not
    interrupted.  A callback catches what it throws and returns [null], so
    its promise is always fulfilled. *)
Inductive Callback : Type :=
| Settled : Outcome (option MovieData) -> Callback
| AwaitsFindOne : MovieData -> Callback          (* [fullDetails] *)
| AwaitsSave : MovieData -> option (nat * MovieDoc) -> Callback.
                                                 (* [fullDetails], [existingMovie] *)

(** The suspensions a callback still has before it. *)
Definition awaits (c : Callback) : nat :=
  match c with
  | Settled _ => 0
  | AwaitsSave _ _ => 1
  | AwaitsFindOne _ => 2
  end.

(** The callback from its call to its first suspension. *)
Definition startCallback (movie : OMDB.SearchItem) (w : World) : Callback * World :=
  match getMovieDetailsOMDB (OMDB.s_imdbID movie) w with
  | (Ret fullDetails, w1) => (AwaitsFindOne fullDetails, w1)
  | (Threw _, w1) => (Settled (Ret None), w1)
  end.

(** [apiResults.movies.map(async (movie) => ...)] *)
Fixpoint startAll (movies : list OMDB.SearchItem) (w : World) : list Callback * World :=
  match movies with
  | [] => ([], w)
  | movie :: rest =>
      let '(c, w1) := startCallback movie w in
      let '(cs, w2) := startAll rest w1 in
      (c :: cs, w2)
  end.

(** A suspended callback from one suspension to the next, or to its end. *)
Definition resume (c : Callback) (w : World) : Callback * World :=
  match c with
  | Settled o => (Settled o, w)
  | AwaitsFindOne fullDetails =>
      match Movie_findOne (idQuery (imdbID fullDetails)) w with
      | (Ret existingMovie, w1) => (AwaitsSave fullDetails existingMovie, w1)
      | (Threw _, w1) => (Settled (Ret None), w1)
      end
  | AwaitsSave fullDetails existingMovie =>
      match saveFound fullDetails existingMovie w with
      | (Ret _, w1) => (Settled (Ret (Some fullDetails)), w1)
      | (Threw _, w1) => (Settled (Ret None), w1)
      end
  end.

Fixpoint firstSuspended (cs : list Callback) (i : nat) : option nat :=
  match cs with
  | [] => None
  | c :: r => if (0 <? awaits c)%nat then Some i else firstSuspended r (S i)
  end.

(** The callback the event loop resumes next; [None] when all have
    settled. *)
Definition nextResumed (cs : list Callback) (w : World) : option nat :=
  let i := resumes E (List.length (apiLog w)) (dbOps w) (map awaits cs) in
  match nth_error cs i with
  | Some c => if (0 <? awaits c)%nat then Some i else firstSuspended cs 0
  | None => firstSuspended cs 0
  end.

Fixpoint eventLoop (turns : nat) (cs : list Callback) (w : World)
  : list Callback * World :=
  match turns with
  | O => (cs, w)
  | S turns' =>
      match nextResumed cs w with
      | None => (cs, w)
      | Some i =>
          let '(c', w') := resume (nth i cs (Settled (Ret None))) w in
          eventLoop turns' (replaceAt i c' cs) w'
      end
  end.

Definition settledOutcome (c : Callback) : list (Outcome (option MovieData)) :=
  match c with
  | Settled o => [o]
  | _ => []
  end.

(** [Promise.allSettled(promises)]: the event loop runs until every
    callback has settled, which two turns for each are enough for, and the
    outcomes are recorded in the order of the promises; nothing is thrown. *)
Definition allSettled (promises : list Callback) (w : World)
  : list (Outcome (option MovieData)) * World :=
  let '(cs, w') := eventLoop (2 * List.length promises) promises w in
  (flat_map settledOutcome cs, w').

(** [.filter(result => result.status === 'fulfilled' && result.value)
     .map(result => result.value)] *)
Fixpoint fulfilledValues {A} (os : list (Outcome (option A))) : list A :=
  match os with
  | [] => []
  | Ret (Some a) :: r => a :: fulfilledValues r
  | _ :: r => fulfilledValues r
  end.

(** The first half of [searchMovies]: the look-up in the local store.
    [None] sends the caller on to the provider. *)
Definition lookupCache (searchTerm : string) (page : Z) (useCache : bool)
  : M (option SearchResult) :=
  if useCache then
    (t <- getNow ;;
     cachedMovies <- Movie_find (activeTextQuery searchTerm t) (TextScore searchTerm) 0 10 ;;
     if (0 <? List.length cachedMovies)%nat then
       ret (Some {| r_movies := map Stored cachedMovies;
                    r_totalResults := Z.of_nat (List.length cachedMovies);
                    r_source := Some "cache";
                    r_page := Some page;
                    r_error := None |})
     else ret None)%js
  else ret None.

(** The second half: fetch, then cache every candidate, each in a [try] of
    its own. *)
Definition fetchAndCache (searchTerm : string) (page : Z) : M SearchResult :=
  (apiResults <- searchMoviesOMDB searchTerm page ;;
   if (0 <? List.length (a_movies apiResults))%nat then
     (fun w =>
        let '(cachePromises, w1) := startAll (a_movies apiResults) w in
        let '(settled, w') := allSettled cachePromises w1 in
        (Ret {| r_movies := map Fresh (fulfilledValues settled);
                r_totalResults := a_totalResults apiResults;
                r_source := Some "api";
                r_page := Some page;
                r_error := None |}, w'))
   else
     (* [return apiResults] *)
     ret {| r_movies := [];
            r_totalResults := a_totalResults apiResults;
            r_source := None;
            r_page := a_page apiResults;
            r_error := a_error apiResults |})%js.

(** [searchMovies(searchTerm, { page, useCache })] *)
Definition searchMovies (searchTerm : string) (page : Z) (useCache : bool)
  : M SearchResult :=
  try_catch
    (hit <- lookupCache searchTerm page useCache ;;
     match hit with
     | Some result => ret result
     | None => fetchAndCache searchTerm page
     end)%js
    (fun message => throw message).

(** [{ imdbID: imdbId, cacheExpiry: { $gt: new Date() } }] *)
Definition activeIdQuery (imdbId : string) (t : Z) : Query :=
  {| q_imdbID := Some imdbId; q_text := None;
     q_cacheExpiry := Some (Operators (setGt noOps t));
     q_genre := None; q_year := None; q_score := None; q_createdAt := None |}.

(** [getMovieById(imdbId)] *)
Definition getMovieById (imdbId : string) : M (MovieDoc * string) :=
  try_catch
    (t <- getNow ;;
     movie <- Movie_findOne (activeIdQuery imdbId t) ;;
     match movie with
     | Some (_, doc) => ret (doc, "cache")
     | None =>
         movieData <- getMovieDetailsOMDB imdbId ;;
         saved <- saveMovieToCache movieData ;;
         ret (saved, "api")
     end)%js
    (fun message => throw message).

(** [{ cacheExpiry: { $lt: new Date() } }] *)
Definition expiredQuery (t : Z) : Query :=
  {| q_imdbID := None; q_text := None;
     q_cacheExpiry := Some (Operators (setLt noOps t));
     q_genre := None; q_year := None; q_score := None; q_createdAt := None |}.

(** [cleanExpiredCache()] *)
Definition cleanExpiredCache : M Z :=
  try_catch
    (t <- getNow ;;
     deletedCount <- Movie_deleteMany (expiredQuery t) ;;
     ret deletedCount)%js
    (fun _ => ret 0).

(** ** Filter, sort and page parameters *)

Inductive GenreParam : Type :=
| GenreOne : string -> GenreParam
| GenreMany : list string -> GenreParam.

Record Range (A : Type) : Type := {
  rmin : option A;
  rmax : option A
}.
Arguments rmin {A} _.
Arguments rmax {A} _.

Inductive YearParam : Type :=
| YearIs : Z -> YearParam
| YearRange : Range Z -> YearParam.

Inductive RatingParam : Type :=
| RatingAtLeast : Q -> RatingParam
| RatingRange : Range Q -> RatingParam.

(** Truthiness of numbers and strings. *)
Definition truthyZ (z : Z) : bool := negb (z =? 0).
Definition truthyQ (q : Q) : bool := negb (Qeq_bool q (0 # 1)).
Definition truthyStr (s : string) : bool := negb (String.eqb s "").

Definition someTruthy {A} (truthy : A -> bool) (o : option A) : option A :=
  match o with
  | Some a => if truthy a then Some a else None
  | None => None
  end.

(** [Array.isArray(genre) ? genre : [genre]] *)
Definition genreList (g : GenreParam) : list string :=
  match g with GenreOne s => [s] | GenreMany l => l end.

Record ListOptions : Type := {
  o_search : option string;
  o_genre : option GenreParam;
  o_year : option YearParam;
  o_rating : option RatingParam;
  o_sortBy : option string;
  o_sortOrder : option string;
  o_page : option Z;
  o_limit : option Z
}.

Record Pagination : Type := {
  p_page : Z;
  p_limit : Z;
  p_total : Z;
  p_pages : number Z
}.

Record Listing : Type := {
  l_movies : list MovieDoc;
  l_pagination : Pagination
}.

Definition orDefault {A} (o : option A) (d : A) : A :=
  match o with Some a => a | None => d end.

Definition isSome {A} (o : option A) : bool :=
  match o with Some _ => true | None => false end.

(** The bounds a range adds to a path: [$gte] for a truthy [min], then
    [$lte] for a truthy [max], each spread over what the path holds. *)
Definition rangeCond {A} (truthy : A -> bool) (r : Range A) : option (Cond A) :=
  let c1 := match someTruthy truthy (rmin r) with
            | Some a => Some (Operators (setGte (spread None) a))
            | None => None
            end in
  match someTruthy truthy (rmax r) with
  | Some b => Some (Operators (setLte (spread c1) b))
  | None => c1
  end.

(** The query object [getCachedMovies] builds, path by path. *)
Definition genreQuery (g : option GenreParam) : option GenreCond :=
  match g with
  | Some (GenreOne s) => if truthyStr s then Some (In_ [s]) else None
  | Some (GenreMany l) => if (0 <? List.length l)%nat then Some (In_ l) else None
  | None => None
  end.

Definition yearQuery (y : option YearParam) : option (Cond Z) :=
  match y with
  | Some (YearIs v) => if truthyZ v then Some (Equals v) else None
  | Some (YearRange r) => rangeCond truthyZ r
  | None => None
  end.

Definition scoreQuery (r : option RatingParam) : option (Cond Q) :=
  match r with
  | Some (RatingAtLeast v) => if truthyQ v then Some (Operators (setGte noOps v)) else None
  | Some (RatingRange rg) => rangeCond truthyQ rg
  | None => None
  end.

Definition listQuery (o : ListOptions) (t : Z) : Query :=
  {| q_imdbID := None;
     q_text := someTruthy truthyStr (o_search o);
     q_cacheExpiry := Some (Operators (setGt noOps t));
     q_genre := genreQuery (o_genre o);
     q_year := yearQuery (o_year o);
     q_score := scoreQuery (o_rating o);
     q_createdAt := None |}.

Definition sortKeyOf (sortBy : string) : SortKey :=
  if String.eqb sortBy "title" then ByTitle
  else if String.eqb sortBy "year" then ByYear
  else if String.eqb sortBy "rating" then ByScore
  else if String.eqb sortBy "runtime" then ByRuntime
  else ByCreatedAt.

(** The sort object [getCachedMovies] builds. *)
Definition listSort (o : ListOptions) : SortSpec :=
  let sortDirection :=
    if String.eqb (orDefault (o_sortOrder o) "desc") "desc" then -1 else 1 in
  match someTruthy truthyStr (o_search o) with
  | Some term => TextScore term
  | None => Field (sortKeyOf (orDefault (o_sortBy o) "createdAt")) sortDirection
  end.

(** [Promise.all([a, b])]: both run; the first rejection is thrown. *)
Definition promiseAll2 {A B} (a : M A) (b : M B) : M (A * B) :=
  fun w =>
    let '(oa, w1) := a w in
    let '(ob, w2) := b w1 in
    match oa, ob with
    | Ret x, Ret y => (Ret (x, y), w2)
    | Threw e, _ => (Threw e, w2)
    | _, Threw e => (Threw e, w2)
    end.

(** [getCachedMovies(options)] *)
Definition getCachedMovies (o : ListOptions) : M Listing :=
  let page := orDefault (o_page o) 1 in
  let limit := orDefault (o_limit o) 20 in
  try_catch
    (t <- getNow ;;
     let query := listQuery o t in
     let sort := listSort o in
     let skip := (page - 1) * limit in
     mt <- promiseAll2 (Movie_find query sort skip limit) (Movie_countDocuments query) ;;
     ret {| l_movies := fst mt;
            l_pagination := {| p_page := page; p_limit := limit; p_total := snd mt;
                               p_pages := JS.ceilDiv (snd mt) limit |} |})%js
    (fun message => throw message).

(** ** The cleanup job: [cleanupByCriteria] *)

Record Criteria : Type := {
  c_olderThan : option Z;
  c_rating : option (Range Q);
  c_genre : option (list string);
  c_year : option (Range Z)
}.

(** The bounds [cleanupByCriteria] writes on a path: [{ $lt: min }] for a
    truthy [min], then [$gt: max] spread over it for a truthy [max]. *)
Definition outsideCond {A} (truthy : A -> bool) (r : Range A) : option (Cond A) :=
  let c1 := match someTruthy truthy (rmin r) with
            | Some a => Some (Operators (setLt noOps a))
            | None => None
            end in
  match someTruthy truthy (rmax r) with
  | Some b => Some (Operators (setGt (spread c1) b))
  | None => c1
  end.

Definition cleanupQuery (c : Criteria) : Query :=
  {| q_imdbID := None; q_text := None; q_cacheExpiry := None;
     q_genre := match c_genre c with
                | Some l => if (0 <? List.length l)%nat then Some (Nin l) else None
                | None => None
                end;
     q_year := match c_year c with
               | Some r => outsideCond truthyZ r
               | None => None
               end;
     q_score := match c_rating c with
                | Some r => outsideCond truthyQ r
                | None => None
                end;
     q_createdAt := match c_olderThan c with
                    | Some t => Some (Operators (setLt noOps t))
                    | None => None
                    end |}.

(** [cleanupByCriteria(criteria)] *)
Definition cleanupByCriteria (c : Criteria) : M Z :=
  try_catch
    (deletedCount <- Movie_deleteMany (cleanupQuery c) ;;
     ret deletedCount)%js
    (fun message => throw message).

(** ** The movies router *)

(** [searchSchema.validate(req.query)], on parameters already read as
    numbers and lists: [None] is a validation error, otherwise the value
    with its defaults. *)
Definition optAll {A} (p : A -> bool) (o : option A) : bool := holdsIf o p.

Definition validGenreParam (g : GenreParam) : bool :=
  match g with
  | GenreOne s => truthyStr s
  | GenreMany l => forallb truthyStr l
  end.

Definition validYearParam (y : YearParam) : bool :=
  match y with
  | YearIs v => (1888 <=? v) && (v <=? maxYear E)
  | YearRange r => optAll (fun v => 1888 <=? v) (rmin r)
                   && optAll (fun v => v <=? maxYear E) (rmax r)
  end.

Definition validRatingParam (r : RatingParam) : bool :=
  match r with
  | RatingAtLeast v => Qin (0 # 1) (10 # 1) v
  | RatingRange rg => optAll (Qin (0 # 1) (10 # 1)) (rmin rg)
                      && optAll (Qin (0 # 1) (10 # 1)) (rmax rg)
  end.

Definition searchSchema (q : ListOptions) : option ListOptions :=
  if optAll (fun s => (1 <=? JS.length s)%nat && (JS.length s <=? 100)%nat)
            (o_search q)
     && optAll validGenreParam (o_genre q)
     && optAll validYearParam (o_year q)
     && optAll validRatingParam (o_rating q)
     && optAll (fun s => mem s ["title"; "year"; "rating"; "runtime"; "createdAt"])
               (o_sortBy q)
     && optAll (fun s => mem s ["asc"; "desc"]) (o_sortOrder q)
     && optAll (fun p => 1 <=? p) (o_page q)
     && optAll (fun l => (1 <=? l) && (l <=? 50)) (o_limit q)
  then Some {| o_search := o_search q; o_genre := o_genre q; o_year := o_year q;
               o_rating := o_rating q;
               o_sortBy := Some (orDefault (o_sortBy q) "createdAt");
               o_sortOrder := Some (orDefault (o_sortOrder q) "desc");
               o_page := Some (orDefault (o_page q) 1);
               o_limit := Some (orDefault (o_limit q) 20) |}
  else None.

(** Truthiness of the filter parameters: an array and an object are truthy. *)
Definition genreTruthy (g : GenreParam) : bool :=
  match g with GenreOne s => truthyStr s | GenreMany _ => true end.
Definition yearTruthy (y : YearParam) : bool :=
  match y with YearIs v => truthyZ v | YearRange _ => true end.
Definition ratingTruthy (r : RatingParam) : bool :=
  match r with RatingAtLeast v => truthyQ v | RatingRange _ => true end.

(** A [null] read as a number in [<] and [>]. *)
Definition toNumber (x : nullable Z) : Z :=
  match x with Val z => z | Null => 0 end.

(** [movie.rating.imdb.score] when it is truthy *)
Definition truthyScore (m : MovieData) : option Q :=
  match imdb_score (imdb (rating m)) with
  | Val (Some q) => if truthyQ q then Some q else None
  | _ => None
  end.

(** The callback of [result.movies.filter] in [router.get('/')], test by
    test: each [if] that may [return false]. *)
Definition keepsGenre (genre0 : option GenreParam) (m : MovieData) : bool :=
  match someTruthy genreTruthy genre0 with
  | Some g => existsb (fun x => mem x (genreList g)) (genre m)
  | None => true
  end.

Definition keepsYear (year0 : option YearParam) (m : MovieData) : bool :=
  match someTruthy yearTruthy year0 with
  | Some (YearRange r) =>
      negb (match someTruthy truthyZ (rmin r) with
            | Some lo => toNumber (year m) <? lo
            | None => false
            end)
      && negb (match someTruthy truthyZ (rmax r) with
               | Some hi => hi <? toNumber (year m)
               | None => false
               end)
  | Some (YearIs y) =>
      match year m with Val v => v =? y | Null => false end
  | None => true
  end.

Definition keepsRating (rating0 : option RatingParam) (m : MovieData) : bool :=
  match someTruthy ratingTruthy rating0, truthyScore m with
  | Some (RatingRange r), Some sc =>
      negb (match someTruthy truthyQ (rmin r) with
            | Some lo => isLt (Qcompare sc lo)
            | None => false
            end)
      && negb (match someTruthy truthyQ (rmax r) with
               | Some hi => isGt (Qcompare sc hi)
               | None => false
               end)
  | Some (RatingAtLeast v), Some sc => negb (isLt (Qcompare sc v))
  | _, _ => true
  end.

Definition routeKeeps (genre0 : option GenreParam) (year0 : option YearParam)
    (rating0 : option RatingParam) (movie : MovieObj) : bool :=
  keepsGenre genre0 (objData movie)
  && keepsYear year0 (objData movie)
  && keepsRating rating0 (objData movie).

(** [x || 0] on the sort keys *)
Definition numOr0 (x : nullable (number Z)) : Z :=
  match x with Val (Some z) => z | _ => 0 end.
Definition scoreOr0 (m : MovieData) : Q :=
  match imdb_score (imdb (rating m)) with Val (Some q) => q | _ => 0 # 1 end.

(** [aVal] against [bVal] in the callback of [result.movies.sort]. *)
Definition routeKeyCmp (sortBy0 : string) (a b : MovieObj) : comparison :=
  if String.eqb sortBy0 "title" then
    String.compare (JS.toLowerCase (title (objData a))) (JS.toLowerCase (title (objData b)))
  else if String.eqb sortBy0 "year" then
    Z.compare (toNumber (year (objData a))) (toNumber (year (objData b)))
  else if String.eqb sortBy0 "rating" then
    Qcompare (scoreOr0 (objData a)) (scoreOr0 (objData b))
  else if String.eqb sortBy0 "runtime" then
    Z.compare (numOr0 (runtime (objData a))) (numOr0 (runtime (objData b)))
  else
    Z.compare (toNumber (objCreatedAt a)) (toNumber (objCreatedAt b)).

(** The callback of [result.movies.sort]. *)
Definition routeCompare (sortBy0 sortOrder : string) (a b : MovieObj) : Z :=
  let c := routeKeyCmp sortBy0 a b in
  if String.eqb sortOrder "desc"
  then (if isLt c then 1 else if isGt c then -1 else 0)
  else (if isGt c then 1 else if isLt c then -1 else 0).

(** [array.sort(compare)]: stable; [a] stays before [b] when
    [compare(a, b) <= 0]. *)
Definition jsSort {A} (compare : A -> A -> Z) (l : list A) : list A :=
  sortBy (fun a b => compare a b <=? 0) l.

(** The in-memory filter and sort [router.get('/')] applies to the result
    of [searchMovies]. *)
Definition routeFilterSort (o : ListOptions) (movies : list MovieObj) : list MovieObj :=
  let filtered :=
    if (isSome (someTruthy genreTruthy (o_genre o))
        || isSome (someTruthy yearTruthy (o_year o))
        || isSome (someTruthy ratingTruthy (o_rating o)))%bool
    then filter (routeKeeps (o_genre o) (o_year o) (o_rating o)) movies
    else movies in
  jsSort (routeCompare (orDefault (o_sortBy o) "createdAt")
                       (orDefault (o_sortOrder o) "desc")) filtered.

Inductive Reply (A : Type) : Type :=
| Status400 : Reply A
| Status404 : Reply A
| Status500 : Reply A
| Status200 : A -> Reply A.
Arguments Status400 {A}.
Arguments Status404 {A}.
Arguments Status500 {A}.
Arguments Status200 {A} _.

Record MoviesBody : Type := {
  b_data : list MovieObj;
  b_pagination : Pagination;
  b_source : string
}.

(** [router.get('/')] *)
Definition getMovies (query : ListOptions) : M (Reply MoviesBody) :=
  match searchSchema query with
  | None => ret Status400
  | Some value =>
      let page := orDefault (o_page value) 1 in
      let limit := orDefault (o_limit value) 20 in
      try_catch
        (match someTruthy truthyStr (o_search value) with
         | Some search =>
             result <- searchMovies search page true ;;
             ret (Status200
                    {| b_data := routeFilterSort value (r_movies result);
                       b_pagination :=
                         {| p_page := page; p_limit := limit;
                            p_total := r_totalResults result;
                            p_pages := JS.ceilDivNumber (r_totalResults result) limit |};
                       b_source := orDefault (someTruthy truthyStr (r_source result))
                                             "cache" |})
         | None =>
             result <- getCachedMovies
                         {| o_search := None; o_genre := o_genre value;
                            o_year := o_year value; o_rating := o_rating value;
                            o_sortBy := o_sortBy value; o_sortOrder := o_sortOrder value;
                            o_page := o_page value; o_limit := o_limit value |} ;;
             ret (Status200
                    {| b_data := map Stored (l_movies result);
                       b_pagination := l_pagination result;
                       b_source := "cache" |})
         end)%js
        (fun _ => ret Status500)
  end.

(** [router.put('/:id')], behind the admin check: refresh from the
    provider. *)
Definition putMovie (id : string) : M (Reply MovieDoc) :=
  try_catch
    (found <- Movie_findOne (idQuery id) ;;
     match found with
     | None => ret Status404
     | Some (pos, movie) =>
         updatedData <- getMovieDetailsOMDB id ;;
         t <- getNow ;;
         saved <- save_existing pos (setExpiry (assign movie updatedData) (t + TTL) t) ;;
         ret (Status200 saved)
     end)%js
    (fun _ => ret Status500).

(** [router.delete('/:id')], behind the admin check:
    [Movie.findOneAndDelete({ imdbID: id })]. *)
Definition deleteMovie (id : string) : M (Reply string) :=
  try_catch
    (deleted <- dbOp (fun s => match findIndex (matches E (idQuery id)) s 0 with
                               | Some (pos, d) => (Some d, removeAt pos s)
                               | None => (None, s)
                               end) ;;
     match deleted with
     | None => ret Status404
     | Some d => ret (Status200 (title (data d)))
     end)%js
    (fun _ => ret Status500).

(** [movieSchema.methods.refreshCache], on a document handle. *)
Definition refreshCache (pos : nat) (doc : MovieDoc) : M MovieDoc :=
  (t <- getNow ;;
   save_existing pos (setExpiry doc (t + TTL) t))%js.

End Service.

Arguments rmin {A} _.
Arguments rmax {A} _.
Arguments Status400 {A}.
Arguments Status404 {A}.
Arguments Status500 {A}.
Arguments Status200 {A} _.

(** ** Decimal numerals, to state what the parsers read *)

Fixpoint showDigits (fuel n : nat) (acc : string) : string :=
  match fuel with
  | O => acc
  | S f =>
      let acc' := String (ascii_of_nat (48 + n mod 10)) acc in
      if (n <? 10)%nat then acc' else showDigits f (n / 10) acc'
  end.

(** [String(n)] for a natural number *)
Definition showNat (n : nat) : string := showDigits (S n) n EmptyString.

Fixpoint allDigits (s : string) : bool :=
  match s with
  | EmptyString => true
  | String c r => JS.isDigit c && allDigits r
  end.

Fixpoint hasDigit (s : string) : bool :=
  match s with
  | EmptyString => false
  | String c r => JS.isDigit c || hasDigit r
  end.

(** ** A concrete environment for examples

    A provider that knows three titles (and answers the search for "Joker"
    with "The Dark Knight"), a store that never fails, a text index that
    scores a document by where the term occurs, and parsers for plain
    decimal numbers. *)

Module Demo.

Fixpoint dropDigits (s : string) : string :=
  match s with
  | EmptyString => EmptyString
  | String c r => if JS.isDigit c then dropDigits r else s
  end.

(** [parseFloat] on [digits] and [digits.digits] *)
Definition decimalFloat (s : string) : number Q :=
  match JS.takeDigits s with
  | EmptyString => None
  | i =>
      match dropDigits s with
      | String "." r =>
          let f := JS.takeDigits r in
          Some (JS.digitsVal 0 (i ++ f) # Z.to_pos (10 ^ Z.of_nat (String.length f)))
      | _ => Some (inject_Z (JS.digitsVal 0 i))
      end
  end.

Definition contains (needle hay : string) : bool :=
  isSome (String.index 0 (JS.toLowerCase needle) (JS.toLowerCase hay)).

Definition raw (id ttl yr rt gen rating rt_pct : string) : OMDB.Movie :=
  {| OMDB.imdbID := id; OMDB.Title := ttl; OMDB.Year := yr;
     OMDB.Released := "N/A"; OMDB.Runtime := rt; OMDB.Genre := gen;
     OMDB.Director := "Christopher Nolan"; OMDB.Writer := "N/A";
     OMDB.Actors := "N/A"; OMDB.Plot := "A thief steals secrets.";
     OMDB.Language := "English"; OMDB.Country := "USA";
     OMDB.imdbRating := rating; OMDB.imdbVotes := "2,100,000";
     OMDB.Ratings := Some [ {| OMDB.Source := "Internet Movie Database";
                               OMDB.Value := "8.8/10" |};
                            {| OMDB.Source := "Rotten Tomatoes"; OMDB.Value := rt_pct |} ];
     OMDB.Poster := "N/A"; OMDB.Rated := "PG-13"; OMDB.Type_ := "movie" |}.

Definition inception : OMDB.Movie :=
  raw "tt1375666" "Inception" "2010" "148 min" "Action, Sci-Fi" "8.8" "87%".
Definition batmanBegins : OMDB.Movie :=
  raw "tt0372784" "Batman Begins" "2005" "140 min" "Action, Crime" "8.2" "85%".
Definition darkKnight : OMDB.Movie :=
  raw "tt0468569" "The Dark Knight" "2008" "152 min" "Action, Crime" "9.0" "94%".

Definition item (id ttl : string) : OMDB.SearchItem :=
  {| OMDB.s_imdbID := id; OMDB.s_Title := ttl |}.

Definition search (_ : nat) (term : string) (_ : Z) : HttpResult OMDB.SearchResponse :=
  if String.eqb term "Inception" then
    HttpOk {| OMDB.sr_Response := "True";
              OMDB.sr_Search := Some [item "tt1375666" "Inception"];
              OMDB.sr_totalResults := "1"; OMDB.sr_Error := "" |}
  else if String.eqb term "Batman" then
    HttpOk {| OMDB.sr_Response := "True";
              OMDB.sr_Search := Some [item "tt0372784" "Batman Begins";
                                      item "tt0000000" "Batman Lost";
                                      item "tt0468569" "The Dark Knight"];
              OMDB.sr_totalResults := "3"; OMDB.sr_Error := "" |}
  else if String.eqb term "Joker" then
    HttpOk {| OMDB.sr_Response := "True";
              OMDB.sr_Search := Some [item "tt0468569" "The Dark Knight"];
              OMDB.sr_totalResults := "1"; OMDB.sr_Error := "" |}
  else
    HttpOk {| OMDB.sr_Response := "False"; OMDB.sr_Search := None;
              OMDB.sr_totalResults := ""; OMDB.sr_Error := "Movie not found!" |}.

Definition detail (_ : nat) (id : string) : HttpResult OMDB.DetailResponse :=
  let found m := HttpOk {| OMDB.dr_Response := "True"; OMDB.dr_Error := "";
                           OMDB.dr_data := m |} in
  if String.eqb id "tt1375666" then found inception
  else if String.eqb id "tt0372784" then found batmanBegins
  else if String.eqb id "tt0468569" then found darkKnight
  else HttpFail "timeout of 10000ms exceeded".

(** An event loop that completes the awaited operations in the order in
    which they were issued: every [findOne] of a batch, in the order of the
    callbacks, before the first [save]. *)
Fixpoint firstAt (n : nat) (l : list nat) (i : nat) : option nat :=
  match l with
  | [] => None
  | x :: r => if (x =? n)%nat then Some i else firstAt n r (S i)
  end.

Definition inOrderOfIssue (_ _ : nat) (awaits : list nat) : nat :=
  match firstAt 2 awaits 0 with
  | Some i => i
  | None => match firstAt 1 awaits 0 with Some i => i | None => 0 end
  end.

(** An event loop that lets a callback run to its end before it resumes
    the next one. *)
Definition oneAtATime (_ _ : nat) (awaits : list nat) : nat :=
  match firstAt 1 awaits 0 with
  | Some i => i
  | None => match firstAt 2 awaits 0 with Some i => i | None => 0 end
  end.

Definition env : Env :=
  {| parseFloat := decimalFloat;
     parseDate := JS.parseInt;
     maxYear := 2030;
     omdbApiKey := Some "k";
     httpSearch := search;
     httpDetail := detail;
     dbFault := fun _ => false;
     textScore := fun term ttl plt =>
                    ((if contains term ttl then 2 else 0)
                     + (if contains term plt then 1 else 0))%nat;
     resumes := inOrderOfIssue |}.

(** The same surroundings with a store that rejects every operation. *)
Definition envDown : Env :=
  {| parseFloat := decimalFloat; parseDate := JS.parseInt; maxYear := 2030;
     omdbApiKey := Some "k"; httpSearch := search; httpDetail := detail;
     dbFault := fun _ => true;
     textScore := textScore env;
     resumes := inOrderOfIssue |}.

Definition world0 : World :=
  {| store := []; now := 1700000000000; dbOps := 0; apiLog := [] |}.

(** A stored document made from a raw record at time [t]. *)
Definition docAt (t : Z) (m : OMDB.Movie) : MovieDoc :=
  {| data := castData (transformOMDBData env m); tmdbID := Null; images := [];
     cacheExpiry := Val (t + TTL); lastUpdated := t; createdAt := t; updatedAt := t |}.

(** A record whose provider title is the placeholder itself. *)
Definition untitled : OMDB.Movie :=
  raw "tt0000001" "N/A" "1999" "90 min" "Drama" "6.1" "50%".

(** Twelve active documents about Batman, and forty-five documents in
    all, every one stored at the same time. *)
Definition numbered (i : nat) : OMDB.Movie :=
  raw ("tt" ++ showNat (1000 + i)) ("Batman " ++ showNat i)
      (showNat (1950 + i)) "100 min" "Action" "7.0" "70%".

Definition crowded : World :=
  {| store := map (fun i => docAt 1700000000000 (numbered i)) (seq 0 12);
     now := 1700000000000; dbOps := 0; apiLog := [] |}.

Definition library : World :=
  {| store := map (fun i => docAt 1700000000000 (numbered i)) (seq 0 45);
     now := 1700000000000; dbOps := 0; apiLog := [] |}.

Definition page2of20 : ListOptions :=
  {| o_search := None; o_genre := None; o_year := None; o_rating := None;
     o_sortBy := None; o_sortOrder := None; o_page := Some 2; o_limit := Some 20 |}.

(** The same request as the router's schema hands it on. *)
Definition page2of20valid : ListOptions :=
  {| o_search := None; o_genre := None; o_year := None; o_rating := None;
     o_sortBy := Some "createdAt"; o_sortOrder := Some "desc";
     o_page := Some 2; o_limit := Some 20 |}.

(** Three documents rated 3.0, 7.0 and 9.5, from 1980, 2000 and 2020. *)
Definition rated : World :=
  {| store := [ docAt 1700000000000 (raw "tt0000003" "Low" "1980" "90 min" "Drama" "3.0" "30%");
                docAt 1700000000000 (raw "tt0000007" "Middle" "2000" "90 min" "Drama" "7.0" "70%");
                docAt 1700000000000 (raw "tt0000009" "High" "2020" "90 min" "Drama" "9.5" "95%") ];
     now := 1700000000000; dbOps := 0; apiLog := [] |}.

(** [{ rating: { min: 5, max: 8 } }] *)
Definition rating5to8 : Criteria :=
  {| c_olderThan := None;
     c_rating := Some {| rmin := Some (5 # 1); rmax := Some (8 # 1) |};
     c_genre := None; c_year := None |}.

(** [{ rating: { min: 5 } }] and [{ rating: { max: 8 } }] *)
Definition ratingMin5 : Criteria :=
  {| c_olderThan := None; c_rating := Some {| rmin := Some (5 # 1); rmax := None |};
     c_genre := None; c_year := None |}.
Definition ratingMax8 : Criteria :=
  {| c_olderThan := None; c_rating := Some {| rmin := None; rmax := Some (8 # 1) |};
     c_genre := None; c_year := None |}.

(** [{ year: { min: 1990, max: 2010 } }] *)
Definition year1990to2010 : Criteria :=
  {| c_olderThan := None; c_rating := None; c_genre := None;
     c_year := Some {| rmin := Some 1990; rmax := Some 2010 |} |}.

(** A stored document without a primary score, and the filter
    [rating=7]. *)
Definition unrated : MovieDoc :=
  docAt 1700000000000 (raw "tt0000010" "Unrated" "2001" "95 min" "Drama" "N/A" "N/A").

Definition ratingAtLeast7 : ListOptions :=
  {| o_search := None; o_genre := None; o_year := None;
     o_rating := Some (RatingAtLeast (7 # 1));
     o_sortBy := Some "createdAt"; o_sortOrder := Some "desc";
     o_page := Some 1; o_limit := Some 20 |}.

(** Two titles that differ in case, and the sort [title], ascending. *)
Definition apple : MovieDoc :=
  docAt 1700000000000 (raw "tt0000011" "apple" "2002" "95 min" "Drama" "6.0" "60%").
Definition banana : MovieDoc :=
  docAt 1700000000000 (raw "tt0000012" "Banana" "2003" "95 min" "Drama" "6.5" "65%").

Definition byTitleAsc : ListOptions :=
  {| o_search := None; o_genre := None; o_year := None; o_rating := None;
     o_sortBy := Some "title"; o_sortOrder := Some "asc";
     o_page := Some 1; o_limit := Some 20 |}.

(** The filter by an empty list of genres. *)
Definition noGenres : ListOptions :=
  {| o_search := None; o_genre := Some (GenreMany []); o_year := None; o_rating := None;
     o_sortBy := Some "createdAt"; o_sortOrder := Some "desc";
     o_page := Some 1; o_limit := Some 20 |}.

(** The filter [year=2000..2010&rating=6.5], sorted by rating, descending. *)
Definition noughtiesByRating : ListOptions :=
  {| o_search := None; o_genre := Some (GenreOne "Drama");
     o_year := Some (YearRange {| rmin := Some 2000; rmax := Some 2010 |});
     o_rating := Some (RatingAtLeast (65 # 10));
     o_sortBy := Some "rating"; o_sortOrder := Some "desc";
     o_page := Some 1; o_limit := Some 20 |}.




(** A store with one active and two expired documents. *)
Definition stale : World :=
  {| store := [ docAt 1700000000000 inception;
                docAt 1600000000000 batmanBegins;
                docAt 1500000000000 darkKnight ];
     now := 1700000000000; dbOps := 0; apiLog := [] |}.

End Demo.

(** ** The life of the store

    What can happen to a world: a call of one of the service's operations
    or of a route of the router, the passing of time, and the store's own
    TTL monitor ([index: { expireAfterSeconds: 0 }] on [cacheExpiry]),
    which removes expired documents. *)

(** What a refresh writes over [old] at time [t] for the payload. *)
Definition refreshed (old : MovieDoc) (movieData : MovieData) (t : Z) : MovieDoc :=
  touch (setExpiry (assign old movieData) (t + TTL) t) t.

Section Life.

Variable E : Env.

Inductive Step : World -> World -> Prop :=
| step_searchMovies term page useCache w o w' :
    searchMovies E term page useCache w = (o, w') -> Step w w'
| step_getMovieById id w o w' :
    getMovieById E id w = (o, w') -> Step w w'
| step_saveMovieToCache m w o w' :
    saveMovieToCache E m w = (o, w') -> Step w w'
| step_getCachedMovies opts w o w' :
    getCachedMovies E opts w = (o, w') -> Step w w'
| step_cleanExpiredCache w o w' :
    cleanExpiredCache E w = (o, w') -> Step w w'
| step_cleanupByCriteria c w o w' :
    cleanupByCriteria E c w = (o, w') -> Step w w'
| step_getMovies q w o w' :
    getMovies E q w = (o, w') -> Step w w'
| step_putMovie id w o w' :
    putMovie E id w = (o, w') -> Step w w'
| step_deleteMovie id w o w' :
    deleteMovie E id w = (o, w') -> Step w w'
| step_clock w t :
    now w <= t -> Step w (withNow w t)
| step_ttl_monitor w :
    Step w (withStore w (filter (fun d => negb (matches E (expiredQuery (now w)) d))
                                (store w))).

Inductive Reachable : World -> Prop :=
| reach_start w : store w = [] -> Reachable w
| reach_step w w' : Reachable w -> Step w w' -> Reachable w'.

End Life.

(** What a callback of the fan-out has returned: its payload, or [null]
    (also while it has not settled). *)
Definition returned (c : Callback) : option MovieData :=
  match c with
  | Settled (Ret (Some m)) => Some m
  | _ => None
  end.

(** The world after the detail requests for [movies] have been sent. *)
Definition requested (w : World) (movies : list OMDB.SearchItem) : World :=
  fold_left (fun w0 c => logCall (DetailCall (OMDB.s_imdbID c)) w0) movies w.

(** The outcome of the detail fetch of the candidate at position [i] of a
    batch started in [w]: its request is the [i]-th the batch sends. *)
Definition fetched (E : Env) (w : World) (movies : list OMDB.SearchItem) (i : nat)
    (c : OMDB.SearchItem) : Outcome MovieData :=
  fst (getMovieDetailsOMDB E (OMDB.s_imdbID c) (requested w (firstn i movies))).

(** In a batch over [movies] started in [w], the candidate at position [i]
    is the only one whose fetched payload carries the identifier of [m]. *)
Definition aloneUnderId (E : Env) (w : World) (movies : list OMDB.SearchItem) (i : nat)
    (m : MovieData) : Prop :=
  forall j c m', j <> i -> nth_error movies j = Some c ->
                 fetched E w movies j c = Ret m' -> imdbID m' <> imdbID m.

(** The payloads of the items that succeeded, and the number of failures. *)
Fixpoint successes (l : list (option MovieData)) : list MovieData :=
  match l with
  | [] => []
  | Some m :: r => m :: successes r
  | None :: r => successes r
  end.


(** The documents of a store that carry a given external identifier. *)
Definition withId (id : string) (s : list MovieDoc) : list MovieDoc :=
  filter (hasId id) s.

(** [cacheExpiry: { $gt: now }] *)
Definition isActive (t : Z) (d : MovieDoc) : bool :=
  condHolds Z.compare (Operators (setGt noOps t)) (cacheExpiry d).

(** [cacheExpiry: { $lt: now }] *)
Definition isExpired (t : Z) (d : MovieDoc) : bool :=
  condHolds Z.compare (Operators (setLt noOps t)) (cacheExpiry d).

(** ** Candidates of the filter and sort layer

    What the comparison of the two filter/sort paths assumes of a candidate
    set: documents as the store holds them (they passed the validators) and
    active at the time of the request. *)

Definition Candidate (E : Env) (t : Z) (d : MovieDoc) : Prop :=
  validate E (data d) = true /\ isActive t d = true.

(** Text that the schema's [trim] leaves as it is: ASCII characters, no
    blank at either end. *)
Definition plainText (s : string) : bool :=
  JS.isAscii s && String.eqb (JS.trim s) s.

(** A payload whose title and genres the cast leaves as they are. *)
Definition plainPayload (m : MovieData) : Prop :=
  plainText (title m) = true /\ Forall (fun g => plainText g = true) (genre m).

(** What the store may answer to [Movie.find(q).sort(s)] on a collection:
    the documents that match, in an order that respects the sort.  The
    order among documents with equal keys is the store's choice. *)
Definition storeAnswer (E : Env) (q : Query) (s : SortSpec) (docs out : list MovieDoc)
  : Prop :=
  Permutation out (filter (matches E q) docs) /\
  StronglySorted (fun a b => sortLe E s a b = true) out.

(** The document has a primary score. *)
Definition scorePresent (d : MovieDoc) : Prop :=
  exists q, imdb_score (imdb (rating (data d))) = Val (Some q).

(** The document's primary score, if any, is not 0. *)
Definition scoreNonzero (d : MovieDoc) : Prop :=
  forall q, imdb_score (imdb (rating (data d))) = Val (Some q) -> ~ (q == 0)%Q.

(** The document's title is ASCII text without a capital letter. *)
Definition lowercaseTitle (d : MovieDoc) : Prop :=
  JS.isAscii (title (data d)) = true /\
  JS.toLowerCase (title (data d)) = title (data d).

(** ** The vocabulary of the statements *)

(** The external identifier of a document. *)
Definition idOf (d : MovieDoc) : string := imdbID (data d).

(** No two documents carry the same external identifier. *)
Definition uniqueIds (s : list MovieDoc) : Prop := NoDup (map idOf s).

(** Every document's expiry is its last refresh plus the TTL. *)
Definition expirySet (d : MovieDoc) : Prop := cacheExpiry d = Val (lastUpdated d + TTL).

(** The payload a callback carries: its [fullDetails], until it returns
    [null]. *)
Definition payloadOf (c : Callback) : option MovieData :=
  match c with
  | AwaitsFindOne m => Some m
  | AwaitsSave m _ => Some m
  | Settled (Ret (Some m)) => Some m
  | Settled _ => None
  end.

(** The suspensions a batch of callbacks still has before it. *)
Definition suspensions (cs : list Callback) : nat := list_sum (map awaits cs).

(** Every handle a suspended callback holds points to a document of its
    payload's identifier. *)
Definition handlesOk (cs : list Callback) (s : list MovieDoc) : Prop :=
  forall m pos old, In (AwaitsSave m (Some (pos, old))) cs ->
                    nth_error (map idOf s) pos = Some (imdbID m).

(** The documents a search for [term] finds in the local store at time [t]:
    active, matching, by decreasing relevance, ten at most. *)
Definition cachedFor (E : Env) (term : string) (t : Z) (s : list MovieDoc) : list MovieDoc :=
  firstn 10 (findSorted E (activeTextQuery term t) (TextScore term) s).

Definition cacheHit (page : Z) (cachedMovies : list MovieDoc) : SearchResult :=
  {| r_movies := map Stored cachedMovies;
     r_totalResults := Z.of_nat (List.length cachedMovies);
     r_source := Some "cache"; r_page := Some page; r_error := None |}.

(** The ordered result of a listing: what [Movie.find(query).sort(sort)]
    holds before [skip] and [limit]. *)
Definition listed (E : Env) (o : ListOptions) (t : Z) (s : list MovieDoc) : list MovieDoc :=
  findSorted E (listQuery o t) (listSort o) s.

(** A command keeps [P] when [P] survives every run of it, whatever the
    outcome. *)
Definition Keeps (P : World -> Prop) {A} (c : M A) : Prop :=
  forall w o w', c w = (o, w') -> P w -> P w'.

(** Properties of the collection alone. *)
Definition onStore (Q : list MovieDoc -> Prop) (w : World) : Prop := Q (store w).

(** The two ways in which a command leaves the collection alone. *)
Definition Framed (P : World -> Prop) : Prop :=
  (forall w, P w -> P (tick w)) /\ (forall w c, P w -> P (logCall c w)).

(** A property of the world is [Closed] when it does not look at the
    counters and logs, and the four ways in which the service rewrites the
    collection keep it: the insert of a new, valid document under a free
    identifier; the rewrite in place of a refreshed, valid document whose
    identifier no other document carries; the removal of the documents a
    query selects; the removal of one document. *)
Record Closed (E : Env) (P : World -> Prop) : Prop := {
  closed_framed : Framed P;
  closed_insert : forall w t m,
    P w -> validate E (castData m) = true ->
    existsb (hasId (imdbID m)) (store w) = false ->
    P (withStore w (store w ++ [freshDoc t m])%list);
  closed_replace : forall w pos old m t t',
    P w -> validate E (castData m) = true ->
    existsb (hasId (imdbID m)) (removeAt pos (store w)) = false ->
    P (withStore w (replaceAt pos (touch (setExpiry (assign old m) (t + TTL) t) t')
                              (store w)));
  closed_filter : forall w p, P w -> P (withStore w (filter p (store w)));
  closed_remove : forall w pos, P w -> P (withStore w (removeAt pos (store w)))
}.

(** ** Aggregation pipelines

    [$unwind], [$group] with a count, [$sort] and [$limit], as the source
    chains them.  The store does not fix the order in which [$group] emits
    its groups: here a group is emitted where its key first occurs, and no
    statement below depends on that order beyond what [$sort] fixes. *)

(** [{}]: every document matches. *)
Definition everyQuery : Query :=
  {| q_imdbID := None; q_text := None; q_cacheExpiry := None; q_genre := None;
     q_year := None; q_score := None; q_createdAt := None |}.

(** One more document for the group of [k]. *)
Fixpoint bump {K} (eqb : K -> K -> bool) (k : K) (groups : list (K * Z)) : list (K * Z) :=
  match groups with
  | [] => [(k, 1)]
  | (k', n) :: r => if eqb k' k then (k', n + 1) :: r else (k', n) :: bump eqb k r
  end.

(** [{ $group: { _id: key, count: { $sum: 1 } } }] over the keys of the
    incoming documents *)
Definition groupCount {K} (eqb : K -> K -> bool) (keys : list K) : list (K * Z) :=
  fold_left (fun groups k => bump eqb k groups) keys [].

Definition eqbNullable {A} (eqb : A -> A -> bool) (a b : nullable A) : bool :=
  match a, b with
  | Null, Null => true
  | Val x, Val y => eqb x y
  | _, _ => false
  end.

(** [{ $unwind: '$genre' }]: one entry per document and element of its
    [genre]; a document with an empty list gives none. *)
Definition unwindGenre (docs : list MovieDoc) : list string :=
  flat_map (fun d => genre (data d)) docs.

(** [{ $sort: { count: -1 } }] and [{ $sort: { _id: -1 } }] *)
Definition byCountDesc {K} (a b : K * Z) : bool := snd b <=? snd a.
Definition byIdDesc (a b : nullable Z * Z) : bool :=
  negb (isGt (cmpNullable Z.compare (fst b) (fst a))).

(** [[{ $unwind: '$genre' }, { $group: { _id: '$genre', count: { $sum: 1 } } },
      { $sort: { count: -1 } }]] *)
Definition genreCounts (docs : list MovieDoc) : list (string * Z) :=
  sortBy byCountDesc (groupCount String.eqb (unwindGenre docs)).

(** [[{ $group: { _id: '$year', count: { $sum: 1 } } }, { $sort: { _id: -1 } }]] *)
Definition yearCounts (docs : list MovieDoc) : list (nullable Z * Z) :=
  sortBy byIdDesc (groupCount (eqbNullable Z.eqb) (map (fun d => year (data d)) docs)).

(** The [year]s the collection holds.  The path is required: a stored
    document has one; a document without one adds nothing to [$addToSet]
    and is skipped by [$min] and [$max]. *)
Definition storedYears (docs : list MovieDoc) : list Z :=
  flat_map (fun d => match year (data d) with Val y => [y] | Null => [] end) docs.

(** [{ $addToSet: '$year' }] *)
Definition addToSet (l : list Z) : list Z :=
  fold_left (fun acc y => if existsb (Z.eqb y) acc then acc else (acc ++ [y])%list) l [].

(** [{ $min: '$year' }] and [{ $max: '$year' }] *)
Definition minOf (l : list Z) : nullable Z :=
  match l with
  | [] => Null
  | y :: r => Val (fold_left Z.min r y)
  end.
Definition maxOf (l : list Z) : nullable Z :=
  match l with
  | [] => Null
  | y :: r => Val (fold_left Z.max r y)
  end.

Record YearStats : Type := {
  ys_minYear : nullable Z;
  ys_maxYear : nullable Z;
  ys_years : list Z
}.

(** [[{ $group: { _id: null, minYear: ..., maxYear: ..., years: ... } }]]:
    one group when the collection holds a document, none otherwise. *)
Definition yearStatsPipeline (docs : list MovieDoc) : list YearStats :=
  match docs with
  | [] => []
  | _ :: _ => [ {| ys_minYear := minOf (storedYears docs);
                   ys_maxYear := maxOf (storedYears docs);
                   ys_years := addToSet (storedYears docs) |} ]
  end.

(** [String(z)] for an integer *)
Definition showZ (z : Z) : string :=
  if z <? 0 then "-" ++ showNat (Z.to_nat (- z)) else showNat (Z.to_nat z).

(** [s.includes(needle)] *)
Fixpoint includes (needle s : string) : bool :=
  String.prefix needle s
  || match s with
     | EmptyString => false
     | String _ r => includes needle r
     end.

(** [id.match(/^tt\d{7,8}$/)] *)
Definition validImdbId (id : string) : bool :=
  match id with
  | String "t" (String "t" digits) =>
      allDigits digits
      && ((String.length digits =? 7)%nat || (String.length digits =? 8)%nat)
  | _ => false
  end.

(** ** Statistics and maintenance ([getCacheStats], the cleanup job's
    [runManualCleanup] and [getCleanupStats]), the schema's methods and the
    other routes of the movies router *)

Section Maintenance.

Variable E : Env.

(** [Movie.aggregate(pipeline)] *)
Definition Movie_aggregate {A} (pipeline : list MovieDoc -> A) : M A :=
  dbOp E (fun s => (pipeline s, s)).

(** [Promise.all([a, b, c, d])]: all four run; the first rejection is thrown. *)
Definition promiseAll4 {A B C D} (a : M A) (b : M B) (c : M C) (d : M D)
  : M (A * B * C * D) :=
  fun w =>
    let '(oa, w1) := a w in
    let '(ob, w2) := b w1 in
    let '(oc, w3) := c w2 in
    let '(od, w4) := d w3 in
    match oa, ob, oc, od with
    | Ret x, Ret y, Ret z, Ret u => (Ret (x, y, z, u), w4)
    | Threw e, _, _, _ => (Threw e, w4)
    | _, Threw e, _, _ => (Threw e, w4)
    | _, _, Threw e, _ => (Threw e, w4)
    | _, _, _, Threw e => (Threw e, w4)
    end.

Record CacheStats : Type := {
  cs_total : Z;
  cs_active : Z;
  cs_expired : Z;
  cs_topGenres : list (string * Z);        (* [{ _id, count }] *)
  cs_moviesByYear : list (nullable Z * Z)  (* [{ _id, count }] *)
}.

(** [getCacheStats()] *)
Definition getCacheStats : M CacheStats :=
  try_catch
    (t <- getNow ;;
     counts <- promiseAll4 (Movie_countDocuments E everyQuery)
                           (Movie_countDocuments E (expiredQuery t))
                           (Movie_aggregate (fun s => firstn 10 (genreCounts s)))
                           (Movie_aggregate (fun s => firstn 10 (yearCounts s))) ;;
     let '(total, expired, byGenre, byYear) := counts in
     ret {| cs_total := total; cs_active := total - expired; cs_expired := expired;
            cs_topGenres := byGenre; cs_moviesByYear := byYear |})%js
    (fun message => throw message).

Record CleanupReport : Type := {
  m_before : Z;
  m_deleted : Z;
  m_after : Z
}.

(** [runManualCleanup()] *)
Definition runManualCleanup : M CleanupReport :=
  try_catch
    (before <- Movie_countDocuments E everyQuery ;;
     deletedCount <- cleanExpiredCache E ;;
     after <- Movie_countDocuments E everyQuery ;;
     ret {| m_before := before; m_deleted := deletedCount; m_after := after |})%js
    (fun message => throw message).

(** [7 * 24 * 60 * 60 * 1000] *)
Definition WEEK : Z := 7 * 24 * 60 * 60 * 1000.

(** [{ createdAt: { $lt: t } }] *)
Definition createdBeforeQuery (t : Z) : Query :=
  {| q_imdbID := None; q_text := None; q_cacheExpiry := None; q_genre := None;
     q_year := None; q_score := None;
     q_createdAt := Some (Operators (setLt noOps t)) |}.

(** [{ 'rating.imdb.score': { $lt: 5.0 } }] *)
Definition lowRatedQuery : Query :=
  {| q_imdbID := None; q_text := None; q_cacheExpiry := None; q_genre := None;
     q_year := None; q_score := Some (Operators (setLt noOps (5 # 1)));
     q_createdAt := None |}.

Record CleanupStats : Type := {
  k_total : Z;
  k_expired : Z;
  k_oldEntries : Z;
  k_lowRated : Z;
  k_active : Z
}.

(** [getCleanupStats()] *)
Definition getCleanupStats : M CleanupStats :=
  try_catch
    (t <- getNow ;;
     counts <- promiseAll4 (Movie_countDocuments E everyQuery)
                           (Movie_countDocuments E (expiredQuery t))
                           (Movie_countDocuments E (createdBeforeQuery (t - WEEK)))
                           (Movie_countDocuments E lowRatedQuery) ;;
     let '(total, expired, oldEntries, lowRated) := counts in
     ret {| k_total := total; k_expired := expired; k_oldEntries := oldEntries;
            k_lowRated := lowRated; k_active := total - expired |})%js
    (fun message => throw message).

(** *** The schema's methods and statics ([models/Movie.js]) *)

(** [movieSchema.methods.isCacheExpired]: [new Date() > this.cacheExpiry] *)
Definition isCacheExpired (doc : MovieDoc) : M bool :=
  (t <- getNow ;; ret (toNumber (cacheExpiry doc) <? t))%js.

(** [movieSchema.statics.cleanExpiredCache], giving [deletedCount] *)
Definition Movie_cleanExpiredCache : M Z :=
  (t <- getNow ;; Movie_deleteMany E (expiredQuery t))%js.

(** *** The other routes of the movies router *)

Record MovieBody : Type := {
  mb_data : MovieDoc;
  mb_source : string
}.

(** [router.get('/:id')].  [result.movie] is a document whenever
    [getMovieById] returns, so the test [!result.movie] never holds. *)
Definition getMovie (id : string) : M (Reply MovieBody) :=
  try_catch
    (if negb (validImdbId id) then ret Status400
     else
       (result <- getMovieById E id ;;
        ret (Status200 {| mb_data := fst result; mb_source := snd result |}))%js)
    (fun message => if includes "not found" message then ret Status404 else ret Status500).

(** [router.get('/meta/genres')]; [$project] names the key [genre]. *)
Definition getGenres : M (Reply (list (string * Z))) :=
  try_catch
    (genres <- Movie_aggregate genreCounts ;;
     ret (Status200 genres))%js
    (fun _ => ret Status500).

Record YearsBody : Type := {
  y_min : nullable Z;
  y_max : nullable Z;
  y_available : list Z
}.

(** [router.get('/meta/years')] *)
Definition getYears : M (Reply YearsBody) :=
  try_catch
    (yearStats <- Movie_aggregate yearStatsPipeline ;;
     let stats := match yearStats with
                  | s :: _ => s
                  | [] => {| ys_minYear := Null; ys_maxYear := Null; ys_years := [] |}
                  end in
     ret (Status200 {| y_min := ys_minYear stats; y_max := ys_maxYear stats;
                       y_available := jsSort (fun a b => b - a) (ys_years stats) |}))%js
    (fun _ => ret Status500).

Record Cleared : Type := {
  d_message : string;
  d_deletedCount : Z
}.

(** [router.delete('/cache/expired')], behind the admin check *)
Definition clearExpired : M (Reply Cleared) :=
  try_catch
    (deletedCount <- cleanExpiredCache E ;;
     ret (Status200 {| d_message := "Cleared " ++ showZ deletedCount
                                    ++ " expired cache entries";
                       d_deletedCount := deletedCount |}))%js
    (fun _ => ret Status500).

(** [router.delete('/cache/all')], behind the admin check *)
Definition clearAll : M (Reply Cleared) :=
  try_catch
    (deletedCount <- Movie_deleteMany E everyQuery ;;
     ret (Status200 {| d_message := "Cleared all " ++ showZ deletedCount
                                    ++ " cache entries";
                       d_deletedCount := deletedCount |}))%js
    (fun _ => ret Status500).

(** What else can happen to a world, besides the [Step]s above: a call of
    one of the functions and routes of this part. *)
Inductive Upkeep : World -> World -> Prop :=
| upkeep_getCacheStats w o w' : getCacheStats w = (o, w') -> Upkeep w w'
| upkeep_runManualCleanup w o w' : runManualCleanup w = (o, w') -> Upkeep w w'
| upkeep_getCleanupStats w o w' : getCleanupStats w = (o, w') -> Upkeep w w'
| upkeep_isCacheExpired doc w o w' : isCacheExpired doc w = (o, w') -> Upkeep w w'
| upkeep_cleanExpiredCache w o w' : Movie_cleanExpiredCache w = (o, w') -> Upkeep w w'
| upkeep_getMovie id w o w' : getMovie id w = (o, w') -> Upkeep w w'
| upkeep_getGenres w o w' : getGenres w = (o, w') -> Upkeep w w'
| upkeep_getYears w o w' : getYears w = (o, w') -> Upkeep w w'
| upkeep_clearExpired w o w' : clearExpired w = (o, w') -> Upkeep w w'
| upkeep_clearAll w o w' : clearAll w = (o, w') -> Upkeep w w'.

(** The worlds a process that started with an empty collection can be in. *)
Inductive Live : World -> Prop :=
| live_start w : store w = [] -> Live w
| live_step w w' : Live w -> Step E w w' -> Live w'
| live_upkeep w w' : Live w -> Upkeep w w' -> Live w'.

End Maintenance.

(** ** More vocabulary *)

(** The store answers the next [n] operations. *)
Definition answers (E : Env) (w : World) (n : nat) : Prop :=
  forall k, (dbOps w <= k < dbOps w + n)%nat -> dbFault E k = false.

(** How many of the keys are [k], and the count a list of groups holds
    for [k]. *)
Definition tally {K} (eqb : K -> K -> bool) (k : K) (keys : list K) : Z :=
  Z.of_nat (List.length (filter (eqb k) keys)).

Definition countOf {K} (eqb : K -> K -> bool) (k : K) (groups : list (K * Z)) : Z :=
  match find (fun g => eqb (fst g) k) groups with
  | Some g => snd g
  | None => 0
  end.

(** How many times a genre is listed in the collection, and how many
    documents are of a year. *)
Definition occurrences (g : string) (docs : list MovieDoc) : Z :=
  tally String.eqb g (unwindGenre docs).

Definition ofYear (y : nullable Z) (docs : list MovieDoc) : Z :=
  tally (eqbNullable Z.eqb) y (map (fun d => year (data d)) docs).

(** [a] is a later year than [b]; any year is later than none. *)
Definition laterYear (a b : nullable Z) : Prop := cmpNullable Z.compare b a = Lt.

(** The number of documents a predicate selects. *)
Definition countIf (p : MovieDoc -> bool) (docs : list MovieDoc) : Z :=
  Z.of_nat (List.length (filter p docs)).

(** The document has a primary score below 5. *)
Definition lowRated (d : MovieDoc) : bool :=
  match docScore d with
  | Val q => isLt (Qcompare q (5 # 1))
  | Null => false
  end.

(** ** The seeding script: [seedMovies] *)

(** [sampleMovies] *)
Definition sampleMovies : list string :=
  ["The Matrix"; "Inception"; "The Dark Knight"; "Pulp Fiction"; "The Godfather";
   "Interstellar"; "Fight Club"; "The Shawshank Redemption"; "Goodfellas";
   "The Lord of the Rings"; "Star Wars"; "Jurassic Park"; "Titanic"; "Avatar";
   "The Avengers"].

(** The two counters [seedMovies] prints when the loop is over. *)
Record SeedCounts : Type := { successCount : Z; errorCount : Z }.

(** How a run of [seedMovies] ends: skipped for want of a key, through
    the loop with its counters, or in the outer [catch]. *)
Inductive SeedEnd : Type :=
| Skipped : SeedEnd
| Completed : SeedCounts -> SeedEnd
| Aborted : string -> SeedEnd.

(** [await new Promise(resolve => setTimeout(resolve, ms))] *)
Definition delay (ms : Z) : M unit :=
  fun w => (Ret tt, withNow w (now w + ms)).

Section Seeding.
Variable E : Env.

(** The body of the [for] loop. *)
Definition seedOne (counts : SeedCounts) (movieTitle : string) : M SeedCounts :=
  try_catch
    (searchResults <- searchMovies E movieTitle 1 false ;;
     let counts' :=
       if (0 <? List.length (r_movies searchResults))%nat
       then {| successCount := successCount counts + 1; errorCount := errorCount counts |}
       else {| successCount := successCount counts; errorCount := errorCount counts + 1 |} in
     _ <- delay 1000 ;;
     ret counts')%js
    (fun _ => ret {| successCount := successCount counts;
                     errorCount := errorCount counts + 1 |}).

Fixpoint seedLoop (titles : list string) (counts : SeedCounts) : M SeedCounts :=
  match titles with
  | [] => ret counts
  | movieTitle :: rest => (counts' <- seedOne counts movieTitle ;; seedLoop rest counts')%js
  end.

(** [seedMovies()]; [envKey] is [process.env.OMDB_API_KEY] at the time of
    the call, which the script reads after [dotenv] has loaded the [.env]
    file, whereas the service took its key when its module was loaded. *)
Definition seedMovies (envKey : option string) : M SeedEnd :=
  try_catch
    (match envKey with
     | None => ret Skipped
     | Some k =>
         if String.eqb k "" then ret Skipped
         else (counts <- seedLoop sampleMovies {| successCount := 0; errorCount := 0 |} ;;
               ret (Completed counts))%js
     end)
    (fun message => ret (Aborted message)).

End Seeding.

(** Criteria with one entry, or none. *)
Definition noCriteria : Criteria :=
  {| c_olderThan := None; c_rating := None; c_genre := None; c_year := None |}.

Definition ratedBelow (lo : Q) : Criteria :=
  {| c_olderThan := None; c_rating := Some {| rmin := Some lo; rmax := None |};
     c_genre := None; c_year := None |}.

Definition createdBefore (t : Z) : Criteria :=
  {| c_olderThan := Some t; c_rating := None; c_genre := None; c_year := None |}.

Definition genresAmong (l : list string) : Criteria :=
  {| c_olderThan := None; c_rating := None; c_genre := Some l; c_year := None |}.

(** A range that bounds nothing: each bound is missing or 0. *)
Definition unbounded {A} (truthy : A -> bool) (r : option (Range A)) : Prop :=
  match r with
  | None => True
  | Some rg => someTruthy truthy (rmin rg) = None /\ someTruthy truthy (rmax rg) = None
  end.

(** ** More examples *)

Module Cases.

(** A low-rated document, an old and expired one without a primary score,
    and a recent one. *)
Definition mixed : World :=
  {| store := [ Demo.docAt 1700000000000
                  (Demo.raw "tt0000003" "Low" "1980" "90 min" "Drama" "3.0" "30%");
                Demo.docAt 1690000000000
                  (Demo.raw "tt0000010" "Unrated" "2001" "95 min" "Drama" "N/A" "N/A");
                Demo.docAt 1699990000000 Demo.inception ];
     now := 1700000000000; dbOps := 0; apiLog := [] |}.

(** Two payloads of which one has a blank before its title, and the raw
    records they are normalized from; the sort by creation time, newest
    first. *)
Definition rawUp : OMDB.Movie :=
  Demo.raw "tt1049413" " up" "2009" "96 min" "Animation" "8.3" "98%".
Definition rawAlien : OMDB.Movie :=
  Demo.raw "tt0078748" "alien" "1979" "117 min" "Horror" "8.5" "93%".
Definition up : MovieData := transformOMDBData Demo.env rawUp.
Definition alien : MovieData := transformOMDBData Demo.env rawAlien.

Definition newestFirst : ListOptions :=
  {| o_search := None; o_genre := None; o_year := None; o_rating := None;
     o_sortBy := Some "createdAt"; o_sortOrder := Some "desc";
     o_page := Some 1; o_limit := Some 20 |}.

(** Four raw records, and the documents the store holds of them, in
    another order. *)
Definition fourRaw : list OMDB.Movie :=
  [ Demo.raw "tt0000012" "Banana" "2003" "95 min" "Drama" "6.5" "65%";
    Demo.raw "tt0000009" "High" "2020" "90 min" "Drama" "9.5" "95%";
    Demo.raw "tt0000007" "Middle" "2000" "90 min" "Drama" "7.0" "70%";
    Demo.raw "tt0000003" "Low" "1980" "90 min" "Drama" "3.0" "30%" ].
Definition fourDocs : list MovieDoc :=
  rev (map (Demo.docAt 1700000000000) fourRaw).




(** A provider that answers every detail request with [Response] "False":
    "Movie not found!" for one identifier, "Incorrect IMDb ID." for the
    others. *)
Definition envPicky : Env :=
  {| parseFloat := Demo.decimalFloat; parseDate := JS.parseInt; maxYear := 2030;
     omdbApiKey := Some "k"; httpSearch := Demo.search;
     httpDetail := fun _ id =>
                     HttpOk {| OMDB.dr_Response := "False";
                               OMDB.dr_Error := if String.eqb id "tt0000404"
                                                then "Movie not found!"
                                                else "Incorrect IMDb ID.";
                               OMDB.dr_data := Demo.untitled |};
     dbFault := fun _ => false;
     textScore := textScore Demo.env;
     resumes := Demo.inOrderOfIssue |}.

(** A provider that lists one identifier twice, under an event loop that
    completes the operations in the order of their issue, and under one
    that lets a callback finish before the next one is resumed. *)
Definition listedTwice (_ : nat) (_ : string) (_ : Z) : HttpResult OMDB.SearchResponse :=
  HttpOk {| OMDB.sr_Response := "True";
            OMDB.sr_Search := Some [Demo.item "tt1375666" "Inception";
                                    Demo.item "tt1375666" "Inception"];
            OMDB.sr_totalResults := "2"; OMDB.sr_Error := "" |}.

Definition envTwice (schedule : nat -> nat -> list nat -> nat) : Env :=
  {| parseFloat := Demo.decimalFloat; parseDate := JS.parseInt; maxYear := 2030;
     omdbApiKey := Some "k"; httpSearch := listedTwice; httpDetail := Demo.detail;
     dbFault := fun _ => false;
     textScore := textScore Demo.env;
     resumes := schedule |}.



End Cases.

(** * Proofs *)

(** ** The built-ins on examples *)

Example parseInt_year : JS.parseInt "2010" = Some 2010. Proof. reflexivity. Qed.
Example parseInt_range : JS.parseInt "2011-2019" = Some 2011. Proof. reflexivity. Qed.
Example parseInt_na : JS.parseInt "N/A" = None. Proof. reflexivity. Qed.
Example parseInt_hex : JS.parseInt " 0x1f" = Some 31. Proof. reflexivity. Qed.
Example split_genres :
  JS.split "Action, Adventure, Sci-Fi" = ["Action"; "Adventure"; "Sci-Fi"].
Proof. reflexivity. Qed.
Example split_empty : JS.split "" = [""]. Proof. reflexivity. Qed.
Example percent_first : JS.matchPercent "12 of 87%" = Some "87". Proof. reflexivity. Qed.
Example trim_both : JS.trim "  Up  " = "Up". Proof. reflexivity. Qed.
Example showNat_148 : showNat 148 = "148". Proof. reflexivity. Qed.
Example showNat_0 : showNat 0 = "0". Proof. reflexivity. Qed.

(** ** Numerals and the parsers *)

Lemma digit_char (k : nat) :
  (k < 10)%nat ->
  JS.isDigit (ascii_of_nat (48 + k)) = true /\
  JS.digitVal (ascii_of_nat (48 + k)) = Z.of_nat k.
Proof.
  intros H.
  do 10 (destruct k as [|k]; [split; reflexivity|]).
  lia.
Qed.

Lemma digit_not_special (c : ascii) :
  JS.isDigit c = true ->
  JS.isSpace c = false /\ Ascii.eqb c "-" = false /\ Ascii.eqb c "+" = false /\
  Ascii.eqb c "x" = false /\ Ascii.eqb c "X" = false /\ Ascii.eqb c "%" = false /\
  Ascii.eqb c "N" = false.
Proof.
  destruct c as [[] [] [] [] [] [] [] []]; vm_compute; intros H;
    try discriminate H; repeat split.
Qed.

Lemma showDigits_allDigits (f n : nat) (acc : string) :
  allDigits acc = true -> allDigits (showDigits f n acc) = true.
Proof.
  revert n acc. induction f as [|f IH]; intros n acc Hacc; cbn [showDigits]; auto.
  assert (Hd : allDigits (String (ascii_of_nat (48 + n mod 10)) acc) = true).
  { cbn [allDigits]. rewrite Hacc.
    destruct (digit_char (n mod 10)) as [-> _]; auto.
    apply Nat.mod_upper_bound. lia. }
  destruct (n <? 10)%nat; auto.
Qed.

Lemma showDigits_nonempty (f n : nat) (acc : string) :
  showDigits (S f) n acc <> EmptyString.
Proof.
  revert n acc. induction f as [|f IH]; intros n acc.
  - simpl. destruct (n <? 10)%nat; discriminate.
  - change (showDigits (S (S f)) n acc)
      with (let acc' := String (ascii_of_nat (48 + n mod 10)) acc in
            if (n <? 10)%nat then acc' else showDigits (S f) (n / 10) acc').
    cbv zeta. destruct (n <? 10)%nat; [discriminate | apply IH].
Qed.

Lemma showDigits_value (f n : nat) (acc : string) (a : Z) :
  (n < f)%nat ->
  exists k, JS.digitsVal a (showDigits f n acc) = JS.digitsVal (a * k + Z.of_nat n) acc.
Proof.
  revert n acc a. induction f as [|f IH]; intros n acc a Hn; [lia|].
  cbn [showDigits]. destruct (Nat.ltb_spec n 10) as [Hlt|Hge].
  - exists 10. cbn [JS.digitsVal].
    rewrite Nat.mod_small by lia.
    destruct (digit_char n Hlt) as [_ ->]. f_equal. lia.
  - assert (Hq : (n / 10 < f)%nat).
    { assert (n / 10 < n)%nat by (apply Nat.div_lt; lia). lia. }
    destruct (IH (n / 10)%nat (String (ascii_of_nat (48 + n mod 10)) acc) a Hq)
      as [k Hk].
    exists (k * 10). rewrite Hk. cbn [JS.digitsVal].
    destruct (digit_char (n mod 10)) as [_ ->].
    { apply Nat.mod_upper_bound. lia. }
    f_equal.
    pose proof (Nat.div_mod_eq n 10) as Hdm.
    lia.
Qed.

Lemma showNat_allDigits (n : nat) : allDigits (showNat n) = true.
Proof. apply showDigits_allDigits. reflexivity. Qed.

Lemma showNat_nonempty (n : nat) : showNat n <> EmptyString.
Proof. apply showDigits_nonempty. Qed.

Lemma showNat_value (n : nat) : JS.digitsVal 0 (showNat n) = Z.of_nat n.
Proof.
  destruct (showDigits_value (S n) n EmptyString 0) as [k Hk]; [lia|].
  unfold showNat. rewrite Hk. simpl. reflexivity.
Qed.

Lemma takeDigits_all (d : string) : allDigits d = true -> JS.takeDigits d = d.
Proof.
  induction d as [|c r IH]; simpl; auto.
  intros H. apply andb_prop in H as [Hc Hr]. rewrite Hc, IH; auto.
Qed.

Lemma takeDigits_app (d t : string) (c : ascii) :
  allDigits d = true -> JS.isDigit c = false ->
  JS.takeDigits (d ++ String c t) = d.
Proof.
  intros Hd Hc. induction d as [|x r IH]; simpl.
  - rewrite Hc. reflexivity.
  - simpl in Hd. apply andb_prop in Hd as [Hx Hr]. rewrite Hx, IH; auto.
Qed.

Lemma digitsVal_nonneg (d : string) (a : Z) :
  allDigits d = true -> 0 <= a -> 0 <= JS.digitsVal a d.
Proof.
  revert a. induction d as [|c r IH]; cbn [JS.digitsVal allDigits]; intros a Hd Ha; auto.
  apply andb_prop in Hd as [Hc Hr]. apply IH; auto.
  unfold JS.isDigit in Hc. cbv zeta in Hc. unfold JS.digitVal.
  apply andb_prop in Hc as [H1 H2]. apply Nat.leb_le in H1. lia.
Qed.

(** Up to 2^53 an integer is the number it denotes, and the number a
    natural number denotes is not negative. *)
Lemma toDouble_exact (n : Z) : Z.abs n <= 2 ^ 53 -> JS.toDouble n = n.
Proof.
  intros H. unfold JS.toDouble. cbv zeta.
  destruct (Z.ltb_spec (Z.abs n) (2 ^ 53)) as [Hlt|Hge]; [reflexivity|].
  assert (Ha : Z.abs n = 2 ^ 53) by lia.
  destruct (Z.abs_eq_or_opp n) as [Hn|Hn]; rewrite Hn in Ha.
  - rewrite Hn, Ha. subst n. vm_compute. reflexivity.
  - assert (n = - 2 ^ 53) as -> by lia. vm_compute. reflexivity.
Qed.

Lemma toDouble_nonneg (n : Z) : 0 <= n -> 0 <= JS.toDouble n.
Proof.
  intros H. unfold JS.toDouble. cbv zeta.
  destruct (Z.abs n <? 2 ^ 53); [exact H|].
  apply Z.mul_nonneg_nonneg; [apply Z.sgn_nonneg; exact H|].
  destruct (JS.Infinity <=? _); [unfold JS.Infinity; apply Z.pow_nonneg; lia|].
  apply Z.shiftl_nonneg.
  assert (Hq : 0 <= Z.shiftr (Z.abs n) (Z.log2 (Z.abs n) - 52))
    by (apply Z.shiftr_nonneg, Z.abs_nonneg).
  destruct (_ || _)%bool; lia.
Qed.

(** On a non-empty run of digits [parseInt] is the number the decimal value
    denotes. *)
Lemma parseInt_digits (d : string) :
  d <> EmptyString -> allDigits d = true ->
  JS.parseInt d = Some (JS.toDouble (JS.digitsVal 0 d)).
Proof.
  intros Hne Hd. destruct d as [|c r]; [congruence|].
  pose proof Hd as Hd'. simpl in Hd'. apply andb_prop in Hd' as [Hc Hr].
  destruct (digit_not_special c Hc) as (Hsp & Hm & Hp & _).
  assert (Hmag : JS.parseMagnitude (String c r)
                 = Some (JS.toDouble (JS.digitsVal 0 (String c r)))).
  { assert (Hgen : option_map JS.toDouble
                     match JS.takeDigits (String c r) with
                     | EmptyString => None
                     | d0 => Some (JS.digitsVal 0 d0)
                     end = Some (JS.toDouble (JS.digitsVal 0 (String c r)))).
    { rewrite (takeDigits_all (String c r) Hd). reflexivity. }
    unfold JS.parseMagnitude, JS.readMagnitude.
    destruct r as [|x r'].
    - destruct c as [[] [] [] [] [] [] [] []]; exact Hgen.
    - simpl in Hr. apply andb_prop in Hr as [Hx Hr'].
      destruct (digit_not_special x Hx) as (_ & _ & _ & Hx1 & Hx2 & _).
      destruct c as [[] [] [] [] [] [] [] []]; try exact Hgen.
      rewrite Hx1, Hx2. cbn [orb].
      rewrite (takeDigits_all _ Hd). reflexivity. }
  unfold JS.parseInt. cbn [JS.trimStart]. rewrite Hsp.
  destruct c as [[] [] [] [] [] [] [] []]; try exact Hmag; discriminate.
Qed.

Lemma parseInt_showNat (n : nat) :
  JS.parseInt (showNat n) = Some (JS.toDouble (Z.of_nat n)).
Proof.
  rewrite parseInt_digits.
  - rewrite showNat_value. reflexivity.
  - apply showNat_nonempty.
  - apply showNat_allDigits.
Qed.

(** ** Normalization *)

Lemma matchDigits_none (s : string) : hasDigit s = false -> JS.matchDigits s = None.
Proof.
  induction s as [|c r IH]; cbn [hasDigit JS.matchDigits]; auto.
  intros H. apply orb_false_elim in H as [Hc Hr]. rewrite Hc. auto.
Qed.

(** What [/(\d+)/] captures is a non-empty run of digits. *)
Lemma matchDigits_some (s d : string) :
  JS.matchDigits s = Some d -> d <> EmptyString /\ allDigits d = true.
Proof.
  induction s as [|c r IH]; cbn [JS.matchDigits]; [discriminate|].
  destruct (JS.isDigit c) eqn:Hc; auto.
  intros H. injection H as <-. cbn [JS.takeDigits]. rewrite Hc. split; [discriminate|].
  cbn [allDigits]. rewrite Hc. cbn [andb].
  clear. induction r as [|x r IH]; cbn [JS.takeDigits]; auto.
  destruct (JS.isDigit x) eqn:Hx; auto. cbn [allDigits]. rewrite Hx. auto.
Qed.

Lemma matchDigits_prefix (d t : string) (c : ascii) :
  d <> EmptyString -> allDigits d = true -> JS.isDigit c = false ->
  JS.matchDigits (d ++ String c t) = Some d.
Proof.
  intros Hne Hd Hc. destruct d as [|x r]; [congruence|].
  pose proof Hd as Hd'. cbn [allDigits] in Hd'. apply andb_prop in Hd' as [Hx _].
  change (String x r ++ String c t) with (String x (r ++ String c t)).
  cbn [JS.matchDigits]. rewrite Hx.
  change (String x (r ++ String c t)) with (String x r ++ String c t).
  rewrite takeDigits_app; auto.
Qed.

Lemma string_app_assoc (a b c : string) : (a ++ b) ++ c = a ++ (b ++ c).
Proof. induction a as [|x a IH]; simpl; congruence. Qed.

Lemma string_app_nil (a : string) : a ++ EmptyString = a.
Proof. induction a as [|x a IH]; simpl; congruence. Qed.

Lemma allDigits_app (a b : string) :
  allDigits (a ++ b) = allDigits a && allDigits b.
Proof.
  induction a as [|x a IH]; simpl; auto. rewrite IH. apply andb_assoc.
Qed.

Lemma app_nonempty (a : string) (x : ascii) : a ++ String x EmptyString <> EmptyString.
Proof. destruct a; discriminate. Qed.

Lemma scanPercent_run (d t run : string) :
  allDigits d = true -> run ++ d <> EmptyString ->
  JS.scanPercent run (d ++ String "%" t) = Some (run ++ d).
Proof.
  revert run. induction d as [|x r IH]; intros run Hd Hne.
  - rewrite string_app_nil in *. cbn.
    destruct (String.eqb_spec run EmptyString); [congruence|reflexivity].
  - cbn [allDigits] in Hd. apply andb_prop in Hd as [Hx Hr].
    change (String x r ++ String "%" t) with (String x (r ++ String "%" t)).
    cbn [JS.scanPercent]. rewrite Hx.
    rewrite IH; auto.
    + rewrite string_app_assoc. reflexivity.
    + rewrite string_app_assoc. exact Hne.
Qed.

(** What [/(\d+)%/] captures is a non-empty run of digits. *)
Lemma scanPercent_some (s run d : string) :
  allDigits run = true ->
  JS.scanPercent run s = Some d -> d <> EmptyString /\ allDigits d = true.
Proof.
  revert run. induction s as [|c r IH]; intros run Hrun; cbn [JS.scanPercent];
    [discriminate|].
  destruct (JS.isDigit c) eqn:Hc.
  - apply IH. rewrite allDigits_app, Hrun. cbn [allDigits]. rewrite Hc. reflexivity.
  - destruct (Ascii.eqb c "%" && negb (String.eqb run EmptyString))%bool eqn:Hp.
    + intros H. injection H as <-. apply andb_prop in Hp as [_ Hn].
      split; auto. intros ->. discriminate Hn.
    + apply IH. reflexivity.
Qed.

Lemma parseRuntime_minutes (n : nat) :
  parseRuntime (showNat n ++ " min") = Val (Some (JS.toDouble (Z.of_nat n))).
Proof.
  pose proof (showNat_nonempty n) as Hne. pose proof (showNat_allDigits n) as Hd.
  unfold parseRuntime.
  assert (Hs : (String.eqb (showNat n ++ " min") "" ||
                String.eqb (showNat n ++ " min") NA)%bool = false).
  { destruct (showNat n) as [|x r]; [congruence|].
    cbn [allDigits] in Hd. apply andb_prop in Hd as [Hx _].
    destruct (digit_not_special x Hx) as (_ & _ & _ & _ & _ & _ & HN).
    cbn. rewrite HN. reflexivity. }
  rewrite Hs, matchDigits_prefix by (auto; reflexivity).
  rewrite parseInt_showNat. reflexivity.
Qed.

Lemma parseRuntime_unparseable (s : string) :
  hasDigit s = false -> parseRuntime s = Null.
Proof.
  intros H. unfold parseRuntime.
  destruct (String.eqb s "" || String.eqb s NA)%bool; auto.
  rewrite matchDigits_none; auto.
Qed.

Lemma extractRating_percent (rs : list OMDB.RatingEntry) (r : OMDB.RatingEntry) (n : nat) :
  find (fun x => String.eqb (OMDB.Source x) "Rotten Tomatoes") rs = Some r ->
  OMDB.Value r = showNat n ++ "%" ->
  score (extractRating (Some rs) "Rotten Tomatoes")
  = Val (Some (JS.toDouble (Z.of_nat n))).
Proof.
  intros Hf Hv. unfold extractRating. rewrite Hf. cbn [String.eqb Ascii.eqb Bool.eqb].
  rewrite Hv. unfold JS.matchPercent.
  rewrite scanPercent_run.
  - cbn [String.append score]. rewrite parseInt_showNat. reflexivity.
  - apply showNat_allDigits.
  - cbn [String.append]. apply showNat_nonempty.
Qed.

Lemma extractRating_absent (rs : list OMDB.RatingEntry) (source0 : string) :
  find (fun x => String.eqb (OMDB.Source x) source0) rs = None ->
  score (extractRating (Some rs) source0) = Null.
Proof. intros H. unfold extractRating. rewrite H. reflexivity. Qed.

(** A secondary score is [null] or a non-negative integer, never [NaN]. *)
Lemma extractRating_integer (ratings : option (list OMDB.RatingEntry)) (source0 : string) :
  score (extractRating ratings source0) = Null \/
  exists n, 0 <= n /\ score (extractRating ratings source0) = Val (Some n).
Proof.
  unfold extractRating. destruct ratings as [rs|]; [|left; reflexivity].
  destruct (find _ rs) as [r|]; [|left; reflexivity].
  destruct (String.eqb source0 "Rotten Tomatoes").
  - unfold JS.matchPercent.
    destruct (JS.scanPercent EmptyString (OMDB.Value r)) as [d|] eqn:Hm;
      [|left; reflexivity].
    apply scanPercent_some in Hm as [Hne Hd]; [|reflexivity].
    right. exists (JS.toDouble (JS.digitsVal 0 d)). split.
    + apply toDouble_nonneg, digitsVal_nonneg; auto. lia.
    + cbn [score]. rewrite parseInt_digits; auto.
  - destruct (String.eqb source0 "Metacritic"); [|left; reflexivity].
    destruct (JS.matchDigits (OMDB.Value r)) as [d|] eqn:Hm; [|left; reflexivity].
    apply matchDigits_some in Hm as [Hne Hd].
    right. exists (JS.toDouble (JS.digitsVal 0 d)). split.
    + apply toDouble_nonneg, digitsVal_nonneg; auto. lia.
    + cbn [score]. rewrite parseInt_digits; auto.
Qed.

Lemma notNA_sentinel : notNA NA = false.
Proof. reflexivity. Qed.

(** C4, as stated, fails: the provider's title is copied as it is, so a
    record whose [Title] is the placeholder ['N/A'] is normalized to a
    record whose [title] is the literal placeholder. *)
Lemma C4_title_keeps_sentinel :
  OMDB.Title Demo.untitled = NA /\
  title (transformOMDBData Demo.env Demo.untitled) = NA /\
  title (transformOMDBData Demo.env Demo.untitled) <> "".
Proof. repeat split. discriminate. Qed.

(** C4 (amended): normalization depends on the raw record and on the host's
    two parsers only, not on the key, the provider, the store or the event
    loop; the title and the identifier are copied as the provider gives
    them, and so is the type, which is ["movie"] when the record has none;
    the placeholder ['N/A'] in any of the guarded fields (year, release
    date, runtime, the six delimited lists, plot, primary score and votes,
    poster, content rating, a secondary rating's value) becomes [null], the
    empty list or the empty string; a runtime ["NNN min"] becomes the number
    NNN, which is the integer NNN up to 2^53 and the nearest double beyond,
    and a runtime without a digit becomes [null]; a Rotten Tomatoes value
    ["NN%"] with NN at most 100 becomes the integer NN; a secondary score is
    never [NaN] or negative, and it is [null] when the source is absent from
    the provider's list or the list is missing. *)
Theorem C4_normalization_contract (E : Env) (o : OMDB.Movie) :
  let m := transformOMDBData E o in
  (forall E', (forall s, parseFloat E' s = parseFloat E s) ->
              (forall s, parseDate E' s = parseDate E s) ->
              transformOMDBData E' o = m) /\
  (title m = OMDB.Title o /\ imdbID m = OMDB.imdbID o /\
   (OMDB.Type_ o <> "" -> type m = OMDB.Type_ o) /\
   (OMDB.Type_ o = "" -> type m = "movie")) /\
  ((OMDB.Year o = NA -> year m = Null) /\
   (OMDB.Released o = NA -> released m = Null) /\
   (OMDB.Runtime o = NA -> runtime m = Null) /\
   (OMDB.Genre o = NA -> genre m = []) /\
   (OMDB.Director o = NA -> director m = []) /\
   (OMDB.Writer o = NA -> writer m = []) /\
   (OMDB.Actors o = NA -> actors m = []) /\
   (OMDB.Plot o = NA -> plot m = "") /\
   (OMDB.Language o = NA -> language m = []) /\
   (OMDB.Country o = NA -> country m = []) /\
   (OMDB.imdbRating o = NA -> imdb_score (imdb (rating m)) = Null) /\
   (OMDB.imdbVotes o = NA -> imdb_votes (imdb (rating m)) = Null) /\
   (OMDB.Poster o = NA -> poster m = Null) /\
   (OMDB.Rated o = NA -> rated m = Null) /\
   (forall rs r, OMDB.Ratings o = Some rs ->
                 find (fun x => String.eqb (OMDB.Source x) "Rotten Tomatoes") rs = Some r ->
                 OMDB.Value r = NA -> score (rottenTomatoes (rating m)) = Null) /\
   (forall rs r, OMDB.Ratings o = Some rs ->
                 find (fun x => String.eqb (OMDB.Source x) "Metacritic") rs = Some r ->
                 OMDB.Value r = NA -> score (metacritic (rating m)) = Null)) /\
  ((forall n : nat, OMDB.Runtime o = showNat n ++ " min" ->
                    runtime m = Val (Some (JS.toDouble (Z.of_nat n))) /\
                    (Z.of_nat n <= 2 ^ 53 -> runtime m = Val (Some (Z.of_nat n)))) /\
   (hasDigit (OMDB.Runtime o) = false -> runtime m = Null)) /\
  ((forall rs r (n : nat),
       OMDB.Ratings o = Some rs ->
       find (fun x => String.eqb (OMDB.Source x) "Rotten Tomatoes") rs = Some r ->
       OMDB.Value r = showNat n ++ "%" -> (n <= 100)%nat ->
       exists p, score (rottenTomatoes (rating m)) = Val (Some p) /\
                 p = Z.of_nat n /\ 0 <= p <= 100) /\
   (score (rottenTomatoes (rating m)) = Null \/
    exists p, 0 <= p /\ score (rottenTomatoes (rating m)) = Val (Some p)) /\
   (score (metacritic (rating m)) = Null \/
    exists p, 0 <= p /\ score (metacritic (rating m)) = Val (Some p))) /\
  ((OMDB.Ratings o = None ->
    score (rottenTomatoes (rating m)) = Null /\ score (metacritic (rating m)) = Null) /\
   (forall rs, OMDB.Ratings o = Some rs ->
               find (fun x => String.eqb (OMDB.Source x) "Rotten Tomatoes") rs = None ->
               score (rottenTomatoes (rating m)) = Null) /\
   (forall rs, OMDB.Ratings o = Some rs ->
               find (fun x => String.eqb (OMDB.Source x) "Metacritic") rs = None ->
               score (metacritic (rating m)) = Null)).
Proof.
  intros m. subst m. split; [|split; [|split; [|split; [|split]]]].
  - intros E' Hf Hd. unfold transformOMDBData. rewrite Hf, Hd. reflexivity.
  - cbn [transformOMDBData title imdbID type]. split; [reflexivity|].
    split; [reflexivity|]. split.
    + intros Hne. destruct (String.eqb_spec (OMDB.Type_ o) ""); [contradiction|].
      reflexivity.
    + intros ->. reflexivity.
  - cbn [transformOMDBData year released runtime genre director writer actors plot
         language country rating imdb imdb_score imdb_votes poster rated
         rottenTomatoes metacritic].
    repeat split; try (intros ->; reflexivity).
    + intros rs r Hrs Hf Hv. rewrite Hrs. unfold extractRating. rewrite Hf, Hv.
      reflexivity.
    + intros rs r Hrs Hf Hv. rewrite Hrs. unfold extractRating. rewrite Hf, Hv.
      reflexivity.
  - cbn [transformOMDBData runtime]. split.
    + intros n ->. rewrite parseRuntime_minutes. split; [reflexivity|].
      intros Hn. rewrite toDouble_exact; [reflexivity|]. rewrite Z.abs_eq; lia.
    + apply parseRuntime_unparseable.
  - cbn [transformOMDBData rating rottenTomatoes metacritic]. split; [|split].
    + intros rs r n Hrs Hf Hv Hn. rewrite Hrs. exists (Z.of_nat n).
      split; [|split; [reflexivity|lia]].
      rewrite (extractRating_percent rs r n Hf Hv), toDouble_exact; [reflexivity|].
      rewrite Z.abs_eq; lia.
    + apply extractRating_integer.
    + apply extractRating_integer.
  - cbn [transformOMDBData rating rottenTomatoes metacritic]. split; [|split].
    + intros ->. split; reflexivity.
    + intros rs -> Hf. apply extractRating_absent; auto.
    + intros rs -> Hf. apply extractRating_absent; auto.
Qed.

(** The contract at work on a concrete record. *)
Lemma C4_normalization_witness :
  runtime (transformOMDBData Demo.env Demo.inception) = Val (Some 148) /\
  (exists p, score (rottenTomatoes (rating (transformOMDBData Demo.env Demo.inception)))
             = Val (Some p) /\ p = 87 /\ 0 <= p <= 100) /\
  poster (transformOMDBData Demo.env Demo.inception) = Null.
Proof.
  pose proof (C4_normalization_contract Demo.env Demo.inception) as H.
  cbv zeta in H. destruct H as (_ & _ & Hna & (Hrt & _) & (Hpct & _) & _).
  split; [|split].
  - apply (Hrt 148%nat eq_refl). discriminate.
  - exact (Hpct _ _ 87%nat eq_refl eq_refl eq_refl ltac:(repeat constructor)).
  - destruct Hna as (_ & _ & _ & _ & _ & _ & _ & _ & _ & _ & _ & _ & Hp & _).
    exact (Hp eq_refl).
Defined.

(** ** Reasoning about the effects *)

Lemma bind_inv {A B} (c : M A) (k : A -> M B) (w : World) (o : Outcome B) (w' : World) :
  bind c k w = (o, w') ->
  (exists a w1, c w = (Ret a, w1) /\ k a w1 = (o, w')) \/
  (exists e, c w = (Threw e, w') /\ o = Threw e).
Proof.
  unfold bind. destruct (c w) as [[e|a] w1]; intros H.
  - right. exists e. injection H as <- <-. auto.
  - left. exists a, w1. auto.
Qed.

Lemma try_catch_inv {A} (c : M A) (h : string -> M A) (w : World) (o : Outcome A)
    (w' : World) :
  try_catch c h w = (o, w') ->
  (exists a, c w = (Ret a, w') /\ o = Ret a) \/
  (exists e w1, c w = (Threw e, w1) /\ h e w1 = (o, w')).
Proof.
  unfold try_catch. destruct (c w) as [[e|a] w1]; intros H.
  - right. exists e, w1. auto.
  - left. exists a. injection H as <- <-. auto.
Qed.

Lemma dbOp_inv (E : Env) {A} (f : list MovieDoc -> A * list MovieDoc) (w : World)
    (o : Outcome A) (w' : World) :
  dbOp E f w = (o, w') ->
  (dbFault E (dbOps w) = true /\ (exists e, o = Threw e) /\ w' = tick w) \/
  (dbFault E (dbOps w) = false /\ o = Ret (fst (f (store w))) /\
   w' = withStore (tick w) (snd (f (store w)))).
Proof.
  unfold dbOp. destruct (dbFault E (dbOps w)); intros H.
  - left. injection H as <- <-. eauto.
  - right. destruct (f (store w)) as [a s]. injection H as <- <-. auto.
Qed.

Lemma Keeps_ret P {A} (a : A) : Keeps P (ret a).
Proof. intros w o w' H. injection H as _ <-. auto. Qed.

Lemma Keeps_throw P {A} (e : string) : Keeps P (@throw A e).
Proof. intros w o w' H. injection H as _ <-. auto. Qed.

Lemma Keeps_getNow P : Keeps P getNow.
Proof. intros w o w' H. injection H as _ <-. auto. Qed.

Lemma Keeps_bind P {A B} (c : M A) (k : A -> M B) :
  Keeps P c -> (forall a, Keeps P (k a)) -> Keeps P (bind c k).
Proof.
  intros Hc Hk w o w' H HP. apply bind_inv in H as [(a & w1 & H1 & H2)|(e & H1 & _)].
  - eapply Hk; eauto.
  - eapply Hc; eauto.
Qed.

(** The same, when the continuation may rely on a fact [R] about what [c]
    returns. *)
Lemma Keeps_bind_with P {A B} (R : A -> Prop) (c : M A) (k : A -> M B) :
  (forall w a w1, c w = (Ret a, w1) -> R a) ->
  Keeps P c -> (forall a, R a -> Keeps P (k a)) -> Keeps P (bind c k).
Proof.
  intros HR Hc Hk w o w' H HP. apply bind_inv in H as [(a & w1 & H1 & H2)|(e & H1 & _)].
  - eapply Hk; eauto.
  - eapply Hc; eauto.
Qed.

Lemma Keeps_try_catch P {A} (c : M A) (h : string -> M A) :
  Keeps P c -> (forall e, Keeps P (h e)) -> Keeps P (try_catch c h).
Proof.
  intros Hc Hh w o w' H HP.
  apply try_catch_inv in H as [(a & H1 & _)|(e & w1 & H1 & H2)].
  - eapply Hc; eauto.
  - eapply Hh; eauto.
Qed.

Lemma Keeps_promiseAll2 P {A B} (a : M A) (b : M B) :
  Keeps P a -> Keeps P b -> Keeps P (promiseAll2 a b).
Proof.
  intros Ha Hb w o w' H HP. unfold promiseAll2 in H.
  destruct (a w) as [oa w1] eqn:H1. destruct (b w1) as [ob w2] eqn:H2.
  assert (w' = w2) as ->.
  { destruct oa, ob; injection H as _ <-; reflexivity. }
  eapply Hb; eauto.
Qed.

Lemma Keeps_dbOp (E : Env) (P : World -> Prop) {A}
    (f : list MovieDoc -> A * list MovieDoc) :
  Framed P ->
  (forall w, P w -> P (withStore w (snd (f (store w))))) -> Keeps P (dbOp E f).
Proof.
  intros [Ht _] Hf w o w' H HP.
  apply dbOp_inv in H as [(_ & _ & ->)|(_ & _ & ->)]; auto.
  apply (Hf (tick w)). auto.
Qed.

Lemma Keeps_axiosSearch (E : Env) (P : World -> Prop) term page :
  Framed P -> Keeps P (axiosSearch E term page).
Proof.
  intros [_ Hl] w o w' H HP. unfold axiosSearch in H.
  destruct (httpSearch E _ term page); injection H as _ <-; auto.
Qed.

Lemma Keeps_axiosDetail (E : Env) (P : World -> Prop) id :
  Framed P -> Keeps P (axiosDetail E id).
Proof.
  intros [_ Hl] w o w' H HP. unfold axiosDetail in H.
  destruct (httpDetail E _ id); injection H as _ <-; auto.
Qed.

Lemma withStore_same (w : World) : withStore w (store w) = w.
Proof. destruct w. reflexivity. Qed.

(** ** Invariants *)

Section Invariants.

Variable E : Env.
Variable P : World -> Prop.
Hypothesis HP : Closed E P.

Let HF : Framed P := closed_framed E P HP.

Ltac keeps_step :=
  first
    [ apply Keeps_ret | apply Keeps_throw | apply Keeps_getNow
    | apply Keeps_axiosSearch; exact HF | apply Keeps_axiosDetail; exact HF
    | apply Keeps_try_catch | apply Keeps_bind | apply Keeps_promiseAll2
    | apply Keeps_dbOp; [exact HF|]; intros ? ?; cbn [snd];
      rewrite withStore_same; assumption ].

Ltac keeps := repeat (intros; keeps_step).

Lemma Keeps_read {A} (f : list MovieDoc -> A) :
  Keeps P (dbOp E (fun s => (f s, s))).
Proof. keeps. Qed.

Lemma Keeps_findOne q : Keeps P (Movie_findOne E q).
Proof. unfold Movie_findOne. keeps. Qed.

Lemma Keeps_countDocuments q : Keeps P (Movie_countDocuments E q).
Proof. unfold Movie_countDocuments. keeps. Qed.

Lemma Keeps_find q s skip limit : Keeps P (Movie_find E q s skip limit).
Proof. unfold Movie_find. destruct (skip <? 0); keeps. Qed.

Lemma Keeps_deleteMany q : Keeps P (Movie_deleteMany E q).
Proof.
  unfold Movie_deleteMany. apply Keeps_dbOp; [exact HF|]. intros w Hw. cbn [snd].
  apply (closed_filter E P HP); auto.
Qed.

Lemma Keeps_save_new t m : Keeps P (save_new E (freshDoc t m)).
Proof.
  unfold save_new. cbn [data freshDoc].
  destruct (validate E (castData m)) eqn:Hv; cbn [negb]; [|keeps].
  apply Keeps_bind.
  - apply Keeps_dbOp; [exact HF|]. intros w Hw. cbn [imdbID castData].
    destruct (existsb (hasId (imdbID m)) (store w)) eqn:Hex; cbn [snd].
    + rewrite withStore_same. exact Hw.
    + apply (closed_insert E P HP); auto.
  - intros []; keeps.
Qed.

Lemma Keeps_save_refreshed pos old m t :
  Keeps P (save_existing E pos (setExpiry (assign old m) (t + TTL) t)).
Proof.
  unfold save_existing. cbn [data setExpiry assign].
  destruct (validate E (castData m)) eqn:Hv; cbn [negb]; [|keeps].
  apply Keeps_bind; [keeps|]. intros t'. apply Keeps_bind.
  - apply Keeps_dbOp; [exact HF|]. intros w Hw. cbn [imdbID castData].
    destruct (existsb (hasId (imdbID m)) (removeAt pos (store w))) eqn:Hex; cbn [snd].
    + rewrite withStore_same. exact Hw.
    + apply (closed_replace E P HP); auto.
  - intros []; keeps.
Qed.

Lemma newMovie_fresh m w d w1 :
  newMovie m w = (Ret d, w1) -> exists t, d = freshDoc t m.
Proof. intros H. injection H as <- _. eauto. Qed.

Lemma Keeps_saveMovieToCache m : Keeps P (saveMovieToCache E m).
Proof.
  unfold saveMovieToCache. apply Keeps_try_catch; [|keeps].
  apply Keeps_bind; [apply Keeps_findOne|].
  intros [[pos old]|].
  - apply Keeps_bind; [keeps|]. intros t. apply Keeps_save_refreshed.
  - apply (Keeps_bind_with _ (fun d => exists t, d = freshDoc t m)).
    + apply newMovie_fresh.
    + unfold newMovie. keeps.
    + intros d [t ->]. apply Keeps_save_new.
Qed.

Lemma Keeps_getMovieDetailsOMDB id : Keeps P (getMovieDetailsOMDB E id).
Proof.
  unfold getMovieDetailsOMDB. destruct (keyMissing E); keeps.
  intros response. destruct (String.eqb _ "False"); keeps.
Qed.

Lemma Keeps_searchMoviesOMDB term page : Keeps P (searchMoviesOMDB E term page).
Proof.
  unfold searchMoviesOMDB. destruct (keyMissing E); keeps.
  intros response. destruct (String.eqb _ "False"); keeps.
Qed.

Lemma Keeps_cacheOne c : Keeps P (cacheOne E c).
Proof.
  unfold cacheOne. apply Keeps_try_catch; [|keeps].
  apply Keeps_bind; [apply Keeps_getMovieDetailsOMDB|]. intros m.
  apply Keeps_bind; [apply Keeps_saveMovieToCache|]. keeps.
Qed.

Lemma Keeps_lookupCache term page useCache :
  Keeps P (lookupCache E term page useCache).
Proof.
  unfold lookupCache. destruct useCache; [|keeps].
  apply Keeps_bind; [keeps|]. intros t.
  apply Keeps_bind; [apply Keeps_find|]. intros l.
  destruct (0 <? List.length l)%nat; keeps.
Qed.

Lemma Keeps_saveFound m existingMovie : Keeps P (saveFound E m existingMovie).
Proof.
  unfold saveFound. destruct existingMovie as [[pos old]|].
  - apply Keeps_bind; [keeps|]. intros t. apply Keeps_save_refreshed.
  - apply (Keeps_bind_with _ (fun d => exists t, d = freshDoc t m)).
    + apply newMovie_fresh.
    + unfold newMovie. keeps.
    + intros d [t ->]. apply Keeps_save_new.
Qed.

Lemma Keeps_startCallback c w c' w' : startCallback E c w = (c', w') -> P w -> P w'.
Proof.
  unfold startCallback. intros H Hw.
  destruct (getMovieDetailsOMDB E (OMDB.s_imdbID c) w) as [[e|m] w1] eqn:Hd;
    injection H as _ <-; eapply Keeps_getMovieDetailsOMDB; eauto.
Qed.

Lemma Keeps_startAll movies : forall w cs w', startAll E movies w = (cs, w') -> P w -> P w'.
Proof.
  induction movies as [|c r IH]; intros w cs w' H Hw; cbn [startAll] in H.
  - injection H as _ <-. exact Hw.
  - destruct (startCallback E c w) as [c1 w1] eqn:Hc.
    destruct (startAll E r w1) as [cs1 w2] eqn:Hr. injection H as _ <-.
    eapply IH; eauto. eapply Keeps_startCallback; eauto.
Qed.

Lemma Keeps_resume c w c' w' : resume E c w = (c', w') -> P w -> P w'.
Proof.
  destruct c as [o|m|m existingMovie]; cbn [resume]; intros H Hw.
  - injection H as _ <-. exact Hw.
  - destruct (Movie_findOne E (idQuery (imdbID m)) w) as [[e|x] w1] eqn:Hf;
      injection H as _ <-; eapply Keeps_findOne; eauto.
  - destruct (saveFound E m existingMovie w) as [[e|x] w1] eqn:Hs;
      injection H as _ <-; eapply Keeps_saveFound; eauto.
Qed.

Lemma Keeps_eventLoop turns : forall cs w cs' w',
  eventLoop E turns cs w = (cs', w') -> P w -> P w'.
Proof.
  induction turns as [|n IH]; intros cs w cs' w' H Hw; cbn [eventLoop] in H.
  - injection H as _ <-. exact Hw.
  - destruct (nextResumed E cs w) as [i|]; [|injection H as _ <-; exact Hw].
    destruct (resume E (nth i cs (Settled (Ret None))) w) as [c1 w1] eqn:Hr.
    eapply IH; eauto. eapply Keeps_resume; eauto.
Qed.

Lemma Keeps_fetchAndCache term page : Keeps P (fetchAndCache E term page).
Proof.
  unfold fetchAndCache. apply Keeps_bind; [apply Keeps_searchMoviesOMDB|].
  intros api. destruct (0 <? List.length (a_movies api))%nat; [|keeps].
  intros w o w' H Hw.
  destruct (startAll E (a_movies api) w) as [cs w1] eqn:Hstart.
  unfold allSettled in H.
  destruct (eventLoop E (2 * List.length cs) cs w1) as [cs' w2] eqn:Hloop.
  injection H as _ <-.
  eapply Keeps_eventLoop; eauto. eapply Keeps_startAll; eauto.
Qed.

Lemma Keeps_searchMovies term page useCache :
  Keeps P (searchMovies E term page useCache).
Proof.
  unfold searchMovies. apply Keeps_try_catch; [|keeps].
  apply Keeps_bind; [apply Keeps_lookupCache|].
  intros [r|]; [keeps|apply Keeps_fetchAndCache].
Qed.

Lemma Keeps_getMovieById id : Keeps P (getMovieById E id).
Proof.
  unfold getMovieById. apply Keeps_try_catch; [|keeps].
  apply Keeps_bind; [keeps|]. intros t.
  apply Keeps_bind; [apply Keeps_findOne|].
  intros [[pos d]|]; [keeps|].
  apply Keeps_bind; [apply Keeps_getMovieDetailsOMDB|]. intros m.
  apply Keeps_bind; [apply Keeps_saveMovieToCache|]. keeps.
Qed.

Lemma Keeps_getCachedMovies o : Keeps P (getCachedMovies E o).
Proof.
  unfold getCachedMovies. apply Keeps_try_catch; [|keeps].
  apply Keeps_bind; [keeps|]. intros t.
  apply Keeps_bind; [|keeps].
  apply Keeps_promiseAll2; [apply Keeps_find|apply Keeps_countDocuments].
Qed.

Lemma Keeps_cleanExpiredCache : Keeps P (cleanExpiredCache E).
Proof.
  unfold cleanExpiredCache. apply Keeps_try_catch; [|keeps].
  apply Keeps_bind; [keeps|]. intros t.
  apply Keeps_bind; [apply Keeps_deleteMany|]. keeps.
Qed.

Lemma Keeps_cleanupByCriteria c : Keeps P (cleanupByCriteria E c).
Proof.
  unfold cleanupByCriteria. apply Keeps_try_catch; [|keeps].
  apply Keeps_bind; [apply Keeps_deleteMany|]. keeps.
Qed.

Lemma Keeps_getMovies q : Keeps P (getMovies E q).
Proof.
  unfold getMovies. destruct (searchSchema E q) as [v|]; [|keeps].
  apply Keeps_try_catch; [|keeps].
  destruct (someTruthy truthyStr (o_search v)) as [term|].
  - apply Keeps_bind; [apply Keeps_searchMovies|]. keeps.
  - apply Keeps_bind; [apply Keeps_getCachedMovies|]. keeps.
Qed.

Lemma Keeps_putMovie id : Keeps P (putMovie E id).
Proof.
  unfold putMovie. apply Keeps_try_catch; [|keeps].
  apply Keeps_bind; [apply Keeps_findOne|].
  intros [[pos old]|]; [|keeps].
  apply Keeps_bind; [apply Keeps_getMovieDetailsOMDB|]. intros m.
  apply Keeps_bind; [keeps|]. intros t.
  apply Keeps_bind; [apply Keeps_save_refreshed|]. keeps.
Qed.

Lemma Keeps_deleteMovie id : Keeps P (deleteMovie E id).
Proof.
  unfold deleteMovie. apply Keeps_try_catch; [|keeps].
  apply Keeps_bind; [|intros [d|]; keeps].
  apply Keeps_dbOp; [exact HF|]. intros w Hw.
  destruct (findIndex (matches E (idQuery id)) (store w) 0) as [[pos d]|]; cbn [snd].
  - apply (closed_remove E P HP); auto.
  - rewrite withStore_same. exact Hw.
Qed.

End Invariants.

(** ** Lists rewritten in place *)

Lemma findIndex_ext {A} (p q : A -> bool) (l : list A) (i : nat) :
  (forall x, p x = q x) -> findIndex p l i = findIndex q l i.
Proof.
  intros H. revert i. induction l as [|x r IH]; intros i; cbn [findIndex]; auto.
  rewrite H. destruct (q x); auto.
Qed.

Lemma findIndex_none {A} (p : A -> bool) (l : list A) (i : nat) :
  findIndex p l i = None <-> existsb p l = false.
Proof.
  revert i. induction l as [|x r IH]; intros i; cbn [findIndex existsb].
  - tauto.
  - destruct (p x); cbn [orb]; [split; discriminate|apply IH].
Qed.

Lemma findIndex_some {A} (p : A -> bool) (l : list A) (i pos : nat) (x : A) :
  findIndex p l i = Some (pos, x) ->
  (i <= pos)%nat /\ nth_error l (pos - i) = Some x /\ p x = true.
Proof.
  revert i. induction l as [|y r IH]; intros i; cbn [findIndex]; [discriminate|].
  destruct (p y) eqn:Hy.
  - intros H. injection H as <- <-. rewrite Nat.sub_diag. auto.
  - intros H. apply IH in H as (Hle & Hn & Hp).
    split; [lia|]. split; auto.
    replace (pos - i)%nat with (S (pos - S i)) by lia. exact Hn.
Qed.

Lemma replaceAt_length {A} (i : nat) (x : A) (l : list A) :
  List.length (replaceAt i x l) = List.length l.
Proof.
  revert i. induction l as [|y r IH]; intros [|i]; cbn; auto.
Qed.

Lemma In_replaceAt {A} (i : nat) (x y : A) (l : list A) :
  In y (replaceAt i x l) -> y = x \/ In y (removeAt i l).
Proof.
  revert i. induction l as [|z r IH]; intros [|i]; cbn; try tauto.
  - intros [H|H]; auto.
  - intros [H|H]; auto. apply IH in H. tauto.
Qed.

Lemma replaceAt_In {A} (i : nat) (x old : A) (l : list A) :
  nth_error l i = Some old -> In x (replaceAt i x l).
Proof.
  revert i. induction l as [|z r IH]; intros [|i]; cbn; try discriminate; auto.
Qed.

Lemma In_removeAt {A} (i : nat) (y : A) (l : list A) :
  In y (removeAt i l) -> In y l.
Proof.
  revert i. induction l as [|z r IH]; intros [|i]; cbn; try tauto.
  intros [H|H]; auto. right. eapply IH; eauto.
Qed.

Lemma Forall_replaceAt {A} (P : A -> Prop) (i : nat) (x : A) (l : list A) :
  Forall P l -> P x -> Forall P (replaceAt i x l).
Proof.
  intros Hl Hx. apply Forall_forall. intros y Hy.
  apply In_replaceAt in Hy as [->|Hy]; auto.
  rewrite Forall_forall in Hl. apply Hl. eapply In_removeAt; eauto.
Qed.

Lemma Forall_removeAt {A} (P : A -> Prop) (i : nat) (l : list A) :
  Forall P l -> Forall P (removeAt i l).
Proof.
  intros Hl. apply Forall_forall. intros y Hy.
  rewrite Forall_forall in Hl. apply Hl. eapply In_removeAt; eauto.
Qed.

Lemma Forall_filter_keep {A} (P : A -> Prop) (p : A -> bool) (l : list A) :
  Forall P l -> Forall P (filter p l).
Proof.
  intros Hl. apply Forall_forall. intros y Hy. apply filter_In in Hy as [Hy _].
  rewrite Forall_forall in Hl. auto.
Qed.

Lemma hasId_idOf (id : string) (d : MovieDoc) : hasId id d = true <-> idOf d = id.
Proof. unfold hasId, idOf. apply String.eqb_eq. Qed.

Lemma no_id_iff (id : string) (s : list MovieDoc) :
  existsb (hasId id) s = false <-> ~ In id (map idOf s).
Proof.
  split.
  - intros H Hin. apply in_map_iff in Hin as (d & Hd & Hin).
    assert (existsb (hasId id) s = true); [|congruence].
    apply existsb_exists. exists d. split; auto. apply hasId_idOf. auto.
  - intros H. destruct (existsb (hasId id) s) eqn:Hex; auto.
    apply existsb_exists in Hex as (d & Hin & Hd). exfalso. apply H.
    apply in_map_iff. exists d. split; auto. apply hasId_idOf. auto.
Qed.

Lemma NoDup_ids_filter (p : MovieDoc -> bool) (s : list MovieDoc) :
  NoDup (map idOf s) -> NoDup (map idOf (filter p s)).
Proof.
  induction s as [|d r IH]; cbn; auto.
  intros H. inversion H as [|x l Hn Hr]; subst.
  destruct (p d); cbn; auto. constructor; auto.
  intros Hin. apply Hn. apply in_map_iff in Hin as (y & Hy & Hin).
  apply filter_In in Hin as [Hin _]. apply in_map_iff. eauto.
Qed.

Lemma NoDup_ids_removeAt (i : nat) (s : list MovieDoc) :
  NoDup (map idOf s) -> NoDup (map idOf (removeAt i s)).
Proof.
  revert i. induction s as [|d r IH]; intros [|i]; cbn; auto.
  - intros H. inversion H; auto.
  - intros H. inversion H as [|x l Hn Hr]; subst. constructor; auto.
    intros Hin. apply Hn. apply in_map_iff in Hin as (y & Hy & Hin).
    apply in_map_iff. exists y. split; auto. eapply In_removeAt; eauto.
Qed.

Lemma NoDup_ids_replaceAt (i : nat) (x : MovieDoc) (s : list MovieDoc) :
  NoDup (map idOf s) -> ~ In (idOf x) (map idOf (removeAt i s)) ->
  NoDup (map idOf (replaceAt i x s)).
Proof.
  revert i. induction s as [|d r IH]; intros [|i]; cbn; auto.
  - intros H Hn. inversion H; subst. constructor; auto.
  - intros H Hn. inversion H as [|y l Hd Hr]; subst. constructor.
    + intros Hin. apply in_map_iff in Hin as (y & Hy & Hin).
      apply In_replaceAt in Hin as [->|Hin].
      * apply Hn. left. auto.
      * apply Hd. apply in_map_iff. exists y. split; auto.
        eapply In_removeAt; eauto.
    + apply IH; auto.
Qed.

Lemma NoDup_snoc {A} (l : list A) (x : A) : NoDup l -> ~ In x l -> NoDup (l ++ [x])%list.
Proof.
  induction l as [|y r IH]; cbn; intros Hl Hx.
  - constructor; auto.
  - inversion Hl as [|z l' Hn Hr]; subst. constructor.
    + rewrite in_app_iff. intros [Hin|[Hin|[]]]; auto.
    + apply IH; auto.
Qed.

(** ** Three invariants of the collection *)

Lemma Framed_onStore (Q : list MovieDoc -> Prop) : Framed (onStore Q).
Proof. split; intros; assumption. Qed.

Lemma Closed_expiry (E : Env) : Closed E (onStore (Forall expirySet)).
Proof.
  constructor; unfold onStore; cbn [store withStore].
  - split; intros; assumption.
  - intros w t m Hs _ _. apply Forall_app. split; auto.
    constructor; [reflexivity|constructor].
  - intros w pos old m t t' Hs _ _. apply Forall_replaceAt; auto. reflexivity.
  - intros. apply Forall_filter_keep; auto.
  - intros. apply Forall_removeAt; auto.
Qed.

Lemma Closed_unique (E : Env) : Closed E (onStore uniqueIds).
Proof.
  constructor; unfold onStore, uniqueIds; cbn [store withStore].
  - split; intros; assumption.
  - intros w t m Hs _ Hex. rewrite map_app. apply NoDup_snoc; auto.
    apply no_id_iff. exact Hex.
  - intros w pos old m t t' Hs _ Hex. apply NoDup_ids_replaceAt; auto.
    apply no_id_iff. exact Hex.
  - intros. apply NoDup_ids_filter; auto.
  - intros. apply NoDup_ids_removeAt; auto.
Qed.

(** Every document passes the schema's validators. *)
Lemma Closed_valid (E : Env) :
  Closed E (onStore (Forall (fun d => validate E (data d) = true))).
Proof.
  constructor; unfold onStore; cbn [store withStore].
  - split; intros; assumption.
  - intros w t m Hs Hv _. apply Forall_app. split; auto.
  - intros w pos old m t t' Hs Hv _. apply Forall_replaceAt; auto.
  - intros. apply Forall_filter_keep; auto.
  - intros. apply Forall_removeAt; auto.
Qed.

(** ** What the store operations compute *)

Lemma matches_idQuery (E : Env) (id : string) (d : MovieDoc) :
  matches E (idQuery id) d = hasId id d.
Proof.
  unfold matches, idQuery, holdsIf, hasId. cbn.
  rewrite !andb_true_r. reflexivity.
Qed.

Lemma Movie_findOne_id (E : Env) (id : string) (w : World) :
  Movie_findOne E (idQuery id) w =
  if dbFault E (dbOps w) then (Threw "store operation failed", tick w)
  else (Ret (findIndex (hasId id) (store w) 0), tick w).
Proof.
  unfold Movie_findOne, dbOp. destruct (dbFault E (dbOps w)); auto.
  rewrite (findIndex_ext _ (hasId id)) by (apply matches_idQuery).
  unfold withStore, tick. cbn. reflexivity.
Qed.

Lemma save_new_inv (E : Env) (doc d : MovieDoc) (w w' : World) :
  save_new E doc w = (Ret d, w') ->
  d = doc /\ validate E (data doc) = true /\
  dbFault E (dbOps w) = false /\
  existsb (hasId (idOf doc)) (store w) = false /\
  w' = withStore (tick w) (store w ++ [doc])%list.
Proof.
  unfold save_new, idOf.
  destruct (validate E (data doc)); cbn [negb]; [|discriminate].
  unfold bind, dbOp. destruct (dbFault E (dbOps w)); [discriminate|].
  destruct (existsb (hasId (imdbID (data doc))) (store w)); [discriminate|].
  intros H. injection H as <- <-. auto.
Qed.

Lemma save_existing_inv (E : Env) (pos : nat) (doc d : MovieDoc) (w w' : World) :
  save_existing E pos doc w = (Ret d, w') ->
  d = touch doc (now w) /\ validate E (data doc) = true /\
  dbFault E (dbOps w) = false /\
  existsb (hasId (idOf doc)) (removeAt pos (store w)) = false /\
  w' = withStore (tick w) (replaceAt pos d (store w)).
Proof.
  unfold save_existing, idOf.
  destruct (validate E (data doc)); cbn [negb]; [|discriminate].
  unfold bind, getNow, dbOp. destruct (dbFault E (dbOps w)); [discriminate|].
  destruct (existsb (hasId (imdbID (data doc))) (removeAt pos (store w)));
    [discriminate|].
  intros H. injection H as <- <-. auto.
Qed.

(** A successful upsert, read backwards: the payload passed the validators
    and either no document carried its identifier and a fresh document was
    appended, or the first document carrying it was rewritten in place. *)
Lemma saveMovieToCache_inv (E : Env) (m : MovieData) (d : MovieDoc) (w w' : World) :
  saveMovieToCache E m w = (Ret d, w') ->
  validate E (castData m) = true /\
  dbFault E (dbOps w) = false /\ dbFault E (S (dbOps w)) = false /\
  ((findIndex (hasId (imdbID m)) (store w) 0 = None /\
    d = freshDoc (now w) m /\
    w' = withStore (tick (tick w)) (store w ++ [d])%list) \/
   (exists pos old,
      findIndex (hasId (imdbID m)) (store w) 0 = Some (pos, old) /\
      d = refreshed old m (now w) /\
      existsb (hasId (imdbID m)) (removeAt pos (store w)) = false /\
      w' = withStore (tick (tick w)) (replaceAt pos d (store w)))).
Proof.
  intros H. unfold saveMovieToCache in H.
  apply try_catch_inv in H as [(a & H & Ha)|(e & w1 & _ & H)]; [|discriminate].
  injection Ha as <-.
  apply bind_inv in H as [(found & w1 & H1 & H2)|(e & _ & He)]; [|discriminate].
  rewrite Movie_findOne_id in H1.
  destruct (dbFault E (dbOps w)) eqn:Hf; [discriminate|].
  injection H1 as <- <-.
  destruct (findIndex (hasId (imdbID m)) (store w) 0) as [[pos old]|] eqn:Hfind.
  - apply bind_inv in H2 as [(t & w2 & Ht & H2)|(e & _ & He)]; [|discriminate].
    injection Ht as <- <-.
    apply save_existing_inv in H2 as (-> & Hv & Hf2 & Hex & ->).
    repeat split; auto. right. exists pos, old. repeat split; auto.
  - apply bind_inv in H2 as [(doc & w2 & Hd & H2)|(e & _ & He)]; [|discriminate].
    injection Hd as <- <-.
    apply save_new_inv in H2 as (-> & Hv & Hf2 & Hex & ->).
    repeat split; auto.
Qed.



(** The clock does not move while an operation runs. *)
Lemma Closed_clock (E : Env) (t : Z) : Closed E (fun w => now w = t).
Proof. constructor; [split|..]; intros; assumption. Qed.

(** Every step of the store's life keeps a closed property of the
    collection. *)
Lemma Step_keeps (E : Env) (Q : list MovieDoc -> Prop) (w w' : World) :
  Closed E (onStore Q) -> Step E w w' -> Q (store w) -> Q (store w').
Proof.
  intros HQ H. destruct H as
    [term page useCache w o w' H | id w o w' H | m w o w' H | opts w o w' H
    | w o w' H | c w o w' H | q w o w' H | id w o w' H | id w o w' H
    | w t Ht | w].
  - exact (Keeps_searchMovies E _ HQ _ _ _ _ _ _ H).
  - exact (Keeps_getMovieById E _ HQ _ _ _ _ H).
  - exact (Keeps_saveMovieToCache E _ HQ _ _ _ _ H).
  - exact (Keeps_getCachedMovies E _ HQ _ _ _ _ H).
  - exact (Keeps_cleanExpiredCache E _ HQ _ _ _ H).
  - exact (Keeps_cleanupByCriteria E _ HQ _ _ _ _ H).
  - exact (Keeps_getMovies E _ HQ _ _ _ _ H).
  - exact (Keeps_putMovie E _ HQ _ _ _ _ H).
  - exact (Keeps_deleteMovie E _ HQ _ _ _ _ H).
  - auto.
  - exact (closed_filter E _ HQ w _).
Qed.

Lemma Reachable_keeps (E : Env) (Q : list MovieDoc -> Prop) (w : World) :
  Closed E (onStore Q) -> Q [] -> Reachable E w -> Q (store w).
Proof.
  intros HQ H0 Hr. induction Hr as [w Hs|w w' Hr IH Hst].
  - rewrite Hs. exact H0.
  - eapply Step_keeps; eauto.
Qed.

(** ** The provider calls leave the collection and the clock alone *)

Lemma getMovieDetailsOMDB_frame (E : Env) (id : string) (w : World) (o : Outcome MovieData)
    (w' : World) :
  getMovieDetailsOMDB E id w = (o, w') ->
  store w' = store w /\ now w' = now w /\ dbOps w' = dbOps w.
Proof.
  unfold getMovieDetailsOMDB, try_catch, bind, throw, ret, axiosDetail.
  destruct (keyMissing E).
  - intros H. injection H as _ <-. auto.
  - destruct (httpDetail E _ id) as [msg|body].
    + intros H. injection H as _ <-. auto.
    + destruct (String.eqb (OMDB.dr_Response body) "False");
        intros H; injection H as _ <-; auto.
Qed.

Lemma searchMoviesOMDB_frame (E : Env) (term : string) (page : Z) (w : World)
    (o : Outcome ApiResults) (w' : World) :
  searchMoviesOMDB E term page w = (o, w') ->
  store w' = store w /\ now w' = now w /\ dbOps w' = dbOps w.
Proof.
  unfold searchMoviesOMDB, try_catch, bind, throw, ret, axiosSearch.
  destruct (keyMissing E).
  - intros H. injection H as _ <-. auto.
  - destruct (httpSearch E _ term page) as [msg|body].
    + intros H. injection H as _ <-. auto.
    + destruct (String.eqb (OMDB.sr_Response body) "False");
        intros H; injection H as _ <-; auto.
Qed.

Lemma saveMovieToCache_clock (E : Env) (m : MovieData) (w : World) (o : Outcome MovieDoc)
    (w' : World) :
  saveMovieToCache E m w = (o, w') -> now w' = now w.
Proof.
  intros H.
  exact (Keeps_saveMovieToCache E _ (Closed_clock E (now w)) m w o w' H eq_refl).
Qed.

(** ** Activity *)

Lemma isActive_iff (t : Z) (d : MovieDoc) :
  isActive t d = true <-> exists e, cacheExpiry d = Val e /\ t < e.
Proof.
  unfold isActive, condHolds, opsHold, hasOp, holdsIf, setGt, noOps. cbn.
  destruct (cacheExpiry d) as [|e].
  - split; [discriminate|]. intros (e & He & _). discriminate.
  - rewrite !andb_true_r. unfold isGt. split.
    + intros H. exists e. split; auto.
      destruct (Z.compare_spec e t); try discriminate. lia.
    + intros (e' & He & Ht). injection He as <-.
      destruct (Z.compare_spec e t); auto; lia.
Qed.

Lemma isExpired_iff (t : Z) (d : MovieDoc) :
  isExpired t d = true <-> exists e, cacheExpiry d = Val e /\ e < t.
Proof.
  unfold isExpired, condHolds, opsHold, hasOp, holdsIf, setLt, noOps. cbn.
  destruct (cacheExpiry d) as [|e].
  - split; [discriminate|]. intros (e & He & _). discriminate.
  - rewrite !andb_true_r. unfold isLt. split.
    + intros H. exists e. split; auto.
      destruct (Z.compare_spec e t); try discriminate. lia.
    + intros (e' & He & Ht). injection He as <-.
      destruct (Z.compare_spec e t); auto; lia.
Qed.

Lemma matches_activeText (E : Env) (term : string) (t : Z) (d : MovieDoc) :
  matches E (activeTextQuery term t) d = textMatches E term d && isActive t d.
Proof.
  unfold matches, activeTextQuery, holdsIf, isActive. cbn.
  rewrite !andb_true_r. reflexivity.
Qed.

Lemma matches_activeId (E : Env) (id : string) (t : Z) (d : MovieDoc) :
  matches E (activeIdQuery id t) d = hasId id d && isActive t d.
Proof.
  unfold matches, activeIdQuery, holdsIf, isActive, hasId. cbn.
  rewrite !andb_true_r. reflexivity.
Qed.

Lemma matches_expired (E : Env) (t : Z) (d : MovieDoc) :
  matches E (expiredQuery t) d = isExpired t d.
Proof.
  unfold matches, expiredQuery, holdsIf, isExpired. cbn.
  rewrite !andb_true_r. reflexivity.
Qed.

Lemma matches_true_iff (E : Env) (q : Query) (d : MovieDoc) :
  matches E q d = true <->
  holdsIf (q_imdbID q) (fun id => String.eqb (imdbID (data d)) id) = true /\
  holdsIf (q_text q) (fun term => textMatches E term d) = true /\
  holdsIf (q_cacheExpiry q) (fun c => condHolds Z.compare c (cacheExpiry d)) = true /\
  holdsIf (q_genre q) (fun c => genreHolds c (genre (data d))) = true /\
  holdsIf (q_year q) (fun c => condHolds Z.compare c (year (data d))) = true /\
  holdsIf (q_score q) (fun c => condHolds Qcompare c (docScore d)) = true /\
  holdsIf (q_createdAt q) (fun c => condHolds Z.compare c (Val (createdAt d))) = true.
Proof. unfold matches. rewrite !andb_true_iff. tauto. Qed.

Lemma matches_list_active (E : Env) (o : ListOptions) (t : Z) (d : MovieDoc) :
  matches E (listQuery o t) d = true -> isActive t d = true.
Proof.
  intros H. apply matches_true_iff in H as (_ & _ & H & _). exact H.
Qed.

(** ** C3: expiry *)

Lemma putMovie_inv (E : Env) (id : string) (w : World) (d : MovieDoc) (w' : World) :
  putMovie E id w = (Ret (Status200 d), w') ->
  In d (store w') /\ cacheExpiry d = Val (now w + TTL) /\ lastUpdated d = now w.
Proof.
  intros H. unfold putMovie in H.
  apply try_catch_inv in H as [(a & H & Ha)|(e & w1 & _ & H)]; [|discriminate].
  injection Ha as <-.
  apply bind_inv in H as [(found & w1 & H1 & H2)|(e & _ & He)]; [|discriminate].
  rewrite Movie_findOne_id in H1.
  destruct (dbFault E (dbOps w)); [discriminate|].
  injection H1 as <- <-.
  destruct (findIndex (hasId id) (store w) 0) as [[pos old]|] eqn:Hfind; [|discriminate].
  apply bind_inv in H2 as [(m & w2 & Hm & H2)|(e & _ & He)]; [|discriminate].
  apply getMovieDetailsOMDB_frame in Hm as (Hs & Hn & _).
  apply bind_inv in H2 as [(t & w3 & Ht & H2)|(e & _ & He)]; [|discriminate].
  injection Ht as <- <-.
  apply bind_inv in H2 as [(saved & w4 & Hsv & H2)|(e & _ & He)]; [|discriminate].
  injection H2 as <- <-.
  apply save_existing_inv in Hsv as (-> & _ & _ & _ & ->).
  cbn [store withStore tick cacheExpiry lastUpdated touch setExpiry] in *.
  rewrite Hn. cbn [now tick]. repeat split; auto.
  apply findIndex_some in Hfind as (_ & Hnth & _). rewrite Nat.sub_0_r in Hnth.
  rewrite Hs. cbn [store tick]. eapply replaceAt_In; eauto.
Qed.

Lemma refreshCache_inv (E : Env) (pos : nat) (doc d : MovieDoc) (w w' : World) :
  refreshCache E pos doc w = (Ret d, w') ->
  cacheExpiry d = Val (now w + TTL) /\ lastUpdated d = now w.
Proof.
  unfold refreshCache, bind, getNow. intros H.
  apply save_existing_inv in H as (-> & _). auto.
Qed.

Lemma saveMovieToCache_stored (E : Env) (m : MovieData) (d : MovieDoc) (w w' : World) :
  saveMovieToCache E m w = (Ret d, w') ->
  In d (store w') /\ data d = castData m /\
  cacheExpiry d = Val (now w + TTL) /\ lastUpdated d = now w.
Proof.
  intros H. apply saveMovieToCache_inv in H as (_ & _ & _ & [H|H]).
  - destruct H as (_ & -> & ->). cbn. rewrite in_app_iff. cbn. auto.
  - destruct H as (pos & old & Hfind & -> & _ & ->). cbn.
    repeat split; auto.
    apply findIndex_some in Hfind as (_ & Hnth & _). rewrite Nat.sub_0_r in Hnth.
    eapply replaceAt_In; eauto.
Qed.

(** C3: a successful create or refresh -- by the upsert [saveMovieToCache],
    by the administrative update [router.put('/:id')] or by the schema's
    [refreshCache] -- leaves a document whose [cacheExpiry] is the time of
    the operation plus the 24-hour TTL; every document of a store that
    started empty and lived through the service's operations has
    [cacheExpiry] set, to its last refresh plus the TTL; and the documents
    the service's queries treat as active at [t] are those with
    [t < cacheExpiry]. *)
Theorem C3_cache_expiry (E : Env) :
  TTL = 86400000 /\
  (forall m w d w', saveMovieToCache E m w = (Ret d, w') ->
                    In d (store w') /\ cacheExpiry d = Val (now w + TTL)) /\
  (forall id w d w', putMovie E id w = (Ret (Status200 d), w') ->
                     In d (store w') /\ cacheExpiry d = Val (now w + TTL)) /\
  (forall pos doc w d w', refreshCache E pos doc w = (Ret d, w') ->
                          cacheExpiry d = Val (now w + TTL)) /\
  (forall w, Reachable E w ->
             forall d, In d (store w) ->
                       exists t, lastUpdated d = t /\ cacheExpiry d = Val (t + TTL)) /\
  (forall t d, isActive t d = true <-> exists e, cacheExpiry d = Val e /\ t < e) /\
  (forall term id o t d,
      (matches E (activeTextQuery term t) d = true -> isActive t d = true) /\
      (matches E (activeIdQuery id t) d = true -> isActive t d = true) /\
      (matches E (listQuery o t) d = true -> isActive t d = true)).
Proof.
  split; [reflexivity|]. split; [|split; [|split; [|split; [|split]]]].
  - intros m w d w' H. apply saveMovieToCache_stored in H. tauto.
  - intros id w d w' H. apply putMovie_inv in H. tauto.
  - intros pos doc w d w' H. apply refreshCache_inv in H. tauto.
  - intros w Hr d Hin.
    pose proof (Reachable_keeps E _ w (Closed_expiry E) (Forall_nil _) Hr) as Hall.
    rewrite Forall_forall in Hall. exists (lastUpdated d). split; auto.
    apply Hall. exact Hin.
  - apply isActive_iff.
  - intros term id o t d. split; [|split].
    + rewrite matches_activeText. intros H. apply andb_prop in H. tauto.
    + rewrite matches_activeId. intros H. apply andb_prop in H. tauto.
    + apply matches_list_active.
Qed.

Lemma C3_cache_expiry_witness :
  store (snd (searchMovies Demo.env "Inception" 1 true Demo.world0)) <> [] /\
  Forall (fun d => exists t, lastUpdated d = t /\ cacheExpiry d = Val (t + TTL))
         (store (snd (searchMovies Demo.env "Inception" 1 true Demo.world0))).
Proof.
  split; [vm_compute; discriminate|].
  apply Forall_forall.
  apply (proj1 (proj2 (proj2 (proj2 (proj2 (C3_cache_expiry Demo.env)))))).
  eapply reach_step.
  - apply (reach_start Demo.env Demo.world0). reflexivity.
  - eapply step_searchMovies with (term := "Inception") (page := 1) (useCache := true).
    apply surjective_pairing.
Defined.

(** ** C10: the purge *)

Lemma cleanExpiredCache_run (E : Env) (w : World) :
  cleanExpiredCache E w =
  if dbFault E (dbOps w) then (Ret 0, tick w)
  else (Ret (Z.of_nat (List.length (filter (isExpired (now w)) (store w)))),
        withStore (tick w) (filter (fun d => negb (isExpired (now w) d)) (store w))).
Proof.
  unfold cleanExpiredCache, try_catch, bind, getNow, Movie_deleteMany, dbOp, ret.
  destruct (dbFault E (dbOps w)); [reflexivity|].
  rewrite (filter_ext _ _ (matches_expired E (now w))).
  rewrite (filter_ext (fun d => negb (matches E (expiredQuery (now w)) d))
                      (fun d => negb (isExpired (now w) d))); [reflexivity|].
  intros d. rewrite matches_expired. reflexivity.
Qed.

(** C10: [cleanExpiredCache] never throws.  In every world it returns a
    count that is not negative; when the store rejects the deletion it
    returns 0 and the collection is as it was; when the store answers it
    returns the number of expired documents and removes exactly them.  So a
    failed purge returns what a purge that finds nothing expired returns. *)
Theorem C10_purge_never_throws (E : Env) (w : World) :
  exists n w',
    cleanExpiredCache E w = (Ret n, w') /\ 0 <= n /\
    (if dbFault E (dbOps w)
     then n = 0 /\ store w' = store w
     else n = Z.of_nat (List.length (filter (isExpired (now w)) (store w))) /\
          store w' = filter (fun d => negb (isExpired (now w) d)) (store w)) /\
    (forall E0 w0,
        dbFault E (dbOps w) = true -> dbFault E0 (dbOps w0) = false ->
        filter (isExpired (now w0)) (store w0) = [] ->
        fst (cleanExpiredCache E0 w0) = Ret n).
Proof.
  rewrite cleanExpiredCache_run.
  destruct (dbFault E (dbOps w)) eqn:Hf.
  - exists 0, (tick w). repeat split; auto; try lia.
    intros E0 w0 _ H0 Hnone. rewrite cleanExpiredCache_run, H0, Hnone. reflexivity.
  - eexists _, _. repeat split; try lia; discriminate.
Qed.

(** A purge of two expired documents out of three, on a store that answers
    and on a store that does not. *)
Lemma C10_purge_never_throws_witness :
  (exists w', cleanExpiredCache Demo.env Demo.stale = (Ret 2, w') /\
              List.length (store w') = 1%nat) /\
  (exists w', cleanExpiredCache Demo.envDown Demo.stale = (Ret 0, w') /\
              store w' = store Demo.stale).
Proof.
  split.
  - destruct (C10_purge_never_throws Demo.env Demo.stale) as (n & w' & Hrun & _ & Hn & _).
    cbn [dbFault Demo.env] in Hn. destruct Hn as [-> Hs].
    exists w'. split; [exact Hrun|]. rewrite Hs. reflexivity.
  - destruct (C10_purge_never_throws Demo.envDown Demo.stale)
      as (n & w' & Hrun & _ & Hn & _).
    cbn [dbFault Demo.envDown] in Hn. destruct Hn as [-> Hs].
    exists w'. split; [exact Hrun|exact Hs].
Defined.

(** ** The look-up half of a search *)

Lemma insertBy_length {A} (le : A -> A -> bool) (x : A) (l : list A) :
  List.length (insertBy le x l) = S (List.length l).
Proof.
  induction l as [|y r IH]; cbn [insertBy]; auto.
  destruct (le x y); cbn [List.length]; auto.
Qed.

Lemma sortBy_length {A} (le : A -> A -> bool) (l : list A) :
  List.length (sortBy le l) = List.length l.
Proof.
  induction l as [|x r IH]; cbn [sortBy]; auto.
  rewrite insertBy_length, IH. reflexivity.
Qed.

Lemma lookupCache_run (E : Env) (term : string) (page : Z) (w : World) :
  lookupCache E term page true w =
  if dbFault E (dbOps w) then (Threw "store operation failed", tick w)
  else (Ret (if (0 <? List.length (cachedFor E term (now w) (store w)))%nat
             then Some (cacheHit page (cachedFor E term (now w) (store w)))
             else None), tick w).
Proof.
  unfold lookupCache, bind, getNow, Movie_find, dbOp.
  cbn [Z.ltb Z.compare]. destruct (dbFault E (dbOps w)); [reflexivity|].
  change (applyLimit 10 (skipn (Z.to_nat 0) ?l)) with (firstn 10 l).
  fold (cachedFor E term (now w) (store w)).
  destruct (0 <? List.length (cachedFor E term (now w) (store w)))%nat; reflexivity.
Qed.

Lemma lookupCache_off (E : Env) (term : string) (page : Z) (w : World) :
  lookupCache E term page false w = (Ret None, w).
Proof. reflexivity. Qed.

Lemma cachedFor_length (E : Env) (term : string) (t : Z) (s : list MovieDoc) :
  List.length (cachedFor E term t s) =
  Nat.min 10 (List.length (filter (fun d => textMatches E term d && isActive t d) s)).
Proof.
  unfold cachedFor, findSorted. rewrite length_firstn, sortBy_length.
  rewrite (filter_ext _ _ (matches_activeText E term t)). reflexivity.
Qed.

Lemma fetchAndCache_source (E : Env) (term : string) (page : Z) (w : World)
    (r : SearchResult) (w' : World) :
  fetchAndCache E term page w = (Ret r, w') ->
  r_source r = Some "api" \/ r_source r = None.
Proof.
  unfold fetchAndCache. intros H.
  apply bind_inv in H as [(api & w1 & _ & H)|(e & _ & He)]; [|discriminate].
  destruct (0 <? List.length (a_movies api))%nat.
  - destruct (startAll E (a_movies api) w1) as [cs w2].
    destruct (allSettled E cs w2) as [os w3].
    injection H as <- _. left. reflexivity.
  - injection H as <- _. right. reflexivity.
Qed.

(** A search answered from the cache, read backwards. *)
Lemma searchMovies_cache_inv (E : Env) (term : string) (page : Z) (useCache : bool)
    (w : World) (r : SearchResult) (w' : World) :
  searchMovies E term page useCache w = (Ret r, w') ->
  r_source r = Some "cache" ->
  useCache = true /\ dbFault E (dbOps w) = false /\
  r = cacheHit page (cachedFor E term (now w) (store w)) /\
  cachedFor E term (now w) (store w) <> [] /\
  w' = tick w.
Proof.
  intros H Hsrc. unfold searchMovies in H.
  apply try_catch_inv in H as [(a & H & Ha)|(e & w1 & _ & H)]; [|discriminate].
  injection Ha as <-.
  apply bind_inv in H as [(hit & w1 & H1 & H2)|(e & _ & He)]; [|discriminate].
  destruct hit as [result|].
  - injection H2 as <- <-.
    destruct useCache; [|discriminate].
    rewrite lookupCache_run in H1.
    destruct (dbFault E (dbOps w)); [discriminate|].
    destruct (cachedFor E term (now w) (store w)) as [|d l] eqn:Hc;
      cbn [List.length Nat.ltb Nat.leb] in H1; [discriminate|].
    injection H1 as <- <-. repeat split; auto. discriminate.
  - apply fetchAndCache_source in H2 as [H2|H2]; rewrite H2 in Hsrc; discriminate.
Qed.

(** ** C9: at most ten cached records *)

(** C9: a search answered from the cache returns at most 10 records --
    exactly [min 10 n] of the [n] active documents matching the term, so 10
    when more than 10 match --, reports as [totalResults] the number of
    records it returns, and sends no request to the provider. *)
Theorem C9_cache_hit_capped (E : Env) (term : string) (page : Z) (useCache : bool)
    (w : World) (r : SearchResult) (w' : World) :
  searchMovies E term page useCache w = (Ret r, w') ->
  r_source r = Some "cache" ->
  (List.length (r_movies r) <= 10)%nat /\
  List.length (r_movies r) =
    Nat.min 10 (List.length (filter (fun d => textMatches E term d && isActive (now w) d)
                                    (store w))) /\
  r_totalResults r = Z.of_nat (List.length (r_movies r)) /\
  apiLog w' = apiLog w.
Proof.
  intros H Hsrc.
  apply searchMovies_cache_inv in H as (_ & _ & -> & _ & ->); auto.
  cbn [r_movies r_totalResults cacheHit]. rewrite length_map, cachedFor_length.
  repeat split; auto. apply Nat.le_min_l.
Qed.

(** Twelve active documents match; ten come back. *)
Lemma C9_cache_hit_capped_witness :
  exists r w',
    searchMovies Demo.env "Batman" 1 true Demo.crowded = (Ret r, w') /\
    List.length (filter (fun d => textMatches Demo.env "Batman" d
                                  && isActive (now Demo.crowded) d)
                        (store Demo.crowded)) = 12%nat /\
    List.length (r_movies r) = 10%nat /\
    r_totalResults r = 10.
Proof.
  destruct (searchMovies Demo.env "Batman" 1 true Demo.crowded) as [[e|r] w'] eqn:H.
  - vm_compute in H. discriminate H.
  - exists r, w'. split; [reflexivity|].
    assert (Hsrc : r_source r = Some "cache").
    { vm_compute in H. injection H as <- _. reflexivity. }
    destruct (C9_cache_hit_capped _ _ _ _ _ _ _ H Hsrc) as (_ & Hlen & Htot & _).
    assert (H12 : List.length (filter (fun d => textMatches Demo.env "Batman" d
                                               && isActive (now Demo.crowded) d)
                                     (store Demo.crowded)) = 12%nat)
      by (vm_compute; reflexivity).
    rewrite H12 in Hlen. split; [exact H12|].
    split; [exact Hlen|]. rewrite Htot, Hlen. reflexivity.
Defined.

(** ** C8: pagination *)

Lemma ceilDiv_spec (a b : Z) :
  0 < b -> exists k, JS.ceilDiv a b = Some k /\ (k - 1) * b < a <= k * b.
Proof.
  intros Hb. unfold JS.ceilDiv.
  destruct (Z.eqb_spec b 0) as [->|_]; [lia|].
  exists (- (- a / b)). split; auto.
  pose proof (Z.div_mod (- a) b ltac:(lia)) as Hdm.
  pose proof (Z.mod_pos_bound (- a) b Hb) as Hm.
  nia.
Qed.

Lemma getCachedMovies_run (E : Env) (o : ListOptions) (w : World) :
  dbFault E (dbOps w) = false -> dbFault E (S (dbOps w)) = false ->
  0 <= (orDefault (o_page o) 1 - 1) * orDefault (o_limit o) 20 ->
  getCachedMovies E o w =
  (Ret {| l_movies :=
            applyLimit (orDefault (o_limit o) 20)
              (skipn (Z.to_nat ((orDefault (o_page o) 1 - 1) * orDefault (o_limit o) 20))
                     (listed E o (now w) (store w)));
          l_pagination :=
            {| p_page := orDefault (o_page o) 1;
               p_limit := orDefault (o_limit o) 20;
               p_total := Z.of_nat (List.length (listed E o (now w) (store w)));
               p_pages := JS.ceilDiv (Z.of_nat (List.length (listed E o (now w) (store w))))
                                     (orDefault (o_limit o) 20) |} |},
   tick (tick w)).
Proof.
  intros Hf1 Hf2 Hskip.
  unfold getCachedMovies, try_catch, bind, getNow, promiseAll2, Movie_find,
    Movie_countDocuments.
  destruct (Z.ltb_spec ((orDefault (o_page o) 1 - 1) * orDefault (o_limit o) 20) 0);
    [lia|].
  unfold dbOp. rewrite Hf1. cbn [dbOps tick withStore store]. rewrite Hf2.
  cbn [fst snd ret]. unfold listed, findSorted. rewrite sortBy_length. reflexivity.
Qed.

(** C8: a listing request the router's schema accepts has a page number of
    at least 1 and a page size between 1 and 50 (20 by default); on a store
    that answers, [getCachedMovies] then returns the records
    [(page-1)*limit .. page*limit-1] of the ordered result (as many of them
    as exist), the total number of matching documents, and the page count
    [ceil(total/limit)]; the collection is left as it was.  Page 2 with
    limit 20 over 45 matching documents gives 20 records and 3 pages. *)
Theorem C8_pagination (E : Env) (q v : ListOptions) (w : World) :
  searchSchema E q = Some v ->
  dbFault E (dbOps w) = false -> dbFault E (S (dbOps w)) = false ->
  let page := orDefault (o_page v) 1 in
  let limit := orDefault (o_limit v) 20 in
  let ordered := listed E v (now w) (store w) in
  1 <= page /\ 1 <= limit <= 50 /\
  (o_page q = None -> page = 1) /\ (o_limit q = None -> limit = 20) /\
  exists r w',
    getCachedMovies E v w = (Ret r, w') /\ store w' = store w /\
    l_movies r = firstn (Z.to_nat limit) (skipn (Z.to_nat ((page - 1) * limit)) ordered) /\
    (forall i, (i < Z.to_nat limit)%nat ->
               nth_error (l_movies r) i
               = nth_error ordered (Z.to_nat ((page - 1) * limit) + i)) /\
    (List.length (l_movies r) <= Z.to_nat limit)%nat /\
    p_page (l_pagination r) = page /\ p_limit (l_pagination r) = limit /\
    p_total (l_pagination r) = Z.of_nat (List.length ordered) /\
    (exists pages, p_pages (l_pagination r) = Some pages /\
                   (pages - 1) * limit < p_total (l_pagination r) <= pages * limit) /\
    (page = 2 -> limit = 20 -> List.length ordered = 45%nat ->
     List.length (l_movies r) = 20%nat /\ p_pages (l_pagination r) = Some 3).
Proof.
  intros Hv Hf1 Hf2 page limit ordered.
  assert (Hbounds : 1 <= page /\ 1 <= limit <= 50 /\
                    (o_page q = None -> page = 1) /\ (o_limit q = None -> limit = 20)).
  { unfold searchSchema in Hv.
    destruct (optAll _ (o_search q) && _ && _ && _ && _ && _ && optAll _ (o_page q)
              && optAll _ (o_limit q)) eqn:Hc; [|discriminate].
    injection Hv as <-. subst page limit. cbn [o_page o_limit orDefault].
    apply andb_prop in Hc as [Hc Hl]. apply andb_prop in Hc as [_ Hp].
    unfold optAll, holdsIf in Hp, Hl.
    destruct (o_page q) as [p|], (o_limit q) as [l|]; cbn [orDefault];
      repeat match goal with
             | H : (_ && _)%bool = true |- _ => apply andb_prop in H as [? ?]
             | H : (_ <=? _) = true |- _ => apply Z.leb_le in H
             end;
      repeat split; try lia; try discriminate; auto. }
  destruct Hbounds as (Hp & Hl & Hdp & Hdl).
  repeat (split; [assumption|]).
  rewrite getCachedMovies_run by (auto; fold page limit; nia).
  fold page limit ordered.
  eexists _, _. split; [reflexivity|]. cbn [l_movies l_pagination p_page p_limit
                                            p_total p_pages store tick].
  assert (Hlim : applyLimit limit (skipn (Z.to_nat ((page - 1) * limit)) ordered)
                 = firstn (Z.to_nat limit) (skipn (Z.to_nat ((page - 1) * limit)) ordered)).
  { unfold applyLimit. destruct (Z.eqb_spec limit 0); [lia|].
    rewrite Z.abs_eq by lia. reflexivity. }
  rewrite Hlim. repeat match goal with |- _ /\ _ => split end; try reflexivity.
  - intros i Hi. rewrite nth_error_firstn.
    destruct (Nat.ltb_spec i (Z.to_nat limit)); [|lia].
    apply nth_error_skipn.
  - rewrite length_firstn. apply Nat.le_min_l.
  - apply ceilDiv_spec. lia.
  - intros Hp2 Hl2 H45. rewrite Hp2, Hl2, H45, length_firstn, length_skipn, H45.
    split; reflexivity.
Qed.

(** Page 2 of 20 over 45 active documents: 20 records, 3 pages. *)
Lemma C8_pagination_witness :
  exists r w',
    searchSchema Demo.env Demo.page2of20 = Some Demo.page2of20valid /\
    getCachedMovies Demo.env Demo.page2of20valid Demo.library = (Ret r, w') /\
    List.length (filter (isActive (now Demo.library)) (store Demo.library)) = 45%nat /\
    List.length (l_movies r) = 20%nat /\
    p_total (l_pagination r) = 45 /\
    p_pages (l_pagination r) = Some 3.
Proof.
  destruct (C8_pagination Demo.env Demo.page2of20 Demo.page2of20valid Demo.library
              eq_refl eq_refl eq_refl)
    as (_ & _ & _ & _ & r & w' & Hrun & _ & Hmov & _ & _ & _ & _ & Htot
        & (pages & Hpg & Hb) & _).
  exists r, w'. split; [reflexivity|]. split; [exact Hrun|].
  assert (H45 : List.length (listed Demo.env Demo.page2of20valid (now Demo.library)
                                    (store Demo.library)) = 45%nat)
    by (vm_compute; reflexivity).
  split; [vm_compute; reflexivity|].
  split; [rewrite Hmov; vm_compute; reflexivity|].
  rewrite Htot, H45. split; [reflexivity|].
  rewrite Hpg. f_equal. rewrite Htot, H45 in Hb.
  cbn [orDefault o_limit Demo.page2of20valid] in Hb. lia.
Defined.

(** ** C7: the criteria-based purge *)

Lemma cleanupByCriteria_run (E : Env) (c : Criteria) (w : World) :
  dbFault E (dbOps w) = false ->
  cleanupByCriteria E c w =
  (Ret (Z.of_nat (List.length (filter (matches E (cleanupQuery c)) (store w)))),
   withStore (tick w) (filter (fun d => negb (matches E (cleanupQuery c) d)) (store w))).
Proof.
  intros Hf. unfold cleanupByCriteria, try_catch, bind, Movie_deleteMany, dbOp.
  rewrite Hf. reflexivity.
Qed.

(** With both bounds of a range given, the path receives one operator object
    [{ $lt: min, $gt: max }]: a value has to be below [min] and above
    [max] at once. *)
Lemma outsideCond_both {A} (cmp : A -> A -> comparison) (truthy : A -> bool) (lo hi : A)
    (v : nullable A) :
  truthy lo = true -> truthy hi = true ->
  holdsIf (outsideCond truthy {| rmin := Some lo; rmax := Some hi |})
          (fun c => condHolds cmp c v) = true ->
  exists x, v = Val x /\ cmp x lo = Lt /\ cmp x hi = Gt.
Proof.
  intros Hlo Hhi. unfold outsideCond, someTruthy. cbn [rmin rmax]. rewrite Hlo, Hhi.
  cbn [holdsIf spread setGt setLt noOps op_gt op_gte op_lt op_lte].
  unfold condHolds. destruct v as [|x]; [discriminate|].
  unfold opsHold, hasOp, holdsIf. cbn. rewrite !andb_true_r.
  intros H. apply andb_prop in H as [H1 H2]. exists x. split; auto.
  unfold isGt, isLt in *. destruct (cmp x hi), (cmp x lo); try discriminate; auto.
Qed.

(** Hence a rating range with [min <= max] selects no document at all. *)
Lemma cleanup_rating_range_selects_nothing (E : Env) (lo hi : Q) (c : Criteria)
    (d : MovieDoc) :
  c_rating c = Some {| rmin := Some lo; rmax := Some hi |} ->
  truthyQ lo = true -> truthyQ hi = true -> (lo <= hi)%Q ->
  matches E (cleanupQuery c) d = false.
Proof.
  intros Hc Hlo Hhi Hle.
  destruct (matches E (cleanupQuery c) d) eqn:Hm; auto.
  apply matches_true_iff in Hm as (_ & _ & _ & _ & _ & Hs & _).
  unfold cleanupQuery in Hs. cbn [q_score] in Hs. rewrite Hc in Hs.
  apply outsideCond_both in Hs as (x & _ & H1 & H2); auto.
  apply Qlt_alt in H1. apply Qgt_alt in H2.
  exfalso. apply (Qlt_irrefl x).
  eapply Qlt_le_trans; [exact H1|]. eapply Qle_trans; [exact Hle|].
  apply Qlt_le_weak. exact H2.
Qed.

(** C7, on the code: with the rating range [{ min: 5, max: 8 }] and a
    store holding records rated 3.0, 7.0 and 9.5, [cleanupByCriteria]
    deletes nothing and returns 0, although two records lie outside the
    range; with only [min] or only [max] it deletes the record on that side.
    The year range behaves in the same way. *)
Theorem C7_range_criteria_delete_nothing :
  map (fun d => imdb_score (imdb (rating (data d)))) (store Demo.rated)
    = [Val (Some (30 # 10)); Val (Some (70 # 10)); Val (Some (95 # 10))] /\
  cleanupByCriteria Demo.env Demo.rating5to8 Demo.rated = (Ret 0, tick Demo.rated) /\
  fst (cleanupByCriteria Demo.env Demo.ratingMin5 Demo.rated) = Ret 1 /\
  fst (cleanupByCriteria Demo.env Demo.ratingMax8 Demo.rated) = Ret 1 /\
  map (fun d => year (data d)) (store Demo.rated) = [Val 1980; Val 2000; Val 2020] /\
  cleanupByCriteria Demo.env Demo.year1990to2010 Demo.rated = (Ret 0, tick Demo.rated).
Proof. vm_compute. repeat split. Qed.

(** ** Sorting *)

Lemma insertBy_perm {A} (le : A -> A -> bool) (x : A) (l : list A) :
  Permutation (insertBy le x l) (x :: l).
Proof.
  induction l as [|y r IH]; cbn [insertBy]; [reflexivity|].
  destruct (le x y); [reflexivity|].
  eapply perm_trans; [apply perm_skip, IH | apply perm_swap].
Qed.

Lemma sortBy_perm {A} (le : A -> A -> bool) (l : list A) : Permutation (sortBy le l) l.
Proof.
  induction l as [|x r IH]; cbn [sortBy]; [constructor|].
  eapply perm_trans; [apply insertBy_perm | apply perm_skip, IH].
Qed.

Section SortedBy.

Context {A : Type} (le : A -> A -> bool).
Hypothesis le_total : forall a b, le a b = false -> le b a = true.
Hypothesis le_trans : forall a b c, le a b = true -> le b c = true -> le a c = true.

Lemma insertBy_sorted (x : A) (l : list A) :
  StronglySorted (fun a b => le a b = true) l ->
  StronglySorted (fun a b => le a b = true) (insertBy le x l).
Proof.
  induction l as [|y r IH]; intros Hs; cbn [insertBy].
  - repeat constructor.
  - inversion Hs as [|? ? Hr Hy]; subst. destruct (le x y) eqn:Hxy.
    + constructor; [assumption|]. constructor; [assumption|].
      rewrite Forall_forall in *. intros z Hz. eapply le_trans; eauto.
    + constructor; [apply IH; assumption|].
      rewrite Forall_forall in *. intros z Hz.
      apply (Permutation_in _ (insertBy_perm le x r)) in Hz.
      destruct Hz as [<-|Hz]; auto.
Qed.

Lemma sortBy_sorted (l : list A) : StronglySorted (fun a b => le a b = true) (sortBy le l).
Proof.
  induction l as [|x r IH]; cbn [sortBy]; [constructor|].
  apply insertBy_sorted, IH.
Qed.

End SortedBy.

(** ** C6: the two filter and sort paths *)

Lemma In_insertBy {A} (le : A -> A -> bool) (x y : A) (l : list A) :
  In y (insertBy le x l) <-> y = x \/ In y l.
Proof.
  induction l as [|z r IH]; cbn [insertBy].
  - cbn. intuition.
  - destruct (le x z); cbn [In]; [intuition|]. rewrite IH. intuition.
Qed.

Lemma In_sortBy {A} (le : A -> A -> bool) (y : A) (l : list A) :
  In y (sortBy le l) <-> In y l.
Proof.
  induction l as [|x r IH]; cbn [sortBy]; [tauto|].
  rewrite In_insertBy, IH. cbn. intuition.
Qed.

(** Two orders that agree on the elements of a list sort it alike, also
    through an injection of the elements. *)
Lemma insertBy_map_ext {A B} (f : A -> B) (le : A -> A -> bool) (le' : B -> B -> bool)
    (x : A) (l : list A) :
  (forall b, In b l -> le' (f x) (f b) = le x b) ->
  insertBy le' (f x) (map f l) = map f (insertBy le x l).
Proof.
  induction l as [|y r IH]; intros H; cbn [insertBy map]; auto.
  rewrite (H y) by (left; auto). destruct (le x y); cbn [map]; auto.
  rewrite IH; auto. intros b Hb. apply H. right. auto.
Qed.

Lemma sortBy_map_ext {A B} (f : A -> B) (le : A -> A -> bool) (le' : B -> B -> bool)
    (l : list A) :
  (forall a b, In a l -> In b l -> le' (f a) (f b) = le a b) ->
  sortBy le' (map f l) = map f (sortBy le l).
Proof.
  induction l as [|x r IH]; intros H; cbn [sortBy map]; auto.
  rewrite IH by (intros a b Ha Hb; apply H; right; auto).
  apply insertBy_map_ext. intros b Hb. apply In_sortBy in Hb.
  apply H; [left|right]; auto.
Qed.

Lemma filter_map_ext {A B} (f : A -> B) (p : A -> bool) (p' : B -> bool) (l : list A) :
  (forall a, In a l -> p' (f a) = p a) ->
  filter p' (map f l) = map f (filter p l).
Proof.
  induction l as [|x r IH]; intros H; cbn [filter map]; auto.
  rewrite (H x) by (left; auto). rewrite IH by (intros a Ha; apply H; right; auto).
  destruct (p x); reflexivity.
Qed.

Lemma filter_all {A} (p : A -> bool) (l : list A) :
  (forall a, In a l -> p a = true) -> filter p l = l.
Proof.
  induction l as [|x r IH]; intros H; cbn [filter]; auto.
  rewrite (H x) by (left; auto). rewrite IH; auto. intros a Ha. apply H. right. auto.
Qed.

(** What the validators say of the paths the layer reads. *)
Lemma validate_parts (E : Env) (m : MovieData) :
  validate E m = true ->
  validYear (maxYear E) (year m) = true /\
  validInt 1 None (runtime m) = true /\
  validScore (imdb_score (imdb (rating m))) = true /\
  String.eqb (title m) "" = false /\
  String.eqb (imdbID m) "" = false.
Proof.
  unfold validate. rewrite !andb_true_iff, !negb_true_iff. tauto.
Qed.

Lemma validate_year (E : Env) (m : MovieData) :
  validate E m = true -> exists y, year m = Val y /\ 1888 <= y.
Proof.
  intros H. apply validate_parts in H as (Hy & _).
  unfold validYear in Hy.
  destruct (year m) as [|y]; [discriminate|]. exists y. split; auto.
  apply andb_prop in Hy as [Hy _]. apply Z.leb_le. exact Hy.
Qed.

Lemma validate_runtime (E : Env) (m : MovieData) :
  validate E m = true ->
  runtime m = Null \/ exists z, runtime m = Val (Some z) /\ 1 <= z.
Proof.
  intros H. apply validate_parts in H as (_ & Hr & _).
  unfold validInt in Hr.
  destruct (runtime m) as [|[z|]]; [left; auto| |discriminate].
  right. exists z. split; auto. rewrite andb_true_r in Hr.
  apply Z.leb_le. exact Hr.
Qed.

Lemma validate_score (E : Env) (m : MovieData) :
  validate E m = true ->
  imdb_score (imdb (rating m)) = Null \/
  exists q, imdb_score (imdb (rating m)) = Val (Some q) /\ (0 <= q)%Q.
Proof.
  intros H. apply validate_parts in H as (_ & _ & Hs & _).
  unfold validScore in Hs.
  destruct (imdb_score (imdb (rating m))) as [|[q|]]; [left; auto| |discriminate].
  right. exists q. split; auto. unfold Qin in Hs.
  apply andb_prop in Hs as [Hs _]. apply Qle_bool_iff. exact Hs.
Qed.

Lemma keepsGenre_agree (g : option GenreParam) (m : MovieData) :
  g <> Some (GenreMany []) ->
  keepsGenre g m = holdsIf (genreQuery g) (fun c => genreHolds c (genre m)).
Proof.
  intros Hg. unfold keepsGenre, genreQuery, someTruthy, genreTruthy.
  destruct g as [[s|l]|].
  - destruct (truthyStr s); reflexivity.
  - destruct l as [|x l]; [congruence|]. reflexivity.
  - reflexivity.
Qed.

Lemma Zltb_isLt (x y : Z) : (x <? y) = isLt (x ?= y).
Proof. reflexivity. Qed.

Lemma Zltb_isGt (x y : Z) : (y <? x) = isGt (x ?= y).
Proof. unfold Z.ltb. rewrite (Z.compare_antisym x y). destruct (x ?= y); reflexivity. Qed.

Lemma Zeqb_isEq (x y : Z) : (x =? y) = isEq (x ?= y).
Proof.
  destruct (Z.eqb_spec x y) as [->|Hne].
  - rewrite Z.compare_refl. reflexivity.
  - destruct (Z.compare_spec x y); auto; congruence.
Qed.

Lemma keepsYear_agree (y : option YearParam) (m : MovieData) (v : Z) :
  year m = Val v ->
  keepsYear y m = holdsIf (yearQuery y) (fun c => condHolds Z.compare c (year m)).
Proof.
  intros Hv. unfold keepsYear, yearQuery, someTruthy, yearTruthy. rewrite Hv.
  destruct y as [[y0|[lo hi]]|]; cbn [holdsIf toNumber rmin rmax]; [| |reflexivity].
  - destruct (truthyZ y0); cbn [holdsIf condHolds]; [apply Zeqb_isEq|reflexivity].
  - unfold rangeCond, someTruthy. cbn [rmin rmax].
    destruct lo as [lo|], hi as [hi|];
      repeat match goal with |- context [truthyZ ?x] => destruct (truthyZ x) end;
      cbv [holdsIf condHolds spread setGte setLte noOps hasOp opsHold
           op_gt op_gte op_lt op_lte negb andb];
      rewrite <- ?Zltb_isLt, <- ?Zltb_isGt;
      try destruct (v <? lo); try destruct (hi <? v); reflexivity.
Qed.

Lemma truthyScore_some (d : MovieDoc) :
  scorePresent d -> scoreNonzero d ->
  exists sc, truthyScore (data d) = Some sc /\ docScore d = Val sc.
Proof.
  intros [q Hq] Hnz. exists q. unfold truthyScore, docScore, stored. rewrite Hq.
  split; auto. unfold truthyQ.
  destruct (Qeq_bool q (0 # 1)) eqn:Hz; auto.
  apply Qeq_bool_iff in Hz. exfalso. exact (Hnz q Hq Hz).
Qed.

Lemma keepsRating_none (m : MovieData) : keepsRating None m = true.
Proof. reflexivity. Qed.

Lemma keepsRating_agree (r : option RatingParam) (d : MovieDoc) :
  (r <> None -> scorePresent d /\ scoreNonzero d) ->
  keepsRating r (data d)
  = holdsIf (scoreQuery r) (fun c => condHolds Qcompare c (docScore d)).
Proof.
  intros H. destruct r as [r|]; [|reflexivity].
  destruct H as [Hp Hnz]; [discriminate|].
  destruct (truthyScore_some d Hp Hnz) as (sc & Hts & Hds).
  unfold keepsRating, scoreQuery, someTruthy, ratingTruthy. rewrite Hts, Hds.
  destruct r as [v|[lo hi]].
  - destruct (truthyQ v); cbv [holdsIf condHolds setGte noOps hasOp opsHold
                                op_gt op_gte op_lt op_lte andb negb];
      try destruct (isLt (sc ?= v)%Q); reflexivity.
  - unfold rangeCond, someTruthy. cbn [rmin rmax].
    destruct lo as [lo|], hi as [hi|];
      repeat match goal with |- context [truthyQ ?x] => destruct (truthyQ x) end;
      cbv [holdsIf condHolds spread setGte setLte noOps hasOp opsHold
           op_gt op_gte op_lt op_lte negb andb];
      try destruct (isLt (sc ?= lo)%Q); try destruct (isGt (sc ?= hi)%Q); reflexivity.
Qed.

(** On a candidate, the in-memory test and the store's query agree. *)
Lemma routeKeeps_matches (E : Env) (o : ListOptions) (t : Z) (d : MovieDoc)
    (mv : MovieObj) :
  objData mv = data d ->
  o_search o = None -> Candidate E t d ->
  o_genre o <> Some (GenreMany []) ->
  (o_rating o <> None -> scorePresent d /\ scoreNonzero d) ->
  routeKeeps (o_genre o) (o_year o) (o_rating o) mv
  = matches E (listQuery o t) d.
Proof.
  intros Hmv Hs [Hv Ha] Hg Hr.
  destruct (validate_year E _ Hv) as (y & Hy & _).
  unfold routeKeeps, matches, listQuery. rewrite Hmv.
  cbn [q_imdbID q_text q_cacheExpiry q_genre q_year q_score q_createdAt].
  rewrite Hs. cbn [someTruthy holdsIf]. fold (isActive t d). rewrite Ha.
  rewrite (keepsGenre_agree _ _ Hg), (keepsYear_agree _ _ _ Hy), (keepsRating_agree _ _ Hr).
  cbn [andb]. rewrite andb_true_r. reflexivity.
Qed.

Lemma cmpNullable_antisym {A} (cmp : A -> A -> comparison) (a b : nullable A) :
  (forall x y, cmp y x = CompOpp (cmp x y)) ->
  cmpNullable cmp b a = CompOpp (cmpNullable cmp a b).
Proof. intros H. destruct a, b; cbn; auto. Qed.

Lemma cmpKey_antisym (k : SortKey) (a b : MovieDoc) :
  cmpKey k b a = CompOpp (cmpKey k a b).
Proof.
  destruct k; cbn [cmpKey].
  - apply String.compare_antisym.
  - apply cmpNullable_antisym. intros x y. apply Z.compare_antisym.
  - apply cmpNullable_antisym. intros x y. symmetry. apply Qcompare_antisym.
  - apply cmpNullable_antisym. intros x y. apply Z.compare_antisym.
  - apply Z.compare_antisym.
Qed.

(** The key a document sorts by: the in-memory key with its [|| 0] against
    the store's key with its [null]. *)
Lemma scoreKey_agree (E : Env) (a b : MovieDoc) :
  validate E (data a) = true -> validate E (data b) = true ->
  scoreNonzero a -> scoreNonzero b ->
  Qcompare (scoreOr0 (data a)) (scoreOr0 (data b))
  = cmpNullable Qcompare (docScore a) (docScore b).
Proof.
  intros Hva Hvb Ha Hb.
  assert (Hpos : forall d, validate E (data d) = true -> scoreNonzero d ->
                           (scoreOr0 (data d) = 0 # 1 /\ docScore d = Null) \/
                           (exists q, scoreOr0 (data d) = q /\ docScore d = Val q /\ (0 < q)%Q)).
  { intros d Hv Hnz. unfold scoreOr0, docScore, stored.
    destruct (validate_score E _ Hv) as [Hn|(q & Hq & Hle)].
    - rewrite Hn. left. auto.
    - rewrite Hq. right. exists q. repeat split.
      apply Qle_lteq in Hle as [Hlt|Heq]; auto.
      exfalso. apply (Hnz q Hq). symmetry. exact Heq. }
  destruct (Hpos a Hva Ha) as [[-> ->]|(qa & -> & -> & Hqa)];
    destruct (Hpos b Hvb Hb) as [[-> ->]|(qb & -> & -> & Hqb)]; cbn [cmpNullable].
  - reflexivity.
  - apply Qlt_alt. exact Hqb.
  - apply Qgt_alt. exact Hqa.
  - reflexivity.
Qed.

Lemma runtimeKey_agree (E : Env) (a b : MovieDoc) :
  validate E (data a) = true -> validate E (data b) = true ->
  Z.compare (numOr0 (runtime (data a))) (numOr0 (runtime (data b)))
  = cmpNullable Z.compare (docRuntime a) (docRuntime b).
Proof.
  intros Hva Hvb. unfold docRuntime, stored, numOr0.
  destruct (validate_runtime E _ Hva) as [->|(za & -> & Hza)];
    destruct (validate_runtime E _ Hvb) as [->|(zb & -> & Hzb)]; cbn [cmpNullable];
    auto.
  - apply Z.compare_lt_iff. lia.
  - apply Z.compare_gt_iff. lia.
Qed.

Lemma yearKey_agree (E : Env) (a b : MovieDoc) :
  validate E (data a) = true -> validate E (data b) = true ->
  Z.compare (toNumber (year (data a))) (toNumber (year (data b)))
  = cmpNullable Z.compare (year (data a)) (year (data b)).
Proof.
  intros Hva Hvb.
  destruct (validate_year E _ Hva) as (ya & -> & _).
  destruct (validate_year E _ Hvb) as (yb & -> & _). reflexivity.
Qed.

Lemma routeKeyCmp_cmpKey (E : Env) (sb : string) (a b : MovieDoc) (ma mb : MovieObj) :
  objData ma = data a -> objData mb = data b ->
  validate E (data a) = true -> validate E (data b) = true ->
  (sortKeyOf sb = ByScore -> scoreNonzero a /\ scoreNonzero b) ->
  (sortKeyOf sb = ByTitle -> lowercaseTitle a /\ lowercaseTitle b) ->
  (sortKeyOf sb = ByCreatedAt ->
   Z.compare (toNumber (objCreatedAt ma)) (toNumber (objCreatedAt mb))
   = Z.compare (createdAt a) (createdAt b)) ->
  routeKeyCmp sb ma mb = cmpKey (sortKeyOf sb) a b.
Proof.
  intros Hma Hmb Hva Hvb Hsc Hti Hcr. unfold routeKeyCmp, sortKeyOf in *.
  rewrite Hma, Hmb.
  destruct (String.eqb sb "title").
  { destruct Hti as [[_ Ha] [_ Hb]]; auto. rewrite Ha, Hb. reflexivity. }
  destruct (String.eqb sb "year"); [apply (yearKey_agree E); auto|].
  destruct (String.eqb sb "rating").
  { destruct Hsc as [Ha Hb]; auto. apply (scoreKey_agree E); auto. }
  destruct (String.eqb sb "runtime"); [apply (runtimeKey_agree E); auto|].
  apply Hcr. reflexivity.
Qed.

(** On candidates, the in-memory comparison and the store's order agree. *)
Lemma routeCompare_sortLe (E : Env) (o : ListOptions) (a b : MovieDoc)
    (ma mb : MovieObj) :
  objData ma = data a -> objData mb = data b ->
  o_search o = None ->
  validate E (data a) = true -> validate E (data b) = true ->
  (sortKeyOf (orDefault (o_sortBy o) "createdAt") = ByScore ->
   scoreNonzero a /\ scoreNonzero b) ->
  (sortKeyOf (orDefault (o_sortBy o) "createdAt") = ByTitle ->
   lowercaseTitle a /\ lowercaseTitle b) ->
  (sortKeyOf (orDefault (o_sortBy o) "createdAt") = ByCreatedAt ->
   Z.compare (toNumber (objCreatedAt ma)) (toNumber (objCreatedAt mb))
   = Z.compare (createdAt a) (createdAt b)) ->
  (routeCompare (orDefault (o_sortBy o) "createdAt") (orDefault (o_sortOrder o) "desc")
                ma mb <=? 0)
  = sortLe E (listSort o) a b.
Proof.
  intros Hma Hmb Hs Hva Hvb Hsc Hti Hcr. unfold routeCompare, listSort. rewrite Hs.
  cbn [someTruthy]. rewrite (routeKeyCmp_cmpKey E _ a b); auto.
  destruct (String.eqb (orDefault (o_sortOrder o) "desc") "desc"); cbn [sortLe].
  - change (-1 <? 0) with true. cbv iota. rewrite (cmpKey_antisym _ a b).
    destruct (cmpKey _ a b); reflexivity.
  - change (1 <? 0) with false. cbv iota. destruct (cmpKey _ a b); reflexivity.
Qed.

Lemma routeKeeps_no_filter (g : option GenreParam) (y : option YearParam)
    (r : option RatingParam) (mv : MovieObj) :
  (isSome (someTruthy genreTruthy g) || isSome (someTruthy yearTruthy y)
   || isSome (someTruthy ratingTruthy r))%bool = false ->
  routeKeeps g y r mv = true.
Proof.
  intros H. unfold routeKeeps, keepsGenre, keepsYear, keepsRating.
  destruct (someTruthy genreTruthy g); [discriminate|].
  destruct (someTruthy yearTruthy y); [discriminate|].
  destruct (someTruthy ratingTruthy r); [discriminate|]. reflexivity.
Qed.

(** ** The orders that the sort documents denote *)

Lemma notGt_iff (c : comparison) : negb (isGt c) = true <-> c <> Gt.
Proof. destruct c; cbn; split; congruence. Qed.

Lemma Zcompare_trans (x y z : Z) :
  (x ?= y) <> Gt -> (y ?= z) <> Gt -> (x ?= z) <> Gt.
Proof. rewrite !Z.compare_le_iff. lia. Qed.

Lemma Qcompare_trans (x y z : Q) :
  (x ?= y)%Q <> Gt -> (y ?= z)%Q <> Gt -> (x ?= z)%Q <> Gt.
Proof. rewrite <- !Qle_alt. apply Qle_trans. Qed.

Lemma string_compare_trans (a : string) :
  forall b c, String.compare a b <> Gt -> String.compare b c <> Gt ->
              String.compare a c <> Gt.
Proof.
  induction a as [|x a IH]; intros [|y b] [|z c]; cbn [String.compare]; try congruence.
  unfold Ascii.compare.
  destruct (N.compare_spec (N_of_ascii x) (N_of_ascii y)) as [Hxy|Hxy|Hxy];
    destruct (N.compare_spec (N_of_ascii y) (N_of_ascii z)) as [Hyz|Hyz|Hyz];
    destruct (N.compare_spec (N_of_ascii x) (N_of_ascii z)) as [Hxz|Hxz|Hxz];
    intros H1 H2; try congruence; try lia.
  apply (IH b c); assumption.
Qed.

Lemma cmpNullable_trans {A} (cmp : A -> A -> comparison) (a b c : nullable A) :
  (forall x y z, cmp x y <> Gt -> cmp y z <> Gt -> cmp x z <> Gt) ->
  cmpNullable cmp a b <> Gt -> cmpNullable cmp b c <> Gt -> cmpNullable cmp a c <> Gt.
Proof. intros H. destruct a, b, c; cbn; try congruence. apply H. Qed.

Lemma cmpKey_trans (k : SortKey) (a b c : MovieDoc) :
  cmpKey k a b <> Gt -> cmpKey k b c <> Gt -> cmpKey k a c <> Gt.
Proof.
  destruct k; cbn [cmpKey].
  - apply string_compare_trans.
  - apply cmpNullable_trans, Zcompare_trans.
  - apply cmpNullable_trans, Qcompare_trans.
  - apply cmpNullable_trans, Zcompare_trans.
  - apply Zcompare_trans.
Qed.

Lemma sortLe_total (E : Env) (s : SortSpec) (a b : MovieDoc) :
  sortLe E s a b = false -> sortLe E s b a = true.
Proof.
  destruct s as [term|k dir]; cbn [sortLe].
  - rewrite Nat.leb_gt, Nat.leb_le. lia.
  - destruct (dir <? 0); rewrite (cmpKey_antisym k a b);
      destruct (cmpKey k a b); cbn; congruence.
Qed.

Lemma sortLe_trans (E : Env) (s : SortSpec) (a b c : MovieDoc) :
  sortLe E s a b = true -> sortLe E s b c = true -> sortLe E s a c = true.
Proof.
  destruct s as [term|k dir]; cbn [sortLe].
  - rewrite !Nat.leb_le. lia.
  - destruct (dir <? 0); rewrite !notGt_iff; intros H1 H2.
    + exact (cmpKey_trans k c b a H2 H1).
    + exact (cmpKey_trans k a b c H1 H2).
Qed.

Lemma sortLe_antisym (E : Env) (k : SortKey) (dir : Z) (a b : MovieDoc) :
  sortLe E (Field k dir) a b = true -> sortLe E (Field k dir) b a = true ->
  cmpKey k a b = Eq.
Proof.
  cbn [sortLe]. destruct (dir <? 0); rewrite (cmpKey_antisym k a b);
    destruct (cmpKey k a b); cbn; congruence.
Qed.

Lemma filter_perm {A} (p : A -> bool) (l l' : list A) :
  Permutation l l' -> Permutation (filter p l) (filter p l').
Proof.
  induction 1 as [|x l l' _ IH|x y l|l l' l'' _ IH1 _ IH2]; cbn [filter].
  - constructor.
  - destruct (p x); [apply perm_skip|]; exact IH.
  - destruct (p x), (p y); try reflexivity. apply perm_swap.
  - eapply perm_trans; eassumption.
Qed.

(** A list has one sorted arrangement when no two of its members are each
    before the other. *)
Lemma sorted_perm_unique {A} (le : A -> A -> bool) (l1 : list A) :
  forall l2,
    (forall a b, In a l1 -> In b l1 -> le a b = true -> le b a = true -> a = b) ->
    Permutation l1 l2 ->
    StronglySorted (fun a b => le a b = true) l1 ->
    StronglySorted (fun a b => le a b = true) l2 ->
    l1 = l2.
Proof.
  induction l1 as [|x r1 IH]; intros l2 Hanti Hp H1 H2.
  - apply Permutation_nil in Hp. auto.
  - destruct l2 as [|y r2]; [apply Permutation_sym, Permutation_nil in Hp; discriminate|].
    assert (Hxy : x = y).
    { inversion H1 as [|? ? _ Hx]; inversion H2 as [|? ? _ Hy]; subst.
      rewrite Forall_forall in Hx, Hy.
      assert (Hyin : In y (x :: r1))
        by (apply (Permutation_in _ (Permutation_sym Hp)); left; reflexivity).
      assert (Hxin : In x (y :: r2)) by (apply (Permutation_in _ Hp); left; reflexivity).
      destruct Hyin as [Hyin|Hyin]; [exact Hyin|].
      destruct Hxin as [Hxin|Hxin]; [symmetry; exact Hxin|].
      apply Hanti; [left; reflexivity | right; exact Hyin | apply Hx; exact Hyin
                   | apply Hy; exact Hxin]. }
    subst y. f_equal. apply IH.
    + intros a b Ha Hb. apply Hanti; right; assumption.
    + eapply Permutation_cons_inv; exact Hp.
    + inversion H1; assumption.
    + inversion H2; assumption.
Qed.

(** The store's sort, run on the collection in any order, is an answer the
    store may give. *)
Lemma findSorted_answer (E : Env) (q : Query) (s : SortSpec) (docs docs' : list MovieDoc) :
  Permutation docs' docs -> storeAnswer E q s docs (findSorted E q s docs').
Proof.
  intros Hp. unfold storeAnswer, findSorted. split.
  - eapply perm_trans; [apply sortBy_perm | apply filter_perm; exact Hp].
  - apply sortBy_sorted; [apply sortLe_total | apply sortLe_trans].
Qed.

(** When no two documents have the same sort key the store has one
    answer. *)
Lemma storeAnswer_unique (E : Env) (q : Query) (k : SortKey) (dir : Z)
    (docs out out' : list MovieDoc) :
  (forall a b, In a docs -> In b docs -> cmpKey k a b = Eq -> a = b) ->
  storeAnswer E q (Field k dir) docs out -> storeAnswer E q (Field k dir) docs out' ->
  out = out'.
Proof.
  intros Hkeys [Hp Hs] [Hp' Hs'].
  apply (sorted_perm_unique (sortLe E (Field k dir))); auto.
  - intros a b Ha Hb Hab Hba.
    apply (Permutation_in _ Hp), filter_In in Ha. apply (Permutation_in _ Hp), filter_In in Hb.
    apply Hkeys; [tauto | tauto | eapply sortLe_antisym; eassumption].
  - eapply perm_trans; [exact Hp | apply Permutation_sym; exact Hp'].
Qed.

(** ** The two paths, record by record *)

(** The in-memory path on a batch of records, each paired with the document
    the store holds of it: when the in-memory test and comparison agree
    with the store's on the pairs, both paths make the same selection of
    pairs, in the same order. *)
Lemma routeFilterSort_paired (E : Env) (o : ListOptions) (t : Z)
    (zs : list (MovieObj * MovieDoc)) :
  (forall z, In z zs ->
             routeKeeps (o_genre o) (o_year o) (o_rating o) (fst z)
             = matches E (listQuery o t) (snd z)) ->
  (forall z z', In z zs -> In z' zs ->
                (routeCompare (orDefault (o_sortBy o) "createdAt")
                              (orDefault (o_sortOrder o) "desc") (fst z) (fst z') <=? 0)
                = sortLe E (listSort o) (snd z) (snd z')) ->
  exists sel,
    incl sel zs /\
    routeFilterSort o (map fst zs) = map fst sel /\
    listed E o t (map snd zs) = map snd sel.
Proof.
  intros Hkeep Hcmp.
  set (p2 := fun z : MovieObj * MovieDoc => matches E (listQuery o t) (snd z)).
  set (le2 := fun z z' : MovieObj * MovieDoc => sortLe E (listSort o) (snd z) (snd z')).
  exists (sortBy le2 (filter p2 zs)).
  assert (Hin : forall z, In z (filter p2 zs) -> In z zs)
    by (intros z Hz; apply filter_In in Hz; tauto).
  split; [|split].
  - intros z Hz. apply In_sortBy in Hz. auto.
  - assert (Hagree : filter (routeKeeps (o_genre o) (o_year o) (o_rating o)) (map fst zs)
                     = map fst (filter p2 zs)).
    { apply filter_map_ext. intros z Hz. apply Hkeep. exact Hz. }
    assert (Hfilter :
              (if (isSome (someTruthy genreTruthy (o_genre o))
                   || isSome (someTruthy yearTruthy (o_year o))
                   || isSome (someTruthy ratingTruthy (o_rating o)))%bool
               then filter (routeKeeps (o_genre o) (o_year o) (o_rating o)) (map fst zs)
               else map fst zs)
              = map fst (filter p2 zs)).
    { destruct (isSome (someTruthy genreTruthy (o_genre o))
                || isSome (someTruthy yearTruthy (o_year o))
                || isSome (someTruthy ratingTruthy (o_rating o)))%bool eqn:Hany; auto.
      rewrite <- Hagree. symmetry. apply filter_all.
      intros mv _. apply routeKeeps_no_filter. exact Hany. }
    unfold routeFilterSort, jsSort. rewrite Hfilter.
    apply sortBy_map_ext. intros a b Ha Hb. apply Hcmp; auto.
  - unfold listed, findSorted.
    rewrite (filter_map_ext snd p2 (matches E (listQuery o t)) zs) by reflexivity.
    apply sortBy_map_ext. reflexivity.
Qed.

(** The payloads of a batch against the documents that hold their casts,
    one to one. *)
Lemma payloads_paired (ms : list MovieData) :
  forall ds : list MovieDoc,
    map castData ms = map data ds ->
    exists zs : list (MovieObj * MovieDoc),
      map fst zs = map Fresh ms /\ map snd zs = ds /\
      forall z, In z zs -> exists m, In m ms /\ fst z = Fresh m /\ castData m = data (snd z).
Proof.
  induction ms as [|m ms IH]; intros [|d ds] H; try discriminate H.
  - exists []. repeat split. intros z [].
  - cbn [map] in H. injection H as Hd Hr.
    destruct (IH ds Hr) as (zs & Hf & Hs & Hz).
    exists ((Fresh m, d) :: zs). cbn [map fst snd]. rewrite Hf, Hs.
    split; [reflexivity|]. split; [reflexivity|].
    intros z [<-|Hin].
    + exists m. cbn [fst snd]. split; [left; reflexivity | auto].
    + destruct (Hz z Hin) as (m' & Hm' & H1 & H2). exists m'.
      split; [right; exact Hm' | auto].
Qed.

Lemma plainText_trim (s : string) : plainText s = true -> JS.trim s = s.
Proof.
  unfold plainText. intros H. apply andb_prop in H as [_ H].
  apply String.eqb_eq. exact H.
Qed.

(** The cast of a plain payload has the payload's title, genres, year,
    runtime and scores. *)
Lemma plainPayload_cast (m : MovieData) :
  plainPayload m ->
  title (castData m) = title m /\ genre (castData m) = genre m.
Proof.
  intros [Ht Hg]. cbn [castData title genre]. split; [apply plainText_trim; exact Ht|].
  induction Hg as [|g r Hg _ IH]; cbn [map]; [reflexivity|].
  rewrite (plainText_trim g Hg), IH. reflexivity.
Qed.

Lemma routeKeeps_Fresh (g : option GenreParam) (y : option YearParam)
    (r : option RatingParam) (m m' : MovieData) :
  genre m = genre m' -> year m = year m' -> rating m = rating m' ->
  routeKeeps g y r (Fresh m) = routeKeeps g y r (Fresh m').
Proof.
  intros Hg Hy Hr.
  unfold routeKeeps, keepsGenre, keepsYear, keepsRating, truthyScore. cbn [objData].
  rewrite Hg, Hy, Hr. reflexivity.
Qed.

Lemma routeCompare_Fresh (sb so : string) (a a' b b' : MovieData) :
  title a = title a' -> year a = year a' -> runtime a = runtime a' ->
  rating a = rating a' ->
  title b = title b' -> year b = year b' -> runtime b = runtime b' ->
  rating b = rating b' ->
  routeCompare sb so (Fresh a) (Fresh b) = routeCompare sb so (Fresh a') (Fresh b').
Proof.
  intros Ht Hy Hrt Hr Ht' Hy' Hrt' Hr'.
  unfold routeCompare, routeKeyCmp, scoreOr0. cbn [objData objCreatedAt].
  rewrite Ht, Hy, Hrt, Hr, Ht', Hy', Hrt', Hr'. reflexivity.
Qed.

(** C6, as stated, fails.  A stored, active document without a primary
    score passes the in-memory rating filter (its test is skipped when the
    score is falsy) and is rejected by the store's [$gte]; sorted by title,
    ["apple"] comes before ["Banana"] in memory (titles are compared in lower
    case) and after it in the store; an empty list of genres rejects every
    record in memory and filters nothing in the store; sorted by title, the
    payload [" up"] comes before ["alien"] in memory and its document, whose
    title the schema has trimmed, after the other in the store; and sorted
    by creation time, newest first, two payloads stay as the provider listed
    them, while the store puts the document created last first. *)
Lemma C6_paths_differ :
  (isActive 1700000000000 Demo.unrated = true /\
   routeFilterSort Demo.ratingAtLeast7 [Stored Demo.unrated] = [Stored Demo.unrated] /\
   listed Demo.env Demo.ratingAtLeast7 1700000000000 [Demo.unrated] = []) /\
  (routeFilterSort Demo.byTitleAsc [Stored Demo.banana; Stored Demo.apple]
   = [Stored Demo.apple; Stored Demo.banana] /\
   listed Demo.env Demo.byTitleAsc 1700000000000 [Demo.banana; Demo.apple]
   = [Demo.banana; Demo.apple]) /\
  (routeFilterSort Demo.noGenres [Stored Demo.apple] = [] /\
   listed Demo.env Demo.noGenres 1700000000000 [Demo.apple] = [Demo.apple]) /\
  (map title (map objData (routeFilterSort Demo.byTitleAsc [Fresh Cases.up; Fresh Cases.alien]))
   = [" up"; "alien"] /\
   map data [Demo.docAt 1700000000000 Cases.rawUp; Demo.docAt 1700000000000 Cases.rawAlien]
   = map castData [Cases.up; Cases.alien] /\
   map (fun d => title (data d))
       (listed Demo.env Demo.byTitleAsc 1700000000000
               [Demo.docAt 1700000000000 Cases.rawUp;
                Demo.docAt 1700000000000 Cases.rawAlien])
   = ["alien"; "up"]) /\
  (map title (map objData (routeFilterSort Cases.newestFirst
                                           [Fresh Cases.alien; Fresh (castData Cases.up)]))
   = ["alien"; "up"] /\
   map data [Demo.docAt 1699990000000 Cases.rawAlien; Demo.docAt 1700000000000 Cases.rawUp]
   = map castData [Cases.alien; castData Cases.up] /\
   map (fun d => title (data d))
       (listed Demo.env Cases.newestFirst 1700000000000
               [Demo.docAt 1699990000000 Cases.rawAlien;
                Demo.docAt 1700000000000 Cases.rawUp])
   = ["up"; "alien"]).
Proof. vm_compute. repeat split. Qed.

(** C6 (amended): take candidates that the store holds (they passed the
    validators) and that are active, and the options of a listing, which
    has no search term, such that the genre filter is not the empty list, that every candidate has a primary score when a rating
    filter is given, that no candidate's primary score is 0 when a rating
    filter is given or the sort key is the rating, and that the titles are
    ASCII text without a capital letter when the sort key is the title.
    Then, whatever the genre, year and rating filters, the sort key and the
    sort order, the in-memory filter and sort of [router.get('/')] gives an
    answer that the store query of [getCachedMovies] may give on the
    candidates -- the same records, in an order that respects the same
    sort:

    - on the candidates themselves, in any order (a search answered from
      the cache);
    - on the payloads the candidates were stored from, in any order (a
      search answered by the provider), where the records are compared as
      the schema casts them, provided that the cast leaves the title and
      the genres of every payload as they are (ASCII text without blanks
      around it) and, a payload having no creation time, that for the sort
      by creation time the candidates were created together.

    The store query as it is run here gives such an answer too, and when no
    two candidates have the same sort key there is one such answer only, so
    that both paths give the very same list.  The order among records with
    equal keys is not compared: the in-memory sort keeps them in the order
    of the batch, the store in an order of its choice. *)
Theorem C6_filter_sort_agree (E : Env) (o : ListOptions) (t : Z) (docs : list MovieDoc) :
  o_search o = None ->
  Forall (Candidate E t) docs ->
  o_genre o <> Some (GenreMany []) ->
  (o_rating o <> None -> Forall scorePresent docs) ->
  (o_rating o <> None \/ sortKeyOf (orDefault (o_sortBy o) "createdAt") = ByScore ->
   Forall scoreNonzero docs) ->
  (sortKeyOf (orDefault (o_sortBy o) "createdAt") = ByTitle ->
   Forall lowercaseTitle docs) ->
  (forall hits,
      Permutation hits docs ->
      exists sel,
        routeFilterSort o (map Stored hits) = map Stored sel /\
        storeAnswer E (listQuery o t) (listSort o) docs sel) /\
  (forall payloads,
      Permutation (map castData payloads) (map data docs) ->
      Forall plainPayload payloads ->
      (sortKeyOf (orDefault (o_sortBy o) "createdAt") = ByCreatedAt ->
       forall a b, In a docs -> In b docs -> createdAt a = createdAt b) ->
      exists sel,
        map castData (map objData (routeFilterSort o (map Fresh payloads))) = map data sel /\
        storeAnswer E (listQuery o t) (listSort o) docs sel) /\
  storeAnswer E (listQuery o t) (listSort o) docs (listed E o t docs) /\
  ((forall a b, In a docs -> In b docs ->
                cmpKey (sortKeyOf (orDefault (o_sortBy o) "createdAt")) a b = Eq -> a = b) ->
   forall out, storeAnswer E (listQuery o t) (listSort o) docs out ->
               out = listed E o t docs).
Proof.
  intros Hs Hc Hg Hp Hnz Hti.
  rewrite Forall_forall in Hc.
  assert (Hkeep : forall d, In d docs ->
                            routeKeeps (o_genre o) (o_year o) (o_rating o) (Fresh (data d))
                            = matches E (listQuery o t) d).
  { intros d Hd. apply routeKeeps_matches; auto. intros Hr. split.
    - specialize (Hp Hr). rewrite Forall_forall in Hp. auto.
    - specialize (Hnz (or_introl Hr)). rewrite Forall_forall in Hnz. auto. }
  assert (Hcmp : forall (ma mb : MovieObj) a b,
             In a docs -> In b docs -> objData ma = data a -> objData mb = data b ->
             (sortKeyOf (orDefault (o_sortBy o) "createdAt") = ByCreatedAt ->
              Z.compare (toNumber (objCreatedAt ma)) (toNumber (objCreatedAt mb))
              = Z.compare (createdAt a) (createdAt b)) ->
             (routeCompare (orDefault (o_sortBy o) "createdAt")
                           (orDefault (o_sortOrder o) "desc") ma mb <=? 0)
             = sortLe E (listSort o) a b).
  { intros ma mb a b Ha Hb Hma Hmb Hcr.
    apply (routeCompare_sortLe E o a b); auto.
    - apply Hc. exact Ha.
    - apply Hc. exact Hb.
    - intros Hk. specialize (Hnz (or_intror Hk)). rewrite Forall_forall in Hnz. auto.
    - intros Hk. specialize (Hti Hk). rewrite Forall_forall in Hti. auto. }
  split; [|split; [|split]].
  - intros hits Hperm.
    assert (Hhit : forall d, In d hits -> In d docs)
      by (intros d Hd; apply (Permutation_in _ Hperm); exact Hd).
    destruct (routeFilterSort_paired E o t (map (fun d => (Stored d, d)) hits))
      as (sel & Hincl & Hmem & Hstore).
    + intros z Hz. apply in_map_iff in Hz as (d & <- & Hd). cbn [fst snd].
      rewrite <- (Hkeep d (Hhit d Hd)). reflexivity.
    + intros z z' Hz Hz'. apply in_map_iff in Hz as (a & <- & Ha).
      apply in_map_iff in Hz' as (b & <- & Hb). cbn [fst snd].
      apply Hcmp; auto.
    + rewrite !map_map in Hmem, Hstore. cbn [fst snd] in Hmem, Hstore.
      rewrite map_id in Hstore.
      exists (listed E o t hits). split.
      * change (fun x : MovieDoc => Stored x) with Stored in Hmem.
        rewrite Hmem, Hstore, map_map. apply map_ext_in.
        intros z Hz. apply Hincl, in_map_iff in Hz as (d & <- & _). reflexivity.
      * apply findSorted_answer. exact Hperm.
  - intros payloads Hperm Hplain Hcr.
    rewrite Forall_forall in Hplain.
    apply Permutation_map_inv in Hperm as (docs' & Hdata & Hperm').
    assert (Hdoc : forall d, In d docs' -> In d docs)
      by (intros d Hd; apply (Permutation_in _ (Permutation_sym Hperm')); exact Hd).
    destruct (payloads_paired payloads docs') as (zs & Hf & Hsnd & Hz).
    { exact Hdata. }
    assert (Hin : forall z, In z zs -> In (snd z) docs).
    { intros z Hin. apply Hdoc. rewrite <- Hsnd. apply in_map. exact Hin. }
    assert (Hsame : forall z, In z zs ->
                              exists m, In m payloads /\ fst z = Fresh m /\
                                        castData m = data (snd z) /\
                                        title m = title (data (snd z)) /\
                                        genre m = genre (data (snd z)) /\
                                        year m = year (data (snd z)) /\
                                        runtime m = runtime (data (snd z)) /\
                                        rating m = rating (data (snd z))).
    { intros z Hin'. destruct (Hz z Hin') as (m & Hm & Hfst & Hcast).
      destruct (plainPayload_cast m (Hplain m Hm)) as [Htitle Hgenre].
      exists m. rewrite <- Hcast. repeat split; auto. }
    destruct (routeFilterSort_paired E o t zs) as (sel & Hincl & Hmem & Hstore).
    + intros z Hin'.
      destruct (Hsame z Hin') as (m & _ & -> & _ & _ & Hgen & Hyear & _ & Hrat).
      rewrite (routeKeeps_Fresh _ _ _ m (data (snd z)) Hgen Hyear Hrat).
      apply Hkeep. apply Hin. exact Hin'.
    + intros z z' Hin1 Hin2.
      destruct (Hsame z Hin1) as (m & _ & -> & _ & Ht1 & _ & Hy1 & Hrt1 & Hr1).
      destruct (Hsame z' Hin2) as (m' & _ & -> & _ & Ht2 & _ & Hy2 & Hrt2 & Hr2).
      rewrite (routeCompare_Fresh _ _ m (data (snd z)) m' (data (snd z'))
                 Ht1 Hy1 Hrt1 Hr1 Ht2 Hy2 Hrt2 Hr2).
      apply Hcmp; auto.
      intros Hk. cbn [objCreatedAt toNumber].
      rewrite (Hcr Hk (snd z) (snd z') (Hin z Hin1) (Hin z' Hin2)).
      rewrite !Z.compare_refl. reflexivity.
    + rewrite Hf in Hmem. rewrite Hsnd in Hstore.
      exists (listed E o t docs'). split.
      * rewrite Hmem, Hstore, !map_map. apply map_ext_in.
        intros z Hin'. destruct (Hsame z (Hincl z Hin')) as (m & _ & -> & Hcast & _).
        exact Hcast.
      * apply findSorted_answer. apply Permutation_sym. exact Hperm'.
  - apply findSorted_answer. reflexivity.
  - intros Hkeys out Hout.
    assert (Hsort : listSort o
                    = Field (sortKeyOf (orDefault (o_sortBy o) "createdAt"))
                            (if String.eqb (orDefault (o_sortOrder o) "desc") "desc"
                             then -1 else 1)).
    { unfold listSort. rewrite Hs. reflexivity. }
    rewrite Hsort in Hout.
    eapply storeAnswer_unique; [exact Hkeys | exact Hout |].
    rewrite <- Hsort. apply findSorted_answer. reflexivity.
Qed.

(** The two paths on four stored documents, filtered by genre, year range
    and rating and sorted by rating: the documents as a search finds them
    in the cache, and the payloads as the provider path returns them, both
    in another order than the collection's. *)
Lemma C6_filter_sort_agree_witness :
  routeFilterSort Demo.noughtiesByRating (map Stored (rev Cases.fourDocs))
  = map Stored (listed Demo.env Demo.noughtiesByRating 1700000000000 Cases.fourDocs) /\
  map castData
      (map objData (routeFilterSort Demo.noughtiesByRating
                                    (map Fresh (map (transformOMDBData Demo.env)
                                                    Cases.fourRaw))))
  = map data (listed Demo.env Demo.noughtiesByRating 1700000000000 Cases.fourDocs) /\
  map (fun d => title (data d))
      (listed Demo.env Demo.noughtiesByRating 1700000000000 Cases.fourDocs)
  = ["Middle"; "Banana"].
Proof.
  destruct (C6_filter_sort_agree Demo.env Demo.noughtiesByRating 1700000000000
                                 Cases.fourDocs)
    as (Hcache & Hprovider & _ & Hone).
  - reflexivity.
  - repeat constructor.
  - discriminate.
  - intros _. repeat constructor; eexists; reflexivity.
  - intros _. repeat constructor; intros q Hq; injection Hq as <-;
      intros Hz; vm_compute in Hz; discriminate Hz.
  - intros Hk. vm_compute in Hk. discriminate Hk.
  - assert (Hkeys : forall a b, In a Cases.fourDocs -> In b Cases.fourDocs ->
                                cmpKey (sortKeyOf (orDefault (o_sortBy Demo.noughtiesByRating)
                                                             "createdAt")) a b = Eq ->
                                a = b).
    { intros a b Ha Hb.
      repeat (destruct Ha as [<-|Ha]; [|]); try contradiction Ha;
        repeat (destruct Hb as [<-|Hb]; [|]); try contradiction Hb;
        intros Hab; try reflexivity; vm_compute in Hab; discriminate Hab. }
    split; [|split; [|vm_compute; reflexivity]].
    + destruct (Hcache (rev Cases.fourDocs)) as (sel & Hsel & Hans).
      * apply Permutation_sym, Permutation_rev.
      * rewrite Hsel, (Hone Hkeys sel Hans). reflexivity.
    + destruct (Hprovider (map (transformOMDBData Demo.env) Cases.fourRaw))
        as (sel & Hsel & Hans).
      * change (map castData (map (transformOMDBData Demo.env) Cases.fourRaw))
          with (rev (map data Cases.fourDocs)).
        apply Permutation_sym, Permutation_rev.
      * repeat constructor.
      * intros Hk. vm_compute in Hk. discriminate Hk.
      * rewrite Hsel, (Hone Hkeys sel Hans). reflexivity.
Defined.

(** ** C5: the upsert *)

Lemma filter_none {A} (p : A -> bool) (l : list A) :
  existsb p l = false -> filter p l = [].
Proof.
  induction l as [|x r IH]; cbn [existsb filter]; auto.
  intros H. apply orb_false_elim in H as [Hx Hr]. rewrite Hx. auto.
Qed.




Lemma findIndex_of_filter {A} (p : A -> bool) (l : list A) (d : A) (rest : list A)
    (i : nat) :
  filter p l = d :: rest -> exists pos, findIndex p l i = Some (pos, d).
Proof.
  revert i. induction l as [|x r IH]; intros i; cbn [filter findIndex]; [discriminate|].
  destruct (p x); [|apply IH].
  intros H. injection H as -> _. eauto.
Qed.







(** ** The fan-out over the candidates of a search *)

(** A callback that nothing interrupts does what the source's callback says:
    the three steps of the fan-out, taken in a row, are [cacheOne]. *)
Lemma callback_alone (E : Env) (c : OMDB.SearchItem) (w : World) :
  cacheOne E c w =
  (let '(c1, w1) := startCallback E c w in
   let '(c2, w2) := resume E c1 w1 in
   let '(c3, w3) := resume E c2 w2 in
   (match c3 with Settled o => o | _ => Ret None end, w3)).
Proof.
  unfold cacheOne, try_catch, bind, startCallback.
  destruct (getMovieDetailsOMDB E (OMDB.s_imdbID c) w) as [[e|m] w1]; [reflexivity|].
  cbn [resume]. unfold saveMovieToCache, try_catch, bind.
  destruct (Movie_findOne E (idQuery (imdbID m)) w1) as [[e|existingMovie] w2];
    [reflexivity|].
  cbn [resume]. unfold saveFound.
  destruct existingMovie as [[pos existing]|].
  - unfold bind, getNow.
    destruct (save_existing E pos _ w2) as [[e|d] w3]; reflexivity.
  - unfold bind.
    destruct (newMovie m w2) as [[e|movie] w3]; [reflexivity|].
    destruct (save_new E movie w3) as [[e|d] w4]; reflexivity.
Qed.


(** *** Lists rewritten in place *)

Lemma nth_error_replaceAt_eq {A} (i : nat) (x y : A) (l : list A) :
  nth_error l i = Some y -> nth_error (replaceAt i x l) i = Some x.
Proof.
  revert i. induction l as [|z r IH]; intros [|i]; cbn [nth_error replaceAt];
    try discriminate; auto.
Qed.

Lemma nth_error_replaceAt_neq {A} (i j : nat) (x : A) (l : list A) :
  i <> j -> nth_error (replaceAt i x l) j = nth_error l j.
Proof.
  revert i j. induction l as [|z r IH]; intros [|i] [|j] H; cbn [nth_error replaceAt];
    auto; try congruence.
Qed.

Lemma replaceAt_same {A} (i : nat) (x : A) (l : list A) :
  nth_error l i = Some x -> replaceAt i x l = l.
Proof.
  revert i. induction l as [|z r IH]; intros [|i]; cbn [nth_error replaceAt];
    try discriminate; auto.
  - intros H. injection H as ->. reflexivity.
  - intros H. rewrite IH; auto.
Qed.

Lemma map_replaceAt {A B} (f : A -> B) (i : nat) (x : A) (l : list A) :
  map f (replaceAt i x l) = replaceAt i (f x) (map f l).
Proof.
  revert i. induction l as [|z r IH]; intros [|i]; cbn [map replaceAt]; auto.
  rewrite IH. reflexivity.
Qed.

Lemma In_replaceAt_cases {A} (i : nat) (x y : A) (l : list A) :
  In y (replaceAt i x l) -> y = x \/ In y l.
Proof.
  intros H. apply In_replaceAt in H as [H|H]; auto. right. eapply In_removeAt; eauto.
Qed.

Lemma unique_removeAt_free (s : list MovieDoc) (pos : nat) (id : string) :
  uniqueIds s -> nth_error (map idOf s) pos = Some id ->
  existsb (hasId id) (removeAt pos s) = false.
Proof.
  unfold uniqueIds. revert pos. induction s as [|x r IH]; intros [|pos] Hn H;
    cbn [map nth_error removeAt] in *; try discriminate.
  - injection H as <-. inversion Hn; subst. apply no_id_iff. assumption.
  - inversion Hn as [|a l Hx Hr]; subst. cbn [existsb].
    rewrite (IH pos Hr H), orb_false_r.
    destruct (hasId id x) eqn:Hid; auto. apply hasId_idOf in Hid. subst.
    exfalso. apply Hx. eapply nth_error_In; eauto.
Qed.

(** *** One turn of the event loop *)

Lemma firstSuspended_some (cs : list Callback) :
  forall k i, firstSuspended cs k = Some i ->
              (k <= i)%nat /\
              exists c, nth_error cs (i - k) = Some c /\ (0 < awaits c)%nat.
Proof.
  induction cs as [|c r IH]; intros k i H; cbn [firstSuspended] in H; [discriminate|].
  destruct (0 <? awaits c)%nat eqn:Hc.
  - injection H as <-. split; [lia|]. rewrite Nat.sub_diag. exists c.
    apply Nat.ltb_lt in Hc. auto.
  - apply IH in H as (Hle & c' & Hn & Hc'). split; [lia|].
    exists c'. replace (i - k)%nat with (S (i - S k)) by lia. auto.
Qed.

Lemma firstSuspended_none (cs : list Callback) :
  forall k, firstSuspended cs k = None -> Forall (fun c => awaits c = 0%nat) cs.
Proof.
  induction cs as [|c r IH]; intros k H; cbn [firstSuspended] in H; constructor.
  - destruct (0 <? awaits c)%nat eqn:Hc; [discriminate|]. apply Nat.ltb_ge in Hc. lia.
  - destruct (0 <? awaits c)%nat; [discriminate|]. eapply IH; eauto.
Qed.

Lemma nextResumed_some (E : Env) (cs : list Callback) (w : World) (i : nat) :
  nextResumed E cs w = Some i ->
  exists c, nth_error cs i = Some c /\ (0 < awaits c)%nat.
Proof.
  unfold nextResumed.
  destruct (nth_error cs (resumes E _ _ _)) as [c|] eqn:Hn.
  - destruct (0 <? awaits c)%nat eqn:Hc.
    + intros H. injection H as <-. exists c. apply Nat.ltb_lt in Hc. auto.
    + intros H. apply firstSuspended_some in H as (_ & c' & H1 & H2).
      rewrite Nat.sub_0_r in H1. eauto.
  - intros H. apply firstSuspended_some in H as (_ & c' & H1 & H2).
    rewrite Nat.sub_0_r in H1. eauto.
Qed.

Lemma nextResumed_none (E : Env) (cs : list Callback) (w : World) :
  nextResumed E cs w = None -> Forall (fun c => awaits c = 0%nat) cs.
Proof.
  unfold nextResumed.
  destruct (nth_error cs (resumes E _ _ _)) as [c|];
    [destruct (0 <? awaits c)%nat; [discriminate|]|]; apply firstSuspended_none.
Qed.

(** What every turn keeps, the event loop keeps. *)
Lemma eventLoop_inv (E : Env) (I : list Callback -> World -> Prop) :
  (forall cs w i c c' w',
      I cs w -> nth_error cs i = Some c -> (0 < awaits c)%nat ->
      resume E c w = (c', w') -> I (replaceAt i c' cs) w') ->
  forall turns cs w cs' w',
    eventLoop E turns cs w = (cs', w') -> I cs w -> I cs' w'.
Proof.
  intros Hturn. induction turns as [|n IH]; intros cs w cs' w' H HI;
    cbn [eventLoop] in H.
  - injection H as <- <-. exact HI.
  - destruct (nextResumed E cs w) as [i|] eqn:Hnext; [|injection H as <- <-; exact HI].
    destruct (nextResumed_some _ _ _ _ Hnext) as (c & Hc & Hpos).
    rewrite (nth_error_nth _ _ _ Hc) in H.
    destruct (resume E c w) as [c1 w1] eqn:Hr.
    eapply IH; eauto.
Qed.

Lemma resume_findOne (E : Env) (m : MovieData) (w : World) (c' : Callback) (w' : World) :
  resume E (AwaitsFindOne m) w = (c', w') ->
  w' = tick w /\
  ((dbFault E (dbOps w) = true /\ c' = Settled (Ret None)) \/
   (dbFault E (dbOps w) = false /\
    c' = AwaitsSave m (findIndex (hasId (imdbID m)) (store w) 0))).
Proof.
  cbn [resume]. rewrite Movie_findOne_id.
  destruct (dbFault E (dbOps w)); intros H; injection H as <- <-; auto.
Qed.

Lemma resume_insert (E : Env) (m : MovieData) (w : World) (c' : Callback) (w' : World) :
  resume E (AwaitsSave m None) w = (c', w') ->
  (c' = Settled (Ret None) /\ store w' = store w /\ now w' = now w /\
   apiLog w' = apiLog w /\ (dbOps w <= dbOps w' <= S (dbOps w))%nat /\
   (validate E (castData m) = false \/ dbFault E (dbOps w) = true \/
    existsb (hasId (imdbID m)) (store w) = true)) \/
  (c' = Settled (Ret (Some m)) /\
   w' = withStore (tick w) (store w ++ [freshDoc (now w) m])%list /\
   validate E (castData m) = true /\ dbFault E (dbOps w) = false /\
   existsb (hasId (imdbID m)) (store w) = false).
Proof.
  cbn [resume saveFound]. unfold newMovie, save_new, bind, getNow, ret, throw, dbOp.
  cbn [data freshDoc imdbID castData].
  destruct (validate E (castData m)); cbn [negb].
  - destruct (dbFault E (dbOps w)).
    + intros H. injection H as <- <-. left. cbn. repeat split; auto; lia.
    + destruct (existsb (hasId (imdbID m)) (store w)); intros H; injection H as <- <-.
      * left. cbn. repeat split; auto; lia.
      * right. repeat split; auto.
  - intros H. injection H as <- <-. left. repeat split; auto; lia.
Qed.

Lemma resume_update (E : Env) (m : MovieData) (pos : nat) (old : MovieDoc) (w : World)
    (c' : Callback) (w' : World) :
  resume E (AwaitsSave m (Some (pos, old))) w = (c', w') ->
  (c' = Settled (Ret None) /\ store w' = store w /\ now w' = now w /\
   apiLog w' = apiLog w /\ (dbOps w <= dbOps w' <= S (dbOps w))%nat /\
   (validate E (castData m) = false \/ dbFault E (dbOps w) = true \/
    existsb (hasId (imdbID m)) (removeAt pos (store w)) = true)) \/
  (c' = Settled (Ret (Some m)) /\
   w' = withStore (tick w) (replaceAt pos (refreshed old m (now w)) (store w)) /\
   validate E (castData m) = true /\ dbFault E (dbOps w) = false /\
   existsb (hasId (imdbID m)) (removeAt pos (store w)) = false).
Proof.
  cbn [resume saveFound]. unfold save_existing, bind, getNow, ret, throw, dbOp.
  cbn [data setExpiry assign imdbID castData].
  destruct (validate E (castData m)); cbn [negb].
  - destruct (dbFault E (dbOps w)).
    + intros H. injection H as <- <-. left. cbn. repeat split; auto; lia.
    + destruct (existsb (hasId (imdbID m)) (removeAt pos (store w)));
        intros H; injection H as <- <-.
      * left. cbn. repeat split; auto; lia.
      * right. repeat split; auto.
  - intros H. injection H as <- <-. left. repeat split; auto; lia.
Qed.

(** A turn leaves the clock and the provider alone and issues at most one
    store operation; it takes at least one suspension off the callback, and
    the payload the callback carries stays the one it had, if any. *)
Lemma resume_frame (E : Env) (c : Callback) (w : World) (c' : Callback) (w' : World) :
  resume E c w = (c', w') ->
  now w' = now w /\ apiLog w' = apiLog w /\ (dbOps w <= dbOps w' <= S (dbOps w))%nat /\
  ((0 < awaits c)%nat -> (awaits c' < awaits c)%nat) /\
  (forall m, payloadOf c' = Some m -> payloadOf c = Some m).
Proof.
  destruct c as [o|m|m [[pos old]|]]; intros H.
  - cbn [resume] in H. injection H as <- <-. repeat split; auto; cbn; lia.
  - apply resume_findOne in H as [-> [[_ ->]|[_ ->]]]; cbn; repeat split; auto;
      try lia; try discriminate.
  - apply resume_update in H as [(-> & _ & Hn & Ha & Hd & _)|(-> & -> & _)];
      cbn; repeat split; auto; try lia; try discriminate.
  - apply resume_insert in H as [(-> & _ & Hn & Ha & Hd & _)|(-> & -> & _)];
      cbn; repeat split; auto; try lia; try discriminate.
Qed.

(** *** The event loop comes to an end *)

Lemma suspensions_replaceAt (cs : list Callback) (i : nat) (c c' : Callback) :
  nth_error cs i = Some c ->
  (suspensions (replaceAt i c' cs) + awaits c = suspensions cs + awaits c')%nat.
Proof.
  unfold suspensions. revert i. induction cs as [|x r IH]; intros [|i] H;
    cbn [nth_error replaceAt map list_sum fold_right] in *; try discriminate.
  - injection H as ->. lia.
  - specialize (IH i H). unfold list_sum in IH. lia.
Qed.

Lemma suspensions_bound (cs : list Callback) : (suspensions cs <= 2 * List.length cs)%nat.
Proof.
  unfold suspensions. induction cs as [|c r IH];
    cbn [map list_sum fold_right List.length] in *; [lia|].
  unfold list_sum in IH. destruct c; cbn [awaits]; lia.
Qed.

Lemma suspensions_none (cs : list Callback) :
  Forall (fun c => awaits c = 0%nat) cs -> suspensions cs = 0%nat.
Proof.
  unfold suspensions. induction 1 as [|c r Hc Hr IH];
    cbn [map list_sum fold_right] in *; [lia|]. unfold list_sum in IH. lia.
Qed.

Lemma eventLoop_settles (E : Env) (turns : nat) :
  forall cs w cs' w',
    (suspensions cs <= turns)%nat ->
    eventLoop E turns cs w = (cs', w') ->
    Forall (fun c => awaits c = 0%nat) cs'.
Proof.
  induction turns as [|n IH]; intros cs w cs' w' Hle H; cbn [eventLoop] in H.
  - injection H as <- <-. unfold suspensions in Hle.
    induction cs as [|c r IHr]; constructor; cbn [map list_sum fold_right] in Hle;
      [lia|].
    apply IHr. unfold list_sum. lia.
  - destruct (nextResumed E cs w) as [i|] eqn:Hnext.
    + destruct (nextResumed_some _ _ _ _ Hnext) as (c & Hc & Hpos).
      rewrite (nth_error_nth _ _ _ Hc) in H.
      destruct (resume E c w) as [c1 w1] eqn:Hr.
      apply resume_frame in Hr as (_ & _ & _ & Hless & _). specialize (Hless Hpos).
      pose proof (suspensions_replaceAt cs i c c1 Hc).
      eapply IH; [|exact H]. lia.
    + injection H as <- <-. eapply nextResumed_none; eauto.
Qed.

Lemma eventLoop_frame (E : Env) (turns : nat) (cs : list Callback) (w : World)
    (cs' : list Callback) (w' : World) :
  eventLoop E turns cs w = (cs', w') ->
  List.length cs' = List.length cs /\ now w' = now w /\ apiLog w' = apiLog w /\
  (dbOps w <= dbOps w')%nat.
Proof.
  intros H.
  refine (eventLoop_inv E (fun cs0 w0 => List.length cs0 = List.length cs /\
                                         now w0 = now w /\ apiLog w0 = apiLog w /\
                                         (dbOps w <= dbOps w0)%nat)
                        _ turns cs w cs' w' H _).
  - intros cs0 w0 i c c' w1 (Hl & Hn & Ha & Hd) _ _ Hr.
    apply resume_frame in Hr as (Hn1 & Ha1 & Hd1 & _).
    rewrite replaceAt_length. repeat split; try congruence. lia.
  - repeat split; auto.
Qed.

(** Once every callback has settled, the outcomes [allSettled] records are
    what the callbacks returned. *)
Lemma settled_outcomes (cs : list Callback) :
  Forall (fun c => awaits c = 0%nat) cs ->
  fulfilledValues (flat_map settledOutcome cs) = successes (map returned cs) /\
  List.length (flat_map settledOutcome cs) = List.length cs.
Proof.
  induction 1 as [|c r Hc Hr [IH1 IH2]]; [split; reflexivity|].
  destruct c as [[e|[m|]]|m|m x]; cbn [awaits] in Hc; try discriminate;
    cbn [flat_map settledOutcome app fulfilledValues map returned successes List.length];
    rewrite IH1, IH2; split; reflexivity.
Qed.

(** *** The start of the callbacks *)

Lemma getMovieDetailsOMDB_run (E : Env) (id : string) (w : World) :
  getMovieDetailsOMDB E id w
  = (fst (getMovieDetailsOMDB E id w),
     if keyMissing E then w else logCall (DetailCall id) w).
Proof.
  unfold getMovieDetailsOMDB, try_catch, bind, throw, ret, axiosDetail.
  destruct (keyMissing E); [reflexivity|].
  destruct (httpDetail E _ id) as [msg|body]; [reflexivity|].
  destruct (String.eqb (OMDB.dr_Response body) "False"); reflexivity.
Qed.

(** The outcome of a detail fetch depends on the world through the number of
    requests sent before it only. *)
Lemma getMovieDetailsOMDB_outcome (E : Env) (id : string) (w w2 : World) :
  List.length (apiLog w) = List.length (apiLog w2) ->
  fst (getMovieDetailsOMDB E id w) = fst (getMovieDetailsOMDB E id w2).
Proof.
  intros H. unfold getMovieDetailsOMDB, try_catch, bind, throw, ret, axiosDetail.
  destruct (keyMissing E); [reflexivity|]. rewrite H.
  destruct (httpDetail E _ id) as [msg|body]; [reflexivity|].
  destruct (String.eqb (OMDB.dr_Response body) "False"); reflexivity.
Qed.

Lemma requested_frame (movies : list OMDB.SearchItem) :
  forall w, store (requested w movies) = store w /\ now (requested w movies) = now w /\
            dbOps (requested w movies) = dbOps w /\
            apiLog (requested w movies)
            = (apiLog w ++ map (fun c => DetailCall (OMDB.s_imdbID c)) movies)%list.
Proof.
  unfold requested. induction movies as [|c r IH]; intros w; cbn [fold_left map].
  - rewrite app_nil_r. auto.
  - destruct (IH (logCall (DetailCall (OMDB.s_imdbID c)) w)) as (H1 & H2 & H3 & H4).
    rewrite H1, H2, H3, H4. cbn [logCall store now dbOps apiLog].
    rewrite <- app_assoc. auto.
Qed.

(** With a key configured, [map] sends the detail requests of all the
    candidates, in their order, and leaves each callback suspended with the
    payload fetched, or settled with [null] when the fetch failed. *)
Lemma startAll_run (E : Env) (movies : list OMDB.SearchItem) :
  keyMissing E = false ->
  forall w cs w',
    startAll E movies w = (cs, w') ->
    w' = requested w movies /\
    List.length cs = List.length movies /\
    forall i c, nth_error movies i = Some c ->
                nth_error cs i
                = Some match fetched E w movies i c with
                       | Ret m => AwaitsFindOne m
                       | Threw _ => Settled (Ret None)
                       end.
Proof.
  intros Hk. induction movies as [|c r IH]; intros w cs w' H; cbn [startAll] in H.
  - injection H as <- <-. repeat split; auto. intros [|i] c H; discriminate H.
  - unfold startCallback, fetched in *. rewrite getMovieDetailsOMDB_run, Hk in H.
    destruct (startAll E r (logCall (DetailCall (OMDB.s_imdbID c)) w)) as [cs1 w2] eqn:Hr.
    destruct (IH _ _ _ Hr) as (Hw & Hlen & Hnth).
    assert (Hcs : cs = match fst (getMovieDetailsOMDB E (OMDB.s_imdbID c) w) with
                       | Ret m => AwaitsFindOne m
                       | Threw _ => Settled (Ret None)
                       end :: cs1 /\ w' = w2).
    { destruct (fst (getMovieDetailsOMDB E (OMDB.s_imdbID c) w)); cbv beta iota in H;
        rewrite Hr in H; injection H as <- <-; auto. }
    destruct Hcs as [-> ->]. split; [exact Hw|]. split; [cbn; congruence|].
    intros [|i] c0 Hc0; cbn [nth_error firstn] in *.
    + injection Hc0 as <-. reflexivity.
    + rewrite (Hnth i c0 Hc0). reflexivity.
Qed.

(** *** What the turns keep *)

(** How a turn changes the identifiers the collection holds: not at all,
    or, when an insert succeeds, by one identifier that was free. *)
Lemma resume_ids (E : Env) (cs : list Callback) (w : World) (c c' : Callback)
    (w' : World) :
  handlesOk cs (store w) -> In c cs -> resume E c w = (c', w') ->
  map idOf (store w') = map idOf (store w) \/
  (exists m, c = AwaitsSave m None /\ c' = Settled (Ret (Some m)) /\
             map idOf (store w') = (map idOf (store w) ++ [imdbID m])%list /\
             ~ In (imdbID m) (map idOf (store w))).
Proof.
  intros HG Hin Hr. destruct c as [o|m|m [[pos old]|]].
  - cbn [resume] in Hr. injection Hr as _ <-. auto.
  - apply resume_findOne in Hr as [-> _]. auto.
  - apply resume_update in Hr as [(_ & -> & _)|(_ & -> & _)]; auto.
    left. cbn [store withStore]. rewrite map_replaceAt. apply replaceAt_same.
    rewrite (HG m pos old Hin). reflexivity.
  - apply resume_insert in Hr as [(_ & -> & _)|(-> & -> & _ & _ & Hfree)]; auto.
    right. exists m. repeat split; auto.
    + cbn [store withStore]. rewrite map_app. reflexivity.
    + apply no_id_iff. exact Hfree.
Qed.

Lemma nth_error_app_keep {A} (l r : list A) (i : nat) (x : A) :
  nth_error l i = Some x -> nth_error (l ++ r) i = Some x.
Proof.
  intros H. rewrite nth_error_app1; auto. apply nth_error_Some. congruence.
Qed.

(** The handles stay good. *)
Lemma handlesOk_turn (E : Env) (cs : list Callback) (w : World) (i : nat)
    (c c' : Callback) (w' : World) :
  handlesOk cs (store w) -> nth_error cs i = Some c -> resume E c w = (c', w') ->
  handlesOk (replaceAt i c' cs) (store w').
Proof.
  intros HG Hc Hr m pos old Hin.
  pose proof (nth_error_In _ _ Hc) as Hcin.
  assert (Hold : nth_error (map idOf (store w)) pos = Some (imdbID m)).
  { apply In_replaceAt_cases in Hin as [Heq|Hin]; [|eapply HG; eauto].
    subst c'. destruct c as [o|m0|m0 [[pos0 old0]|]].
    - cbn [resume] in Hr. discriminate Hr.
    - apply resume_findOne in Hr as [_ [[_ Hx]|[_ Hx]]]; [discriminate|].
      injection Hx as <- Hfind. symmetry in Hfind.
      apply findIndex_some in Hfind as (_ & Hnth & Hid). rewrite Nat.sub_0_r in Hnth.
      rewrite nth_error_map, Hnth. cbn. apply hasId_idOf in Hid. congruence.
    - apply resume_update in Hr as [(Hx & _)|(Hx & _)]; discriminate.
    - apply resume_insert in Hr as [(Hx & _)|(Hx & _)]; discriminate. }
  destruct (resume_ids E cs w c c' w' HG Hcin Hr) as [->|(m0 & _ & _ & -> & _)]; auto.
  apply nth_error_app_keep. exact Hold.
Qed.

(** A callback that returns its payload has stored it: a document holds the
    payload as the schema casts it, and expires a TTL later. *)
Lemma resume_stores (E : Env) (cs : list Callback) (w : World) (c : Callback)
    (m : MovieData) (w' : World) :
  handlesOk cs (store w) -> In c cs -> (0 < awaits c)%nat ->
  resume E c w = (Settled (Ret (Some m)), w') ->
  validate E (castData m) = true /\
  exists pos d, nth_error (store w') pos = Some d /\ data d = castData m /\
                cacheExpiry d = Val (now w + TTL).
Proof.
  intros HG Hin Hpos Hr. destruct c as [o|m0|m0 [[pos old]|]].
  - cbn [awaits] in Hpos. lia.
  - apply resume_findOne in Hr as [_ [[_ Hx]|[_ Hx]]]; discriminate.
  - apply resume_update in Hr as [(Hx & _)|(Hx & -> & Hv & _)]; [discriminate|].
    injection Hx as <-. split; [exact Hv|].
    specialize (HG m pos old Hin). rewrite nth_error_map in HG.
    destruct (nth_error (store w) pos) as [cur|] eqn:Hcur; [|discriminate].
    exists pos, (refreshed old m (now w)). cbn [store withStore].
    split; [eapply nth_error_replaceAt_eq; eauto|]. split; reflexivity.
  - apply resume_insert in Hr as [(Hx & _)|(Hx & -> & Hv & _)]; [discriminate|].
    injection Hx as <-. split; [exact Hv|].
    exists (List.length (store w)), (freshDoc (now w) m). cbn [store withStore].
    split; [|split; reflexivity].
    rewrite nth_error_app2, Nat.sub_diag; auto.
Qed.

(** A turn leaves a document where it is, unless the callback carries a
    payload of the document's identifier. *)
Lemma resume_keeps_doc (E : Env) (cs : list Callback) (w : World) (c c' : Callback)
    (w' : World) (pos0 : nat) (d0 : MovieDoc) :
  handlesOk cs (store w) -> In c cs -> resume E c w = (c', w') ->
  nth_error (store w) pos0 = Some d0 ->
  (forall m', payloadOf c = Some m' -> imdbID m' <> idOf d0) ->
  nth_error (store w') pos0 = Some d0.
Proof.
  intros HG Hin Hr H0 Hother. destruct c as [o|m0|m0 [[pos old]|]].
  - cbn [resume] in Hr. injection Hr as _ <-. exact H0.
  - apply resume_findOne in Hr as [-> _]. exact H0.
  - apply resume_update in Hr as [(_ & -> & _)|(_ & -> & _)]; [exact H0|].
    cbn [store withStore]. rewrite nth_error_replaceAt_neq; [exact H0|].
    intros ->. specialize (HG m0 pos0 old Hin). rewrite nth_error_map, H0 in HG.
    injection HG as HG. apply (Hother m0); [reflexivity | congruence].
  - apply resume_insert in Hr as [(_ & -> & _)|(_ & -> & _)]; [exact H0|].
    cbn [store withStore]. apply nth_error_app_keep. exact H0.
Qed.

(** Whatever the callback, a turn leaves a document under every identifier
    that had one expiring a TTL after now. *)
Lemma resume_keeps_id (E : Env) (cs : list Callback) (w : World) (c c' : Callback)
    (w' : World) (id : string) :
  handlesOk cs (store w) -> In c cs -> resume E c w = (c', w') ->
  (exists pos d, nth_error (store w) pos = Some d /\ idOf d = id /\
                 cacheExpiry d = Val (now w + TTL)) ->
  exists pos d, nth_error (store w') pos = Some d /\ idOf d = id /\
                cacheExpiry d = Val (now w + TTL).
Proof.
  intros HG Hin Hr (pos0 & d0 & H0 & Hid & Hexp).
  destruct c as [o|m0|m0 [[pos old]|]].
  - cbn [resume] in Hr. injection Hr as _ <-. eauto.
  - apply resume_findOne in Hr as [-> _]. eauto.
  - apply resume_update in Hr as [(_ & -> & _)|(_ & -> & _)]; [eauto|].
    cbn [store withStore]. destruct (Nat.eq_dec pos pos0) as [->|Hne].
    + exists pos0, (refreshed old m0 (now w)).
      split; [eapply nth_error_replaceAt_eq; eauto|]. split; [|reflexivity].
      specialize (HG m0 pos0 old Hin). rewrite nth_error_map, H0 in HG.
      injection HG as HG. unfold idOf in *. cbn. congruence.
    + exists pos0, d0. rewrite nth_error_replaceAt_neq; auto.
  - apply resume_insert in Hr as [(_ & -> & _)|(_ & -> & _)]; [eauto|].
    cbn [store withStore]. exists pos0, d0. split; [|auto].
    apply nth_error_app_keep. exact H0.
Qed.

Lemma nth_error_replaceAt_cases {A} (i j : nat) (x y : A) (l : list A) :
  nth_error (replaceAt i x l) j = Some y ->
  (j = i /\ y = x) \/ (j <> i /\ nth_error l j = Some y).
Proof.
  intros H. destruct (Nat.eq_dec j i) as [->|Hne].
  - left. split; auto.
    destruct (nth_error l i) as [z|] eqn:Hz.
    + rewrite (nth_error_replaceAt_eq i x z l Hz) in H. congruence.
    + exfalso. apply nth_error_None in Hz.
      assert (Hl : nth_error (replaceAt i x l) i <> None) by congruence.
      apply nth_error_Some in Hl. rewrite replaceAt_length in Hl. lia.
  - right. split; auto. rewrite nth_error_replaceAt_neq in H; auto.
Qed.

(** *** What a batch returns *)

(** Every payload a batch returns is the one its callback fetched, passed
    the validators, and has a document under its identifier when the batch
    is over, expiring a TTL after the batch. *)
Lemma eventLoop_returned (E : Env) (turns : nat) (cs0 : list Callback) (w0 : World)
    (cs : list Callback) (w : World) :
  (forall c, In c cs0 -> returned c = None) ->
  handlesOk cs0 (store w0) ->
  eventLoop E turns cs0 w0 = (cs, w) ->
  forall i m,
    nth_error cs i = Some (Settled (Ret (Some m))) ->
    (exists c0, nth_error cs0 i = Some c0 /\ payloadOf c0 = Some m) /\
    validate E (castData m) = true /\
    exists pos d, nth_error (store w) pos = Some d /\ idOf d = imdbID m /\
                  cacheExpiry d = Val (now w0 + TTL).
Proof.
  intros Hnone HG0 Hloop.
  set (I := fun (cs1 : list Callback) (w1 : World) =>
              now w1 = now w0 /\ handlesOk cs1 (store w1) /\
              (forall i c m, nth_error cs1 i = Some c -> payloadOf c = Some m ->
                             exists c0, nth_error cs0 i = Some c0 /\ payloadOf c0 = Some m) /\
              (forall m, In (Settled (Ret (Some m))) cs1 ->
                         validate E (castData m) = true /\
                         exists pos d, nth_error (store w1) pos = Some d /\
                                       idOf d = imdbID m /\
                                       cacheExpiry d = Val (now w0 + TTL))).
  assert (HI : I cs w).
  { refine (eventLoop_inv E I _ turns cs0 w0 cs w Hloop _).
    - intros cs1 w1 j c c' w2 (Hn & HG & Horig & Hpers) Hc Hpos Hr.
      pose proof (nth_error_In _ _ Hc) as Hcin.
      pose proof (resume_frame _ _ _ _ _ Hr) as (Hn2 & _ & _ & _ & Hpay).
      split; [congruence|]. split; [eapply handlesOk_turn; eauto|]. split.
      + intros i x m Hx Hm. apply nth_error_replaceAt_cases in Hx as [[-> ->]|[Hne Hx]].
        * eapply Horig; eauto.
        * eapply Horig; eauto.
      + intros m Hin. apply In_replaceAt_cases in Hin as [Heq|Hin].
        * subst c'. destruct (resume_stores E cs1 w1 c m w2 HG Hcin Hpos Hr)
            as (Hv & pos & d & H1 & H2 & H3).
          split; [exact Hv|]. exists pos, d. repeat split; auto.
          -- unfold idOf. rewrite H2. reflexivity.
          -- rewrite H3, Hn. reflexivity.
        * destruct (Hpers m Hin) as (Hv & Hdoc). split; [exact Hv|].
          rewrite <- Hn in *. eapply (resume_keeps_id E cs1 w1 c c' w2); eauto.
    - split; [reflexivity|]. split; [exact HG0|]. split; [eauto|].
      intros m Hin. specialize (Hnone _ Hin). discriminate Hnone. }
  destruct HI as (_ & _ & Horig & Hpers). intros i m Hi. split.
  - eapply Horig; eauto.
  - apply Hpers. eapply nth_error_In; eauto.
Qed.

(** A callback whose payload passes the validators returns it, whatever the
    order of the turns and whatever becomes of the other callbacks, when the
    store answers and no other callback carries a payload of the same
    identifier. *)
Lemma eventLoop_succeeds (E : Env) (turns : nat) (cs0 : list Callback) (w0 : World)
    (cs : list Callback) (w : World) (i : nat) (m : MovieData) :
  (suspensions cs0 <= turns)%nat ->
  handlesOk cs0 (store w0) -> uniqueIds (store w0) ->
  nth_error cs0 i = Some (AwaitsFindOne m) ->
  validate E (castData m) = true ->
  (forall k, (dbOps w0 <= k < dbOps w0 + suspensions cs0)%nat -> dbFault E k = false) ->
  (forall j c m', j <> i -> nth_error cs0 j = Some c -> payloadOf c = Some m' ->
                  imdbID m' <> imdbID m) ->
  eventLoop E turns cs0 w0 = (cs, w) ->
  nth_error cs i = Some (Settled (Ret (Some m))).
Proof.
  intros Hturns HG0 Hu0 Hi0 Hv Hfault Hothers Hloop.
  set (I := fun (cs1 : list Callback) (w1 : World) =>
              handlesOk cs1 (store w1) /\ uniqueIds (store w1) /\
              (dbOps w0 <= dbOps w1)%nat /\
              (dbOps w1 + suspensions cs1 <= dbOps w0 + suspensions cs0)%nat /\
              (forall j c m', j <> i -> nth_error cs1 j = Some c ->
                              payloadOf c = Some m' -> imdbID m' <> imdbID m) /\
              (nth_error cs1 i = Some (AwaitsFindOne m) \/
               (nth_error cs1 i = Some (AwaitsSave m None) /\
                ~ In (imdbID m) (map idOf (store w1))) \/
               (exists pos old, nth_error cs1 i = Some (AwaitsSave m (Some (pos, old)))) \/
               nth_error cs1 i = Some (Settled (Ret (Some m))))).
  assert (HI : I cs w).
  { refine (eventLoop_inv E I _ turns cs0 w0 cs w Hloop _).
    - intros cs1 w1 j c c' w2 (HG & Hu & Hd0 & Hbud & Hoth & Hst) Hc Hpos Hr.
      pose proof (nth_error_In _ _ Hc) as Hcin.
      pose proof (resume_frame _ _ _ _ _ Hr) as (_ & _ & Hd & Hless & Hpay).
      specialize (Hless Hpos).
      pose proof (suspensions_replaceAt cs1 j c c' Hc) as Hsum.
      assert (Hnofault : dbFault E (dbOps w1) = false) by (apply Hfault; lia).
      pose proof (resume_ids E cs1 w1 c c' w2 HG Hcin Hr) as Hids.
      split; [eapply handlesOk_turn; eauto|]. split.
      { unfold uniqueIds in *.
        destruct Hids as [->|(m0 & _ & _ & -> & Hfree)]; auto. apply NoDup_snoc; auto. }
      split; [lia|]. split; [lia|]. split.
      { intros k x m' Hk Hx Hm'.
        apply nth_error_replaceAt_cases in Hx as [[-> ->]|[Hne Hx]]; eauto. }
      destruct (Nat.eq_dec j i) as [->|Hji].
      + (* the turn of the callback itself *)
        rewrite (nth_error_replaceAt_eq i c' c cs1 Hc).
        destruct Hst as [Hst|[[Hst Hfree]|[(pos & old & Hst)|Hst]]];
          rewrite Hc in Hst; injection Hst as ->.
        * apply resume_findOne in Hr as [-> [[Hf _]|[_ ->]]]; [congruence|].
          destruct (findIndex (hasId (imdbID m)) (store w1) 0) as [[pos old]|] eqn:Hfind.
          -- right. right. left. eauto.
          -- right. left. split; [reflexivity|]. cbn [store tick].
             apply no_id_iff. apply findIndex_none in Hfind. exact Hfind.
        * apply no_id_iff in Hfree.
          apply resume_insert in Hr
            as [(_ & _ & _ & _ & _ & [Hx|[Hx|Hx]])|(-> & _)]; try congruence.
          right. right. right. reflexivity.
        * pose proof (unique_removeAt_free _ _ _ Hu (HG m pos old Hcin)) as Hfree.
          apply resume_update in Hr
            as [(_ & _ & _ & _ & _ & [Hx|[Hx|Hx]])|(-> & _)]; try congruence.
          right. right. right. reflexivity.
        * cbn [awaits] in Hpos. lia.
      + (* the turn of another callback *)
        rewrite (nth_error_replaceAt_neq j i c' cs1 Hji).
        destruct Hst as [Hst|[[Hst Hfree]|[Hst|Hst]]]; auto.
        right. left. split; [exact Hst|].
        destruct Hids as [->|(m0 & -> & _ & -> & _)]; auto.
        intros Hin. apply in_app_iff in Hin as [Hin|[Hin|[]]]; [auto|].
        apply (Hoth j (AwaitsSave m0 None) m0); auto.
    - split; [exact HG0|]. split; [exact Hu0|]. split; [lia|]. split; [lia|].
      split; [exact Hothers|]. left. exact Hi0. }
  destruct HI as (_ & _ & _ & _ & _ & Hst).
  pose proof (eventLoop_settles E turns cs0 w0 cs w Hturns Hloop) as Hall.
  rewrite Forall_forall in Hall.
  destruct Hst as [Hst|[[Hst _]|[(pos & old & Hst)|Hst]]]; auto;
    apply nth_error_In in Hst; apply Hall in Hst; discriminate Hst.
Qed.

(** When no other callback carries a payload of the same identifier, the
    document a returned payload was stored as is still there when the batch
    is over. *)
Lemma eventLoop_stores (E : Env) (turns : nat) (cs0 : list Callback) (w0 : World)
    (cs : list Callback) (w : World) (i : nat) (m : MovieData) :
  (forall c, In c cs0 -> returned c = None) ->
  handlesOk cs0 (store w0) ->
  (forall j c m', j <> i -> nth_error cs0 j = Some c -> payloadOf c = Some m' ->
                  imdbID m' <> imdbID m) ->
  eventLoop E turns cs0 w0 = (cs, w) ->
  nth_error cs i = Some (Settled (Ret (Some m))) ->
  exists pos d, nth_error (store w) pos = Some d /\ data d = castData m /\
                cacheExpiry d = Val (now w0 + TTL).
Proof.
  intros Hnone HG0 Hothers Hloop.
  set (I := fun (cs1 : list Callback) (w1 : World) =>
              now w1 = now w0 /\ handlesOk cs1 (store w1) /\
              (forall j c m', j <> i -> nth_error cs1 j = Some c ->
                              payloadOf c = Some m' -> imdbID m' <> imdbID m) /\
              (nth_error cs1 i = Some (Settled (Ret (Some m))) ->
               exists pos d, nth_error (store w1) pos = Some d /\ data d = castData m /\
                             cacheExpiry d = Val (now w0 + TTL))).
  assert (HI : I cs w).
  { refine (eventLoop_inv E I _ turns cs0 w0 cs w Hloop _).
    - intros cs1 w1 j c c' w2 (Hn & HG & Hoth & Hdoc) Hc Hpos Hr.
      pose proof (nth_error_In _ _ Hc) as Hcin.
      pose proof (resume_frame _ _ _ _ _ Hr) as (Hn2 & _ & _ & _ & Hpay).
      split; [congruence|]. split; [eapply handlesOk_turn; eauto|]. split.
      { intros k x m' Hk Hx Hm'.
        apply nth_error_replaceAt_cases in Hx as [[-> ->]|[Hne Hx]]; eauto. }
      destruct (Nat.eq_dec j i) as [->|Hji].
      + rewrite (nth_error_replaceAt_eq i c' c cs1 Hc). intros Hx. injection Hx as ->.
        destruct (resume_stores E cs1 w1 c m w2 HG Hcin Hpos Hr)
          as (_ & pos & d & H1 & H2 & H3).
        exists pos, d. repeat split; auto. rewrite H3, Hn. reflexivity.
      + rewrite (nth_error_replaceAt_neq j i c' cs1 Hji). intros Hx.
        destruct (Hdoc Hx) as (pos & d & H1 & H2 & H3). exists pos, d.
        split; [|auto]. eapply (resume_keeps_doc E cs1 w1 c c' w2); eauto.
        intros m' Hm'. unfold idOf. rewrite H2. cbn [imdbID castData].
        eapply Hoth; eauto.
    - split; [reflexivity|]. split; [exact HG0|]. split; [exact Hothers|].
      intros Hx. apply nth_error_In in Hx. specialize (Hnone _ Hx). discriminate Hnone. }
  destruct HI as (_ & _ & _ & Hdoc). exact Hdoc.
Qed.

(** *** A batch from its start to its end *)

Lemma searchMoviesOMDB_keyed (E : Env) (term : string) (page : Z) (w : World)
    (api : ApiResults) (w' : World) :
  searchMoviesOMDB E term page w = (Ret api, w') -> keyMissing E = false.
Proof.
  unfold searchMoviesOMDB, try_catch, bind, throw.
  destruct (keyMissing E); [discriminate | reflexivity].
Qed.

Lemma In_successes (m : MovieData) (outs : list (option MovieData)) :
  In m (successes outs) <-> In (Some m) outs.
Proof.
  induction outs as [|[x|] r IH]; cbn [successes In]; [tauto| |].
  - rewrite IH. split; intros [H|H]; auto; [left; congruence|].
    left. injection H as ->. reflexivity.
  - rewrite IH. split; [auto|]. intros [H|H]; [discriminate|auto].
Qed.


(** The fan-out over the candidates of a search, whole. *)
Lemma fanout (E : Env) (movies : list OMDB.SearchItem) (w1 : World)
    (cs0 : list Callback) (wa : World) (os : list (Outcome (option MovieData)))
    (w2 : World) :
  keyMissing E = false ->
  startAll E movies w1 = (cs0, wa) ->
  allSettled E cs0 wa = (os, w2) ->
  exists outs,
    List.length outs = List.length movies /\
    fulfilledValues os = successes outs /\
    now w2 = now w1 /\
    apiLog w2 = (apiLog w1 ++ map (fun c => DetailCall (OMDB.s_imdbID c)) movies)%list /\
    (forall i c m,
        nth_error movies i = Some c -> nth_error outs i = Some (Some m) ->
        fetched E w1 movies i c = Ret m /\ validate E (castData m) = true /\
        exists d, In d (store w2) /\ idOf d = imdbID m /\
                  cacheExpiry d = Val (now w1 + TTL)) /\
    (forall i c m,
        nth_error movies i = Some c -> fetched E w1 movies i c = Ret m ->
        validate E (castData m) = true -> uniqueIds (store w1) ->
        (forall k, (dbOps w1 <= k < dbOps w1 + 2 * List.length movies)%nat ->
                   dbFault E k = false) ->
        aloneUnderId E w1 movies i m ->
        nth_error outs i = Some (Some m)) /\
    (forall i c m,
        nth_error movies i = Some c -> nth_error outs i = Some (Some m) ->
        aloneUnderId E w1 movies i m ->
        exists d, In d (store w2) /\ data d = castData m /\
                  cacheExpiry d = Val (now w1 + TTL)).
Proof.
  intros Hk Hstart Hall. unfold allSettled in Hall.
  destruct (eventLoop E (2 * List.length cs0) cs0 wa) as [cs w3] eqn:Hloop.
  injection Hall as <- <-.
  destruct (startAll_run E movies Hk _ _ _ Hstart) as (-> & Hlen0 & Hnth0).
  destruct (requested_frame movies w1) as (Hst & Hnow & Hops & Hlog).
  pose proof (eventLoop_frame _ _ _ _ _ _ Hloop) as (Hlen & Hnow2 & Hlog2 & _).
  pose proof (eventLoop_settles E _ _ _ _ _ (suspensions_bound cs0) Hloop) as Hsettled.
  destruct (settled_outcomes cs Hsettled) as [Hvalues _].
  (* what the callbacks are at the start *)
  assert (Hstart0 : forall j c0, nth_error cs0 j = Some c0 ->
                      exists c, nth_error movies j = Some c /\
                                c0 = match fetched E w1 movies j c with
                                     | Ret m => AwaitsFindOne m
                                     | Threw _ => Settled (Ret None)
                                     end).
  { intros j c0 Hj. destruct (nth_error movies j) as [c|] eqn:Hc.
    - exists c. split; [reflexivity|]. rewrite (Hnth0 j c Hc) in Hj. congruence.
    - apply nth_error_None in Hc.
      assert (Hlt : nth_error cs0 j <> None) by congruence.
      apply nth_error_Some in Hlt. lia. }
  assert (Hnone : forall c0, In c0 cs0 -> returned c0 = None).
  { intros c0 Hin. apply In_nth_error in Hin as [j Hj].
    destruct (Hstart0 j c0 Hj) as (c & _ & ->).
    destruct (fetched E w1 movies j c); reflexivity. }
  assert (HG0 : handlesOk cs0 (store (requested w1 movies))).
  { intros m pos old Hin. apply In_nth_error in Hin as [j Hj].
    destruct (Hstart0 j _ Hj) as (c & _ & Heq).
    destruct (fetched E w1 movies j c); discriminate Heq. }
  assert (Hpay0 : forall j c0 m, nth_error cs0 j = Some c0 -> payloadOf c0 = Some m ->
                    exists c, nth_error movies j = Some c /\
                              fetched E w1 movies j c = Ret m /\ c0 = AwaitsFindOne m).
  { intros j c0 m Hj Hm. destruct (Hstart0 j c0 Hj) as (c & Hc & ->).
    exists c. split; [exact Hc|].
    destruct (fetched E w1 movies j c) as [e|m']; cbn [payloadOf] in Hm;
      [discriminate|]. injection Hm as ->. auto. }
  assert (Hothers : forall i m, aloneUnderId E w1 movies i m ->
                      forall j c0 m', j <> i -> nth_error cs0 j = Some c0 ->
                                      payloadOf c0 = Some m' -> imdbID m' <> imdbID m).
  { intros i m Halone j c0 m' Hji Hj Hm'.
    destruct (Hpay0 j c0 m' Hj Hm') as (c & Hc & Hf & _). eapply Halone; eauto. }
  assert (Hret : forall i m, nth_error (map returned cs) i = Some (Some m) ->
                             nth_error cs i = Some (Settled (Ret (Some m)))).
  { intros i m Hi. rewrite nth_error_map in Hi.
    destruct (nth_error cs i) as [c|]; [|discriminate]. cbn in Hi.
    destruct c as [[e|[x|]]|x|x y]; cbn [returned] in Hi; try discriminate.
    injection Hi as ->. reflexivity. }
  exists (map returned cs).
  split; [rewrite length_map; congruence|]. split; [exact Hvalues|].
  split; [congruence|]. split; [congruence|]. split; [|split].
  - intros i c m Hc Hi. apply Hret in Hi.
    destruct (eventLoop_returned E _ _ _ _ _ Hnone HG0 Hloop i m Hi)
      as ((c0 & Hc0 & Hm0) & Hv & pos & d & Hd & Hid & Hexp).
    destruct (Hpay0 i c0 m Hc0 Hm0) as (c' & Hc' & Hf & _).
    rewrite Hc in Hc'. injection Hc' as <-.
    split; [exact Hf|]. split; [exact Hv|]. exists d. split; [|split; auto].
    + eapply nth_error_In; eauto.
    + rewrite Hexp, Hnow. reflexivity.
  - intros i c m Hc Hf Hv Hu Hfault Halone.
    assert (Hi0 : nth_error cs0 i = Some (AwaitsFindOne m)).
    { rewrite (Hnth0 i c Hc), Hf. reflexivity. }
    pose proof (suspensions_bound cs0) as Hb.
    rewrite nth_error_map.
    rewrite (eventLoop_succeeds E (2 * List.length cs0) cs0 (requested w1 movies)
                                cs w3 i m);
      [reflexivity | exact Hb | exact HG0 | rewrite Hst; exact Hu | exact Hi0
      | exact Hv | | apply Hothers; exact Halone | exact Hloop].
    intros k Hk'. apply Hfault. rewrite Hops in Hk'. lia.
  - intros i c m Hc Hi Halone. apply Hret in Hi.
    destruct (eventLoop_stores E _ _ _ _ _ i m Hnone HG0 (Hothers i m Halone) Hloop Hi)
      as (pos & d & Hd & Hdata & Hexp).
    exists d. split; [eapply nth_error_In; eauto|]. split; [exact Hdata|].
    rewrite Hexp, Hnow. reflexivity.
Qed.

(** A failed upsert leaves the collection as it was. *)
Lemma save_new_threw (E : Env) (doc : MovieDoc) (e : string) (w w' : World) :
  save_new E doc w = (Threw e, w') -> store w' = store w.
Proof.
  unfold save_new.
  destruct (validate E (data doc)); cbn [negb];
    [|intros H; injection H as _ <-; reflexivity].
  unfold bind, dbOp. destruct (dbFault E (dbOps w)).
  - intros H. injection H as _ <-. reflexivity.
  - destruct (existsb (hasId (imdbID (data doc))) (store w));
      intros H; [injection H as _ <-; reflexivity|discriminate].
Qed.

Lemma save_existing_threw (E : Env) (pos : nat) (doc : MovieDoc) (e : string)
    (w w' : World) :
  save_existing E pos doc w = (Threw e, w') -> store w' = store w.
Proof.
  unfold save_existing.
  destruct (validate E (data doc)); cbn [negb];
    [|intros H; injection H as _ <-; reflexivity].
  unfold bind, getNow, dbOp. destruct (dbFault E (dbOps w)).
  - intros H. injection H as _ <-. reflexivity.
  - destruct (existsb (hasId (imdbID (data doc))) (removeAt pos (store w)));
      intros H; [injection H as _ <-; reflexivity|discriminate].
Qed.

Lemma saveMovieToCache_threw (E : Env) (m : MovieData) (e : string) (w w' : World) :
  saveMovieToCache E m w = (Threw e, w') -> store w' = store w.
Proof.
  intros H. unfold saveMovieToCache in H.
  apply try_catch_inv in H as [(a & _ & Ha)|(e0 & w1 & H & Hh)]; [discriminate|].
  injection Hh as _ <-.
  apply bind_inv in H as [(found & w2 & H1 & H2)|(e1 & H1 & _)].
  - rewrite Movie_findOne_id in H1.
    destruct (dbFault E (dbOps w)); [discriminate|]. injection H1 as <- <-.
    destruct (findIndex (hasId (imdbID m)) (store w) 0) as [[pos old]|].
    + apply bind_inv in H2 as [(t & w3 & Ht & H2)|(e1 & Ht & _)]; [|discriminate].
      injection Ht as <- <-. apply save_existing_threw in H2. exact H2.
    + apply bind_inv in H2 as [(doc & w3 & Hd & H2)|(e1 & Hd & _)]; [|discriminate].
      injection Hd as <- <-. apply save_new_threw in H2. exact H2.
  - rewrite Movie_findOne_id in H1.
    destruct (dbFault E (dbOps w)); [|discriminate]. injection H1 as _ <-. reflexivity.
Qed.

Lemma searchMovies_miss (E : Env) (term : string) (page : Z) (useCache : bool)
    (w w0 : World) :
  lookupCache E term page useCache w = (Ret None, w0) ->
  searchMovies E term page useCache w = fetchAndCache E term page w0.
Proof.
  intros H. unfold searchMovies, try_catch, bind. rewrite H.
  destruct (fetchAndCache E term page w0) as [[e|r] w1]; reflexivity.
Qed.

Lemma lookupCache_frame (E : Env) (term : string) (page : Z) (useCache : bool)
    (w : World) (o : Outcome (option SearchResult)) (w' : World) :
  lookupCache E term page useCache w = (o, w') ->
  store w' = store w /\ now w' = now w /\ apiLog w' = apiLog w.
Proof.
  destruct useCache.
  - rewrite lookupCache_run. destruct (dbFault E (dbOps w));
      intros H; injection H as _ <-; auto.
  - rewrite lookupCache_off. intros H. injection H as _ <-. auto.
Qed.

(** The provider path of a search, whole. *)
Lemma provider_path (E : Env) (term : string) (page : Z) (useCache : bool)
    (w w0 : World) (api : ApiResults) (w1 : World) :
  lookupCache E term page useCache w = (Ret None, w0) ->
  searchMoviesOMDB E term page w0 = (Ret api, w1) ->
  exists outs w2 r,
    searchMovies E term page useCache w = (Ret r, w2) /\
    r_movies r = map Fresh (successes outs) /\
    r_totalResults r = a_totalResults api /\
    r_source r = (if (0 <? List.length (a_movies api))%nat then Some "api" else None) /\
    List.length outs = List.length (a_movies api) /\
    now w2 = now w /\
    apiLog w2 = (apiLog w1
                 ++ map (fun c => DetailCall (OMDB.s_imdbID c)) (a_movies api))%list /\
    (forall i c m,
        nth_error (a_movies api) i = Some c -> nth_error outs i = Some (Some m) ->
        fetched E w1 (a_movies api) i c = Ret m /\ validate E (castData m) = true /\
        exists d, In d (store w2) /\ idOf d = imdbID m /\
                  cacheExpiry d = Val (now w + TTL)) /\
    (forall i c m,
        nth_error (a_movies api) i = Some c -> fetched E w1 (a_movies api) i c = Ret m ->
        validate E (castData m) = true -> uniqueIds (store w) ->
        (forall k, (dbOps w1 <= k < dbOps w1 + 2 * List.length (a_movies api))%nat ->
                   dbFault E k = false) ->
        aloneUnderId E w1 (a_movies api) i m ->
        nth_error outs i = Some (Some m)) /\
    (forall i c m,
        nth_error (a_movies api) i = Some c -> nth_error outs i = Some (Some m) ->
        aloneUnderId E w1 (a_movies api) i m ->
        exists d, In d (store w2) /\ data d = castData m /\
                  cacheExpiry d = Val (now w + TTL)).
Proof.
  intros Hmiss Hsearch.
  pose proof (searchMoviesOMDB_keyed _ _ _ _ _ _ Hsearch) as Hk.
  pose proof (lookupCache_frame _ _ _ _ _ _ _ Hmiss) as (Hs0 & Hn0 & _).
  pose proof (searchMoviesOMDB_frame _ _ _ _ _ _ Hsearch) as (Hs1 & Hn1 & _).
  rewrite (searchMovies_miss _ _ _ _ _ _ Hmiss).
  unfold fetchAndCache, bind. rewrite Hsearch.
  destruct (a_movies api) as [|c0 rest] eqn:Hmovies.
  - exists [], w1, {| r_movies := []; r_totalResults := a_totalResults api;
                      r_source := None; r_page := a_page api; r_error := a_error api |}.
    cbn [List.length Nat.ltb Nat.leb r_movies r_totalResults r_source successes map].
    rewrite app_nil_r.
    do 5 (split; [reflexivity|]). split; [congruence|]. split; [reflexivity|].
    split; [|split]; intros [|i] c m Hc; discriminate Hc.
  - rewrite <- Hmovies in *.
    assert (Hpos : (0 <? List.length (a_movies api))%nat = true)
      by (rewrite Hmovies; reflexivity).
    rewrite Hpos.
    destruct (startAll E (a_movies api) w1) as [cs0 wa] eqn:Hstart.
    destruct (allSettled E cs0 wa) as [os w2] eqn:Hall.
    destruct (fanout E (a_movies api) w1 cs0 wa os w2 Hk Hstart Hall)
      as (outs & Hlen & Hvalues & Hnow & Hlog & HD & HF & Hdata).
    exists outs, w2, {| r_movies := map Fresh (fulfilledValues os);
                         r_totalResults := a_totalResults api;
                         r_source := Some "api"; r_page := Some page;
                         r_error := None |}.
    cbn [r_movies r_totalResults r_source].
    assert (Hnw : now w1 = now w) by congruence.
    assert (Hsw : store w1 = store w) by congruence.
    rewrite Hvalues. rewrite Hnw, Hsw in *.
    do 4 (split; [reflexivity|]). split; [exact Hlen|]. split; [exact Hnow|].
    split; [exact Hlog|]. split; [exact HD|]. split; [exact HF | exact Hdata].
Qed.

(** ** C2: partial failures *)



(** What a batch returns depends on the order of the turns when two
    candidates carry the same identifier.  The provider lists one
    identifier twice and the collection is empty.  When the operations
    complete in the order of their issue, both callbacks find no document,
    both insert, the second insert is refused by the unique index, and one
    record comes back; when the first callback runs to its end before the
    second one is resumed, the second one finds the document and rewrites
    it, and two records come back.  One document is stored either way. *)
Lemma twice_listed_identifier :
  (exists r w',
      searchMovies (Cases.envTwice Demo.inOrderOfIssue) "Inception" 1 true Demo.world0
      = (Ret r, w') /\
      List.length (r_movies r) = 1%nat /\ List.length (store w') = 1%nat) /\
  (exists r w',
      searchMovies (Cases.envTwice Demo.oneAtATime) "Inception" 1 true Demo.world0
      = (Ret r, w') /\
      List.length (r_movies r) = 2%nat /\ List.length (store w') = 1%nat).
Proof.
  split; eexists _, _; (split; [vm_compute; reflexivity|]); split; reflexivity.
Qed.

(** ** C1: cache-aside search *)

Lemma In_firstn {A} (n : nat) (x : A) (l : list A) : In x (firstn n l) -> In x l.
Proof.
  intros H. rewrite <- (firstn_skipn n l). apply in_app_iff. auto.
Qed.







(** * Proofs: statistics, maintenance, the schema's methods, the other routes *)

(** ** Sorted lists *)

Lemma sorted_firstn {A} (R : A -> A -> Prop) (n : nat) (l : list A) :
  StronglySorted R l -> StronglySorted R (firstn n l).
Proof.
  revert l. induction n as [|n IH]; intros [|x r] Hs; cbn [firstn]; try constructor.
  - inversion Hs; subst. apply IH. assumption.
  - inversion Hs as [|? ? _ Hx]; subst. rewrite Forall_forall in *.
    intros z Hz. apply Hx. apply (In_firstn n). exact Hz.
Qed.

Lemma sorted_split {A} (R : A -> A -> Prop) (n : nat) (l : list A) (x y : A) :
  StronglySorted R l -> In x (firstn n l) -> In y (skipn n l) -> R x y.
Proof.
  revert l. induction n as [|n IH]; intros [|z r] Hs; cbn [firstn skipn In]; try tauto.
  inversion Hs as [|? ? Hr Hz]; subst. intros [<-|Hx] Hy.
  - rewrite Forall_forall in Hz. apply Hz.
    rewrite <- (firstn_skipn n r). apply in_or_app. right. exact Hy.
  - apply (IH r); assumption.
Qed.

Lemma In_skipn_or_firstn {A} (n : nat) (l : list A) (x : A) :
  In x l -> In x (firstn n l) \/ In x (skipn n l).
Proof. intros H. rewrite <- (firstn_skipn n l) in H. apply in_app_or in H. exact H. Qed.

Lemma NoDup_firstn {A} (n : nat) (l : list A) : NoDup l -> NoDup (firstn n l).
Proof.
  intros H. rewrite <- (firstn_skipn n l) in H. apply NoDup_app_remove_r in H. exact H.
Qed.

Lemma skipn_nonempty_length {A} (n : nat) (l : list A) (x : A) :
  In x (skipn n l) -> List.length (firstn n l) = n.
Proof.
  intros H. apply firstn_length_le.
  destruct (Nat.le_gt_cases n (List.length l)) as [Hle|Hgt]; [exact Hle|].
  rewrite skipn_all2 in H by lia. destruct H.
Qed.

(** ** Grouping *)

Section Groups.

Context {K : Type} (eqb : K -> K -> bool).
Hypothesis eqb_eq : forall a b, eqb a b = true <-> a = b.

Lemma eqb_refl_K (a : K) : eqb a a = true.
Proof. apply eqb_eq. reflexivity. Qed.

Lemma eqb_neq_K (a b : K) : eqb a b = false <-> a <> b.
Proof.
  split.
  - intros H Heq. apply eqb_eq in Heq. congruence.
  - intros H. destruct (eqb a b) eqn:Hab; [apply eqb_eq in Hab; contradiction | reflexivity].
Qed.

Lemma bump_keys (k k' : K) (groups : list (K * Z)) :
  In k' (map fst (bump eqb k groups)) <-> k' = k \/ In k' (map fst groups).
Proof.
  induction groups as [|[k0 n] r IH]; cbn [bump map fst In].
  - intuition congruence.
  - destruct (eqb k0 k) eqn:H0; cbn [map fst In].
    + apply eqb_eq in H0. subst. intuition congruence.
    + rewrite IH. intuition congruence.
Qed.

Lemma bump_NoDup (k : K) (groups : list (K * Z)) :
  NoDup (map fst groups) -> NoDup (map fst (bump eqb k groups)).
Proof.
  induction groups as [|[k0 n] r IH]; cbn [bump map fst]; intros H.
  - constructor; [cbn; tauto | constructor].
  - inversion H as [|? ? Hn Hr]; subst. destruct (eqb k0 k) eqn:H0; cbn [map fst].
    + constructor; assumption.
    + constructor; [|apply IH; assumption].
      rewrite bump_keys. intros [->|Hin]; [|contradiction].
      rewrite eqb_refl_K in H0. discriminate.
Qed.

Lemma bump_countOf (k k' : K) (groups : list (K * Z)) :
  countOf eqb k' (bump eqb k groups)
  = countOf eqb k' groups + (if eqb k k' then 1 else 0).
Proof.
  unfold countOf. induction groups as [|[k0 n] r IH]; cbn [bump find fst snd].
  - destruct (eqb k k'); reflexivity.
  - destruct (eqb k0 k) eqn:H0; cbn [find fst snd].
    + apply eqb_eq in H0. subst k0. destruct (eqb k k'); cbn [snd]; lia.
    + destruct (eqb k0 k') eqn:H1; cbn [snd]; [|exact IH].
      destruct (eqb k k') eqn:H2; [|lia].
      apply eqb_eq in H1, H2. subst. rewrite eqb_refl_K in H0. discriminate.
Qed.

Lemma bump_positive (k : K) (groups : list (K * Z)) :
  Forall (fun g => 0 < snd g) groups -> Forall (fun g => 0 < snd g) (bump eqb k groups).
Proof.
  induction groups as [|[k0 n] r IH]; cbn [bump]; intros H.
  - constructor; [cbn; lia | constructor].
  - inversion H as [|? ? Hn Hr]; subst. cbn [snd] in Hn.
    destruct (eqb k0 k); constructor; cbn [snd]; auto; lia.
Qed.

Lemma tally_snoc (k k' : K) (keys : list K) :
  tally eqb k' (keys ++ [k]) = tally eqb k' keys + (if eqb k' k then 1 else 0).
Proof.
  unfold tally. rewrite filter_app, length_app. cbn [filter].
  destruct (eqb k' k); cbn [List.length]; lia.
Qed.

Lemma eqb_sym_K (a b : K) : eqb a b = eqb b a.
Proof.
  destruct (eqb a b) eqn:H1, (eqb b a) eqn:H2; try reflexivity.
  - apply eqb_eq in H1. subst. rewrite eqb_refl_K in H2. discriminate.
  - apply eqb_eq in H2. subst. rewrite eqb_refl_K in H1. discriminate.
Qed.

(** What the groups hold after the keys [pre] and then [keys] went in. *)
Lemma fold_bump (keys pre : list K) (groups : list (K * Z)) :
  NoDup (map fst groups) ->
  Forall (fun g => 0 < snd g) groups ->
  (forall k, In k (map fst groups) <-> In k pre) ->
  (forall k, countOf eqb k groups = tally eqb k pre) ->
  let out := fold_left (fun gs k => bump eqb k gs) keys groups in
  NoDup (map fst out) /\
  Forall (fun g => 0 < snd g) out /\
  (forall k, In k (map fst out) <-> In k (pre ++ keys)%list) /\
  (forall k, countOf eqb k out = tally eqb k (pre ++ keys)%list).
Proof.
  revert pre groups. induction keys as [|k keys IH]; intros pre groups Hn Hp Hk Hc; cbn [fold_left].
  - rewrite app_nil_r. auto.
  - replace (pre ++ k :: keys)%list with ((pre ++ [k]) ++ keys)%list
      by (rewrite <- app_assoc; reflexivity).
    apply IH.
    + apply bump_NoDup, Hn.
    + apply bump_positive, Hp.
    + intros k'. rewrite bump_keys, Hk, in_app_iff. cbn [In]. intuition congruence.
    + intros k'. rewrite bump_countOf, Hc, tally_snoc, (eqb_sym_K k k'). reflexivity.
Qed.

Lemma countOf_In (k : K) (n : Z) (groups : list (K * Z)) :
  NoDup (map fst groups) -> In (k, n) groups -> countOf eqb k groups = n.
Proof.
  unfold countOf. induction groups as [|[k0 n0] r IH]; cbn [map fst find In snd]; [tauto|].
  intros H [Heq|Hin].
  - injection Heq as -> ->. rewrite eqb_refl_K. reflexivity.
  - inversion H as [|? ? Hn Hr]; subst. destruct (eqb k0 k) eqn:H0.
    + apply eqb_eq in H0. subst. exfalso. apply Hn.
      apply (in_map fst) in Hin. exact Hin.
    + apply IH; assumption.
Qed.

Lemma In_countOf (k : K) (groups : list (K * Z)) :
  In k (map fst groups) -> In (k, countOf eqb k groups) groups.
Proof.
  unfold countOf. induction groups as [|[k0 n0] r IH]; cbn [map fst find In snd]; [tauto|].
  intros H. destruct (eqb k0 k) eqn:H0.
  - apply eqb_eq in H0. subst. left. reflexivity.
  - right. apply IH. destruct H as [->|H]; [|exact H].
    rewrite eqb_refl_K in H0. discriminate.
Qed.

(** [$group] with a count: one group per key that occurs, holding the number
    of its occurrences. *)
Lemma groupCount_spec (keys : list K) :
  NoDup (map fst (groupCount eqb keys)) /\
  (forall k n, In (k, n) (groupCount eqb keys) <->
               In k keys /\ n = tally eqb k keys) /\
  Forall (fun g => 0 < snd g) (groupCount eqb keys).
Proof.
  assert (H : let out := groupCount eqb keys in
              NoDup (map fst out) /\ Forall (fun g => 0 < snd g) out /\
              (forall k, In k (map fst out) <-> In k keys) /\
              (forall k, countOf eqb k out = tally eqb k keys)).
  { apply (fold_bump keys [] []); cbn; try tauto; constructor. }
  destruct H as (Hn & Hp & Hk & Hc).
  split; [exact Hn|]. split; [|exact Hp].
  intros k n. split.
  - intros Hin. split.
    + apply Hk. apply (in_map fst) in Hin. exact Hin.
    + rewrite <- Hc. symmetry. apply countOf_In; assumption.
  - intros [Hin ->]. rewrite <- Hc. apply In_countOf. apply Hk. exact Hin.
Qed.

End Groups.

Lemma tally_pos {K} (eqb : K -> K -> bool) (k : K) (keys : list K) :
  (forall a b, eqb a b = true <-> a = b) ->
  (0 < tally eqb k keys <-> In k keys).
Proof.
  intros Heq. unfold tally. split.
  - intros H. destruct (filter (eqb k) keys) as [|x r] eqn:Hf; [cbn in H; lia|].
    assert (Hx : In x (filter (eqb k) keys)) by (rewrite Hf; left; reflexivity).
    apply filter_In in Hx as [Hx Hk]. apply Heq in Hk. subst. exact Hx.
  - intros H. assert (Hx : In k (filter (eqb k) keys)).
    { apply filter_In. split; [exact H | apply Heq; reflexivity]. }
    destruct (filter (eqb k) keys); [destruct Hx | cbn [List.length]; lia].
Qed.

(** The first [n] groups of a sorted [$group]: what [$sort] and [$limit]
    leave of the counts. *)
Lemma top_of_groups {K} (eqb : K -> K -> bool) (le : K * Z -> K * Z -> bool)
    (keys : list K) (n : nat) :
  (forall a b, eqb a b = true <-> a = b) ->
  (forall a b, le a b = false -> le b a = true) ->
  (forall a b c, le a b = true -> le b c = true -> le a c = true) ->
  let top := firstn n (sortBy le (groupCount eqb keys)) in
  (List.length top <= n)%nat /\
  NoDup (map fst top) /\
  (forall k c, In (k, c) top -> In k keys /\ c = tally eqb k keys /\ 0 < c) /\
  StronglySorted (fun a b => le a b = true) top /\
  (forall k, In k keys -> ~ In k (map fst top) ->
             List.length top = n /\
             forall x, In x top -> le x (k, tally eqb k keys) = true) /\
  ((List.length top < n)%nat -> forall k, In k keys -> In k (map fst top)).
Proof.
  intros Heq Htot Htr top.
  destruct (groupCount_spec eqb Heq keys) as (Hn & Hin & Hp).
  pose proof (sortBy_perm le (groupCount eqb keys)) as Hperm.
  pose proof (sortBy_sorted le Htot Htr (groupCount eqb keys)) as Hs.
  assert (Hleft : forall k, In k keys -> ~ In k (map fst top) ->
                            In (k, tally eqb k keys)
                               (skipn n (sortBy le (groupCount eqb keys)))).
  { intros k Hk Hnot.
    assert (Hg : In (k, tally eqb k keys) (sortBy le (groupCount eqb keys))).
    { apply (Permutation_in _ (Permutation_sym Hperm)). apply Hin. auto. }
    destruct (In_skipn_or_firstn n _ _ Hg) as [Hf|Hsk]; [|exact Hsk].
    exfalso. apply Hnot. apply (in_map fst) in Hf. exact Hf. }
  split; [apply firstn_le_length|].
  split.
  { unfold top. rewrite <- firstn_map. apply NoDup_firstn.
    apply (Permutation_NoDup (Permutation_map fst (Permutation_sym Hperm))). exact Hn. }
  split.
  { intros k c Hk. apply In_firstn in Hk.
    apply (Permutation_in _ Hperm) in Hk.
    rewrite Forall_forall in Hp. specialize (Hp _ Hk). cbn [snd] in Hp.
    apply Hin in Hk as [Hk ->]. auto. }
  split; [apply sorted_firstn, Hs|].
  split.
  { intros k Hk Hnot. specialize (Hleft k Hk Hnot). split.
    - apply (skipn_nonempty_length _ _ _ Hleft).
    - intros x Hx. apply (sorted_split _ n _ x _ Hs Hx Hleft). }
  intros Hlt k Hk.
  destruct (in_dec (fun a b => match bool_dec (eqb a b) true with
                              | left e => left (proj1 (Heq a b) e)
                              | right e => right (fun h => e (proj2 (Heq a b) h))
                              end) k (map fst top)) as [Hyes|Hnot]; [exact Hyes|].
  specialize (Hleft k Hk Hnot). apply skipn_nonempty_length in Hleft.
  fold top in Hleft. lia.
Qed.

(** ** Reading the store *)

Lemma answers_here (E : Env) (w : World) (n : nat) :
  answers E w (S n) -> dbFault E (dbOps w) = false.
Proof. intros H. apply H. lia. Qed.

Lemma answers_tick (E : Env) (w : World) (n : nat) :
  answers E w (S n) -> answers E (tick w) n.
Proof. intros H k Hk. apply H. cbn [tick dbOps] in Hk. lia. Qed.

Lemma answers_less (E : Env) (w : World) (n m : nat) :
  (m <= n)%nat -> answers E w n -> answers E w m.
Proof. intros Hle H k Hk. apply H. lia. Qed.

Lemma dbOp_ok (E : Env) {A} (f : list MovieDoc -> A * list MovieDoc) (w : World) :
  dbFault E (dbOps w) = false ->
  dbOp E f w = (Ret (fst (f (store w))), withStore (tick w) (snd (f (store w)))).
Proof. intros H. unfold dbOp. rewrite H. destruct (f (store w)); reflexivity. Qed.

Lemma dbOp_fault (E : Env) {A} (f : list MovieDoc -> A * list MovieDoc) (w : World) :
  dbFault E (dbOps w) = true ->
  dbOp E f w = (Threw "store operation failed", tick w).
Proof. intros H. unfold dbOp. rewrite H. reflexivity. Qed.

Lemma matches_every (E : Env) (d : MovieDoc) : matches E everyQuery d = true.
Proof. reflexivity. Qed.

Lemma filter_every (E : Env) (s : list MovieDoc) : filter (matches E everyQuery) s = s.
Proof. apply filter_all. intros a _. apply matches_every. Qed.

Lemma filter_expired (E : Env) (t : Z) (s : list MovieDoc) :
  filter (matches E (expiredQuery t)) s = filter (isExpired t) s.
Proof. apply filter_ext. intros d. apply matches_expired. Qed.

Lemma countDocuments_every (E : Env) (w : World) :
  dbFault E (dbOps w) = false ->
  Movie_countDocuments E everyQuery w = (Ret (Z.of_nat (List.length (store w))), tick w).
Proof.
  intros H. unfold Movie_countDocuments. rewrite dbOp_ok by exact H.
  cbn [fst snd]. rewrite filter_every. reflexivity.
Qed.

Lemma promiseAll4_reads (E : Env) {A B C D} (f1 : list MovieDoc -> A)
    (f2 : list MovieDoc -> B) (f3 : list MovieDoc -> C) (f4 : list MovieDoc -> D)
    (w : World) :
  answers E w 4 ->
  promiseAll4 (dbOp E (fun s => (f1 s, s))) (dbOp E (fun s => (f2 s, s)))
              (dbOp E (fun s => (f3 s, s))) (dbOp E (fun s => (f4 s, s))) w
  = (Ret (f1 (store w), f2 (store w), f3 (store w), f4 (store w)),
     tick (tick (tick (tick w)))).
Proof.
  intros H. unfold promiseAll4.
  rewrite (dbOp_ok E _ w) by (apply H; lia).
  rewrite (dbOp_ok E _ (withStore (tick w) _)) by (apply H; cbn; lia).
  rewrite (dbOp_ok E _ (withStore (tick (withStore (tick w) _)) _)) by (apply H; cbn; lia).
  rewrite (dbOp_ok E _ (withStore (tick (withStore (tick (withStore (tick w) _)) _)) _))
    by (apply H; cbn; lia).
  reflexivity.
Qed.

Lemma promiseAll4_reads_fault (E : Env) {A B C D} (f1 : list MovieDoc -> A)
    (f2 : list MovieDoc -> B) (f3 : list MovieDoc -> C) (f4 : list MovieDoc -> D)
    (w : World) :
  (exists k, (dbOps w <= k < dbOps w + 4)%nat /\ dbFault E k = true) ->
  promiseAll4 (dbOp E (fun s => (f1 s, s))) (dbOp E (fun s => (f2 s, s)))
              (dbOp E (fun s => (f3 s, s))) (dbOp E (fun s => (f4 s, s))) w
  = (Threw "store operation failed", tick (tick (tick (tick w)))).
Proof.
  intros (k & Hk & Hf). unfold promiseAll4, dbOp.
  assert (Hcase : k = dbOps w \/ k = S (dbOps w) \/ k = S (S (dbOps w))
                  \/ k = S (S (S (dbOps w)))) by lia.
  destruct (dbFault E (dbOps w)) eqn:H0; cbn [tick withStore dbOps store];
    destruct (dbFault E (S (dbOps w))) eqn:H1; cbn [tick withStore dbOps store];
    destruct (dbFault E (S (S (dbOps w)))) eqn:H2; cbn [tick withStore dbOps store];
    destruct (dbFault E (S (S (S (dbOps w))))) eqn:H3; cbn [tick withStore dbOps store];
    try reflexivity.
  exfalso. destruct Hcase as [ -> | [ -> | [ -> | -> ] ] ]; congruence.
Qed.

(** ** [getCacheStats] *)

Lemma getCacheStats_run (E : Env) (w : World) :
  answers E w 4 ->
  getCacheStats E w =
  (Ret {| cs_total := Z.of_nat (List.length (store w));
          cs_active := Z.of_nat (List.length (store w))
                       - countIf (isExpired (now w)) (store w);
          cs_expired := countIf (isExpired (now w)) (store w);
          cs_topGenres := firstn 10 (genreCounts (store w));
          cs_moviesByYear := firstn 10 (yearCounts (store w)) |},
   tick (tick (tick (tick w)))).
Proof.
  intros H. unfold getCacheStats, try_catch, bind, getNow, Movie_countDocuments,
    Movie_aggregate.
  rewrite promiseAll4_reads by exact H.
  unfold ret, countIf. rewrite filter_every, filter_expired. reflexivity.
Qed.

Lemma getCacheStats_fault (E : Env) (w : World) :
  (exists k, (dbOps w <= k < dbOps w + 4)%nat /\ dbFault E k = true) ->
  getCacheStats E w = (Threw "store operation failed", tick (tick (tick (tick w)))).
Proof.
  intros H. unfold getCacheStats, try_catch, bind, getNow, Movie_countDocuments,
    Movie_aggregate.
  rewrite promiseAll4_reads_fault by exact H. reflexivity.
Qed.

Lemma countIf_bounds (p : MovieDoc -> bool) (s : list MovieDoc) :
  0 <= countIf p s <= Z.of_nat (List.length s).
Proof.
  unfold countIf. pose proof (filter_length_le p s). lia.
Qed.

Lemma countIf_split (p : MovieDoc -> bool) (s : list MovieDoc) :
  countIf p s + countIf (fun d => negb (p d)) s = Z.of_nat (List.length s).
Proof.
  unfold countIf. induction s as [|d r IH]; cbn [filter List.length]; [reflexivity|].
  destruct (p d); cbn [negb List.length]; lia.
Qed.

Lemma countIf_le (p q : MovieDoc -> bool) (s : list MovieDoc) :
  (forall d, In d s -> p d = true -> q d = true) -> countIf p s <= countIf q s.
Proof.
  unfold countIf. induction s as [|d r IH]; intros H; cbn [filter List.length]; [lia|].
  assert (IH' : Z.of_nat (List.length (filter p r)) <= Z.of_nat (List.length (filter q r))).
  { apply IH. intros x Hx. apply H. right. exact Hx. }
  specialize (H d (or_introl eq_refl)).
  destruct (p d), (q d); cbn [List.length]; try lia;
    specialize (H eq_refl); discriminate.
Qed.

Lemma active_not_expired (t : Z) (d : MovieDoc) :
  isActive t d = true -> isExpired t d = false.
Proof.
  intros H. apply isActive_iff in H as (e & He & Hlt).
  destruct (isExpired t d) eqn:Hx; [|reflexivity].
  apply isExpired_iff in Hx as (e' & He' & Hlt'). rewrite He in He'.
  injection He' as <-. lia.
Qed.

(** X5: on a store that answers its four reads, [getCacheStats] returns
    the size of the collection as [total], the number of documents whose
    [cacheExpiry] lies before now as [expired], and their difference as
    [active]: so [total = active + expired], no count is negative, and
    [active] counts every document that is not expired -- the ones the
    service's queries treat as active, and also any document whose expiry
    is exactly now.  The call sends nothing to the provider and leaves the
    collection as it was.  When the store rejects one of the four reads the
    call throws, the collection again untouched. *)
Theorem X5_cache_stats_counts (E : Env) (w : World) :
  (answers E w 4 ->
   exists s w',
     getCacheStats E w = (Ret s, w') /\
     store w' = store w /\ apiLog w' = apiLog w /\
     cs_total s = Z.of_nat (List.length (store w)) /\
     cs_expired s = countIf (isExpired (now w)) (store w) /\
     cs_active s = countIf (fun d => negb (isExpired (now w) d)) (store w) /\
     cs_total s = cs_active s + cs_expired s /\
     0 <= cs_expired s /\ 0 <= cs_active s /\
     countIf (isActive (now w)) (store w) <= cs_active s) /\
  ((exists k, (dbOps w <= k < dbOps w + 4)%nat /\ dbFault E k = true) ->
   exists e w',
     getCacheStats E w = (Threw e, w') /\ store w' = store w /\ apiLog w' = apiLog w).
Proof.
  split.
  - intros H. eexists _, _. split; [apply getCacheStats_run; exact H|].
    cbn [cs_total cs_expired cs_active].
    pose proof (countIf_split (isExpired (now w)) (store w)) as Hs.
    pose proof (countIf_bounds (isExpired (now w)) (store w)) as Hb.
    pose proof (countIf_bounds (fun d => negb (isExpired (now w) d)) (store w)) as Hb'.
    repeat split; try reflexivity; try lia.
    rewrite <- Hs.
    assert (Hle : countIf (isActive (now w)) (store w)
                  <= countIf (fun d => negb (isExpired (now w) d)) (store w)).
    { apply countIf_le. intros d _ Ha. rewrite (active_not_expired _ _ Ha). reflexivity. }
    lia.
  - intros H. eexists _, _. split; [apply getCacheStats_fault; exact H|].
    split; reflexivity.
Qed.

(** Three documents, two of them expired: [total] 3, [expired] 2,
    [active] 1. *)
Lemma X5_cache_stats_counts_witness :
  answers Demo.env Demo.stale 4 /\
  exists s w',
    getCacheStats Demo.env Demo.stale = (Ret s, w') /\
    cs_total s = 3 /\ cs_expired s = 2 /\ cs_active s = 1.
Proof.
  assert (H : answers Demo.env Demo.stale 4) by (intros k _; reflexivity).
  split; [exact H|].
  destruct (proj1 (X5_cache_stats_counts Demo.env Demo.stale) H)
    as (s & w' & Hrun & _ & _ & Ht & He & _ & Hsum & _).
  exists s, w'. split; [exact Hrun|].
  assert (Ht' : cs_total s = 3) by (rewrite Ht; reflexivity).
  assert (He' : cs_expired s = 2) by (rewrite He; vm_compute; reflexivity).
  repeat split; try assumption. lia.
Defined.

Lemma eqbNullable_eq (a b : nullable Z) : eqbNullable Z.eqb a b = true <-> a = b.
Proof.
  destruct a as [|x], b as [|y]; cbn [eqbNullable]; try (split; intros; congruence).
  rewrite Z.eqb_eq. split; intros; congruence.
Qed.

Lemma byCountDesc_total {K} (a b : K * Z) : byCountDesc a b = false -> byCountDesc b a = true.
Proof. unfold byCountDesc. intros H. apply Z.leb_gt in H. apply Z.leb_le. lia. Qed.

Lemma byCountDesc_trans {K} (a b c : K * Z) :
  byCountDesc a b = true -> byCountDesc b c = true -> byCountDesc a c = true.
Proof. unfold byCountDesc. rewrite !Z.leb_le. lia. Qed.

Lemma byIdDesc_iff (a b : nullable Z * Z) :
  byIdDesc a b = true <-> fst a = fst b \/ laterYear (fst a) (fst b).
Proof.
  unfold byIdDesc, laterYear. destruct a as [[|x] n], b as [[|y] m]; cbn [fst cmpNullable isGt negb].
  - split; auto.
  - split; [discriminate | intros [H|H]; discriminate].
  - split; auto.
  - destruct (Z.compare_spec y x); cbn [isGt negb]; split; intros; subst; auto;
      try discriminate; try (destruct H0 as [H0|H0]; [injection H0; lia | discriminate]).
Qed.

Lemma laterYear_trans (a b c : nullable Z) : laterYear a b -> laterYear b c -> laterYear a c.
Proof.
  unfold laterYear. destruct a, b, c; cbn [cmpNullable]; try congruence.
  rewrite !Z.compare_lt_iff. lia.
Qed.

Lemma laterYear_irrefl (a : nullable Z) : ~ laterYear a a.
Proof.
  unfold laterYear. destruct a; cbn [cmpNullable]; [discriminate|].
  rewrite Z.compare_refl. discriminate.
Qed.

Lemma laterYear_total (a b : nullable Z) : a = b \/ laterYear a b \/ laterYear b a.
Proof.
  unfold laterYear. destruct a as [|x], b as [|y]; cbn [cmpNullable]; auto.
  destruct (Z.lt_trichotomy x y) as [H|[H|H]].
  - right. right. apply Z.compare_lt_iff. exact H.
  - left. congruence.
  - right. left. apply Z.compare_lt_iff. exact H.
Qed.

Lemma byIdDesc_total (a b : nullable Z * Z) : byIdDesc a b = false -> byIdDesc b a = true.
Proof.
  intros H. apply byIdDesc_iff.
  destruct (laterYear_total (fst a) (fst b)) as [Heq|[Hl|Hl]];
    [left; congruence | | right; exact Hl].
  assert (Ht : byIdDesc a b = true) by (apply byIdDesc_iff; auto). congruence.
Qed.

Lemma byIdDesc_trans (a b c : nullable Z * Z) :
  byIdDesc a b = true -> byIdDesc b c = true -> byIdDesc a c = true.
Proof.
  rewrite !byIdDesc_iff. intros [H1|H1] [H2|H2].
  - left. congruence.
  - right. rewrite H1. exact H2.
  - right. rewrite <- H2. exact H1.
  - right. eapply laterYear_trans; eauto.
Qed.

Lemma sorted_impl {A} (R R' : A -> A -> Prop) (l : list A) :
  (forall a b, R a b -> R' a b) -> StronglySorted R l -> StronglySorted R' l.
Proof.
  intros Himp. induction 1 as [|x r Hs IH Hall]; constructor; [exact IH|].
  rewrite Forall_forall in *. auto.
Qed.

Lemma sorted_strict {A B} (f : A -> B) (R R' : A -> A -> Prop) (l : list A) :
  (forall a b, R a b -> f a <> f b -> R' a b) ->
  NoDup (map f l) -> StronglySorted R l -> StronglySorted R' l.
Proof.
  intros Hstrict. induction l as [|x r IH]; intros Hn Hs; [constructor|].
  cbn [map] in Hn. inversion Hn as [|? ? Hx Hr]; subst.
  inversion Hs as [|? ? Hsr Hall]; subst.
  constructor; [apply IH; assumption|].
  rewrite Forall_forall in *. intros y Hy. apply Hstrict; [apply Hall, Hy|].
  intros Heq. apply Hx. rewrite Heq. apply in_map. exact Hy.
Qed.

(** X6: the [topGenres] of [getCacheStats] are the ten most frequent
    genres of the collection.  On a store that answers, the list holds at
    most ten entries, no genre twice; every entry carries the number of
    times its genre is listed in the collection (once per document and
    element of its [genre] list), which is at least 1; the counts do not
    increase along the list; a genre of the collection that is left out
    occurs no more often than any listed one, and is left out only when ten
    are listed. *)
Theorem X6_top_genres (E : Env) (w : World) :
  answers E w 4 ->
  exists s w',
    getCacheStats E w = (Ret s, w') /\
    (List.length (cs_topGenres s) <= 10)%nat /\
    NoDup (map fst (cs_topGenres s)) /\
    (forall g n, In (g, n) (cs_topGenres s) ->
                 n = occurrences g (store w) /\ 0 < n) /\
    StronglySorted (fun a b => snd b <= snd a) (cs_topGenres s) /\
    (forall g, 0 < occurrences g (store w) -> ~ In g (map fst (cs_topGenres s)) ->
               List.length (cs_topGenres s) = 10%nat /\
               forall g' n', In (g', n') (cs_topGenres s) ->
                             occurrences g (store w) <= n') /\
    ((List.length (cs_topGenres s) < 10)%nat ->
     forall g, In g (map fst (cs_topGenres s)) <-> 0 < occurrences g (store w)).
Proof.
  intros H. eexists _, _. split; [apply getCacheStats_run; exact H|].
  cbn [cs_topGenres]. unfold genreCounts, occurrences.
  destruct (top_of_groups String.eqb byCountDesc (unwindGenre (store w)) 10
              String.eqb_eq byCountDesc_total byCountDesc_trans)
    as (Hlen & Hnd & Hin & Hs & Hout & Hall).
  split; [exact Hlen|]. split; [exact Hnd|].
  split; [intros g n Hg; apply Hin in Hg; tauto|].
  split.
  { eapply sorted_impl; [|exact Hs].
    intros a b Hab. unfold byCountDesc in Hab. apply Z.leb_le. exact Hab. }
  split.
  { intros g Hg Hnot. apply (tally_pos _ _ _ String.eqb_eq) in Hg.
    destruct (Hout g Hg Hnot) as [Hten Hle]. split; [exact Hten|].
    intros g' n' Hg'. specialize (Hle _ Hg'). unfold byCountDesc in Hle.
    cbn [snd] in Hle. apply Z.leb_le. exact Hle. }
  intros Hlt g. split.
  - intros Hg. apply in_map_iff in Hg as ([g0 n] & <- & Hg). cbn [fst].
    apply Hin in Hg as (Hg & _ & _). apply (tally_pos _ _ _ String.eqb_eq). exact Hg.
  - intros Hg. apply (tally_pos _ _ _ String.eqb_eq) in Hg. apply Hall; assumption.
Qed.

(** Three documents of the genres Action/Sci-Fi, Action/Crime and
    Action/Crime. *)
Lemma X6_top_genres_witness :
  answers Demo.env Demo.stale 4 /\
  exists s w',
    getCacheStats Demo.env Demo.stale = (Ret s, w') /\
    cs_topGenres s = [("Action", 3); ("Crime", 2); ("Sci-Fi", 1)].
Proof.
  assert (H : answers Demo.env Demo.stale 4) by (intros k _; reflexivity).
  split; [exact H|].
  destruct (X6_top_genres Demo.env Demo.stale H) as (s & w' & Hrun & _).
  exists s, w'. split; [exact Hrun|].
  vm_compute in Hrun. injection Hrun as <- _. reflexivity.
Defined.

(** X7: the [moviesByYear] of [getCacheStats] are the ten most recent
    years of the collection.  On a store that answers, the list holds at
    most ten entries; every entry carries the number of documents of its
    year, which is at least 1; the years strictly decrease along the list;
    a year of the collection that is left out is older than every listed
    one, and is left out only when ten are listed. *)
Theorem X7_movies_by_year (E : Env) (w : World) :
  answers E w 4 ->
  exists s w',
    getCacheStats E w = (Ret s, w') /\
    (List.length (cs_moviesByYear s) <= 10)%nat /\
    (forall y n, In (y, n) (cs_moviesByYear s) ->
                 n = ofYear y (store w) /\ 0 < n) /\
    StronglySorted (fun a b => laterYear (fst a) (fst b)) (cs_moviesByYear s) /\
    (forall y, 0 < ofYear y (store w) -> ~ In y (map fst (cs_moviesByYear s)) ->
               List.length (cs_moviesByYear s) = 10%nat /\
               forall y' n', In (y', n') (cs_moviesByYear s) -> laterYear y' y) /\
    ((List.length (cs_moviesByYear s) < 10)%nat ->
     forall y, In y (map fst (cs_moviesByYear s)) <-> 0 < ofYear y (store w)).
Proof.
  intros H. eexists _, _. split; [apply getCacheStats_run; exact H|].
  cbn [cs_moviesByYear]. unfold yearCounts, ofYear.
  set (keys := map (fun d => year (data d)) (store w)).
  destruct (top_of_groups (eqbNullable Z.eqb) byIdDesc keys 10
              eqbNullable_eq byIdDesc_total byIdDesc_trans)
    as (Hlen & Hnd & Hin & Hs & Hout & Hall).
  split; [exact Hlen|].
  split; [intros y n Hy; apply Hin in Hy; tauto|].
  split.
  { apply (sorted_strict fst (fun a b => byIdDesc a b = true)); [|exact Hnd|exact Hs].
    intros a b Hab Hne. apply byIdDesc_iff in Hab as [Hab|Hab]; [contradiction|exact Hab]. }
  split.
  { intros y Hy Hnot. apply (tally_pos _ _ _ eqbNullable_eq) in Hy.
    destruct (Hout y Hy Hnot) as [Hten Hle]. split; [exact Hten|].
    intros y' n' Hy'. specialize (Hle _ Hy'). apply byIdDesc_iff in Hle.
    cbn [fst] in Hle. destruct Hle as [Heq|Hl]; [|exact Hl].
    exfalso. apply Hnot. subst y'. apply (in_map fst) in Hy'. exact Hy'. }
  intros Hlt y. split.
  - intros Hy. apply in_map_iff in Hy as ([y0 n] & <- & Hy). cbn [fst].
    apply Hin in Hy as (Hy & _ & _). apply (tally_pos _ _ _ eqbNullable_eq). exact Hy.
  - intros Hy. apply (tally_pos _ _ _ eqbNullable_eq) in Hy. apply Hall; assumption.
Qed.

(** Documents of 2010, 2005 and 2008. *)
Lemma X7_movies_by_year_witness :
  answers Demo.env Demo.stale 4 /\
  exists s w',
    getCacheStats Demo.env Demo.stale = (Ret s, w') /\
    cs_moviesByYear s = [(Val 2010, 1); (Val 2008, 1); (Val 2005, 1)].
Proof.
  assert (H : answers Demo.env Demo.stale 4) by (intros k _; reflexivity).
  split; [exact H|].
  destruct (X7_movies_by_year Demo.env Demo.stale H) as (s & w' & Hrun & _).
  exists s, w'. split; [exact Hrun|].
  vm_compute in Hrun. injection Hrun as <- _. reflexivity.
Defined.

(** ** [runManualCleanup] and [getCleanupStats] *)

Lemma runManualCleanup_run (E : Env) (w : World) :
  dbFault E (dbOps w) = false -> dbFault E (S (S (dbOps w))) = false ->
  runManualCleanup E w =
  (Ret {| m_before := Z.of_nat (List.length (store w));
          m_deleted := if dbFault E (S (dbOps w)) then 0
                       else countIf (isExpired (now w)) (store w);
          m_after := Z.of_nat (List.length
                                 (if dbFault E (S (dbOps w)) then store w
                                  else filter (fun d => negb (isExpired (now w) d))
                                              (store w))) |},
   withStore (tick (tick (tick w)))
             (if dbFault E (S (dbOps w)) then store w
              else filter (fun d => negb (isExpired (now w) d)) (store w))).
Proof.
  intros H0 H2. unfold runManualCleanup, try_catch, bind.
  rewrite countDocuments_every by exact H0.
  rewrite cleanExpiredCache_run. cbn [tick dbOps now store].
  destruct (dbFault E (S (dbOps w))) eqn:H1.
  - rewrite countDocuments_every by exact H2. reflexivity.
  - rewrite countDocuments_every by exact H2. reflexivity.
Qed.

(** X8: [runManualCleanup] reports a balance that adds up.  When the store
    answers the two counts, the call returns [before], the size of the
    collection when it started, [after], its size when it ended, and
    [deleted] with [before = deleted + after]: the documents whose
    [cacheExpiry] lay before now were removed and counted, or -- when the
    store rejected the deletion, which [cleanExpiredCache] swallows --
    nothing was removed and [deleted] is 0.  When the store rejects a
    count the call throws; if it is the first count, nothing was removed. *)
Theorem X8_manual_cleanup_balance (E : Env) (w : World) :
  (dbFault E (dbOps w) = false -> dbFault E (S (S (dbOps w))) = false ->
   exists r w',
     runManualCleanup E w = (Ret r, w') /\
     m_before r = Z.of_nat (List.length (store w)) /\
     m_after r = Z.of_nat (List.length (store w')) /\
     m_before r = m_deleted r + m_after r /\
     0 <= m_deleted r /\
     (dbFault E (S (dbOps w)) = false ->
      m_deleted r = countIf (isExpired (now w)) (store w) /\
      store w' = filter (fun d => negb (isExpired (now w) d)) (store w)) /\
     (dbFault E (S (dbOps w)) = true -> m_deleted r = 0 /\ store w' = store w)) /\
  (dbFault E (dbOps w) = true \/ dbFault E (S (S (dbOps w))) = true ->
   exists e w',
     runManualCleanup E w = (Threw e, w') /\
     (dbFault E (dbOps w) = true -> store w' = store w)).
Proof.
  split.
  - intros H0 H2. eexists _, _. split; [apply runManualCleanup_run; assumption|].
    cbn [m_before m_after m_deleted store withStore].
    pose proof (countIf_split (isExpired (now w)) (store w)) as Hs.
    pose proof (countIf_bounds (isExpired (now w)) (store w)) as Hb.
    unfold countIf in *.
    destruct (dbFault E (S (dbOps w))); repeat split; try reflexivity; try lia;
      intros; try discriminate; try split; try reflexivity; lia.
  - intros Hf. unfold runManualCleanup, try_catch, bind, Movie_countDocuments.
    destruct (dbFault E (dbOps w)) eqn:H0.
    + rewrite dbOp_fault by exact H0. eexists _, _. split; [reflexivity|].
      intros _. reflexivity.
    + destruct Hf as [Hf|H2]; [discriminate|].
      rewrite dbOp_ok by exact H0. cbn [fst snd].
      rewrite cleanExpiredCache_run. cbn [tick withStore dbOps now store].
      destruct (dbFault E (S (dbOps w))).
      * rewrite dbOp_fault by exact H2. eexists _, _. split; [reflexivity|].
        intros Hx. discriminate.
      * rewrite dbOp_fault by exact H2. eexists _, _. split; [reflexivity|].
        intros Hx. discriminate.
Qed.

(** One active and two expired documents: 3 before, 2 deleted, 1 after. *)
Lemma X8_manual_cleanup_balance_witness :
  exists r w',
    runManualCleanup Demo.env Demo.stale = (Ret r, w') /\
    m_before r = 3 /\ m_deleted r = 2 /\ m_after r = 1 /\
    List.length (store w') = 1%nat.
Proof.
  destruct (proj1 (X8_manual_cleanup_balance Demo.env Demo.stale) eq_refl eq_refl)
    as (r & w' & Hrun & Hb & Ha & Hsum & _ & Hok & _).
  destruct (Hok eq_refl) as [Hd Hstore].
  exists r, w'. split; [exact Hrun|].
  assert (Hb' : m_before r = 3) by (rewrite Hb; reflexivity).
  assert (Hd' : m_deleted r = 2) by (rewrite Hd; vm_compute; reflexivity).
  assert (Hl : List.length (store w') = 1%nat) by (rewrite Hstore; vm_compute; reflexivity).
  repeat split; try assumption. lia.
Defined.

Lemma matches_createdBefore (E : Env) (t : Z) (d : MovieDoc) :
  matches E (createdBeforeQuery t) d = (createdAt d <? t).
Proof.
  unfold matches, createdBeforeQuery, holdsIf, condHolds, opsHold, hasOp, setLt, noOps.
  cbn. rewrite Zltb_isLt. destruct (isLt (createdAt d ?= t)); reflexivity.
Qed.

Lemma matches_lowRated (E : Env) (d : MovieDoc) :
  matches E lowRatedQuery d = lowRated d.
Proof.
  unfold matches, lowRatedQuery, lowRated, holdsIf, condHolds, opsHold, hasOp, setLt, noOps.
  cbn. destruct (docScore d) as [|q]; [reflexivity|].
  destruct (isLt (q ?= 5 # 1)%Q); reflexivity.
Qed.

Lemma lowRated_iff (d : MovieDoc) :
  lowRated d = true <->
  exists q, imdb_score (imdb (rating (data d))) = Val (Some q) /\ (q < 5 # 1)%Q.
Proof.
  unfold lowRated, docScore, stored.
  destruct (imdb_score (imdb (rating (data d)))) as [|[q|]].
  - split; [discriminate | intros (q & Hq & _); discriminate].
  - split.
    + intros H. exists q. split; [reflexivity|].
      rewrite Qlt_alt. destruct (q ?= 5 # 1)%Q; cbn in H; congruence.
    + intros (q' & Hq & Hlt). injection Hq as <-. rewrite Qlt_alt in Hlt.
      rewrite Hlt. reflexivity.
  - split; [discriminate | intros (q & Hq & _); discriminate].
Qed.

Lemma getCleanupStats_run (E : Env) (w : World) :
  answers E w 4 ->
  getCleanupStats E w =
  (Ret {| k_total := Z.of_nat (List.length (store w));
          k_expired := countIf (isExpired (now w)) (store w);
          k_oldEntries := countIf (fun d => createdAt d <? now w - WEEK) (store w);
          k_lowRated := countIf lowRated (store w);
          k_active := Z.of_nat (List.length (store w))
                      - countIf (isExpired (now w)) (store w) |},
   tick (tick (tick (tick w)))).
Proof.
  intros H. unfold getCleanupStats, try_catch, bind, getNow, Movie_countDocuments.
  rewrite promiseAll4_reads by exact H.
  unfold ret, countIf. rewrite filter_every, filter_expired.
  rewrite (filter_ext _ _ (matches_createdBefore E (now w - WEEK))).
  rewrite (filter_ext _ _ (matches_lowRated E)). reflexivity.
Qed.

(** X9: on a store that answers its four counts, [getCleanupStats] returns
    the size of the collection, the number of documents whose
    [cacheExpiry] lies before now, the number created more than seven days
    (604 800 000 ms) before now, and the number whose primary score is below
    5 -- a document without a primary score is not counted as low rated --,
    with [active = total - expired]; every count lies between 0 and
    [total]; the collection is left as it was; and [total], [expired] and
    [active] are the ones [getCacheStats] reports in the same world. *)
Theorem X9_cleanup_stats (E : Env) (w : World) :
  answers E w 4 ->
  exists s w',
    getCleanupStats E w = (Ret s, w') /\ store w' = store w /\
    k_total s = Z.of_nat (List.length (store w)) /\
    k_expired s = countIf (isExpired (now w)) (store w) /\
    k_oldEntries s = countIf (fun d => createdAt d <? now w - 604800000) (store w) /\
    k_lowRated s = countIf lowRated (store w) /\
    (forall d, lowRated d = true <->
               exists q, imdb_score (imdb (rating (data d))) = Val (Some q) /\
                         (q < 5 # 1)%Q) /\
    k_total s = k_active s + k_expired s /\
    0 <= k_expired s <= k_total s /\ 0 <= k_oldEntries s <= k_total s /\
    0 <= k_lowRated s <= k_total s /\ 0 <= k_active s <= k_total s /\
    exists c w'',
      getCacheStats E w = (Ret c, w'') /\
      cs_total c = k_total s /\ cs_expired c = k_expired s /\ cs_active c = k_active s.
Proof.
  intros H. eexists _, _. split; [apply getCleanupStats_run; exact H|].
  cbn [k_total k_expired k_oldEntries k_lowRated k_active].
  pose proof (countIf_bounds (isExpired (now w)) (store w)).
  pose proof (countIf_bounds (fun d => createdAt d <? now w - WEEK) (store w)).
  pose proof (countIf_bounds lowRated (store w)).
  split; [reflexivity|]. split; [reflexivity|]. split; [reflexivity|].
  split; [reflexivity|]. split; [reflexivity|].
  split; [exact lowRated_iff|].
  split; [lia|]. split; [lia|]. split; [exact H1|]. split; [exact H2|]. split; [lia|].
  eexists _, _. split; [apply getCacheStats_run; exact H|].
  cbn [cs_total cs_expired cs_active]. repeat split; reflexivity.
Qed.

(** A low-rated document, an old and expired one without a score, and a
    recent one. *)
Lemma X9_cleanup_stats_witness :
  answers Demo.env Cases.mixed 4 /\
  exists s w',
    getCleanupStats Demo.env Cases.mixed = (Ret s, w') /\
    k_total s = 3 /\ k_expired s = 1 /\ k_oldEntries s = 1 /\ k_lowRated s = 1 /\
    k_active s = 2.
Proof.
  assert (H : answers Demo.env Cases.mixed 4) by (intros k _; reflexivity).
  split; [exact H|].
  destruct (X9_cleanup_stats Demo.env Cases.mixed H)
    as (s & w' & Hrun & _ & Ht & He & Ho & Hl & _ & Hsum & _).
  exists s, w'. split; [exact Hrun|].
  assert (Ht' : k_total s = 3) by (rewrite Ht; reflexivity).
  assert (He' : k_expired s = 1) by (rewrite He; vm_compute; reflexivity).
  assert (Ho' : k_oldEntries s = 1) by (rewrite Ho; vm_compute; reflexivity).
  assert (Hl' : k_lowRated s = 1) by (rewrite Hl; vm_compute; reflexivity).
  repeat split; try assumption. lia.
Defined.

(** ** The provider is asked, or not *)






Lemma searchMoviesOMDB_world (E : Env) (term : string) (page : Z) (w : World) :
  snd (searchMoviesOMDB E term page w)
  = if keyMissing E then w else logCall (SearchCall term page) w.
Proof.
  unfold searchMoviesOMDB, try_catch, bind, throw, ret, axiosSearch.
  destruct (keyMissing E); [reflexivity|].
  destruct (httpSearch E _ term page) as [msg|body]; [reflexivity|].
  destruct (String.eqb (OMDB.sr_Response body) "False"); reflexivity.
Qed.

(** ** [saveMovieToCache] and the validators *)

Lemma saveMovieToCache_invalid (E : Env) (m : MovieData) (w : World) :
  validate E (castData m) = false ->
  saveMovieToCache E m w = (Threw "Failed to save movie to database", tick w).
Proof.
  intros Hv. unfold saveMovieToCache, try_catch, bind. rewrite Movie_findOne_id.
  destruct (dbFault E (dbOps w)); [reflexivity|].
  destruct (findIndex (hasId (imdbID m)) (store w) 0) as [[pos old]|].
  - unfold getNow, save_existing. cbn [data setExpiry assign]. rewrite Hv. reflexivity.
  - unfold newMovie, bind, getNow, ret, save_new. cbn [data freshDoc]. rewrite Hv.
    reflexivity.
Qed.





(** ** [getMovieById] *)

Lemma findIndex_unique (p : MovieDoc -> bool) (s : list MovieDoc) (d : MovieDoc) (i : nat) :
  uniqueIds s -> In d s -> p d = true ->
  (forall x, In x s -> p x = true -> idOf x = idOf d) ->
  exists pos, findIndex p s i = Some (pos, d).
Proof.
  unfold uniqueIds. revert i. induction s as [|x r IH]; intros i Hn Hin Hp Hid; [destruct Hin|].
  cbn [map] in Hn. inversion Hn as [|? ? Hx Hr]; subst. cbn [findIndex].
  destruct (p x) eqn:Hpx.
  - destruct Hin as [->|Hin]; [eexists; reflexivity|].
    exfalso. apply Hx. rewrite (Hid x (or_introl eq_refl) Hpx).
    apply in_map. exact Hin.
  - destruct Hin as [->|Hin]; [congruence|].
    apply IH; auto. intros y Hy. apply Hid. right. exact Hy.
Qed.

Lemma getMovieById_hit (E : Env) (id : string) (w : World) (d : MovieDoc) :
  dbFault E (dbOps w) = false -> uniqueIds (store w) ->
  In d (store w) -> idOf d = id -> isActive (now w) d = true ->
  getMovieById E id w = (Ret (d, "cache"), tick w).
Proof.
  intros Hf Hu Hin Hid Ha. unfold getMovieById, try_catch, bind, getNow, Movie_findOne.
  rewrite dbOp_ok by exact Hf. cbn [fst snd].
  destruct (findIndex_unique (matches E (activeIdQuery id (now w))) (store w) d 0 Hu Hin)
    as [pos Hpos].
  - rewrite matches_activeId, Ha. apply andb_true_iff. split; [|reflexivity].
    apply hasId_idOf. exact Hid.
  - intros x _ Hx. rewrite matches_activeId in Hx. apply andb_true_iff in Hx as [Hx _].
    apply hasId_idOf in Hx. congruence.
  - rewrite Hpos. reflexivity.
Qed.

Lemma getMovieById_miss (E : Env) (id : string) (w : World) :
  dbFault E (dbOps w) = false ->
  (forall d, In d (store w) -> idOf d = id -> isActive (now w) d = false) ->
  getMovieById E id w =
  try_catch
    (movieData <- getMovieDetailsOMDB E id ;;
     saved <- saveMovieToCache E movieData ;;
     ret (saved, "api"))%js
    (fun message => throw message) (tick w).
Proof.
  intros Hf Hnone. unfold getMovieById, try_catch at 1, bind at 1, getNow.
  unfold bind at 1, Movie_findOne. rewrite dbOp_ok by exact Hf. cbn [fst snd].
  assert (Hno : findIndex (matches E (activeIdQuery id (now w))) (store w) 0 = None).
  { apply findIndex_none. apply not_true_is_false. intros Hex.
    apply existsb_exists in Hex as (x & Hx & Hm). rewrite matches_activeId in Hm.
    apply andb_true_iff in Hm as [Hi Ha]. apply hasId_idOf in Hi.
    rewrite (Hnone x Hx Hi) in Ha. discriminate. }
  rewrite Hno. reflexivity.
Qed.

(** X2: a document that is cached and active is served from the cache.
    When the collection holds an active document under the identifier
    (identifiers being unique) and the store answers, [getMovieById]
    returns that document tagged "cache" after its one look-up: nothing is
    sent to the provider and the collection is as it was. *)
Theorem X2_getMovieById_cached (E : Env) (id : string) (w : World) (d : MovieDoc) :
  dbFault E (dbOps w) = false -> uniqueIds (store w) ->
  In d (store w) -> idOf d = id -> isActive (now w) d = true ->
  exists w',
    getMovieById E id w = (Ret (d, "cache"), w') /\
    store w' = store w /\ apiLog w' = apiLog w /\ dbOps w' = S (dbOps w).
Proof.
  intros Hf Hu Hin Hid Ha. exists (tick w).
  split; [apply getMovieById_hit; assumption|]. repeat split; reflexivity.
Qed.

(** "Inception", stored a moment ago, is served from the cache. *)
Lemma X2_getMovieById_cached_witness :
  exists w',
    getMovieById Demo.env "tt1375666" Demo.stale
    = (Ret (Demo.docAt 1700000000000 Demo.inception, "cache"), w') /\
    apiLog w' = [].
Proof.
  destruct (X2_getMovieById_cached Demo.env "tt1375666" Demo.stale
              (Demo.docAt 1700000000000 Demo.inception))
    as (w' & Hrun & _ & Hlog & _).
  - reflexivity.
  - unfold uniqueIds. vm_compute. repeat constructor; cbn; intuition discriminate.
  - left. reflexivity.
  - reflexivity.
  - reflexivity.
  - exists w'. split; [exact Hrun | exact Hlog].
Defined.



Lemma truthyQ_true (q : Q) : truthyQ q = true <-> ~ (q == 0)%Q.
Proof.
  unfold truthyQ. rewrite negb_true_iff. split.
  - intros H Hq. apply Qeq_bool_iff in Hq. congruence.
  - intros H. destruct (Qeq_bool q (0 # 1)) eqn:Hb; [|reflexivity].
    apply Qeq_bool_iff in Hb. contradiction.
Qed.

(** ** Invariants, over the whole life of the collection *)

Section MoreInvariants.

Variable E : Env.
Variable P : World -> Prop.
Hypothesis HP : Closed E P.

Let HF : Framed P := closed_framed E P HP.

Lemma Keeps_promiseAll4 {A B C D} (a : M A) (b : M B) (c : M C) (d : M D) :
  Keeps P a -> Keeps P b -> Keeps P c -> Keeps P d -> Keeps P (promiseAll4 a b c d).
Proof.
  intros Ha Hb Hc Hd w o w' H Hw. unfold promiseAll4 in H.
  destruct (a w) as [oa w1] eqn:H1. destruct (b w1) as [ob w2] eqn:H2.
  destruct (c w2) as [oc w3] eqn:H3. destruct (d w3) as [od w4] eqn:H4.
  assert (w' = w4) as ->.
  { destruct oa, ob, oc, od; injection H as _ <-; reflexivity. }
  eapply Hd; eauto.
Qed.

Lemma Keeps_aggregate {A} (pipeline : list MovieDoc -> A) :
  Keeps P (Movie_aggregate E pipeline).
Proof. unfold Movie_aggregate. apply Keeps_read. exact HP. Qed.

Lemma Keeps_getCacheStats : Keeps P (getCacheStats E).
Proof.
  unfold getCacheStats. apply Keeps_try_catch; [|intros; apply Keeps_throw].
  apply Keeps_bind; [apply Keeps_getNow|]. intros t.
  apply Keeps_bind.
  - apply Keeps_promiseAll4; try (apply Keeps_countDocuments; exact HP);
      apply Keeps_aggregate.
  - intros [[[total expired] byGenre] byYear]. apply Keeps_ret.
Qed.

Lemma Keeps_getCleanupStats : Keeps P (getCleanupStats E).
Proof.
  unfold getCleanupStats. apply Keeps_try_catch; [|intros; apply Keeps_throw].
  apply Keeps_bind; [apply Keeps_getNow|]. intros t.
  apply Keeps_bind.
  - apply Keeps_promiseAll4; apply Keeps_countDocuments; exact HP.
  - intros [[[total expired] old] low]. apply Keeps_ret.
Qed.

Lemma Keeps_runManualCleanup : Keeps P (runManualCleanup E).
Proof.
  unfold runManualCleanup. apply Keeps_try_catch; [|intros; apply Keeps_throw].
  apply Keeps_bind; [apply Keeps_countDocuments; exact HP|]. intros before.
  apply Keeps_bind; [apply Keeps_cleanExpiredCache; exact HP|]. intros deleted.
  apply Keeps_bind; [apply Keeps_countDocuments; exact HP|]. intros after.
  apply Keeps_ret.
Qed.

Lemma Keeps_isCacheExpired doc : Keeps P (isCacheExpired doc).
Proof.
  unfold isCacheExpired. apply Keeps_bind; [apply Keeps_getNow|]. intros t. apply Keeps_ret.
Qed.

Lemma Keeps_Movie_cleanExpiredCache : Keeps P (Movie_cleanExpiredCache E).
Proof.
  unfold Movie_cleanExpiredCache. apply Keeps_bind; [apply Keeps_getNow|]. intros t.
  apply Keeps_deleteMany. exact HP.
Qed.

Lemma Keeps_getMovie id : Keeps P (getMovie E id).
Proof.
  unfold getMovie. apply Keeps_try_catch.
  - destruct (negb (validImdbId id)); [apply Keeps_ret|].
    apply Keeps_bind; [apply Keeps_getMovieById; exact HP|]. intros r. apply Keeps_ret.
  - intros e. destruct (includes "not found" e); apply Keeps_ret.
Qed.

Lemma Keeps_getGenres : Keeps P (getGenres E).
Proof.
  unfold getGenres. apply Keeps_try_catch; [|intros; apply Keeps_ret].
  apply Keeps_bind; [apply Keeps_aggregate|]. intros g. apply Keeps_ret.
Qed.

Lemma Keeps_getYears : Keeps P (getYears E).
Proof.
  unfold getYears. apply Keeps_try_catch; [|intros; apply Keeps_ret].
  apply Keeps_bind; [apply Keeps_aggregate|]. intros g. apply Keeps_ret.
Qed.

Lemma Keeps_clearExpired : Keeps P (clearExpired E).
Proof.
  unfold clearExpired. apply Keeps_try_catch; [|intros; apply Keeps_ret].
  apply Keeps_bind; [apply Keeps_cleanExpiredCache; exact HP|]. intros n. apply Keeps_ret.
Qed.

Lemma Keeps_clearAll : Keeps P (clearAll E).
Proof.
  unfold clearAll. apply Keeps_try_catch; [|intros; apply Keeps_ret].
  apply Keeps_bind; [apply Keeps_deleteMany; exact HP|]. intros n. apply Keeps_ret.
Qed.

End MoreInvariants.

Lemma Upkeep_keeps (E : Env) (Q : list MovieDoc -> Prop) (w w' : World) :
  Closed E (onStore Q) -> Upkeep E w w' -> Q (store w) -> Q (store w').
Proof.
  intros HQ H. destruct H as
    [w o w' H | w o w' H | w o w' H | doc w o w' H | w o w' H | id w o w' H
    | w o w' H | w o w' H | w o w' H | w o w' H].
  - exact (Keeps_getCacheStats E _ HQ _ _ _ H).
  - exact (Keeps_runManualCleanup E _ HQ _ _ _ H).
  - exact (Keeps_getCleanupStats E _ HQ _ _ _ H).
  - exact (Keeps_isCacheExpired (onStore Q) _ _ _ _ H).
  - exact (Keeps_Movie_cleanExpiredCache E _ HQ _ _ _ H).
  - exact (Keeps_getMovie E _ HQ _ _ _ _ H).
  - exact (Keeps_getGenres E _ HQ _ _ _ H).
  - exact (Keeps_getYears E _ HQ _ _ _ H).
  - exact (Keeps_clearExpired E _ HQ _ _ _ H).
  - exact (Keeps_clearAll E _ HQ _ _ _ H).
Qed.

Lemma Live_keeps (E : Env) (Q : list MovieDoc -> Prop) (w : World) :
  Closed E (onStore Q) -> Q [] -> Live E w -> Q (store w).
Proof.
  intros HQ H0 Hl. induction Hl as [w Hs|w w' Hl IH Hst|w w' Hl IH Hup].
  - rewrite Hs. exact H0.
  - eapply Step_keeps; eauto.
  - eapply Upkeep_keeps; eauto.
Qed.

Lemma validate_enums (E : Env) (m : MovieData) :
  validate E m = true ->
  mem (type m) ["movie"; "series"; "episode"] = true /\
  mem (source m) ["omdb"; "tmdb"] = true /\
  validDate (released m) = true /\
  validInt 0 None (imdb_votes (imdb (rating m))) = true.
Proof.
  unfold validate, mem. rewrite !andb_true_iff. tauto.
Qed.

(** X13: what the collection holds at any time.  In every world a process
    can be in -- starting from an empty collection and going through any
    sequence of calls of the service, the cleanup functions and the routes,
    the passing of time and the store's TTL monitor -- no two documents
    carry the same external identifier, and every document has its expiry
    set to its last refresh plus the TTL, a title and an identifier that are
    not empty, a year between 1888 and the schema's maximum, a type among
    movie, series and episode, the source omdb or tmdb, and no [NaN] in
    its primary score or runtime (a score that is present lies between 0
    and 10, a runtime is at least 1). *)
Theorem X13_live_collection (E : Env) (w : World) :
  Live E w ->
  uniqueIds (store w) /\
  forall d, In d (store w) ->
    expirySet d /\
    title (data d) <> "" /\ idOf d <> "" /\
    (exists y, year (data d) = Val y /\ 1888 <= y <= maxYear E) /\
    In (type (data d)) ["movie"; "series"; "episode"] /\
    In (source (data d)) ["omdb"; "tmdb"] /\
    (imdb_score (imdb (rating (data d))) = Null \/
     exists q, imdb_score (imdb (rating (data d))) = Val (Some q) /\
               (0 <= q /\ q <= 10 # 1)%Q) /\
    (runtime (data d) = Null \/ exists n, runtime (data d) = Val (Some n) /\ 1 <= n).
Proof.
  intros Hl.
  split; [apply (Live_keeps E uniqueIds w (Closed_unique E)); [constructor | exact Hl]|].
  intros d Hd.
  pose proof (Live_keeps E (Forall expirySet) w (Closed_expiry E) (Forall_nil _) Hl) as Hx.
  pose proof (Live_keeps E _ w (Closed_valid E) (Forall_nil _) Hl) as Hv.
  rewrite Forall_forall in Hx, Hv. specialize (Hx d Hd). specialize (Hv d Hd).
  cbn beta in Hv.
  pose proof (validate_parts E _ Hv) as (Hy & Hrun & Hs & Ht & Hi).
  pose proof (validate_enums E _ Hv) as (Hty & Hso & _).
  split; [exact Hx|].
  split; [intros He; rewrite He in Ht; discriminate|].
  split; [unfold idOf; intros He; rewrite He in Hi; discriminate|].
  split.
  { unfold validYear in Hy. destruct (year (data d)) as [|y]; [discriminate|].
    exists y. apply andb_true_iff in Hy as [H1 H2]. apply Z.leb_le in H1, H2. auto. }
  split.
  { unfold mem in Hty. apply existsb_exists in Hty as (x & Hx' & He).
    apply String.eqb_eq in He. rewrite He. exact Hx'. }
  split.
  { unfold mem in Hso. apply existsb_exists in Hso as (x & Hx' & He).
    apply String.eqb_eq in He. rewrite He. exact Hx'. }
  split.
  { unfold validScore in Hs.
    destruct (imdb_score (imdb (rating (data d)))) as [|[q|]];
      [left; reflexivity | | discriminate].
    right. exists q. split; [reflexivity|]. unfold Qin in Hs.
    apply andb_true_iff in Hs as [H1 H2]. apply Qle_bool_iff in H1, H2. auto. }
  unfold validInt in Hrun.
  destruct (runtime (data d)) as [|[n|]]; [left; reflexivity | | discriminate].
  right. exists n. split; [reflexivity|].
  apply andb_true_iff in Hrun as [H1 _]. apply Z.leb_le in H1. exact H1.
Qed.

(** A collection that went through one fetch. *)
Lemma X13_live_collection_witness :
  Live Demo.env (snd (getMovieById Demo.env "tt1375666" Demo.world0)) /\
  uniqueIds (store (snd (getMovieById Demo.env "tt1375666" Demo.world0))) /\
  List.length (store (snd (getMovieById Demo.env "tt1375666" Demo.world0))) = 1%nat.
Proof.
  assert (H : Live Demo.env (snd (getMovieById Demo.env "tt1375666" Demo.world0))).
  { apply (live_step Demo.env Demo.world0); [apply live_start; reflexivity|].
    eapply step_getMovieById. apply surjective_pairing. }
  split; [exact H|].
  split; [exact (proj1 (X13_live_collection _ _ H)) | vm_compute; reflexivity].
Defined.

(** ** The schema's [isCacheExpired] and the two purges *)

Lemma isCacheExpired_run (doc : MovieDoc) (w : World) (e : Z) :
  cacheExpiry doc = Val e ->
  isCacheExpired doc w = (Ret (isExpired (now w) doc), w).
Proof.
  intros He. unfold isCacheExpired, bind, getNow, ret, isExpired, condHolds, hasOp, opsHold,
    setLt, noOps, holdsIf.
  rewrite He. cbn. rewrite Zltb_isLt. destruct (isLt (e ?= now w)); reflexivity.
Qed.

Lemma getMovieById_cache_inv (E : Env) (id : string) (w : World) (d : MovieDoc)
    (w' : World) :
  getMovieById E id w = (Ret (d, "cache"), w') ->
  In d (store w) /\ idOf d = id /\ isActive (now w) d = true /\ w' = tick w.
Proof.
  unfold getMovieById, try_catch, bind at 1, getNow. unfold bind at 1, Movie_findOne.
  destruct (dbFault E (dbOps w)) eqn:Hf.
  - rewrite dbOp_fault by exact Hf. unfold throw. discriminate.
  - rewrite dbOp_ok by exact Hf. cbn [fst snd].
    destruct (findIndex (matches E (activeIdQuery id (now w))) (store w) 0)
      as [[pos doc]|] eqn:Hfind.
    + unfold ret. intros H. injection H as <- <-.
      apply findIndex_some in Hfind as (_ & Hnth & Hm).
      rewrite matches_activeId in Hm. apply andb_true_iff in Hm as [Hi Ha].
      apply hasId_idOf in Hi. apply nth_error_In in Hnth. auto.
    + unfold bind.
      destruct (getMovieDetailsOMDB E id _) as [[e|m] w1]; [unfold throw; discriminate|].
      destruct (saveMovieToCache E m w1) as [[e|s] w2]; [unfold throw; discriminate|].
      unfold ret. discriminate.
Qed.

(** X11: the schema's [isCacheExpired] agrees with the purges and with the
    cache look-up.  In every world a process can be in: for a stored
    document the method answers true exactly when the document's
    [cacheExpiry] lies before now, which is when the purges select it; a
    document that the service's queries treat as active is never expired,
    and a document is neither active nor expired only at the instant of its
    expiry; a document that [getMovieById] returns tagged "cache" is not
    expired; and when the store answers, the service's [cleanExpiredCache]
    and the schema's static of the same name return the same count and
    leave exactly the stored documents for which the method answers false.
    When the store rejects the deletion the static throws where the
    service's function returns 0. *)
Theorem X11_isCacheExpired (E : Env) (w : World) :
  Live E w ->
  (forall d, In d (store w) ->
     isCacheExpired d w = (Ret (isExpired (now w) d), w) /\
     (isActive (now w) d = true -> isExpired (now w) d = false) /\
     (isActive (now w) d = false /\ isExpired (now w) d = false
      <-> cacheExpiry d = Val (now w))) /\
  (forall id d w', getMovieById E id w = (Ret (d, "cache"), w') ->
                   isCacheExpired d w' = (Ret false, w')) /\
  (dbFault E (dbOps w) = false ->
   exists n w',
     cleanExpiredCache E w = (Ret n, w') /\
     Movie_cleanExpiredCache E w = (Ret n, w') /\
     forall d, In d (store w') <->
               In d (store w) /\ isCacheExpired d w = (Ret false, w)) /\
  (dbFault E (dbOps w) = true ->
   cleanExpiredCache E w = (Ret 0, tick w) /\
   exists e, Movie_cleanExpiredCache E w = (Threw e, tick w)).
Proof.
  intros Hl.
  pose proof (Live_keeps E (Forall expirySet) w (Closed_expiry E) (Forall_nil _) Hl) as Hx.
  rewrite Forall_forall in Hx.
  assert (Hrun : forall d, In d (store w) ->
                           forall w0, isCacheExpired d w0 = (Ret (isExpired (now w0) d), w0)).
  { intros d Hd w0. apply (isCacheExpired_run d w0 (lastUpdated d + TTL)). apply Hx, Hd. }
  split; [|split; [|split]].
  - intros d Hd. split; [apply Hrun, Hd|]. split; [apply active_not_expired|].
    specialize (Hx d Hd). unfold expirySet in Hx. split.
    + intros [Ha He].
      destruct (Z.lt_trichotomy (now w) (lastUpdated d + TTL)) as [Hlt|[Heq|Hgt]].
      * assert (Ht : isActive (now w) d = true)
          by (apply isActive_iff; eexists; split; [exact Hx | exact Hlt]).
        congruence.
      * rewrite Hx, Heq. reflexivity.
      * assert (Ht : isExpired (now w) d = true)
          by (apply isExpired_iff; eexists; split; [exact Hx | exact Hgt]).
        congruence.
    + intros Heq. split.
      * destruct (isActive (now w) d) eqn:Ha; [|reflexivity].
        apply isActive_iff in Ha as (e & He & Hlt). rewrite Heq in He.
        injection He as <-. lia.
      * destruct (isExpired (now w) d) eqn:Ha; [|reflexivity].
        apply isExpired_iff in Ha as (e & He & Hlt). rewrite Heq in He.
        injection He as <-. lia.
  - intros id d w' Hget.
    apply getMovieById_cache_inv in Hget as (Hd & _ & Ha & ->).
    rewrite (Hrun d Hd). cbn [tick now]. rewrite (active_not_expired _ _ Ha). reflexivity.
  - intros Hf. eexists _, _. split; [rewrite cleanExpiredCache_run, Hf; reflexivity|].
    split.
    { unfold Movie_cleanExpiredCache, bind, getNow, Movie_deleteMany.
      rewrite dbOp_ok by exact Hf. cbn [fst snd].
      f_equal; [rewrite filter_expired; reflexivity|].
      f_equal. apply filter_ext. intros d. rewrite matches_expired. reflexivity. }
    intros d. cbn [withStore store]. rewrite filter_In. split.
    + intros [Hd Hn]. split; [exact Hd|]. rewrite (Hrun d Hd).
      apply negb_true_iff in Hn. rewrite Hn. reflexivity.
    + intros [Hd Hn]. split; [exact Hd|]. rewrite (Hrun d Hd) in Hn.
      injection Hn as Hn. rewrite Hn. reflexivity.
  - intros Hf. split; [rewrite cleanExpiredCache_run, Hf; reflexivity|].
    unfold Movie_cleanExpiredCache, bind, getNow, Movie_deleteMany.
    rewrite dbOp_fault by exact Hf. eexists. reflexivity.
Qed.

(** After one fetch, an hour later: the document is active and not
    expired. *)
Lemma X11_isCacheExpired_witness :
  exists d w,
    Live Demo.env w /\ store w = [d] /\
    isCacheExpired d w = (Ret false, w) /\ isActive (now w) d = true.
Proof.
  set (w1 := snd (getMovieById Demo.env "tt1375666" Demo.world0)).
  set (w := withNow w1 1700003600000).
  assert (H : Live Demo.env w).
  { apply (live_step Demo.env w1);
      [apply (live_step Demo.env Demo.world0); [apply live_start; reflexivity|]|].
    - eapply step_getMovieById. apply surjective_pairing.
    - apply (step_clock Demo.env w1 1700003600000). vm_compute. discriminate. }
  exists (Demo.docAt 1700000000000 Demo.inception), w.
  split; [exact H|]. split; [reflexivity|].
  destruct (proj1 (X11_isCacheExpired Demo.env w H)
              (Demo.docAt 1700000000000 Demo.inception) (or_introl eq_refl))
    as (Hrun & _).
  split; [rewrite Hrun; reflexivity | reflexivity].
Defined.

(** ** [router.get('/')] *)











(** ** [router.get('/:id')] *)

Lemma validImdbId_iff (id : string) :
  validImdbId id = true <->
  exists digits, id = "tt" ++ digits /\ allDigits digits = true /\
                 (String.length digits = 7%nat \/ String.length digits = 8%nat).
Proof.
  unfold validImdbId. split.
  - destruct id as [|a [|b digits]];
      [discriminate | destruct a as [[] [] [] [] [] [] [] []]; discriminate |].
    destruct a as [[] [] [] [] [] [] [] []]; try discriminate.
    destruct b as [[] [] [] [] [] [] [] []]; try discriminate.
    intros H. apply andb_true_iff in H as [Hd Hl]. exists digits.
    split; [reflexivity|]. split; [exact Hd|].
    apply orb_true_iff in Hl as [Hl|Hl]; apply Nat.eqb_eq in Hl; auto.
  - intros (digits & -> & Hd & Hl). cbn [append]. rewrite Hd.
    destruct Hl as [->| ->]; reflexivity.
Qed.

Lemma not_found_after_prefix (s : string) :
  includes "not found" ("Failed to fetch movie details: " ++ s) = includes "not found" s.
Proof. reflexivity. Qed.

Lemma getMovieDetailsOMDB_false (E : Env) (id : string) (w : World)
    (response : OMDB.DetailResponse) :
  keyMissing E = false ->
  httpDetail E (List.length (apiLog w)) id = HttpOk response ->
  OMDB.dr_Response response = "False" ->
  getMovieDetailsOMDB E id w
  = (Threw ("Failed to fetch movie details: "
            ++ (if String.eqb (OMDB.dr_Error response) "" then "Movie not found"
                else OMDB.dr_Error response)),
     logCall (DetailCall id) w).
Proof.
  intros Hk Hhttp Hresp. unfold getMovieDetailsOMDB, try_catch, bind, axiosDetail.
  rewrite Hk, Hhttp, Hresp. reflexivity.
Qed.

Lemma getMovieDetailsOMDB_unkeyed (E : Env) (id : string) (w : World) :
  keyMissing E = true ->
  getMovieDetailsOMDB E id w
  = (Threw "Failed to fetch movie details: OMDB API key not configured", w).
Proof.
  intros Hk. unfold getMovieDetailsOMDB, try_catch, bind. rewrite Hk. reflexivity.
Qed.

(** X17: [router.get('/:id')] checks the identifier before anything else.
    The identifiers it lets through are exactly "tt" followed by seven or
    eight decimal digits; for any other identifier the reply is 400 and
    neither the store nor the provider is touched.  Whatever the
    identifier, the handler returns a reply and throws nothing. *)
Theorem X17_getMovie_id_format (E : Env) (id : string) :
  (validImdbId id = true <->
   exists digits, id = "tt" ++ digits /\ allDigits digits = true /\
                  (String.length digits = 7%nat \/ String.length digits = 8%nat)) /\
  (forall w, validImdbId id = false -> getMovie E id w = (Ret Status400, w)) /\
  (forall w, exists r w', getMovie E id w = (Ret r, w') /\
                          (r = Status400 <-> validImdbId id = false)).
Proof.
  split; [apply validImdbId_iff|]. split.
  - intros w Hv. unfold getMovie, try_catch. rewrite Hv. reflexivity.
  - intros w. unfold getMovie, try_catch. destruct (validImdbId id); cbn [negb].
    + unfold bind. destruct (getMovieById E id w) as [[e|[d src]] w1].
      * destruct (includes "not found" e); unfold ret; eexists _, _;
          (split; [reflexivity|]); split; discriminate.
      * unfold ret. eexists _, _. split; [reflexivity|]. split; discriminate.
    + unfold ret. eexists _, _. split; [reflexivity|]. split; reflexivity.
Qed.

(** X18: what [router.get('/:id')] replies for a well-formed identifier.
    A document that is cached and active is sent with 200 and [source]
    "cache", the provider not being asked.  Otherwise the provider is
    asked, and the reply depends on the text of the error: when the
    provider answers [Response] "False", the reply is 404 if its [Error]
    text is empty or contains "not found", and 500 for any other text
    (such as "Incorrect IMDb ID."); without an API key it is 500; and when
    the provider's record is one the validators reject (a game, a record
    without a year) it is 500 too, nothing being stored. *)
Theorem X18_getMovie_outcomes (E : Env) (id : string) (w : World) :
  validImdbId id = true ->
  dbFault E (dbOps w) = false ->
  (forall d, uniqueIds (store w) -> In d (store w) -> idOf d = id ->
             isActive (now w) d = true ->
             getMovie E id w
             = (Ret (Status200 {| mb_data := d; mb_source := "cache" |}), tick w)) /\
  ((forall d, In d (store w) -> idOf d = id -> isActive (now w) d = false) ->
   (forall response,
       keyMissing E = false ->
       httpDetail E (List.length (apiLog w)) id = HttpOk response ->
       OMDB.dr_Response response = "False" ->
       getMovie E id w
       = (Ret (if (String.eqb (OMDB.dr_Error response) ""
                   || includes "not found" (OMDB.dr_Error response))%bool
               then Status404 else Status500),
          logCall (DetailCall id) (tick w))) /\
   (keyMissing E = true -> getMovie E id w = (Ret Status500, tick w)) /\
   (forall m w1,
       getMovieDetailsOMDB E id (tick w) = (Ret m, w1) ->
       validate E (castData m) = false ->
       exists w', getMovie E id w = (Ret Status500, w') /\ store w' = store w)).
Proof.
  intros Hv Hf. split.
  - intros d Hu Hin Hid Ha. unfold getMovie, try_catch, bind. rewrite Hv. cbn [negb].
    rewrite (getMovieById_hit E id w d Hf Hu Hin Hid Ha). reflexivity.
  - intros Hnone.
    assert (Hmiss := getMovieById_miss E id w Hf Hnone).
    split; [|split].
    + intros response Hk Hhttp Hresp. unfold getMovie, try_catch at 1, bind at 1.
      rewrite Hv. cbn [negb]. rewrite Hmiss. unfold try_catch, bind.
      rewrite (getMovieDetailsOMDB_false E id (tick w) response Hk Hhttp Hresp).
      unfold throw. rewrite not_found_after_prefix.
      destruct (String.eqb (OMDB.dr_Error response) ""); [reflexivity|].
      cbn [orb]. destruct (includes "not found" (OMDB.dr_Error response)); reflexivity.
    + intros Hk. unfold getMovie, try_catch at 1, bind at 1.
      rewrite Hv. cbn [negb]. rewrite Hmiss. unfold try_catch, bind.
      rewrite (getMovieDetailsOMDB_unkeyed E id (tick w) Hk). reflexivity.
    + intros m w1 Hd Hbad. unfold getMovie, try_catch at 1, bind at 1.
      rewrite Hv. cbn [negb]. rewrite Hmiss. unfold try_catch, bind.
      rewrite Hd, (saveMovieToCache_invalid E m w1 Hbad). unfold throw.
      cbn [includes String.prefix]. eexists. split; [reflexivity|].
      apply getMovieDetailsOMDB_frame in Hd as (Hs & _). exact Hs.
Qed.

(** "Inception" from the cache; an identifier the provider does not know;
    and one it calls incorrect. *)
Lemma X18_getMovie_outcomes_witness :
  getMovie Demo.env "tt1375666" Demo.stale
  = (Ret (Status200 {| mb_data := Demo.docAt 1700000000000 Demo.inception;
                       mb_source := "cache" |}), tick Demo.stale) /\
  fst (getMovie Cases.envPicky "tt0000404" Demo.world0) = Ret Status404 /\
  fst (getMovie Cases.envPicky "tt7654321" Demo.world0) = Ret Status500.
Proof.
  split; [|split].
  - apply (proj1 (X18_getMovie_outcomes Demo.env "tt1375666" Demo.stale eq_refl eq_refl)).
    + unfold uniqueIds. vm_compute. repeat constructor; cbn; intuition discriminate.
    + left. reflexivity.
    + reflexivity.
    + reflexivity.
  - destruct (proj2 (X18_getMovie_outcomes Cases.envPicky "tt0000404" Demo.world0
                       eq_refl eq_refl)) as (Hno & _).
    { intros d []. }
    rewrite (Hno _ eq_refl eq_refl eq_refl). reflexivity.
  - destruct (proj2 (X18_getMovie_outcomes Cases.envPicky "tt7654321" Demo.world0
                       eq_refl eq_refl)) as (Hno & _).
    { intros d []. }
    rewrite (Hno _ eq_refl eq_refl eq_refl). reflexivity.
Defined.

(** ** [router.get('/meta/genres')] and [router.get('/meta/years')] *)

Lemma bump_sum {K} (eqb : K -> K -> bool) (k : K) (groups : list (K * Z)) :
  fold_right Z.add 0 (map snd (bump eqb k groups))
  = fold_right Z.add 0 (map snd groups) + 1.
Proof.
  induction groups as [|[k0 n] r IH]; cbn [bump map snd fold_right]; [reflexivity|].
  destruct (eqb k0 k); cbn [map snd fold_right]; lia.
Qed.

Lemma groupCount_sum {K} (eqb : K -> K -> bool) (keys : list K) :
  fold_right Z.add 0 (map snd (groupCount eqb keys)) = Z.of_nat (List.length keys).
Proof.
  unfold groupCount.
  assert (H : forall groups,
             fold_right Z.add 0 (map snd (fold_left (fun gs k => bump eqb k gs) keys groups))
             = fold_right Z.add 0 (map snd groups) + Z.of_nat (List.length keys)).
  { induction keys as [|k keys IH]; intros groups; cbn [fold_left List.length].
    - lia.
    - rewrite IH, bump_sum. lia. }
  rewrite H. reflexivity.
Qed.

Lemma sum_perm (l l' : list Z) :
  Permutation l l' -> fold_right Z.add 0 l = fold_right Z.add 0 l'.
Proof. induction 1; cbn [fold_right]; lia. Qed.

Lemma getGenres_run (E : Env) (w : World) :
  getGenres E w =
  if dbFault E (dbOps w) then (Ret Status500, tick w)
  else (Ret (Status200 (genreCounts (store w))), tick w).
Proof.
  unfold getGenres, try_catch, bind, Movie_aggregate, dbOp.
  destruct (dbFault E (dbOps w)); reflexivity.
Qed.

(** X19: [router.get('/meta/genres')] lists every genre of the collection
    once, with the number of times it is listed in the documents.  When
    the store answers, the reply is 200 and its list holds no genre twice;
    a pair of a genre and a count is in it exactly when that count is the
    number of occurrences of the genre in the collection and is at least 1;
    the counts do not increase along the list; and they add up to the
    number of all genre entries of all documents.  The collection is left
    as it was.  When the store rejects the read the reply is 500. *)
Theorem X19_genres_route (E : Env) (w : World) :
  (dbFault E (dbOps w) = false ->
   exists genres,
     getGenres E w = (Ret (Status200 genres), tick w) /\
     NoDup (map fst genres) /\
     (forall g n, In (g, n) genres <-> 0 < n /\ n = occurrences g (store w)) /\
     StronglySorted (fun a b => snd b <= snd a) genres /\
     fold_right Z.add 0 (map snd genres)
     = Z.of_nat (List.length (unwindGenre (store w)))) /\
  (dbFault E (dbOps w) = true -> getGenres E w = (Ret Status500, tick w)).
Proof.
  rewrite getGenres_run. split; intros Hf; rewrite Hf; [|reflexivity].
  exists (genreCounts (store w)). split; [reflexivity|].
  unfold genreCounts, occurrences.
  set (keys := unwindGenre (store w)).
  destruct (groupCount_spec String.eqb String.eqb_eq keys) as (Hn & Hin & Hp).
  pose proof (sortBy_perm byCountDesc (groupCount String.eqb keys)) as Hperm.
  split.
  { apply (Permutation_NoDup (Permutation_map fst (Permutation_sym Hperm))). exact Hn. }
  split.
  { intros g n. split.
    - intros Hg. apply (Permutation_in _ Hperm) in Hg. apply Hin in Hg as [Hg ->].
      split; [apply (tally_pos _ _ _ String.eqb_eq); exact Hg | reflexivity].
    - intros [Hpos ->]. apply (Permutation_in _ (Permutation_sym Hperm)). apply Hin.
      split; [apply (tally_pos _ _ _ String.eqb_eq); exact Hpos | reflexivity]. }
  split.
  { eapply sorted_impl; [|apply (sortBy_sorted byCountDesc byCountDesc_total
                                               byCountDesc_trans)].
    intros a b Hab. apply Z.leb_le. exact Hab. }
  rewrite (sum_perm _ _ (Permutation_map snd Hperm)). apply groupCount_sum.
Qed.

(** Three documents of the genres Action/Sci-Fi, Action/Crime and
    Action/Crime: six entries in all. *)
Lemma X19_genres_route_witness :
  getGenres Demo.env Demo.stale
  = (Ret (Status200 [("Action", 3); ("Crime", 2); ("Sci-Fi", 1)]), tick Demo.stale).
Proof.
  destruct (proj1 (X19_genres_route Demo.env Demo.stale) eq_refl) as (genres & Hrun & _).
  rewrite Hrun. vm_compute in Hrun. injection Hrun as <-. reflexivity.
Defined.

Lemma addToSet_fold (l acc : list Z) :
  NoDup acc ->
  NoDup (fold_left (fun acc y => if existsb (Z.eqb y) acc then acc else (acc ++ [y])%list)
                   l acc) /\
  forall y,
    In y (fold_left (fun acc y => if existsb (Z.eqb y) acc then acc else (acc ++ [y])%list)
                    l acc)
    <-> In y acc \/ In y l.
Proof.
  revert acc. induction l as [|x r IH]; intros acc Hn; cbn [fold_left].
  - split; [exact Hn|]. intros y. cbn [In]. tauto.
  - destruct (existsb (Z.eqb x) acc) eqn:Hx.
    + destruct (IH acc Hn) as [H1 H2]. split; [exact H1|].
      intros y. rewrite H2. cbn [In]. split; [tauto|].
      intros [H|[<-|H]]; auto.
      left. apply existsb_exists in Hx as (z & Hz & He). apply Z.eqb_eq in He.
      subst. exact Hz.
    + assert (Hn' : NoDup (acc ++ [x])%list).
      { apply NoDup_snoc; [exact Hn|]. intros Hin.
        assert (Ht : existsb (Z.eqb x) acc = true).
        { apply existsb_exists. exists x. split; [exact Hin | apply Z.eqb_refl]. }
        congruence. }
      destruct (IH _ Hn') as [H1 H2]. split; [exact H1|].
      intros y. rewrite H2, in_app_iff. cbn [In]. tauto.
Qed.

Lemma addToSet_spec (l : list Z) :
  NoDup (addToSet l) /\ forall y, In y (addToSet l) <-> In y l.
Proof.
  destruct (addToSet_fold l [] (NoDup_nil _)) as [H1 H2]. split; [exact H1|].
  intros y. unfold addToSet. rewrite H2. cbn [In]. tauto.
Qed.

Lemma fold_min (r : list Z) (y : Z) :
  (fold_left Z.min r y = y \/ In (fold_left Z.min r y) r) /\
  fold_left Z.min r y <= y /\ forall x, In x r -> fold_left Z.min r y <= x.
Proof.
  revert y. induction r as [|a r IH]; intros y; cbn [fold_left In].
  - split; [left; reflexivity|]. split; [lia | tauto].
  - destruct (IH (Z.min y a)) as (H1 & H2 & H3). split; [|split].
    + destruct H1 as [H1|H1]; [|right; right; exact H1].
      rewrite H1. destruct (Z.min_spec y a) as [[_ ->]|[_ ->]]; auto.
    + lia.
    + intros x [<-|Hx]; [lia | apply H3, Hx].
Qed.

Lemma fold_max (r : list Z) (y : Z) :
  (fold_left Z.max r y = y \/ In (fold_left Z.max r y) r) /\
  y <= fold_left Z.max r y /\ forall x, In x r -> x <= fold_left Z.max r y.
Proof.
  revert y. induction r as [|a r IH]; intros y; cbn [fold_left In].
  - split; [left; reflexivity|]. split; [lia | tauto].
  - destruct (IH (Z.max y a)) as (H1 & H2 & H3). split; [|split].
    + destruct H1 as [H1|H1]; [|right; right; exact H1].
      rewrite H1. destruct (Z.max_spec y a) as [[_ ->]|[_ ->]]; auto.
    + lia.
    + intros x [<-|Hx]; [lia | apply H3, Hx].
Qed.

Lemma minOf_spec (l : list Z) :
  (l = [] -> minOf l = Null) /\
  (l <> [] -> exists lo, minOf l = Val lo /\ In lo l /\ forall y, In y l -> lo <= y).
Proof.
  split; [intros ->; reflexivity|]. intros Hne.
  destruct l as [|y r]; [congruence|]. cbn [minOf].
  destruct (fold_min r y) as (H1 & H2 & H3). eexists. split; [reflexivity|]. split.
  - destruct H1 as [H1|H1]; [left; symmetry; exact H1 | right; exact H1].
  - intros x [<-|Hx]; auto.
Qed.

Lemma maxOf_spec (l : list Z) :
  (l = [] -> maxOf l = Null) /\
  (l <> [] -> exists hi, maxOf l = Val hi /\ In hi l /\ forall y, In y l -> y <= hi).
Proof.
  split; [intros ->; reflexivity|]. intros Hne.
  destruct l as [|y r]; [congruence|]. cbn [maxOf].
  destruct (fold_max r y) as (H1 & H2 & H3). eexists. split; [reflexivity|]. split.
  - destruct H1 as [H1|H1]; [left; symmetry; exact H1 | right; exact H1].
  - intros x [<-|Hx]; auto.
Qed.

Lemma storedYears_In (docs : list MovieDoc) (y : Z) :
  In y (storedYears docs) <-> exists d, In d docs /\ year (data d) = Val y.
Proof.
  unfold storedYears. rewrite in_flat_map. split.
  - intros (d & Hd & Hy). exists d. split; [exact Hd|].
    destruct (year (data d)) as [|y0]; [destruct Hy|].
    destruct Hy as [->|[]]. reflexivity.
  - intros (d & Hd & Hy). exists d. split; [exact Hd|]. rewrite Hy. left. reflexivity.
Qed.

Lemma descending_total (a b : Z) : (b - a <=? 0) = false -> (a - b <=? 0) = true.
Proof. rewrite Z.leb_gt, Z.leb_le. lia. Qed.

Lemma descending_trans (a b c : Z) :
  (b - a <=? 0) = true -> (c - b <=? 0) = true -> (c - a <=? 0) = true.
Proof. rewrite !Z.leb_le. lia. Qed.

Lemma stats_of (docs : list MovieDoc) :
  match yearStatsPipeline docs with
  | s :: _ => s
  | [] => {| ys_minYear := Null; ys_maxYear := Null; ys_years := [] |}
  end
  = {| ys_minYear := match docs with [] => Null | _ :: _ => minOf (storedYears docs) end;
       ys_maxYear := match docs with [] => Null | _ :: _ => maxOf (storedYears docs) end;
       ys_years := match docs with [] => [] | _ :: _ => addToSet (storedYears docs) end |}.
Proof. destruct docs; reflexivity. Qed.

Lemma getYears_run (E : Env) (w : World) :
  getYears E w =
  if dbFault E (dbOps w) then (Ret Status500, tick w)
  else (Ret (Status200
               {| y_min := match store w with
                           | [] => Null
                           | _ :: _ => minOf (storedYears (store w))
                           end;
                  y_max := match store w with
                           | [] => Null
                           | _ :: _ => maxOf (storedYears (store w))
                           end;
                  y_available :=
                    jsSort (fun a b => b - a)
                           match store w with
                           | [] => []
                           | _ :: _ => addToSet (storedYears (store w))
                           end |}), tick w).
Proof.
  unfold getYears, try_catch, bind, Movie_aggregate, dbOp.
  destruct (dbFault E (dbOps w)); [reflexivity|].
  unfold ret. rewrite stats_of. reflexivity.
Qed.

(** What the reply of the years route holds, given the collection. *)
Lemma years_body (docs : list MovieDoc) :
  let b := {| y_min := match docs with [] => Null | _ :: _ => minOf (storedYears docs) end;
              y_max := match docs with [] => Null | _ :: _ => maxOf (storedYears docs) end;
              y_available :=
                jsSort (fun a b => b - a)
                       match docs with
                       | [] => []
                       | _ :: _ => addToSet (storedYears docs)
                       end |} in
  StronglySorted Z.gt (y_available b) /\
  (forall y, In y (y_available b) <-> exists d, In d docs /\ year (data d) = Val y) /\
  (y_available b = [] -> y_min b = Null /\ y_max b = Null) /\
  (y_available b <> [] ->
   exists lo hi,
     y_min b = Val lo /\ y_max b = Val hi /\
     In lo (y_available b) /\ In hi (y_available b) /\
     forall y, In y (y_available b) -> lo <= y <= hi).
Proof.
  intros b.
  assert (Hset : match docs with [] => [] | _ :: _ => addToSet (storedYears docs) end
                 = addToSet (storedYears docs)) by (destruct docs; reflexivity).
  assert (Hmin : y_min b = minOf (storedYears docs)) by (destruct docs; reflexivity).
  assert (Hmax : y_max b = maxOf (storedYears docs)) by (destruct docs; reflexivity).
  unfold b in *. cbn [y_available y_min y_max] in *. rewrite Hset, Hmin, Hmax.
  clear Hset Hmin Hmax b. unfold jsSort.
  set (le := fun a b : Z => b - a <=? 0).
  destruct (addToSet_spec (storedYears docs)) as [Hnd Hin].
  pose proof (sortBy_perm le (addToSet (storedYears docs))) as Hperm.
  assert (Hmem : forall y, In y (sortBy le (addToSet (storedYears docs)))
                           <-> In y (storedYears docs)).
  { intros y. rewrite <- Hin. split; apply Permutation_in;
      [exact Hperm | apply Permutation_sym, Hperm]. }
  split.
  { apply (sorted_strict (fun x => x) (fun a b => le a b = true)).
    - intros x y Hxy Hne. unfold le in Hxy. apply Z.leb_le in Hxy. lia.
    - rewrite map_id. apply (Permutation_NoDup (Permutation_sym Hperm)). exact Hnd.
    - apply (sortBy_sorted le descending_total descending_trans). }
  split; [intros y; rewrite Hmem; apply storedYears_In|].
  split.
  { intros Hnil.
    assert (He : storedYears docs = []).
    { destruct (storedYears docs) as [|y r] eqn:Hs; [reflexivity|].
      assert (Hy : In y (sortBy le (addToSet (y :: r)))) by (apply Hmem; left; reflexivity).
      rewrite Hnil in Hy. destruct Hy. }
    rewrite He. split; reflexivity. }
  intros Hne.
  assert (Hs : storedYears docs <> []).
  { intros He. apply Hne. rewrite He. reflexivity. }
  destruct (proj2 (minOf_spec _) Hs) as (lo & Hlo & Hloin & Hlob).
  destruct (proj2 (maxOf_spec _) Hs) as (hi & Hhi & Hhiin & Hhib).
  exists lo, hi. split; [exact Hlo|]. split; [exact Hhi|].
  split; [apply Hmem, Hloin|]. split; [apply Hmem, Hhiin|].
  intros y Hy. apply Hmem in Hy. split; [apply Hlob | apply Hhib]; exact Hy.
Qed.

Lemma descending_unique (l1 l2 : list Z) :
  StronglySorted Z.gt l1 -> StronglySorted Z.gt l2 ->
  (forall y, In y l1 <-> In y l2) -> l1 = l2.
Proof.
  revert l2. induction l1 as [|x r IH]; intros l2 H1 H2 Hmem.
  - destruct l2 as [|y r2]; [reflexivity|].
    exfalso. apply (proj2 (Hmem y)). left. reflexivity.
  - destruct l2 as [|y r2].
    + exfalso. apply (proj1 (Hmem x)). left. reflexivity.
    + inversion H1 as [|? ? Hs1 Ha1]; subst. inversion H2 as [|? ? Hs2 Ha2]; subst.
      rewrite Forall_forall in Ha1, Ha2.
      assert (Hxy : x = y).
      { destruct (proj1 (Hmem x) (or_introl eq_refl)) as [Hx|Hx]; [auto|].
        destruct (proj2 (Hmem y) (or_introl eq_refl)) as [Hy|Hy]; [auto|].
        specialize (Ha1 _ Hy). specialize (Ha2 _ Hx). lia. }
      subst y. f_equal. apply IH; try assumption.
      intros z. split; intros Hz.
      * destruct (proj1 (Hmem z) (or_intror Hz)) as [Hx|Hx]; [|exact Hx].
        subst z. specialize (Ha1 _ Hz). lia.
      * destruct (proj2 (Hmem z) (or_intror Hz)) as [Hx|Hx]; [|exact Hx].
        subst z. specialize (Ha2 _ Hz). lia.
Qed.

Lemma years_body_unique (b b2 : YearsBody) (docs docs2 : list MovieDoc) :
  (StronglySorted Z.gt (y_available b) /\
   (forall y, In y (y_available b) <-> exists d, In d docs /\ year (data d) = Val y) /\
   (y_available b = [] -> y_min b = Null /\ y_max b = Null) /\
   (y_available b <> [] ->
    exists lo hi,
      y_min b = Val lo /\ y_max b = Val hi /\
      In lo (y_available b) /\ In hi (y_available b) /\
      forall y, In y (y_available b) -> lo <= y <= hi)) ->
  (StronglySorted Z.gt (y_available b2) /\
   (forall y, In y (y_available b2) <-> exists d, In d docs2 /\ year (data d) = Val y) /\
   (y_available b2 = [] -> y_min b2 = Null /\ y_max b2 = Null) /\
   (y_available b2 <> [] ->
    exists lo hi,
      y_min b2 = Val lo /\ y_max b2 = Val hi /\
      In lo (y_available b2) /\ In hi (y_available b2) /\
      forall y, In y (y_available b2) -> lo <= y <= hi)) ->
  Permutation docs2 docs -> b2 = b.
Proof.
  intros (Hs & Hm & Hnil & Hne) (Hs2 & Hm2 & Hnil2 & Hne2) Hperm.
  assert (Hav : y_available b2 = y_available b).
  { apply descending_unique; try assumption. intros y. rewrite Hm2, Hm.
    split; intros (d & Hd & Hy); exists d; (split; [|exact Hy]).
    - apply (Permutation_in _ Hperm). exact Hd.
    - apply (Permutation_in _ (Permutation_sym Hperm)). exact Hd. }
  destruct (y_available b) as [|y r] eqn:Ha.
  - destruct (Hnil eq_refl) as [H1 H2]. destruct (Hnil2 Hav) as [H3 H4].
    destruct b as [m1 x1 a1], b2 as [m2 x2 a2]. cbn in *. congruence.
  - destruct Hne as (lo & hi & H1 & H2 & H3 & H4 & H5); [discriminate|].
    destruct Hne2 as (lo2 & hi2 & H6 & H7 & H8 & H9 & H10);
      [rewrite Hav; discriminate|].
    rewrite Hav in H8, H9, H10.
    assert (lo2 = lo) by (pose proof (H5 _ H8); pose proof (H10 _ H3); lia).
    assert (hi2 = hi) by (pose proof (H5 _ H9); pose proof (H10 _ H4); lia).
    destruct b as [m1 x1 a1], b2 as [m2 x2 a2]. cbn in *. congruence.
Qed.

(** X20: [router.get('/meta/years')] reports the years of the collection.
    When the store answers, the reply is 200: [available] lists the years
    the documents carry, each once, in strictly decreasing order; [max] and
    [min] are the largest and the smallest of them, or null when there is
    none (in particular on an empty collection); the collection is left as
    it was.  The reply depends only on which documents the collection
    holds, not on their order -- so not on the order in which the store
    hands the years to [$addToSet].  When the store rejects the read the
    reply is 500. *)
Theorem X20_years_route (E : Env) (w : World) :
  (dbFault E (dbOps w) = false ->
   exists b,
     getYears E w = (Ret (Status200 b), tick w) /\
     StronglySorted Z.gt (y_available b) /\
     (forall y, In y (y_available b) <-> exists d, In d (store w) /\ year (data d) = Val y) /\
     (y_available b = [] -> y_min b = Null /\ y_max b = Null) /\
     (y_available b <> [] ->
      exists lo hi,
        y_min b = Val lo /\ y_max b = Val hi /\
        In lo (y_available b) /\ In hi (y_available b) /\
        forall y, In y (y_available b) -> lo <= y <= hi) /\
     (forall w2, dbFault E (dbOps w2) = false -> Permutation (store w2) (store w) ->
                 getYears E w2 = (Ret (Status200 b), tick w2))) /\
  (dbFault E (dbOps w) = true -> getYears E w = (Ret Status500, tick w)).
Proof.
  split.
  - intros Hf. rewrite getYears_run, Hf. eexists. split; [reflexivity|].
    destruct (years_body (store w)) as (Hs & Hm & Hnil & Hne).
    split; [exact Hs|]. split; [exact Hm|]. split; [exact Hnil|]. split; [exact Hne|].
    intros w2 Hf2 Hperm. rewrite getYears_run, Hf2. do 3 f_equal.
    apply (years_body_unique _ _ (store w) (store w2));
      [exact (years_body (store w)) | exact (years_body (store w2)) | exact Hperm].
  - intros Hf. rewrite getYears_run, Hf. reflexivity.
Qed.

(** Documents of 1980, 2000 and 2020. *)
Lemma X20_years_route_witness :
  getYears Demo.env Demo.rated
  = (Ret (Status200 {| y_min := Val 1980; y_max := Val 2020;
                       y_available := [2020; 2000; 1980] |}), tick Demo.rated).
Proof.
  destruct (proj1 (X20_years_route Demo.env Demo.rated) eq_refl) as (b & Hrun & _).
  rewrite Hrun. vm_compute in Hrun. injection Hrun as <-. reflexivity.
Defined.

(** ** The administrative routes *)

Lemma removeAt_filter (id : string) (s : list MovieDoc) (i pos : nat) (d : MovieDoc) :
  uniqueIds s -> findIndex (hasId id) s i = Some (pos, d) ->
  removeAt (pos - i) s = filter (fun x => negb (hasId id x)) s.
Proof.
  unfold uniqueIds. revert i. induction s as [|x r IH]; intros i Hn Hf; [discriminate|].
  cbn [map] in Hn. inversion Hn as [|? ? Hx Hr]; subst. cbn [findIndex] in Hf.
  cbn [filter]. destruct (hasId id x) eqn:Hid.
  - injection Hf as <- <-. rewrite Nat.sub_diag. cbn [removeAt negb].
    symmetry. apply filter_all. intros a Ha. apply negb_true_iff.
    destruct (hasId id a) eqn:Hida; [|reflexivity].
    exfalso. apply Hx. apply hasId_idOf in Hid, Hida. rewrite Hid, <- Hida.
    apply in_map. exact Ha.
  - cbn [negb]. pose proof (findIndex_some _ _ _ _ _ Hf) as (Hle & _).
    replace (pos - i)%nat with (S (pos - S i)) by lia. cbn [removeAt].
    f_equal. apply IH; assumption.
Qed.

Lemma removeAt_length {A} (pos : nat) (l : list A) (x : A) :
  nth_error l pos = Some x -> S (List.length (removeAt pos l)) = List.length l.
Proof.
  revert pos. induction l as [|y r IH]; intros [|pos] H; cbn in H; try discriminate.
  - reflexivity.
  - cbn [removeAt List.length]. f_equal. apply IH. exact H.
Qed.

Lemma filter_neg_none {A} (p : A -> bool) (l : list A) :
  filter p (filter (fun x => negb (p x)) l) = [].
Proof.
  induction l as [|x r IH]; [reflexivity|]. cbn [filter].
  destruct (p x) eqn:Hp; cbn [negb filter]; [exact IH|]. rewrite Hp. exact IH.
Qed.

Lemma deleteMovie_run (E : Env) (id : string) (w : World) :
  deleteMovie E id w =
  if dbFault E (dbOps w) then (Ret Status500, tick w)
  else match findIndex (hasId id) (store w) 0 with
       | Some (pos, d) =>
           (Ret (Status200 (title (data d))), withStore (tick w) (removeAt pos (store w)))
       | None => (Ret Status404, tick w)
       end.
Proof.
  unfold deleteMovie, try_catch, bind, dbOp.
  destruct (dbFault E (dbOps w)); [reflexivity|].
  rewrite (findIndex_ext _ (hasId id)) by (intros x; apply matches_idQuery).
  destruct (findIndex (hasId id) (store w) 0) as [[pos d]|]; reflexivity.
Qed.

(** X21: [router.delete('/:id')] removes the document under the identifier
    and nothing else.  When the store answers and identifiers are unique:
    if a document carries the identifier, the reply is 200 with that
    document's title, and afterwards the collection holds the other
    documents, in their order, one document fewer and none under the
    identifier; if no document carries it, the reply is 404 and the
    collection is as it was.  The provider is never asked.  When the store
    rejects the operation the reply is 500. *)
Theorem X21_delete_route (E : Env) (id : string) (w : World) :
  (dbFault E (dbOps w) = false -> uniqueIds (store w) ->
   (forall d, In d (store w) -> idOf d = id ->
      exists w',
        deleteMovie E id w = (Ret (Status200 (title (data d))), w') /\
        store w' = filter (fun x => negb (hasId id x)) (store w) /\
        withId id (store w') = [] /\
        S (List.length (store w')) = List.length (store w) /\
        uniqueIds (store w') /\ apiLog w' = apiLog w) /\
   ((forall d, In d (store w) -> idOf d <> id) ->
    deleteMovie E id w = (Ret Status404, tick w))) /\
  (dbFault E (dbOps w) = true -> deleteMovie E id w = (Ret Status500, tick w)).
Proof.
  rewrite deleteMovie_run. split.
  - intros Hf Hu. rewrite Hf. split.
    + intros d Hd Hid.
      destruct (findIndex_unique (hasId id) (store w) d 0 Hu Hd) as [pos Hpos].
      { apply hasId_idOf. exact Hid. }
      { intros x _ Hx. apply hasId_idOf in Hx. congruence. }
      rewrite Hpos. eexists. split; [reflexivity|]. cbn [withStore store apiLog tick].
      pose proof (removeAt_filter id (store w) 0 pos d Hu Hpos) as Hrm.
      rewrite Nat.sub_0_r in Hrm.
      pose proof (findIndex_some _ _ _ _ _ Hpos) as (_ & Hnth & _).
      rewrite Nat.sub_0_r in Hnth.
      split; [exact Hrm|]. split; [rewrite Hrm; apply filter_neg_none|].
      split; [apply (removeAt_length _ _ _ Hnth)|].
      split; [rewrite Hrm; apply NoDup_ids_filter; exact Hu | reflexivity].
    + intros Hnone.
      assert (Hno : findIndex (hasId id) (store w) 0 = None).
      { apply findIndex_none. apply not_true_is_false. intros Hex.
        apply existsb_exists in Hex as (x & Hx & Hi). apply hasId_idOf in Hi.
        exact (Hnone x Hx Hi). }
      rewrite Hno. reflexivity.
  - intros Hf. rewrite Hf. reflexivity.
Qed.

(** "Batman Begins" is removed from three documents; an unknown identifier
    gives 404. *)
Lemma X21_delete_route_witness :
  (exists w',
      deleteMovie Demo.env "tt0372784" Demo.stale = (Ret (Status200 "Batman Begins"), w') /\
      map idOf (store w') = ["tt1375666"; "tt0468569"]) /\
  deleteMovie Demo.env "tt0000000" Demo.stale = (Ret Status404, tick Demo.stale).
Proof.
  assert (Hu : uniqueIds (store Demo.stale)).
  { unfold uniqueIds. vm_compute. repeat constructor; cbn; intuition discriminate. }
  destruct (proj1 (X21_delete_route Demo.env "tt0372784" Demo.stale) eq_refl Hu)
    as [Hdel _].
  destruct (proj1 (X21_delete_route Demo.env "tt0000000" Demo.stale) eq_refl Hu)
    as [_ Hnone].
  split.
  - destruct (Hdel (Demo.docAt 1600000000000 Demo.batmanBegins))
      as (w' & Hrun & Hst & _).
    + right. left. reflexivity.
    + reflexivity.
    + exists w'. split; [exact Hrun|]. rewrite Hst. vm_compute. reflexivity.
  - apply Hnone. intros d Hd Hid. vm_compute in Hd.
    destruct Hd as [<-|[<-|[<-|[]]]]; vm_compute in Hid; discriminate Hid.
Defined.



Lemma showZ_decimal (n : Z) :
  0 <= n ->
  allDigits (showZ n) = true /\ JS.digitsVal 0 (showZ n) = n /\
  JS.parseInt (showZ n) = Some (JS.toDouble n).
Proof.
  intros Hn. unfold showZ. destruct (Z.ltb_spec n 0); [lia|].
  rewrite showNat_allDigits, showNat_value, parseInt_showNat, Z2Nat.id by exact Hn. auto.
Qed.

(** X23: the two routes that clear the cache.  [router.delete
    ('/cache/expired')] always replies 200: with the number of expired
    documents, all of them removed and no other, when the store answers,
    and with 0 and an untouched collection when the store rejects the
    deletion -- the failure does not show in the reply. [router.delete
    ('/cache/all')] removes every document, active or not, and replies 200
    with their number; when the store rejects the deletion it replies 500
    and the collection is as it was.  In both replies the number in the
    message is the count, written in decimal: its digits denote the count,
    and [parseInt] reads them back as the count (as a number, which beyond
    2^53 is the nearest double). *)
Theorem X23_clear_routes (E : Env) (w : World) :
  (exists n w',
      clearExpired E w
      = (Ret (Status200 {| d_message := "Cleared " ++ showZ n ++ " expired cache entries";
                           d_deletedCount := n |}), w') /\
      (allDigits (showZ n) = true /\ JS.digitsVal 0 (showZ n) = n /\
       JS.parseInt (showZ n) = Some (JS.toDouble n)) /\
      if dbFault E (dbOps w) then n = 0 /\ store w' = store w
      else n = countIf (isExpired (now w)) (store w) /\
           store w' = filter (fun d => negb (isExpired (now w) d)) (store w)) /\
  (if dbFault E (dbOps w)
   then clearAll E w = (Ret Status500, tick w)
   else clearAll E w
        = (Ret (Status200
                  {| d_message := "Cleared all " ++ showNat (List.length (store w))
                                  ++ " cache entries";
                     d_deletedCount := Z.of_nat (List.length (store w)) |}),
           withStore (tick w) [])).
Proof.
  split.
  - unfold clearExpired, try_catch, bind. rewrite cleanExpiredCache_run.
    destruct (dbFault E (dbOps w)); unfold ret; eexists _, _;
      (split; [reflexivity|]).
    + split; [repeat split; reflexivity|]. split; reflexivity.
    + split; [apply showZ_decimal; apply Nat2Z.is_nonneg|]. split; reflexivity.
  - unfold clearAll, try_catch, bind, Movie_deleteMany, dbOp.
    destruct (dbFault E (dbOps w)); [reflexivity|].
    cbn [fst snd]. unfold ret. rewrite filter_every.
    assert (Hnone : filter (fun d => negb (matches E everyQuery d)) (store w) = []).
    { apply filter_none. apply not_true_is_false. intros Hex.
      apply existsb_exists in Hex as (x & _ & Hx). rewrite matches_every in Hx.
      discriminate. }
    rewrite Hnone. unfold showZ.
    destruct (Z.ltb_spec (Z.of_nat (List.length (store w))) 0); [lia|].
    rewrite Nat2Z.id. reflexivity.
Qed.


(** A store that rejects everything: the expired-cache route still replies
    200, the clear-all route 500. *)
Lemma X23_clear_routes_witness :
  (exists w',
      clearExpired Demo.envDown Demo.stale
      = (Ret (Status200 {| d_message := "Cleared 0 expired cache entries";
                           d_deletedCount := 0 |}), w') /\
      List.length (store w') = 3%nat) /\
  clearAll Demo.envDown Demo.stale = (Ret Status500, tick Demo.stale) /\
  fst (clearAll Demo.env Demo.stale)
  = Ret (Status200 {| d_message := "Cleared all 3 cache entries"; d_deletedCount := 3 |}).
Proof.
  destruct (X23_clear_routes Demo.envDown Demo.stale) as [(n & w' & Hrun & _ & Hn) Hall].
  destruct (X23_clear_routes Demo.env Demo.stale) as [_ Hall'].
  cbn in Hn. destruct Hn as [-> Hst].
  split; [|split].
  - exists w'. split; [exact Hrun | rewrite Hst; reflexivity].
  - exact Hall.
  - change (dbFault Demo.env (dbOps Demo.stale)) with false in Hall'. cbv iota in Hall'.
    rewrite Hall'. reflexivity.
Defined.

(** ** [cleanupByCriteria] with no criterion, or one *)

Lemma cleanupQuery_nothing (c : Criteria) :
  c_olderThan c = None ->
  (c_genre c = None \/ c_genre c = Some []) ->
  unbounded truthyQ (c_rating c) -> unbounded truthyZ (c_year c) ->
  cleanupQuery c = everyQuery.
Proof.
  intros Ho Hg Hr Hy. unfold cleanupQuery, everyQuery. rewrite Ho.
  assert (Hg' : match c_genre c with
                | Some l => if (0 <? List.length l)%nat then Some (Nin l) else None
                | None => None
                end = None) by (destruct Hg as [-> | ->]; reflexivity).
  rewrite Hg'.
  assert (Hr' : match c_rating c with
                | Some r => outsideCond truthyQ r
                | None => None
                end = None).
  { destruct (c_rating c) as [r|]; [|reflexivity]. destruct Hr as [H1 H2].
    unfold outsideCond. rewrite H1, H2. reflexivity. }
  assert (Hy' : match c_year c with
                | Some r => outsideCond truthyZ r
                | None => None
                end = None).
  { destruct (c_year c) as [r|]; [|reflexivity]. destruct Hy as [H1 H2].
    unfold outsideCond. rewrite H1, H2. reflexivity. }
  rewrite Hr', Hy'. reflexivity.
Qed.

Lemma matches_ratedBelow (E : Env) (lo : Q) (d : MovieDoc) :
  truthyQ lo = true ->
  matches E (cleanupQuery (ratedBelow lo)) d
  = match docScore d with Val q => isLt (Qcompare q lo) | Null => false end.
Proof.
  intros Ht. unfold matches, cleanupQuery, ratedBelow, outsideCond. cbn [c_olderThan c_rating
    c_genre c_year rmin rmax someTruthy]. rewrite Ht.
  cbn [q_imdbID q_text q_cacheExpiry q_genre q_year q_score q_createdAt holdsIf andb].
  unfold condHolds. destruct (docScore d) as [|q]; [reflexivity|].
  unfold hasOp, opsHold, setLt, noOps, holdsIf. cbn.
  destruct (isLt (q ?= lo)%Q); reflexivity.
Qed.

Lemma matches_createdBefore_criteria (E : Env) (t : Z) (d : MovieDoc) :
  matches E (cleanupQuery (createdBefore t)) d = (createdAt d <? t).
Proof. apply (matches_createdBefore E t d). Qed.

Lemma matches_genresAmong (E : Env) (l : list string) (d : MovieDoc) :
  l <> [] ->
  matches E (cleanupQuery (genresAmong l)) d
  = negb (existsb (fun g => mem g l) (genre (data d))).
Proof.
  intros Hl. unfold matches, cleanupQuery, genresAmong. cbn [c_olderThan c_rating c_genre
    c_year]. destruct l as [|x r]; [congruence|].
  cbn [List.length Nat.ltb Nat.leb q_imdbID q_text q_cacheExpiry q_genre q_year q_score
       q_createdAt holdsIf andb genreHolds].
  rewrite !andb_true_r. reflexivity.
Qed.

(** X24: what [cleanupByCriteria] removes when the criteria hold no
    range.  On a store that answers, the call returns the number of
    documents it removed.  With no criterion at all -- the default, and
    also when the genre list is empty and every bound given is 0 -- the
    query is empty and the whole collection is removed.  With a lower
    bound on the rating alone, exactly the documents with a primary score
    below the bound are removed (a document without a score stays); with
    [olderThan] alone, exactly the documents created before that time; and
    with a list of genres alone, exactly the documents none of whose
    genres is listed, so that a document stays when it has one of the
    listed genres. *)
Theorem X24_cleanup_criteria (E : Env) (w : World) :
  dbFault E (dbOps w) = false ->
  (forall c, exists w',
      cleanupByCriteria E c w
      = (Ret (Z.of_nat (List.length (store w)) - Z.of_nat (List.length (store w'))), w') /\
      forall d, In d (store w') -> In d (store w)) /\
  (forall c,
      c_olderThan c = None -> (c_genre c = None \/ c_genre c = Some []) ->
      unbounded truthyQ (c_rating c) -> unbounded truthyZ (c_year c) ->
      cleanupByCriteria E c w
      = (Ret (Z.of_nat (List.length (store w))), withStore (tick w) [])) /\
  (forall lo w' n,
      ~ (lo == 0)%Q ->
      cleanupByCriteria E (ratedBelow lo) w = (Ret n, w') ->
      forall d, In d (store w') <->
                In d (store w) /\
                ~ exists q, imdb_score (imdb (rating (data d))) = Val (Some q) /\ (q < lo)%Q) /\
  (forall t w' n,
      cleanupByCriteria E (createdBefore t) w = (Ret n, w') ->
      forall d, In d (store w') <-> In d (store w) /\ t <= createdAt d) /\
  (forall l w' n,
      l <> [] ->
      cleanupByCriteria E (genresAmong l) w = (Ret n, w') ->
      forall d, In d (store w') <->
                In d (store w) /\ exists g, In g (genre (data d)) /\ In g l).
Proof.
  intros Hf.
  assert (Hrun := fun c => cleanupByCriteria_run E c w Hf).
  split; [|split; [|split; [|split]]].
  - intros c. rewrite Hrun.
    exists (withStore (tick w)
              (filter (fun d => negb (matches E (cleanupQuery c) d)) (store w))).
    cbn [withStore store]. split.
    + do 2 f_equal.
      pose proof (countIf_split (matches E (cleanupQuery c)) (store w)) as Hs.
      unfold countIf in Hs. lia.
    + intros d Hd. apply filter_In in Hd. tauto.
  - intros c Ho Hg Hr Hy. rewrite Hrun, (cleanupQuery_nothing c Ho Hg Hr Hy).
    rewrite filter_every.
    assert (Hnone : filter (fun d => negb (matches E everyQuery d)) (store w) = []).
    { apply filter_none. apply not_true_is_false. intros Hex.
      apply existsb_exists in Hex as (x & _ & Hx). rewrite matches_every in Hx.
      discriminate. }
    rewrite Hnone. reflexivity.
  - intros lo w' n Hlo H. rewrite Hrun in H. injection H as _ <-.
    intros d. cbn [withStore store]. rewrite filter_In.
    rewrite matches_ratedBelow by (apply truthyQ_true; exact Hlo).
    unfold docScore, stored.
    destruct (imdb_score (imdb (rating (data d)))) as [|[q|]].
    + split; intros [Hd _]; (split; [exact Hd|]); [intros (q & Hq & _); discriminate
                                                  | reflexivity].
    + split; intros [Hd Hn]; (split; [exact Hd|]).
      * intros (q' & Hq & Hlt). injection Hq as <-. rewrite Qlt_alt in Hlt.
        rewrite Hlt in Hn. discriminate.
      * apply negb_true_iff. destruct (q ?= lo)%Q eqn:Hc; try reflexivity.
        exfalso. apply Hn. exists q. split; [reflexivity|]. rewrite Qlt_alt. exact Hc.
    + split; intros [Hd _]; (split; [exact Hd|]); [intros (q & Hq & _); discriminate
                                                  | reflexivity].
  - intros t w' n H. rewrite Hrun in H. injection H as _ <-.
    intros d. cbn [withStore store]. rewrite filter_In, matches_createdBefore_criteria.
    rewrite negb_true_iff, Z.ltb_ge. reflexivity.
  - intros l w' n Hl H. rewrite Hrun in H. injection H as _ <-.
    intros d. cbn [withStore store]. rewrite filter_In, matches_genresAmong by exact Hl.
    rewrite negb_involutive, existsb_exists. unfold mem.
    split; intros [Hd (g & Hg & Hm)]; (split; [exact Hd|]); exists g;
      (split; [exact Hg|]).
    + apply existsb_exists in Hm as (x & Hx & He). apply String.eqb_eq in He.
      subst. exact Hx.
    + apply existsb_exists. exists g. split; [exact Hm | apply String.eqb_refl].
Qed.

(** Three documents rated 3.0, 7.0 and 9.5: without a criterion all three
    go; below 5, the first one goes. *)
Lemma X24_cleanup_criteria_witness :
  cleanupByCriteria Demo.env noCriteria Demo.rated = (Ret 3, withStore (tick Demo.rated) []) /\
  exists w',
    cleanupByCriteria Demo.env (ratedBelow (5 # 1)) Demo.rated = (Ret 1, w') /\
    map (fun d => title (data d)) (store w') = ["Middle"; "High"].
Proof.
  destruct (X24_cleanup_criteria Demo.env Demo.rated eq_refl) as (_ & Hall & _).
  split.
  - apply (Hall noCriteria); cbn; auto.
  - eexists. split; vm_compute; reflexivity.
Defined.

(** ** The seeding script *)

Lemma searchMovies_unkeyed (E : Env) (term : string) (page : Z) (w : World) :
  keyMissing E = true ->
  searchMovies E term page false w
  = (Threw "Failed to search movies: OMDB API key not configured", w).
Proof.
  intros Hk. unfold searchMovies, lookupCache, fetchAndCache, searchMoviesOMDB,
    try_catch, bind, ret, throw. rewrite Hk. reflexivity.
Qed.

Lemma seedOne_counts (E : Env) (c : SeedCounts) (t : string) (w : World) :
  exists c' w',
    seedOne E c t w = (Ret c', w') /\
    ((successCount c' = successCount c + 1 /\ errorCount c' = errorCount c) \/
     (successCount c' = successCount c /\ errorCount c' = errorCount c + 1)) /\
    store w' = store (snd (searchMovies E t 1 false w)) /\
    apiLog w' = apiLog (snd (searchMovies E t 1 false w)).
Proof.
  unfold seedOne, try_catch, bind, ret, delay.
  destruct (searchMovies E t 1 false w) as [[e|r] w1]; cbn [snd].
  - eexists _, _. split; [reflexivity|]. cbn. auto.
  - destruct (0 <? List.length (r_movies r))%nat;
      (eexists _, _; split; [reflexivity|]; cbn; auto).
Qed.

Lemma seedLoop_counts (E : Env) (titles : list string) :
  forall (c : SeedCounts) (w : World),
  exists c' w',
    seedLoop E titles c w = (Ret c', w') /\
    successCount c' + errorCount c'
    = successCount c + errorCount c + Z.of_nat (List.length titles) /\
    successCount c <= successCount c' /\ errorCount c <= errorCount c'.
Proof.
  induction titles as [|t r IH]; intros c w.
  - exists c, w. cbn. repeat split; lia.
  - destruct (seedOne_counts E c t w) as (c1 & w1 & H1 & Hc & _).
    destruct (IH c1 w1) as (c2 & w2 & H2 & Hs & Hle1 & Hle2).
    exists c2, w2. split.
    + cbn [seedLoop]. unfold bind. rewrite H1. exact H2.
    + cbn [List.length]. lia.
Qed.

Lemma seedLoop_unkeyed (E : Env) (titles : list string) :
  keyMissing E = true ->
  forall (c : SeedCounts) (w : World),
    seedLoop E titles c w
    = (Ret {| successCount := successCount c;
              errorCount := errorCount c + Z.of_nat (List.length titles) |}, w).
Proof.
  intros Hk. induction titles as [|t r IH]; intros c w.
  - cbn. unfold ret. destruct c as [s e]. cbn. do 3 f_equal. lia.
  - cbn [seedLoop]. unfold seedOne, try_catch, bind.
    rewrite searchMovies_unkeyed by exact Hk. unfold ret at 1. rewrite IH.
    cbn [successCount errorCount List.length]. do 3 f_equal. lia.
Qed.

(** X12: the seeding script.  Without [OMDB_API_KEY] in the environment
    (unset or empty) [seedMovies] stops at once and touches nothing.  With
    it, the loop runs to its end whatever the provider and the store do:
    each of the fifteen sample titles is counted once, as a success or as
    an error, and the outer [catch] is never reached.  When the service
    itself holds no key -- it took its key when its module was loaded --
    every title is counted as an error, no request is sent, nothing is
    stored and no delay is taken. *)
Theorem X12_seedMovies (E : Env) (envKey : option string) (w : World) :
  ((envKey = None \/ envKey = Some "") -> seedMovies E envKey w = (Ret Skipped, w)) /\
  (envKey <> None -> envKey <> Some "" ->
   exists counts w',
     seedMovies E envKey w = (Ret (Completed counts), w') /\
     successCount counts + errorCount counts = 15 /\
     0 <= successCount counts /\ 0 <= errorCount counts /\
     (keyMissing E = true ->
      counts = {| successCount := 0; errorCount := 15 |} /\ w' = w)).
Proof.
  split.
  - intros [-> | ->]; reflexivity.
  - intros Hn He. destruct envKey as [k|]; [|congruence].
    destruct (String.eqb k "") eqn:Hk.
    { apply String.eqb_eq in Hk. subst. congruence. }
    destruct (seedLoop_counts E sampleMovies {| successCount := 0; errorCount := 0 |} w)
      as (c & w' & Hrun & Hsum & Hs & Her).
    exists c, w'. cbn [successCount errorCount] in *.
    split; [|split; [|split; [|split]]]; try lia.
    + unfold seedMovies, try_catch, bind. rewrite Hk, Hrun. reflexivity.
    + cbn in Hsum. lia.
    + intros Hkey. rewrite (seedLoop_unkeyed E sampleMovies Hkey) in Hrun.
      injection Hrun as <- <-. split; reflexivity.
Qed.

(** With the example provider, which knows one of the sample titles, on an
    empty store: one success, fourteen errors, and "Inception" is stored. *)
Lemma X12_seedMovies_witness :
  exists w',
    seedMovies Demo.env (Some "k") Demo.world0
    = (Ret (Completed {| successCount := 1; errorCount := 14 |}), w') /\
    map (fun d => title (data d)) (store w') = ["Inception"] /\
    now w' = now Demo.world0 + 15000.
Proof.
  destruct (X12_seedMovies Demo.env (Some "k") Demo.world0) as [_ H].
  destruct H as (c & w' & Hrun & _); [discriminate | discriminate |].
  exists w'. pose proof Hrun as Hc. vm_compute in Hc. injection Hc as <- <-.
  split; [exact Hrun|]. split; reflexivity.
Defined.

(** ** Searching past the cache *)

(** X4: a search with [useCache] false, as the seeding script issues it,
    goes to the provider whatever the store holds.  With a key configured,
    the first thing the call does is one search request for the term and
    page.  When it returns, the result is never marked as coming from the
    cache; the requests it sent are that search followed by one detail
    request for each candidate in the answer [searchMoviesOMDB] got, in the
    provider's order; its [totalResults] is the provider's; and every movie
    it returns is the payload that the detail fetch of one of these
    candidates gave, and has a document under its identifier in the store
    afterwards. *)
Theorem X4_uncached_search_asks_provider (E : Env) (term : string) (page : Z) (w : World) :
  keyMissing E = false ->
  exists o w',
    searchMovies E term page false w = (o, w') /\
    (exists rest, apiLog w' = (apiLog w ++ SearchCall term page :: rest)%list) /\
    (forall r, o = Ret r ->
       r_source r <> Some "cache" /\
       exists api,
         fst (searchMoviesOMDB E term page w) = Ret api /\
         apiLog w' = (apiLog w ++ SearchCall term page
                        :: map (fun c => DetailCall (OMDB.s_imdbID c)) (a_movies api))%list /\
         r_totalResults r = a_totalResults api /\
         forall m, In m (r_movies r) ->
                   exists p i c,
                     m = Fresh p /\
                     nth_error (a_movies api) i = Some c /\
                     fetched E (logCall (SearchCall term page) w) (a_movies api) i c
                     = Ret p /\
                     exists d, In d (store w') /\ idOf d = imdbID p).
Proof.
  intros Hk.
  assert (Hmiss : lookupCache E term page false w = (Ret None, w)) by reflexivity.
  pose proof (searchMoviesOMDB_world E term page w) as Hw. rewrite Hk in Hw.
  destruct (searchMoviesOMDB E term page w) as [[e|api] w1] eqn:Hs; cbn [snd] in Hw; subst w1.
  - exists (Threw e), (logCall (SearchCall term page) w). split; [|split].
    + unfold searchMovies, try_catch, bind. rewrite Hmiss. unfold fetchAndCache, bind.
      rewrite Hs. reflexivity.
    + exists []. reflexivity.
    + intros r Hr. discriminate Hr.
  - destruct (provider_path E term page false w w api _ Hmiss Hs)
      as (outs & w2 & r & Hsm & Hmov & Htot & Hsrc & Hlen & _ & Hlog & HD & _).
    cbn [logCall apiLog] in Hlog. rewrite <- app_assoc in Hlog. cbn [app] in Hlog.
    exists (Ret r), w2. split; [exact Hsm|]. split; [eexists; exact Hlog|].
    intros r' Hr. injection Hr as <-. split.
    + rewrite Hsrc. destruct (0 <? List.length (a_movies api))%nat; discriminate.
    + exists api. split; [reflexivity|]. split; [exact Hlog|]. split; [exact Htot|].
      intros m Hm. rewrite Hmov in Hm. apply in_map_iff in Hm as (p & <- & Hp).
      apply In_successes in Hp. apply In_nth_error in Hp as [i Hi].
      destruct (nth_error (a_movies api) i) as [c|] eqn:Hc.
      * destruct (HD i c p Hc Hi) as (Hfetch & _ & d & Hd & Hid & _).
        exists p, i, c. split; [reflexivity|]. split; [exact Hc|].
        split; [exact Hfetch|]. eauto.
      * exfalso. apply nth_error_None in Hc.
        assert (Hlt : nth_error outs i <> None) by congruence.
        apply nth_error_Some in Hlt. lia.
Qed.

(** "Inception" is cached and active, and is fetched again all the same. *)
Lemma X4_uncached_search_asks_provider_witness :
  keyMissing Demo.env = false /\
  exists o w',
    searchMovies Demo.env "Inception" 1 false Demo.stale = (o, w') /\
    apiLog w' = [SearchCall "Inception" 1; DetailCall "tt1375666"].
Proof.
  split; [reflexivity|].
  destruct (X4_uncached_search_asks_provider Demo.env "Inception" 1 Demo.stale eq_refl)
    as (o & w' & Hrun & _ & _).
  exists o, w'. split; [exact Hrun|].
  vm_compute in Hrun. injection Hrun as _ <-. reflexivity.
Defined.
